(** * Row grouper, row segmenter and groupings builder

    A shallow embedding of [cpp/src/arrow/compute/row/grouper.cc] and the
    properties its specification states about it.

    Conventions of the embedding.
    - [uint32_t] values are [N]; every arithmetic operation the source performs
      on them is followed by [wrap32].  [int32_t]/[int64_t] values are [Z];
      signed overflow has no defined behaviour in the source: the [int] loop
      counter of [MakeGroupings] and the [int32_t] byte offsets and lengths
      of the keys of the fallback grouper yield [Undefined] where they would
      overflow ([int32]); a [static_cast<int32_t>] of an unsigned value wraps
      ([to_int32]).
    - A [Status] other than OK is the outcome [Fail]; a failed debug assertion
      ([DCHECK]) in a debug build is [Abort]; a read or write outside a buffer
      is [Undefined].
    - A byte buffer is a [list byte]; [std::vector] and raw buffers indexed by
      position are lists read with [!!] and written with [<[ _ := _ ]>].
    - An array is the list of its cells, a cell of a dictionary column being
      its index.  The dictionary an array carries beside its buffers is not
      represented: the batches of a dictionary column are taken to carry the
      dictionary bound on the first batch, so the status the fast grouper
      returns on a differing dictionary, and the dictionary it attaches to
      the uniques, have no counterpart here.
    - Memory pools, the stack of temporary vectors and hardware flags are
      left out: allocation is taken to succeed. *)

From Stdlib Require Import ZArith Lia Strings.Byte.
From stdpp Require Import base numbers list gmap countable.

Open Scope Z_scope.

(** ** Outcomes of fallible operations *)

Inductive Status : Type :=
  | Invalid
  | NotImplemented.

Inductive Outcome (A : Type) : Type :=
  | Ok (a : A)
  | Fail (s : Status)
  | Abort
  | Undefined.

Arguments Ok {A} a.
Arguments Fail {A} s.
Arguments Abort {A}.
Arguments Undefined {A}.

#[global] Instance Outcome_ret : MRet Outcome := λ A a, Ok a.
#[global] Instance Outcome_bind : MBind Outcome := λ A B k m,
  match m with
  | Ok a => k a
  | Fail s => Fail s
  | Abort => Abort
  | Undefined => Undefined
  end.

(** [DCHECK(cond)]: checked in debug builds only. *)
Definition DCHECK (debug cond : bool) : Outcome unit :=
  if debug && negb cond then Abort else Ok tt.

(** A buffer read at a signed index. *)
Definition read {A : Type} (buf : list A) (i : Z) : Outcome A :=
  if i <? 0 then Undefined
  else match buf !! Z.to_nat i with
       | Some x => Ok x
       | None => Undefined
       end.

(** A buffer write at a signed index. *)
Definition write {A : Type} (buf : list A) (i : Z) (x : A) : Outcome (list A) :=
  if (i <? 0) || (Z.of_nat (length buf) <=? i) then Undefined
  else Ok (<[Z.to_nat i := x]> buf).

(** ** Machine integers *)

Definition wrap32 (n : N) : N := (n mod 2 ^ 32)%N.
Definition INT32_MAX : Z := 2 ^ 31 - 1.
Definition INT32_MIN : Z := - 2 ^ 31.

(** The result of an [int32_t] operation whose exact value is [z]: signed
    overflow has no defined behaviour. *)
Definition int32 (z : Z) : Outcome Z :=
  if (z <? INT32_MIN) || (INT32_MAX <? z) then Undefined else Ok z.

(** [static_cast<int32_t>] of an unsigned value: the value modulo 2^32, read
    as two's complement. *)
Definition to_int32 (z : Z) : Z := (z + 2 ^ 31) mod 2 ^ 32 - 2 ^ 31.

(** [constexpr uint32_t kNoGroupId = std::numeric_limits<uint32_t>::max()] *)
Definition kNoGroupId : N := (2 ^ 32 - 1)%N.

(** ** Bytes *)

#[global] Instance byte_eq_dec : EqDecision byte := Byte.byte_eq_dec.
#[global] Instance byte_countable : Countable byte :=
  inj_countable Byte.to_N Byte.of_N Byte.of_to_N.

(** ** Key schema, cells, rows and batches *)

(** Modelled from the spec: the classes of logical types of a key schema
    (section 3, key schema), with the width in bytes of a dictionary index
    and of a fixed-width value; [NESTED] stands for the types no grouper
    takes. *)
Inductive DataType : Type :=
  | BOOL
  | DICTIONARY (index_width : nat)
  | FIXED_WIDTH (byte_width : nat)
  | BINARY_LIKE
  | LARGE_BINARY_LIKE
  | NA
  | NESTED.

#[global] Instance DataType_eq_dec : EqDecision DataType.
Proof. solve_decision. Defined.

(** Modelled from the spec: the type tests of the library.  A boolean and a
    dictionary index are fixed-width types to [is_fixed_width]: both groupers
    test for them before they ask [is_fixed_width], and the fast grouper reads
    the bit width of a dictionary index as that of a fixed-width type. *)
Definition is_fixed_width (t : DataType) : bool :=
  match t with
  | BOOL | DICTIONARY _ | FIXED_WIDTH _ => true
  | _ => false
  end.

Definition is_bool (t : DataType) : bool :=
  match t with BOOL => true | _ => false end.

Definition is_dictionary (t : DataType) : bool :=
  match t with DICTIONARY _ => true | _ => false end.

Definition is_null_type (t : DataType) : bool :=
  match t with NA => true | _ => false end.

Definition is_binary_like (t : DataType) : bool :=
  match t with BINARY_LIKE => true | _ => false end.

Definition is_large_binary_like (t : DataType) : bool :=
  match t with LARGE_BINARY_LIKE => true | _ => false end.

(** The value of one column in one row: [None] is null, [Some p] a valid
    value with payload bytes [p]. *)
Definition Cell : Type := option (list byte).

(** A key tuple: one cell per key column. *)
Definition Row : Type := list Cell.

(** One value of a batch: a scalar or an array, with its logical type. *)
Inductive ExecValue : Type :=
  | Scalar (ty : DataType) (c : Cell)
  | Array (ty : DataType) (cs : list Cell).

Definition value_type (v : ExecValue) : DataType :=
  match v with Scalar ty _ | Array ty _ => ty end.

Definition is_scalar (v : ExecValue) : bool :=
  match v with Scalar _ _ => true | Array _ _ => false end.

Record ExecSpan : Type := mkExecSpan {
  values : list ExecValue;
  batch_length : Z
}.

(** ** Segments *)

Record Segment : Type := mkSegment {
  seg_offset : Z;
  seg_length : Z;
  is_open_end : bool;
  extends_previous : bool
}.

#[global] Instance Segment_eq_dec : EqDecision Segment.
Proof. solve_decision. Defined.

Definition MakeSegment (batch_length offset length : Z) (extends : bool) : Segment :=
  mkSegment offset length (batch_length <=? offset + length) extends.

Definition kDefaultExtends : bool := true.

Fixpoint check_value_types (i : nat) (vals : list ExecValue) (key_types : list DataType)
  : Outcome unit :=
  match vals, key_types with
  | v :: vals', t :: key_types' =>
      if decide (value_type v = t) then check_value_types (S i) vals' key_types'
      else Fail Invalid
  | _, _ => Ok tt
  end.

Definition CheckForGetSegments (batch : ExecSpan) (key_types : list DataType)
  : Outcome unit :=
  if decide (length (values batch) = length key_types)
  then check_value_types 0 (values batch) key_types
  else Fail Invalid.

(** ** The segmenter of a stream without keys *)

Module NoKeysSegmenter.

Definition Reset : Outcome unit := Ok tt.

Definition GetSegments (batch : ExecSpan) : Outcome (list Segment) :=
  CheckForGetSegments batch [];;
  if batch_length batch =? 0 then Ok []
  else Ok [MakeSegment (batch_length batch) 0 (batch_length batch - 0) kDefaultExtends].

End NoKeysSegmenter.

(** ** Arrays handed to and returned by the groupers *)

(** A [UInt32Array]: its values and, when present, its validity bitmap. *)
Record UInt32Array : Type := mkUInt32Array {
  arr_values : list N;
  arr_validity : option (list bool)
}.

Definition arr_length (a : UInt32Array) : Z := Z.of_nat (length (arr_values a)).

Definition null_count (a : UInt32Array) : Z :=
  match arr_validity a with
  | None => 0
  | Some bits => Z.of_nat (length (filter (λ b, b = false) bits))
  end.

(** A [ListArray] of [int32] lists: number of lists, offsets, child values. *)
Record ListArray : Type := mkListArray {
  list_length : N;
  value_offsets : list Z;
  child_values : list Z
}.

(** ** Reading batches *)

(** The first [n] cells of a batch value; a scalar stands for [n] copies of
    itself.  An array shorter than [n] cannot be read. *)
Definition column_cells (v : ExecValue) (n : nat) : Outcome (list Cell) :=
  match v with
  | Scalar _ c => Ok (replicate n c)
  | Array _ cs => if decide (n ≤ length cs)%nat then Ok (take n cs) else Undefined
  end.

(** Modelled from the spec: [ExecBatch::Slice], the logical slice of a batch
    (an external collaborator: arrays are sliced, scalars kept, and the length
    is capped by what remains after [offset]). *)
Definition Slice (batch : ExecSpan) (offset length : Z) : ExecSpan :=
  let len := Z.min length (batch_length batch - offset) in
  mkExecSpan
    ((λ v, match v with
           | Scalar ty c => Scalar ty c
           | Array ty cs => Array ty (take (Z.to_nat len) (drop (Z.to_nat offset) cs))
           end) <$> values batch)
    len.

(** Modelled from the spec: [MakeArrayFromScalar], the array of [n] copies of
    a scalar. *)
Definition MakeArrayFromScalar (ty : DataType) (c : Cell) (n : Z) : ExecValue :=
  Array ty (replicate (Z.to_nat n) c).

(** ** Shape of cells and batches *)

(** Modelled from the spec: the payload each class of logical type carries
    (section 3, key schema). *)
Definition cell_conforms (ty : DataType) (c : Cell) : bool :=
  match ty, c with
  | NESTED, _ => false
  | NA, None => true
  | NA, Some _ => false
  | _, None => true
  | BOOL, Some p => bool_decide (length p = 1%nat)
  | DICTIONARY w, Some p => bool_decide (length p = w)
  | FIXED_WIDTH w, Some p => bool_decide (length p = w)
  | BINARY_LIKE, Some _ => true
  | LARGE_BINARY_LIKE, Some _ => true
  end.

Definition value_conforms (n : Z) (ty : DataType) (v : ExecValue) : bool :=
  match v with
  | Scalar ty' c => bool_decide (ty' = ty) && cell_conforms ty c
  | Array ty' cs =>
      bool_decide (ty' = ty) && bool_decide (Z.of_nat (length cs) = n)
      && forallb (cell_conforms ty) cs
  end.

Fixpoint values_conform (n : Z) (key_types : list DataType) (vals : list ExecValue) : bool :=
  match key_types, vals with
  | [], [] => true
  | ty :: key_types', v :: vals' =>
      value_conforms n ty v && values_conform n key_types' vals'
  | _, _ => false
  end.

(** A batch of the key schema [key_types]: one value per key type, arrays as
    long as the batch, every cell of its column's type. *)
Definition batch_conforms (key_types : list DataType) (batch : ExecSpan) : bool :=
  (0 <=? batch_length batch) && values_conform (batch_length batch) key_types (values batch).

Definition cell_at (v : ExecValue) (i : nat) : Cell :=
  match v with
  | Scalar _ c => c
  | Array _ cs => default None (cs !! i)
  end.

(** Row [i] of a batch: the key tuple made of the [i]-th cell of every value. *)
Definition row_at (batch : ExecSpan) (i : nat) : Row :=
  (λ v, cell_at v i) <$> values batch.

(** The rows of a batch, in order. *)
Definition batch_rows (batch : ExecSpan) : list Row :=
  row_at batch <$> seq 0 (Z.to_nat (batch_length batch)).

Definition has_null (batch : ExecSpan) : bool :=
  existsb (existsb (λ c : Cell, bool_decide (c = None))) (batch_rows batch).

(** Key equality as the specification words it: two key tuples are equal when
    they agree column by column, a null being equal to a null and different
    from every value. *)
Definition cell_equal (a b : Cell) : bool :=
  match a, b with
  | None, None => true
  | Some p, Some q => bool_decide (p = q)
  | _, _ => false
  end.

Fixpoint key_equal (r1 r2 : Row) : bool :=
  match r1, r2 with
  | [], [] => true
  | a :: r1', b :: r2' => cell_equal a b && key_equal r1' r2'
  | _, _ => false
  end.

(** ** Collaborators outside this file *)

(** The per-column key encoders of the fallback grouper
    ([row_encoder_internal.h]), one per class of type: the bytes one cell
    encodes to, and the decoding of one cell at the head of a buffer,
    returning what follows it ([None] when the buffer ends too early). *)
Class KeyEncoder : Type := {
  Encode : DataType → Cell → list byte;
  Decode : DataType → list byte → option (Cell * list byte)
}.

(** The collaborators of the fast grouper: the row image of a key tuple
    ([RowTableEncoder]), its decoding, and the 32-bit row hash
    ([Hashing32::HashMultiColumn]). *)
Class RowEncoder : Type := {
  row_image : list DataType → Row → list byte;
  decode_image : list DataType → list byte → option Row;
  hash_row : list DataType → Row → N
}.

(** ** The segmenter of a single non-nullable fixed-width key *)

(** Modelled from the spec: [DataType::byte_width], the whole bytes of payload
    of a fixed-width value (a boolean has a 1-bit payload: no whole byte). *)
Definition byte_width (ty : DataType) : Z :=
  match ty with
  | DICTIONARY w | FIXED_WIDTH w => Z.of_nat w
  | _ => 0
  end.

(** [memcmp(a, b, n) == 0] on the buffers that start at [a] and [b]. *)
Definition memcmp_eq (a b : list byte) (n : Z) : Outcome bool :=
  if (Z.of_nat (length a) <? n) || (Z.of_nat (length b) <? n) then Undefined
  else Ok (bool_decide (take (Z.to_nat n) a = take (Z.to_nat n) b)).

(** The buffer that starts [n] bytes after the start of [buf]. *)
Definition advance (buf : list byte) (n : Z) : list byte := drop (Z.to_nat n) buf.

Module SimpleKeySegmenter.

Record State : Type := mkState {
  key_type_ : DataType;
  save_key_data_ : list byte;
  extend_was_called_ : bool
}.

Definition Make (key_type : DataType) : State :=
  mkState key_type (replicate (Z.to_nat (byte_width key_type)) Byte.x00) false.

Definition Reset (st : State) : State :=
  mkState (key_type_ st) (save_key_data_ st) false.

(** The bytes of the values buffer of an array of width [w]; the slot of a
    null holds unspecified bytes, zeros here. *)
Definition GetValuesAsBytes (w : Z) (cs : list Cell) : list byte :=
  mjoin ((λ c : Cell, default (replicate (Z.to_nat w) Byte.x00) c) <$> cs).

(** The loop of [GetMatchLength]; [fuel] is the number of values left, so it
    reaches zero exactly when [cursor] reaches [length]. *)
Fixpoint match_loop (match_bytes : list byte) (match_width : Z) (array_bytes : list byte)
    (length : Z) (fuel : nat) (cursor byte_cursor : Z) : Outcome Z :=
  match fuel with
  | O => Ok cursor
  | S fuel' =>
      if cursor <? length then
        same ← memcmp_eq match_bytes (advance array_bytes byte_cursor) match_width;
        if same : bool
        then match_loop match_bytes match_width array_bytes length fuel'
               (cursor + 1) (byte_cursor + match_width)
        else Ok cursor
      else Ok cursor
  end.

Definition GetMatchLength (match_bytes : list byte) (match_width : Z)
    (array_bytes : list byte) (offset length : Z) : Outcome Z :=
  cursor ← match_loop match_bytes match_width array_bytes length
             (Z.to_nat (length - offset)) offset (match_width * offset);
  Ok (Z.min cursor length - offset).

Definition Extend (st : State) (data : list byte) : Outcome (bool * State) :=
  if negb (extend_was_called_ st)
  then Ok (kDefaultExtends, mkState (key_type_ st) (save_key_data_ st) true)
  else
    same ← memcmp_eq (save_key_data_ st) data (Z.of_nat (length (save_key_data_ st)));
    Ok (same, st).

Definition SaveKeyData (st : State) (data : list byte) : Outcome State :=
  let n := length (save_key_data_ st) in
  if decide (length data < n)%nat then Undefined
  else Ok (mkState (key_type_ st) (take n data) (extend_was_called_ st)).

(** The [while (offset < array.length)] loop; every round advances [offset] by
    at least one value, [fuel] bounds the rounds. *)
Fixpoint segment_loop (data : list byte) (byte_width length : Z) (extends : bool)
    (fuel : nat) (offset : Z) (segments : list Segment) : Outcome (list Segment) :=
  if offset <? length then
    match fuel with
    | O => Undefined
    | S fuel' =>
        match_length ← GetMatchLength (advance data (offset * byte_width)) byte_width
                         data offset length;
        segment_loop data byte_width length extends fuel' (offset + match_length)
          (segments ++ [MakeSegment length offset match_length
                          (if offset =? 0 then extends else false)])
    end
  else Ok segments.

Definition GetSegments (debug : bool) (st : State) (batch : ExecSpan)
  : Outcome (list Segment * State) :=
  CheckForGetSegments batch [key_type_ st];;
  if batch_length batch =? 0 then Ok ([], st)
  else
    match values batch with
    | [] => Undefined
    | value :: _ =>
        DCHECK debug (is_fixed_width (value_type value));;
        match value with
        | Scalar ty c =>
            DCHECK debug (bool_decide (is_Some c));;
            let key_data := default (replicate (Z.to_nat (byte_width ty)) Byte.x00) c in
            '(extends, st) ← Extend st key_data;
            let segments :=
              [MakeSegment (batch_length batch) 0 (batch_length batch) extends] in
            st ← SaveKeyData st key_data;
            Ok (segments, st)
        | Array ty cs =>
            let length := Z.of_nat (length cs) in
            DCHECK debug (forallb (λ c : Cell, bool_decide (is_Some c)) cs);;
            DCHECK debug (0 <? byte_width ty);;
            let data := GetValuesAsBytes (byte_width ty) cs in
            '(extends, st) ← Extend st data;
            segments ← segment_loop data (byte_width ty) length extends
                         (Z.to_nat length) 0 [];
            st ← SaveKeyData st (advance data ((length - 1) * byte_width ty));
            Ok (segments, st)
        end
    end.

End SimpleKeySegmenter.

(** ** What the two groupers share *)

Inductive GrouperMode : Type := kPopulate | kConsume | kLookup.

Definition CheckAndCapLengthForConsume (batch_length consume_offset consume_length : Z)
  : Outcome Z :=
  if consume_offset <? 0 then Fail Invalid
  else if consume_length <? 0 then Ok (batch_length - consume_offset)
  else Ok consume_length.

(** The bytes [buf[off .. off + len)]. *)
Definition slice_bytes (buf : list byte) (off len : Z) : Outcome (list byte) :=
  if (off <? 0) || (len <? 0) || (Z.of_nat (length buf) <? off + len) then Undefined
  else Ok (take (Z.to_nat len) (advance buf off)).

(** [buf.resize(n)] of a vector of bytes; a negative [int] converts to a size
    no vector can take. *)
Definition resize_bytes (buf : list byte) (n : Z) : Outcome (list byte) :=
  if n <? 0 then Undefined
  else Ok (take (Z.to_nat n) buf ++ replicate (Z.to_nat n - length buf) Byte.x00).

(** [memcpy(dst + off, src, len(src))] inside the buffer [dst]. *)
Definition memcpy (dst : list byte) (off : Z) (src : list byte) : Outcome (list byte) :=
  if (off <? 0) || (Z.of_nat (length dst) <? off + Z.of_nat (length src)) then Undefined
  else Ok (take (Z.to_nat off) dst ++ src
           ++ drop (Z.to_nat off + length src) dst).

(** ** The fallback grouper *)

Module GrouperImpl.

Record State : Type := mkState {
  map_ : gmap (list byte) N;
  offsets_ : list Z;
  key_bytes_ : list byte;
  num_groups_ : N;
  encoders_ : list DataType
}.

(** One encoder per key type; the encoder of a column is identified by the
    type it was made for. *)
Fixpoint make_encoders (key_types : list DataType) : Outcome (list DataType) :=
  match key_types with
  | [] => Ok []
  | key :: key_types' =>
      if is_bool key || is_dictionary key || is_fixed_width key || is_binary_like key
         || is_large_binary_like key || is_null_type key
      then encoders ← make_encoders key_types'; Ok (key :: encoders)
      else Fail NotImplemented
  end.

Definition Make (key_types : list DataType) : Outcome State :=
  encoders ← make_encoders key_types;
  Ok (mkState ∅ [0] [] 0%N encoders).

Definition Reset (st : State) : Outcome State :=
  Ok (mkState ∅ [] [] 0%N (encoders_ st)).

Definition num_groups (st : State) : N := num_groups_ st.

Section WithEncoders.
Context `{KeyEncoder}.

(** The loop of [VisitKeys] from row [i] on, [fuel] rows being left.  The two
    visitors act on an accumulator [acc]. *)
Fixpoint VisitKeys {Acc : Type} (fuel : nat) (i : Z) (key_offsets : list Z)
    (key_data : list byte) (insert_new_keys : bool)
    (visit_group : N → Acc → Acc) (visit_unknown_group : Acc → Acc)
    (st : State) (acc : Acc) : Outcome (State * Acc) :=
  match fuel with
  | O => Ok (st, acc)
  | S fuel' =>
      lo ← read key_offsets i;
      hi ← read key_offsets (i + 1);
      key_length ← int32 (hi - lo);
      key ← slice_bytes key_data lo key_length;
      let continue := VisitKeys fuel' (i + 1) key_offsets key_data insert_new_keys
                        visit_group visit_unknown_group in
      if insert_new_keys then
        match map_ st !! key with
        | Some group_id => continue st (visit_group group_id acc)
        | None =>
            let group_id := num_groups_ st in
            st' ←
              (if 0 <? key_length
               then
                 let next_key_offset := to_int32 (Z.of_nat (length (key_bytes_ st))) in
                 new_size ← int32 (next_key_offset + key_length);
                 key_bytes ← resize_bytes (key_bytes_ st) new_size;
                 key_bytes ← memcpy key_bytes next_key_offset key;
                 Ok (mkState (<[key := group_id]> (map_ st))
                       (offsets_ st ++ [new_size]) key_bytes
                       (wrap32 (num_groups_ st + 1)) (encoders_ st))
               else
                 Ok (mkState (<[key := group_id]> (map_ st)) (offsets_ st)
                       (key_bytes_ st) (wrap32 (num_groups_ st + 1)) (encoders_ st)));
            continue st' (visit_group group_id acc)
        end
      else
        match map_ st !! key with
        | None => continue st (visit_unknown_group acc)
        | Some group_id => continue st (visit_group group_id acc)
        end
  end.

(** [KeyEncoder::AddLength]: adds to [lengths[r]] the encoded length of the
    cell of row [r], for the [n] rows of the batch. *)
Definition AddLength (ty : DataType) (v : ExecValue) (n : nat) (lengths : list Z)
  : Outcome (list Z) :=
  cells ← column_cells v n;
  Ok (zip_with (λ (l : Z) (c : Cell), l + Z.of_nat (length (Encode ty c)))
        (take n lengths) cells ++ drop n lengths).

Fixpoint add_lengths (encoders : list DataType) (vals : list ExecValue) (n : nat)
    (lengths : list Z) : Outcome (list Z) :=
  match vals, encoders with
  | [], _ => Ok lengths
  | v :: vals', ty :: encoders' =>
      lengths ← AddLength ty v n lengths;
      add_lengths encoders' vals' n lengths
  | _ :: _, [] => Undefined
  end.

(** The loop that turns the per-row lengths into offsets; [total_length] is
    an [int32_t]. *)
Fixpoint offsets_loop (fuel : nat) (i : Z) (offsets_batch : list Z) (total_length : Z)
  : Outcome (list Z * Z) :=
  match fuel with
  | O => Ok (offsets_batch, total_length)
  | S fuel' =>
      let total_length_before := total_length in
      len ← read offsets_batch i;
      total_length ← int32 (total_length + len);
      offsets_batch ← write offsets_batch i total_length_before;
      offsets_loop fuel' (i + 1) offsets_batch total_length
  end.

(** [KeyEncoder::Encode]: writes the cell of each row at that row's pointer
    and advances the pointer.  [key_buf_ptrs[r]] is held as the bytes written
    so far to the region of row [r] of [key_bytes_batch]. *)
Definition EncodeColumn (ty : DataType) (v : ExecValue) (n : nat)
    (regions : list (list byte)) : Outcome (list (list byte)) :=
  cells ← column_cells v n;
  Ok (zip_with (λ (region : list byte) (c : Cell), region ++ Encode ty c) regions cells).

Fixpoint encode_columns (encoders : list DataType) (vals : list ExecValue) (n : nat)
    (regions : list (list byte)) : Outcome (list (list byte)) :=
  match vals, encoders with
  | [], _ => Ok regions
  | v :: vals', ty :: encoders' =>
      regions ← EncodeColumn ty v n regions;
      encode_columns encoders' vals' n regions
  | _ :: _, [] => Undefined
  end.

(** The part of [ConsumeImpl] that follows the slicing. *)
Definition consume_batch (st : State) (batch : ExecSpan) (mode : GrouperMode)
  : Outcome (State * option UInt32Array) :=
  if batch_length batch <? 0 then Undefined else
  let n := Z.to_nat (batch_length batch) in
  offsets_batch ← add_lengths (encoders_ st) (values batch) n (replicate (n + 1) 0);
  '(offsets_batch, total_length) ← offsets_loop n 0 offsets_batch 0;
  offsets_batch ← write offsets_batch (batch_length batch) total_length;
  regions ← encode_columns (encoders_ st) (values batch) n (replicate n []);
  let key_bytes_batch := mjoin regions in
  match mode with
  | kPopulate =>
      '(st, _) ← VisitKeys n 0 offsets_batch key_bytes_batch true
                   (λ _ acc, acc) (λ acc, acc) st tt;
      Ok (st, None)
  | kConsume =>
      '(st, group_ids_batch) ← VisitKeys n 0 offsets_batch key_bytes_batch true
                   (λ group_id acc, acc ++ [group_id]) (λ acc, acc) st [];
      Ok (st, Some (mkUInt32Array group_ids_batch None))
  | kLookup =>
      '(st, (group_ids_batch, null_bitmap)) ←
          VisitKeys n 0 offsets_batch key_bytes_batch false
                   (λ group_id '(ids, bits), (ids ++ [group_id], bits ++ [true]))
                   (λ '(ids, bits), (ids ++ [0%N], bits ++ [false])) st ([], []);
      Ok (st, Some (mkUInt32Array group_ids_batch (Some null_bitmap)))
  end.

(** [ConsumeImpl]; [fuel] bounds the depth of the call it makes to itself on
    the slice. *)
Fixpoint ConsumeImpl (fuel : nat) (st : State) (batch : ExecSpan) (offset length : Z)
    (mode : GrouperMode) : Outcome (State * option UInt32Array) :=
  length ← CheckAndCapLengthForConsume (batch_length batch) offset length;
  if negb (offset =? 0) || negb (length =? batch_length batch) then
    match fuel with
    | O => Undefined
    | S fuel' => ConsumeImpl fuel' st (Slice batch offset length) 0 (-1) mode
    end
  else consume_batch st batch mode.

Definition Populate (st : State) (batch : ExecSpan) (offset length : Z) : Outcome State :=
  '(st, _) ← ConsumeImpl 1 st batch offset length kPopulate; Ok st.

Definition Consume (st : State) (batch : ExecSpan) (offset length : Z)
  : Outcome (State * option UInt32Array) :=
  ConsumeImpl 1 st batch offset length kConsume.

Definition Lookup (st : State) (batch : ExecSpan) (offset length : Z)
  : Outcome (State * option UInt32Array) :=
  ConsumeImpl 1 st batch offset length kLookup.

(** [Decode] of one encoder over all the key pointers: the cells of its column
    and the pointers advanced past them. *)
Fixpoint decode_ptrs (ty : DataType) (key_buf_ptrs : list (list byte))
  : Outcome (list Cell * list (list byte)) :=
  match key_buf_ptrs with
  | [] => Ok ([], [])
  | p :: ptrs =>
      match Decode ty p with
      | None => Undefined
      | Some (c, p') =>
          '(cs, ps) ← decode_ptrs ty ptrs;
          Ok (c :: cs, p' :: ps)
      end
  end.

Fixpoint decode_columns (encoders : list DataType) (key_buf_ptrs : list (list byte))
  : Outcome (list ExecValue) :=
  match encoders with
  | [] => Ok []
  | ty :: encoders' =>
      '(cs, ptrs) ← decode_ptrs ty key_buf_ptrs;
      vals ← decode_columns encoders' ptrs;
      Ok (Array ty cs :: vals)
  end.

(** [key_buf_ptrs[i] = key_bytes_.data() + offsets_[i]], the pointer held as
    the bytes of [key_bytes_] from that position on. *)
Fixpoint key_pointers (st : State) (groups : list nat) : Outcome (list (list byte)) :=
  match groups with
  | [] => Ok []
  | i :: groups' =>
      off ← read (offsets_ st) (Z.of_nat i);
      if (off <? 0) || (Z.of_nat (length (key_bytes_ st)) <? off) then Undefined
      else ptrs ← key_pointers st groups'; Ok (advance (key_bytes_ st) off :: ptrs)
  end.

(** [GetUniques]; the encoders are asked to decode
    [static_cast<int32_t>(num_groups_)] keys, a negative number of which they
    cannot. *)
Definition GetUniques (st : State) : Outcome ExecSpan :=
  key_buf_ptrs ← key_pointers st (seq 0 (N.to_nat (num_groups_ st)));
  let length := to_int32 (Z.of_N (num_groups_ st)) in
  if length <? 0 then Undefined else
  vals ← decode_columns (encoders_ st) (take (Z.to_nat length) key_buf_ptrs);
  Ok (mkExecSpan vals (Z.of_N (num_groups_ st))).

End WithEncoders.
End GrouperImpl.

(** ** The hash table of the fast grouper *)

Module SwissTable.

(** Modelled from the spec: the hash table ([SwissTable], section 4.3) maps a
    row hash to the group ids stored under it, and hands equality of keys and
    storage of new keys to two callbacks; [Ctx] below is the state the
    callbacks act on. *)
Record Table : Type := mkTable {
  slots : gmap N (list N);
  num_inserted : N
}.

Definition init : Table := mkTable ∅ 0%N.

(** Modelled from the spec: [early_filter] sets the match bit of a row when
    its hash might match an entry. *)
Definition early_filter (t : Table) (hashes : list N) : list bool :=
  (λ h, bool_decide (is_Some (slots t !! h))) <$> hashes.

(** The candidates of one row, resolved through the equality callback. *)
Definition resolve {Ctx : Type} (equal : Ctx → nat → N → bool) (s : Ctx) (t : Table)
    (i : nat) (h : N) : option N :=
  snd <$> list_find (λ g, equal s i g = true) (default [] (slots t !! h)).

(** Modelled from the spec: [find] gives every row that passes equality its
    stored group id and clears the match bit of every row that fails. *)
Fixpoint find {Ctx : Type} (equal : Ctx → nat → N → bool) (s : Ctx) (t : Table) (i : nat)
    (hashes : list N) (match_bits : list bool) (out_group_ids : list N)
  : list bool * list N :=
  match hashes, match_bits with
  | h :: hashes', bit :: match_bits' =>
      let found := if bit : bool then resolve equal s t i h else None in
      let out := match found with
                 | Some g => <[i := g]> out_group_ids
                 | None => out_group_ids
                 end in
      let '(bits, out) := find equal s t (S i) hashes' match_bits' out in
      (bool_decide (is_Some found) :: bits, out)
  | _, _ => ([], out_group_ids)
  end.

(** Modelled from the spec: [map_new_keys] takes the selected rows in order,
    gives a row equal to a stored key that key's id, and otherwise stores the
    row through the append callback under the next group id. *)
Fixpoint map_new_keys {Ctx : Type} (equal : Ctx → nat → N → bool)
    (append : list nat → Ctx → Outcome Ctx) (selection : list nat) (hashes : list N)
    (t : Table) (s : Ctx) (out_group_ids : list N) : Outcome (Table * Ctx * list N) :=
  match selection with
  | [] => Ok (t, s, out_group_ids)
  | i :: selection' =>
      match hashes !! i with
      | None => Undefined
      | Some h =>
          match resolve equal s t i h with
          | Some g =>
              map_new_keys equal append selection' hashes t s (<[i := g]> out_group_ids)
          | None =>
              let g := num_inserted t in
              s ← append [i] s;
              map_new_keys equal append selection' hashes
                (mkTable (<[h := default [] (slots t !! h) ++ [g]]> (slots t))
                         (wrap32 (g + 1)))
                s (<[i := g]> out_group_ids)
          end
      end
  end.

End SwissTable.

(** ** The fast grouper *)

(** [arrow::util::MiniBatch::kMiniBatchLength], declared outside this file. *)
Class MiniBatch : Type := { kMiniBatchLength : Z }.

Module GrouperFastImpl.

(** [KeyColumnMetadata(is_fixed_length, fixed_length, is_null_type)] *)
Record KeyColumnMetadata : Type := mkKeyColumnMetadata {
  is_fixed_length : bool;
  fixed_length : Z;
  is_null_type_ : bool
}.

Record State : Type := mkState {
  minibatch_size_ : Z;
  key_types_ : list DataType;
  col_metadata_ : list KeyColumnMetadata;
  rows_ : list (list byte);
  rows_minibatch_ : list (list byte);
  map_ : SwissTable.Table
}.

Definition minibatch_size_min_ : Z := 128.

Definition CanUse (little_endian : bool) (key_types : list DataType) : bool :=
  if decide (length key_types = 0%nat) then false
  else if little_endian then negb (existsb is_large_binary_like key_types)
  else false.

Fixpoint make_metadata (keys : list DataType) : Outcome (list KeyColumnMetadata) :=
  match keys with
  | [] => Ok []
  | key :: keys' =>
      md ← (if is_dictionary key then Ok (mkKeyColumnMetadata true (byte_width key) false)
            else if is_bool key then Ok (mkKeyColumnMetadata true 0 false)
            else if is_fixed_width key
                 then Ok (mkKeyColumnMetadata true (byte_width key) false)
            else if is_binary_like key then Ok (mkKeyColumnMetadata false 4 false)
            else if is_null_type key then Ok (mkKeyColumnMetadata true 0 true)
            else Fail NotImplemented);
      mds ← make_metadata keys';
      Ok (md :: mds)
  end.

Definition Make (keys : list DataType) : Outcome State :=
  col_metadata ← make_metadata keys;
  Ok (mkState minibatch_size_min_ keys col_metadata [] [] SwissTable.init).

Definition Reset (st : State) : Outcome State :=
  Ok (mkState (minibatch_size_ st) (key_types_ st) (col_metadata_ st) [] []
        SwissTable.init).

Definition num_groups (st : State) : N := wrap32 (N.of_nat (length (rows_ st))).

(** [buf[start .. start + length seg)] replaced by [seg]. *)
Definition splice {A : Type} (buf : list A) (start : nat) (seg : list A) : list A :=
  take start buf ++ seg ++ drop (start + length seg) buf.

Section WithCollaborators.
Context `{RowEncoder} `{MiniBatch}.

Definition minibatch_size_max_ : Z := kMiniBatchLength.

(** [map_equal_impl_]: row [i] of the mini-batch against the stored row of
    group [g]. *)
Definition map_equal_impl_ (key_types : list DataType) (minibatch : list Row)
    (rows : list (list byte)) (i : nat) (g : N) : bool :=
  match minibatch !! i, rows !! N.to_nat g with
  | Some r, Some image => bool_decide (row_image key_types r = image)
  | _, _ => false
  end.

(** [map_append_impl_]: the selected rows of the mini-batch are encoded into
    [rows_minibatch_] and appended to [rows_]; the state of the callbacks is
    the pair of the two row tables. *)
Definition map_append_impl_ (key_types : list DataType) (minibatch : list Row)
    (selection : list nat) (tables : list (list byte) * list (list byte))
  : Outcome (list (list byte) * list (list byte)) :=
  let encoded := omap (λ i, row_image key_types <$> minibatch !! i) selection in
  if decide (length encoded = length selection)
  then Ok (tables.1 ++ encoded, encoded)
  else Undefined.

(** [bits_to_indexes(0, ...)]: the positions of the cleared bits. *)
Definition bits_to_indexes_0 (bits : list bool) : list nat :=
  omap (λ '(i, b), if b : bool then None else Some i) (imap pair bits).

(** The mini-batch loop of [ConsumeImpl(batch, mode)]. *)
Fixpoint minibatch_loop (fuel : nat) (mode : GrouperMode) (batch : list Row)
    (num_rows : Z) (start_row : N) (st : State)
    (group_ids : list N) (null_bitmap : list bool)
  : Outcome (State * list N * list bool) :=
  if Z.of_N start_row <? num_rows then
    match fuel with
    | O => Undefined
    | S fuel' =>
        let batch_size_next :=
          N.min (wrap32 (Z.to_N (minibatch_size_ st)))
                (wrap32 (wrap32 (Z.to_N num_rows) + 2 ^ 32 - start_row)) in
        let n := N.to_nat batch_size_next in
        let at_ := match mode with kPopulate => 0%nat | _ => N.to_nat start_row end in
        let batch_group_ids := take n (drop at_ group_ids) in
        if negb (bool_decide (length batch_group_ids = n)) then Undefined else
        let batch_group_ids :=
          match mode with
          | kLookup => replicate n 0%N
          | _ => batch_group_ids
          end in
        let minibatch := take n (drop (N.to_nat start_row) batch) in
        let minibatch_hashes := hash_row (key_types_ st) <$> minibatch in
        let equal := map_equal_impl_ (key_types_ st) minibatch in
        let match_bitvector := SwissTable.early_filter (map_ st) minibatch_hashes in
        let '(match_bitvector, batch_group_ids) :=
          SwissTable.find (λ tables : list (list byte) * list (list byte), equal tables.1)
            (rows_ st, []) (map_ st) 0 minibatch_hashes match_bitvector batch_group_ids in
        '(map, tables, batch_group_ids, null_bitmap) ←
          match mode with
          | kLookup =>
              Ok (map_ st, (rows_ st, []), batch_group_ids,
                  splice null_bitmap (N.to_nat start_row) match_bitvector)
          | _ =>
              let ids := bits_to_indexes_0 match_bitvector in
              '(map, tables, out) ←
                SwissTable.map_new_keys
                  (λ tables : list (list byte) * list (list byte), equal tables.1)
                  (map_append_impl_ (key_types_ st) minibatch)
                  ids minibatch_hashes (map_ st) (rows_ st, []) batch_group_ids;
              Ok (map, tables, out, null_bitmap)
          end;
        let '(rows, rows_minibatch) := tables : list (list byte) * list (list byte) in
        minibatch_loop fuel' mode batch num_rows (wrap32 (start_row + batch_size_next))
          (mkState (Z.min minibatch_size_max_ (2 * minibatch_size_ st))
             (key_types_ st) (col_metadata_ st) rows rows_minibatch map)
          (splice group_ids at_ batch_group_ids) null_bitmap
    end
  else Ok (st, group_ids, null_bitmap).

(** [ConsumeImpl(batch, mode)] *)
Definition consume_batch (st : State) (batch : ExecSpan) (mode : GrouperMode)
  : Outcome (State * option UInt32Array) :=
  let num_rows := batch_length batch in
  if num_rows <? 0 then Undefined else
  if negb (bool_decide (length (values batch) ≤ length (key_types_ st))%nat)
  then Undefined else
  if negb (forallb (λ v, match column_cells v (Z.to_nat num_rows) with
                         | Ok _ => true
                         | _ => false
                         end) (values batch))
  then Undefined else
  let groups_ids_size :=
    match mode with kPopulate => minibatch_size_max_ | _ => num_rows end in
  let group_ids := replicate (Z.to_nat groups_ids_size) 0%N in
  let null_bitmap :=
    match mode with
    | kLookup => replicate (Z.to_nat groups_ids_size) false
    | _ => []
    end in
  '(st, group_ids, null_bitmap) ←
    minibatch_loop (Z.to_nat num_rows) mode (batch_rows batch) num_rows 0%N st
      group_ids null_bitmap;
  match mode with
  | kPopulate => Ok (st, None)
  | kConsume => Ok (st, Some (mkUInt32Array group_ids None))
  | kLookup => Ok (st, Some (mkUInt32Array group_ids (Some null_bitmap)))
  end.

(** The broadcast of the scalar values of a batch. *)
Definition broadcast_scalars (batch : ExecSpan) : ExecSpan :=
  mkExecSpan
    ((λ v, match v with
           | Scalar ty c => MakeArrayFromScalar ty c (batch_length batch)
           | Array ty cs => Array ty cs
           end) <$> values batch)
    (batch_length batch).

(** [ConsumeImpl(batch, offset, length, mode)]; [fuel] bounds the depth of the
    call it makes to itself on the slice. *)
Fixpoint ConsumeImpl (fuel : nat) (st : State) (batch : ExecSpan) (offset length : Z)
    (mode : GrouperMode) : Outcome (State * option UInt32Array) :=
  length ← CheckAndCapLengthForConsume (batch_length batch) offset length;
  if negb (offset =? 0) || negb (length =? batch_length batch) then
    match fuel with
    | O => Undefined
    | S fuel' => ConsumeImpl fuel' st (Slice batch offset length) 0 (-1) mode
    end
  else if existsb is_scalar (values batch)
  then consume_batch st (broadcast_scalars batch) mode
  else consume_batch st batch mode.

Definition Populate (st : State) (batch : ExecSpan) (offset length : Z) : Outcome State :=
  '(st, _) ← ConsumeImpl 1 st batch offset length kPopulate; Ok st.

Definition Consume (st : State) (batch : ExecSpan) (offset length : Z)
  : Outcome (State * option UInt32Array) :=
  ConsumeImpl 1 st batch offset length kConsume.

Definition Lookup (st : State) (batch : ExecSpan) (offset length : Z)
  : Outcome (State * option UInt32Array) :=
  ConsumeImpl 1 st batch offset length kLookup.

(** The decoding loops of [GetUniques]: the stored rows are decoded one
    mini-batch at a time; [decode_image] stands for the fixed-length and the
    varying-length pass together. *)
Fixpoint decode_rows (key_types : list DataType) (images : list (list byte))
  : Outcome (list Row) :=
  match images with
  | [] => Ok []
  | image :: images' =>
      match decode_image key_types image with
      | None => Undefined
      | Some r => rs ← decode_rows key_types images'; Ok (r :: rs)
      end
  end.

Fixpoint decode_loop (fuel : nat) (st : State) (num_groups start_row : Z)
    (decoded : list Row) : Outcome (list Row) :=
  if start_row <? num_groups then
    match fuel with
    | O => Undefined
    | S fuel' =>
        let batch_size_next := Z.min (num_groups - start_row) minibatch_size_max_ in
        rs ← decode_rows (key_types_ st)
               (take (Z.to_nat batch_size_next) (drop (Z.to_nat start_row) (rows_ st)));
        decode_loop fuel' st num_groups (start_row + batch_size_next) (decoded ++ rs)
    end
  else Ok decoded.

Definition GetUniques (st : State) : Outcome ExecSpan :=
  let num_groups := Z.of_nat (length (rows_ st)) in
  decoded ← decode_loop (length (rows_ st)) st num_groups 0 [];
  Ok (mkExecSpan
        (imap (λ i '(ty, md),
                 if is_null_type_ md
                 then Array NA (replicate (Z.to_nat num_groups) None)
                 else Array ty ((λ r : Row, default None (r !! i)) <$> decoded))
              (zip (key_types_ st) (col_metadata_ st)))
        num_groups).

End WithCollaborators.
End GrouperFastImpl.

(** ** The grouper behind its interface *)

Inductive Grouper : Type :=
  | Fast (st : GrouperFastImpl.State)
  | Fallback (st : GrouperImpl.State).

(** The virtual methods of [Grouper], and its factory [Grouper::Make].
    [little_endian] is [ARROW_LITTLE_ENDIAN]. *)
Module GrouperOps.
Section WithCollaborators.
Context `{KeyEncoder} `{RowEncoder} `{MiniBatch}.

Definition Make (little_endian : bool) (key_types : list DataType) : Outcome Grouper :=
  if GrouperFastImpl.CanUse little_endian key_types
  then st ← GrouperFastImpl.Make key_types; Ok (Fast st)
  else st ← GrouperImpl.Make key_types; Ok (Fallback st).

Definition Reset (g : Grouper) : Outcome Grouper :=
  match g with
  | Fast st => st ← GrouperFastImpl.Reset st; Ok (Fast st)
  | Fallback st => st ← GrouperImpl.Reset st; Ok (Fallback st)
  end.

Definition Populate (g : Grouper) (batch : ExecSpan) (offset length : Z) : Outcome Grouper :=
  match g with
  | Fast st => st ← GrouperFastImpl.Populate st batch offset length; Ok (Fast st)
  | Fallback st => st ← GrouperImpl.Populate st batch offset length; Ok (Fallback st)
  end.

Definition Consume (g : Grouper) (batch : ExecSpan) (offset length : Z)
  : Outcome (Grouper * option UInt32Array) :=
  match g with
  | Fast st => '(st, d) ← GrouperFastImpl.Consume st batch offset length; Ok (Fast st, d)
  | Fallback st => '(st, d) ← GrouperImpl.Consume st batch offset length; Ok (Fallback st, d)
  end.

Definition Lookup (g : Grouper) (batch : ExecSpan) (offset length : Z)
  : Outcome (Grouper * option UInt32Array) :=
  match g with
  | Fast st => '(st, d) ← GrouperFastImpl.Lookup st batch offset length; Ok (Fast st, d)
  | Fallback st => '(st, d) ← GrouperImpl.Lookup st batch offset length; Ok (Fallback st, d)
  end.

Definition num_groups (g : Grouper) : N :=
  match g with
  | Fast st => GrouperFastImpl.num_groups st
  | Fallback st => GrouperImpl.num_groups st
  end.

Definition GetUniques (g : Grouper) : Outcome ExecSpan :=
  match g with
  | Fast st => GrouperFastImpl.GetUniques st
  | Fallback st => GrouperImpl.GetUniques st
  end.

End WithCollaborators.
End GrouperOps.

(** ** The segmenter of any key schema *)

Module AnyKeysSegmenter.

Record State : Type := mkState {
  key_types_ : list DataType;
  grouper_ : Grouper;
  save_group_id_ : N
}.

(** The scan of the group ids of a batch for runs: the [for] loop of
    [GetSegments], [fuel] being the number of cursor positions left. *)
Fixpoint scan_loop (fuel : nat) (group_ids : list N) (batch_length : Z) (extends : bool)
    (cursor current_group_offset : Z) (segments : list Segment)
  : Outcome (list Segment * Z * Z) :=
  match fuel with
  | O => Ok (segments, cursor, current_group_offset)
  | S fuel' =>
      a ← read group_ids cursor;
      b ← read group_ids current_group_offset;
      if negb (a =? b)%N then
        scan_loop fuel' group_ids batch_length extends (cursor + 1) cursor
          (segments ++ [MakeSegment batch_length current_group_offset
                          (cursor - current_group_offset)
                          (if current_group_offset =? 0 then extends else false)])
      else
        scan_loop fuel' group_ids batch_length extends (cursor + 1) current_group_offset
          segments
  end.

Section WithCollaborators.
Context `{KeyEncoder} `{RowEncoder} `{MiniBatch}.

Definition Make (little_endian : bool) (key_types : list DataType) : Outcome State :=
  grouper ← GrouperOps.Make little_endian key_types;
  Ok (mkState key_types grouper kNoGroupId).

Definition Reset (st : State) : Outcome State :=
  grouper ← GrouperOps.Reset (grouper_ st);
  Ok (mkState (key_types_ st) grouper kNoGroupId).

(** Runs the grouper on the single row at [offset]. *)
Definition MapGroupIdAt (debug : bool) (grouper : Grouper) (batch : ExecSpan) (offset : Z)
  : Outcome (Grouper * N) :=
  '(grouper, datum) ← GrouperOps.Consume grouper batch offset 1;
  match datum with
  | None => if debug then Abort else Undefined
  | Some data =>
      DCHECK debug (null_count data =? 0);;
      DCHECK debug (1 =? arr_length data);;
      v ← read (arr_values data) 0;
      Ok (grouper, v)
  end.

Definition GetSegments (debug : bool) (st : State) (batch : ExecSpan)
  : Outcome (list Segment * State) :=
  CheckForGetSegments batch (key_types_ st);;
  if batch_length batch =? 0 then Ok ([], st)
  else
    '(grouper, extends) ←
      (if negb (save_group_id_ st =? kNoGroupId)%N then
         '(grouper, group_id) ← MapGroupIdAt debug (grouper_ st) batch 0;
         Ok (grouper, (group_id =? save_group_id_ st)%N)
       else Ok (grouper_ st, kDefaultExtends));
    grouper ← GrouperOps.Reset grouper;
    '(grouper, datum) ← GrouperOps.Consume grouper batch 0 (-1);
    match datum with
    | None => if debug then Abort else Undefined
    | Some data =>
        DCHECK debug (arr_length data =? batch_length batch);;
        DCHECK debug (null_count data =? 0);;
        let group_ids := arr_values data in
        '(segments, cursor, current_group_offset) ←
          scan_loop (Z.to_nat (arr_length data - 1)) group_ids (batch_length batch)
            extends 1 0 [];
        let segments :=
          segments ++ [MakeSegment (batch_length batch) current_group_offset
                         (cursor - current_group_offset)
                         (if current_group_offset =? 0 then extends else false)] in
        save_group_id ← read group_ids (batch_length batch - 1);
        Ok (segments, mkState (key_types_ st) grouper save_group_id)
    end.

End WithCollaborators.
End AnyKeysSegmenter.

(** ** The segmenter behind its interface *)

Inductive RowSegmenter : Type :=
  | NoKeys
  | SimpleKey (st : SimpleKeySegmenter.State)
  | AnyKeys (st : AnyKeysSegmenter.State).

Module RowSegmenterOps.
Section WithCollaborators.
Context `{KeyEncoder} `{RowEncoder} `{MiniBatch}.

(** [RowSegmenter::Make] *)
Definition Make (little_endian : bool) (key_types : list DataType) (nullable_keys : bool)
  : Outcome RowSegmenter :=
  match key_types with
  | [] => Ok NoKeys
  | [type] =>
      if negb nullable_keys && is_fixed_width type
      then Ok (SimpleKey (SimpleKeySegmenter.Make type))
      else st ← AnyKeysSegmenter.Make little_endian key_types; Ok (AnyKeys st)
  | _ => st ← AnyKeysSegmenter.Make little_endian key_types; Ok (AnyKeys st)
  end.

Definition Reset (seg : RowSegmenter) : Outcome RowSegmenter :=
  match seg with
  | NoKeys => NoKeysSegmenter.Reset;; Ok NoKeys
  | SimpleKey st => Ok (SimpleKey (SimpleKeySegmenter.Reset st))
  | AnyKeys st => st ← AnyKeysSegmenter.Reset st; Ok (AnyKeys st)
  end.

Definition GetSegments (debug : bool) (seg : RowSegmenter) (batch : ExecSpan)
  : Outcome (list Segment * RowSegmenter) :=
  match seg with
  | NoKeys => segments ← NoKeysSegmenter.GetSegments batch; Ok (segments, NoKeys)
  | SimpleKey st =>
      '(segments, st) ← SimpleKeySegmenter.GetSegments debug st batch;
      Ok (segments, SimpleKey st)
  | AnyKeys st =>
      '(segments, st) ← AnyKeysSegmenter.GetSegments debug st batch;
      Ok (segments, AnyKeys st)
  end.

(** A segmenter fed a stream of batches: the segments of each batch. *)
Fixpoint run (debug : bool) (seg : RowSegmenter) (batches : list ExecSpan)
  : Outcome (list (list Segment) * RowSegmenter) :=
  match batches with
  | [] => Ok ([], seg)
  | batch :: batches' =>
      '(segments, seg) ← GetSegments debug seg batch;
      '(rest, seg) ← run debug seg batches';
      Ok (segments :: rest, seg)
  end.

End WithCollaborators.
End RowSegmenterOps.

(** ** The groupings builder *)

(** The counting pass of [MakeGroupings]. *)
Fixpoint count_ids (debug : bool) (num_groups : N) (ids : list N) (raw_offsets : list Z)
  : Outcome (list Z) :=
  match ids with
  | [] => Ok raw_offsets
  | id :: ids' =>
      DCHECK debug (id <? num_groups)%N;;
      c ← read raw_offsets (Z.of_N id);
      raw_offsets ← write raw_offsets (Z.of_N id) (c + 1);
      count_ids debug num_groups ids' raw_offsets
  end.

(** The prefix-sum pass, over the group ids [ids]. *)
Fixpoint sum_offsets (ids : list nat) (raw_offsets : list Z) (length : Z)
  : Outcome (list Z * Z) :=
  match ids with
  | [] => Ok (raw_offsets, length)
  | id :: ids' =>
      offset ← read raw_offsets (Z.of_nat id);
      raw_offsets ← write raw_offsets (Z.of_nat id) length;
      sum_offsets ids' raw_offsets (length + offset)
  end.

(** The placement pass, from position [i] on. *)
Fixpoint place_ids (ids : list N) (i : Z) (raw_offsets : list Z)
    (raw_sort_indices : list Z) : Outcome (list Z) :=
  match ids with
  | [] => Ok raw_sort_indices
  | id :: ids' =>
      pos ← read raw_offsets (Z.of_N id);
      raw_offsets ← write raw_offsets (Z.of_N id) (pos + 1);
      raw_sort_indices ← write raw_sort_indices pos i;
      place_ids ids' (i + 1) raw_offsets raw_sort_indices
  end.

(** [Grouper::MakeGroupings] *)
Definition MakeGroupings (debug : bool) (ids : UInt32Array) (num_groups : N)
  : Outcome ListArray :=
  if negb (null_count ids =? 0) then Fail Invalid else
  let raw_offsets := replicate (N.to_nat (wrap32 (num_groups + 1))) 0 in
  if INT32_MAX <? arr_length ids then Undefined else
  raw_offsets ← count_ids debug num_groups (arr_values ids) raw_offsets;
  '(raw_offsets, length) ← sum_offsets (seq 0 (N.to_nat num_groups)) raw_offsets 0;
  raw_offsets ← write raw_offsets (Z.of_N num_groups) length;
  DCHECK debug (arr_length ids =? length);;
  let offsets_copy := raw_offsets in
  let raw_sort_indices := replicate (Z.to_nat (arr_length ids)) 0 in
  sort_indices ← place_ids (arr_values ids) 0 offsets_copy raw_sort_indices;
  Ok (mkListArray num_groups raw_offsets sort_indices).

(** ** Sequences of calls on a grouper *)

Inductive Call : Type :=
  | CallPopulate (batch : ExecSpan) (offset length : Z)
  | CallConsume (batch : ExecSpan) (offset length : Z)
  | CallLookup (batch : ExecSpan) (offset length : Z)
  | CallReset.

Module Calls.
Section WithCollaborators.
Context `{KeyEncoder} `{RowEncoder} `{MiniBatch}.

Definition step (g : Grouper) (c : Call) : Outcome (Grouper * option UInt32Array) :=
  match c with
  | CallPopulate batch offset length =>
      g ← GrouperOps.Populate g batch offset length; Ok (g, None)
  | CallConsume batch offset length => GrouperOps.Consume g batch offset length
  | CallLookup batch offset length => GrouperOps.Lookup g batch offset length
  | CallReset => g ← GrouperOps.Reset g; Ok (g, None)
  end.

(** The grouper after the calls, and what each call returned. *)
Fixpoint run (g : Grouper) (calls : list Call)
  : Outcome (Grouper * list (option UInt32Array)) :=
  match calls with
  | [] => Ok (g, [])
  | c :: calls' =>
      '(g, out) ← step g c;
      '(g, outs) ← run g calls';
      Ok (g, out :: outs)
  end.

End WithCollaborators.
End Calls.

(** ** What the specification says, in terms of key tuples *)

Fixpoint row_conforms (key_types : list DataType) (r : Row) : bool :=
  match key_types, r with
  | [], [] => true
  | ty :: key_types', c :: r' => cell_conforms ty c && row_conforms key_types' r'
  | _, _ => false
  end.

(** The rows a call with arguments [offset] and [length] is about. *)
Definition call_rows (batch : ExecSpan) (offset length : Z) : list Row :=
  let len := if length <? 0 then batch_length batch - offset else length in
  take (Z.to_nat len) (drop (Z.to_nat offset) (batch_rows batch)).

(** A call on a batch of the key schema, at an offset inside the batch. *)
Definition call_ok (key_types : list DataType) (batch : ExecSpan) (offset : Z) : bool :=
  batch_conforms key_types batch && (0 <=? offset) && (offset <=? batch_length batch).

(** The position of a key among the known keys. *)
Fixpoint find_key (known : list Row) (r : Row) : option nat :=
  match known with
  | [] => None
  | k :: known' => if decide (k = r) then Some 0%nat else S <$> find_key known' r
  end.

(** Group ids are given in order of first appearance: a known key keeps its
    id, a new key takes the next one. *)
Definition assign_id (known : list Row) (r : Row) : nat * list Row :=
  match find_key known r with
  | Some i => (i, known)
  | None => (length known, known ++ [r])
  end.

Fixpoint assign_ids (known : list Row) (rows : list Row) : list nat * list Row :=
  match rows with
  | [] => ([], known)
  | r :: rows' =>
      let '(i, known) := assign_id known r in
      let '(ids, known) := assign_ids known rows' in
      (i :: ids, known)
  end.

(** What a lookup answers for one row: the id and "present", or 0 and
    "absent". *)
Definition lookup_id (known : list Row) (r : Row) : N * bool :=
  match find_key known r with
  | Some i => (N.of_nat i, true)
  | None => (0%N, false)
  end.

(** The keys a sequence of calls has inserted since the last reset, in order
    of insertion, starting from the keys [known]. *)
Fixpoint inserted_keys (known : list Row) (calls : list Call) : list Row :=
  match calls with
  | [] => known
  | CallPopulate batch offset length :: calls'
  | CallConsume batch offset length :: calls' =>
      inserted_keys (assign_ids known (call_rows batch offset length)).2 calls'
  | CallLookup _ _ _ :: calls' => inserted_keys known calls'
  | CallReset :: calls' => inserted_keys [] calls'
  end.

(** The number of rows handed to the calls of a sequence. *)
Fixpoint rows_fed (calls : list Call) : nat :=
  match calls with
  | [] => 0
  | CallPopulate batch offset len :: calls'
  | CallConsume batch offset len :: calls'
  | CallLookup batch offset len :: calls' =>
      length (call_rows batch offset len) + rows_fed calls'
  | CallReset :: calls' => rows_fed calls'
  end.

Definition call_conforms (key_types : list DataType) (c : Call) : bool :=
  match c with
  | CallPopulate batch offset _ | CallConsume batch offset _ | CallLookup batch offset _ =>
      call_ok key_types batch offset
  | CallReset => true
  end.

(** The batch whose rows are [rows], as arrays of the key schema. *)
Definition batch_of_rows (key_types : list DataType) (rows : list Row) : ExecSpan :=
  mkExecSpan
    (imap (λ i ty, Array ty ((λ r : Row, default None (r !! i)) <$> rows)) key_types)
    (Z.of_nat (length rows)).

(** The segments of one batch are right, [prev] being the last key of the
    preceding non-empty batch: they are contiguous from row 0 and cover the
    batch, each is a non-empty run of equal keys, neighbouring runs differ,
    the open-end flag marks the run that ends the batch, and only the segment
    at row 0 may extend, which it does when there is no previous key or the
    previous key is the key of row 0. *)
Fixpoint segments_from {A : Type} (rows : list A) (offset : Z) (prev : option A)
    (segments : list Segment) : Prop :=
  match segments with
  | [] => offset = Z.of_nat (length rows)
  | s :: segments' =>
      seg_offset s = offset
      ∧ 0 < seg_length s
      ∧ offset + seg_length s ≤ Z.of_nat (length rows)
      ∧ (∀ i, offset ≤ i < offset + seg_length s →
              rows !! Z.to_nat i = rows !! Z.to_nat offset)
      ∧ (offset + seg_length s < Z.of_nat (length rows) →
         rows !! Z.to_nat (offset + seg_length s) ≠ rows !! Z.to_nat offset)
      ∧ (is_open_end s = true ↔ offset + seg_length s = Z.of_nat (length rows))
      ∧ (extends_previous s = true ↔
         offset = 0 ∧ (prev = None ∨ prev = rows !! 0%nat))
      ∧ segments_from rows (offset + seg_length s) prev segments'
  end.

Definition segments_ok (prev : option Row) (rows : list Row) (segments : list Segment)
  : Prop :=
  segments_from rows 0 prev segments.

(** The statement for a stream of batches, [prev] being the last key seen
    before the stream. *)
Fixpoint stream_ok (prev : option Row) (batches : list (list Row))
    (segments : list (list Segment)) : Prop :=
  match batches, segments with
  | [], [] => True
  | rows :: batches', segs :: segments' =>
      segments_ok prev rows segs
      ∧ stream_ok (match list.last rows with Some k => Some k | None => prev end)
          batches' segments'
  | _, _ => False
  end.

(** What the calls of a sequence return, as the specification has it,
    starting from the keys [known]. *)
Fixpoint spec_outputs (known : list Row) (calls : list Call) : list (option UInt32Array) :=
  match calls with
  | [] => []
  | CallPopulate batch offset len :: calls' =>
      None :: spec_outputs (assign_ids known (call_rows batch offset len)).2 calls'
  | CallConsume batch offset len :: calls' =>
      let '(ids, known') := assign_ids known (call_rows batch offset len) in
      Some (mkUInt32Array (N.of_nat <$> ids) None) :: spec_outputs known' calls'
  | CallLookup batch offset len :: calls' =>
      let rows := call_rows batch offset len in
      Some (mkUInt32Array ((λ r, (lookup_id known r).1) <$> rows)
              (Some ((λ r, (lookup_id known r).2) <$> rows)))
      :: spec_outputs known calls'
  | CallReset :: calls' => None :: spec_outputs [] calls'
  end.

(** What the groupings of an id array are made of: the positions of a group,
    in ascending order, the size of a group, and the number of ids below a
    group (the prefix sum of the sizes). *)
Definition positions_of (ids : list N) (g : N) : list nat :=
  filter (λ i, ids !! i = Some g) (seq 0 (length ids)).

Definition count_of (ids : list N) (g : N) : nat :=
  length (filter (λ id, id = g) ids).

Definition count_below (ids : list N) (g : N) : nat :=
  length (filter (λ id, (id < g)%N) ids).

(** ** Laws of the collaborators *)

(** Modelled from the spec: decoding inverts encoding, cell by cell
    (section 4.1: [decode] inverts [encode]). *)
Class KeyEncoderLaws `{KeyEncoder} (key_types : list DataType) : Prop := {
  Decode_Encode : ∀ ty c rest,
    ty ∈ key_types → cell_conforms ty c = true →
    Decode ty (Encode ty c ++ rest) = Some (c, rest)
}.

(** Modelled from the spec: decoding inverts the row image, so that two key
    tuples are equal iff their row images are byte-equal (section 3). *)
Class RowEncoderLaws `{RowEncoder} (key_types : list DataType) : Prop := {
  decode_row_image : ∀ r,
    row_conforms key_types r = true →
    decode_image key_types (row_image key_types r) = Some r
}.

(** ** One set of collaborators *)

(** Modelled from the spec: key encoders that write a null byte, then the
    payload (zeros for a null); a null-type column writes nothing.  They
    stand for the encoders of [row_encoder_internal.h] wherever a statement
    is evaluated. *)
Module NullByteEncoders.

Definition payload_width (ty : DataType) : nat :=
  match ty with
  | BOOL => 1
  | DICTIONARY w | FIXED_WIDTH w => w
  | _ => 0
  end.

Definition fixed_payload (ty : DataType) : bool :=
  match ty with
  | BOOL | DICTIONARY _ | FIXED_WIDTH _ | NA => true
  | _ => false
  end.

Definition encode_cell (ty : DataType) (c : Cell) : list byte :=
  match ty with
  | NA => []
  | _ =>
      match c with
      | None => Byte.x01 :: replicate (payload_width ty) Byte.x00
      | Some p => Byte.x00 :: p
      end
  end.

Definition decode_cell (ty : DataType) (buf : list byte) : option (Cell * list byte) :=
  match ty with
  | NA => Some (None, buf)
  | _ =>
      match buf with
      | [] => None
      | flag :: buf' =>
          if decide (length buf' < payload_width ty)%nat then None
          else if decide (flag = Byte.x00)
               then Some (Some (take (payload_width ty) buf'), drop (payload_width ty) buf')
               else Some (None, drop (payload_width ty) buf')
      end
  end.

#[export] Instance key_encoder : KeyEncoder := {|
  Encode := encode_cell;
  Decode := decode_cell
|}.

Fixpoint encode_row (key_types : list DataType) (r : Row) : list byte :=
  match key_types, r with
  | ty :: key_types', c :: r' => encode_cell ty c ++ encode_row key_types' r'
  | _, _ => []
  end.

Fixpoint decode_row (key_types : list DataType) (buf : list byte) : option Row :=
  match key_types with
  | [] => Some []
  | ty :: key_types' =>
      match decode_cell ty buf with
      | None => None
      | Some (c, buf') => (λ r, c :: r) <$> decode_row key_types' buf'
      end
  end.

(** A row hash that collides often: the number of null cells. *)
Definition count_nulls (r : Row) : N :=
  N.of_nat (length (filter (λ c : Cell, c = None) r)).

#[export] Instance row_encoder : RowEncoder := {|
  row_image := encode_row;
  decode_image := decode_row;
  hash_row := λ _ r, count_nulls r
|}.

#[export] Instance mini_batch : MiniBatch := {| kMiniBatchLength := 1024 |}.

(** A second mini-batch length, to compare runs. *)
Definition small_mini_batch : MiniBatch := {| kMiniBatchLength := 128 |}.

End NullByteEncoders.

(** ** Notions the proofs are stated with *)

(** An outcome that is no error status. *)
Definition no_status {A : Type} (m : Outcome A) : Prop := ∀ s, m ≠ Fail s.

(** Where the placement pass of [MakeGroupings] puts position [p] of the ids
    [ids], which holds the id [g]. *)
Definition slot_of (ids : list N) (p : nat) (g : N) : nat :=
  (count_below ids g + count_of (take p ids) g)%nat.

(** The key of a row in the fallback grouper: the encodings of its cells, one
    after the other. *)
Definition row_bytes `{KeyEncoder} (key_types : list DataType) (r : Row) : list byte :=
  mjoin (zip_with Encode key_types r).

(** The decoding of a whole row at the head of a buffer. *)
Fixpoint decode_row_bytes `{KeyEncoder} (key_types : list DataType) (buf : list byte)
  : option (Row * list byte) :=
  match key_types with
  | [] => Some ([], buf)
  | ty :: key_types' =>
      match Decode ty buf with
      | None => None
      | Some (c, buf') =>
          match decode_row_bytes key_types' buf' with
          | None => None
          | Some (r, buf'') => Some (c :: r, buf'')
          end
      end
  end.

(** The law of the encoder of one type. *)
Definition cell_law `{KeyEncoder} (ty : DataType) : Prop :=
  ∀ c rest, cell_conforms ty c = true → Decode ty (Encode ty c ++ rest) = Some (c, rest).

(** The rows of the values [vals], [n] of them. *)
Definition rows_of (vals : list ExecValue) (n : nat) : list Row :=
  (λ i, (λ v, cell_at v i) <$> vals) <$> seq 0 n.

(** The byte offset at which key [i] of a sequence of keys starts. *)
Definition offset_of (keys : list (list byte)) (i : nat) : Z :=
  Z.of_nat (length (mjoin (take i keys))).

(** The number of bytes the keys of the rows [rows] take in the fallback
    grouper. *)
Definition rows_bytes `{KeyEncoder} (key_types : list DataType) (rows : list Row) : nat :=
  length (mjoin (row_bytes key_types <$> rows)).

(** The keys a fallback grouper holds are the keys [known], in the order of
    their group ids; their bytes are stored one key after the other and fit
    the [int32_t] offsets. *)
Definition holds_keys `{KeyEncoder} (key_types : list DataType)
    (st : GrouperImpl.State) (known : list Row) : Prop :=
  GrouperImpl.encoders_ st = key_types
  ∧ GrouperImpl.num_groups_ st = N.of_nat (length known)
  ∧ (N.of_nat (length known) < 2 ^ 32)%N
  ∧ Forall (λ r, row_conforms key_types r = true) known
  ∧ (∀ r, row_conforms key_types r = true →
       GrouperImpl.map_ st !! row_bytes key_types r = N.of_nat <$> find_key known r)
  ∧ GrouperImpl.key_bytes_ st = mjoin (row_bytes key_types <$> known)
  ∧ Z.of_nat (rows_bytes key_types known) ≤ INT32_MAX.

(** The bytes and offsets a fallback grouper keeps for [GetUniques] are those
    of the keys [known]: with non-empty keys, one offset per key and one for
    the end; with the empty key, the single offset 0. *)
Definition holds_bytes `{KeyEncoder} (key_types : list DataType)
    (st : GrouperImpl.State) (known : list Row) : Prop :=
  let keys := row_bytes key_types <$> known in
  GrouperImpl.key_bytes_ st = mjoin keys
  ∧ ((Forall (λ k, k ≠ []) keys
      ∧ GrouperImpl.offsets_ st = offset_of keys <$> seq 0 (length keys + 1))
     ∨ (Forall (λ k, k = []) keys ∧ (length keys ≤ 1)%nat
        ∧ GrouperImpl.offsets_ st = [0])).

(** The hash table lists the group ids of the keys [known], each under the
    hash of its key, and nothing else. *)
Definition table_holds `{RowEncoder} (key_types : list DataType)
    (t : SwissTable.Table) (known : list Row) : Prop :=
  SwissTable.num_inserted t = N.of_nat (length known)
  ∧ (∀ (i : nat) r, known !! i = Some r →
       N.of_nat i ∈ default [] (SwissTable.slots t !! hash_row key_types r))
  ∧ (∀ h g, g ∈ default [] (SwissTable.slots t !! h) →
       ∃ r, known !! N.to_nat g = Some r ∧ hash_row key_types r = h).

(** The keys a fast grouper holds are the keys [known]: their images are the
    stored rows, in the order of the group ids, and the table lists them. *)
Definition fast_holds_keys `{RowEncoder} `{MiniBatch} (key_types : list DataType)
    (st : GrouperFastImpl.State) (known : list Row) : Prop :=
  GrouperFastImpl.key_types_ st = key_types
  ∧ GrouperFastImpl.make_metadata key_types = Ok (GrouperFastImpl.col_metadata_ st)
  ∧ 0 < GrouperFastImpl.minibatch_size_ st ≤ kMiniBatchLength
  ∧ GrouperFastImpl.rows_ st = row_image key_types <$> known
  ∧ (N.of_nat (length known) < 2 ^ 32)%N
  ∧ NoDup known
  ∧ Forall (λ r, row_conforms key_types r = true) known
  ∧ table_holds key_types (GrouperFastImpl.map_ st) known.

(** The range of the mini-batch length, an [int] constant no smaller than the
    starting mini-batch size. *)
Definition mini_batch_in_range `{MiniBatch} : Prop :=
  GrouperFastImpl.minibatch_size_min_ ≤ kMiniBatchLength < 2 ^ 30.

(** A grouper holds the keys [known] in a state from which [GetUniques]
    returns them. *)
Definition grouper_holds_uniques `{KeyEncoder} `{RowEncoder} `{MiniBatch}
    (key_types : list DataType) (g : Grouper) (known : list Row) : Prop :=
  match g with
  | Fast st => fast_holds_keys key_types st known
  | Fallback st => holds_keys key_types st known ∧ holds_bytes key_types st known
  end.

(** The keys a grouper holds, whichever implementation it is. *)
Definition grouper_holds `{KeyEncoder} `{RowEncoder} `{MiniBatch}
    (key_types : list DataType) (g : Grouper) (known : list Row) : Prop :=
  match g with
  | Fast st => fast_holds_keys key_types st known
  | Fallback st => holds_keys key_types st known
  end.

Definition is_fast (g : Grouper) : bool :=
  match g with Fast _ => true | Fallback _ => false end.

(** Whether [n] bytes of keys fit the grouper [g]: the fallback grouper
    counts the bytes of its keys in [int32_t]. *)
Definition grouper_fits (g : Grouper) (n : nat) : Prop :=
  is_fast g = false → Z.of_nat n ≤ INT32_MAX.

(** The positions, counted from [i0], of the cleared bits. *)
Definition sel_from (i0 : nat) (bits : list bool) : list nat :=
  omap (λ '(i, b), if b : bool then None else Some i) (imap (λ k b, ((i0 + k)%nat, b)) bits).

(** The equality callback of the fast grouper on the mini-batch [mb], as the
    hash table calls it. *)
Definition equal_on `{RowEncoder} `{MiniBatch} (key_types : list DataType) (mb : list Row)
  : list (list byte) * list (list byte) → nat → N → bool :=
  λ tables, GrouperFastImpl.map_equal_impl_ key_types mb tables.1.

(** ** Notions the statements about call sequences use *)

Definition is_consume (c : Call) : bool :=
  match c with CallConsume _ _ _ => true | _ => false end.

Definition is_populate_or_consume (c : Call) : bool :=
  match c with CallPopulate _ _ _ | CallConsume _ _ _ => true | _ => false end.

Definition is_reset (c : Call) : bool :=
  match c with CallReset => true | _ => false end.

(** The ids the calls of a sequence have returned, in order. *)
Definition returned_ids (outs : list (option UInt32Array)) : list N :=
  mjoin ((λ out : option UInt32Array, from_option arr_values [] out) <$> outs).

(** The rows that populate and consume calls were given since the last
    reset, after the rows [seen]. *)
Fixpoint keys_fed (seen : list Row) (calls : list Call) : list Row :=
  match calls with
  | [] => seen
  | CallPopulate batch offset len :: calls'
  | CallConsume batch offset len :: calls' =>
      keys_fed (seen ++ call_rows batch offset len) calls'
  | CallLookup _ _ _ :: calls' => keys_fed seen calls'
  | CallReset :: calls' => keys_fed [] calls'
  end.

(** The bytes of the keys of all the rows that the calls of a sequence were
    given, as the fallback grouper encodes them; it encodes the rows of a
    lookup as well. *)
Fixpoint key_bytes_fed `{KeyEncoder} (key_types : list DataType) (calls : list Call)
  : nat :=
  match calls with
  | [] => 0
  | CallPopulate batch offset len :: calls'
  | CallConsume batch offset len :: calls'
  | CallLookup batch offset len :: calls' =>
      rows_bytes key_types (call_rows batch offset len) + key_bytes_fed key_types calls'
  | CallReset :: calls' => key_bytes_fed key_types calls'
  end.

(** What a call of a populate/consume sequence returns: nothing for a
    populate, an array without nulls of one id per row for a consume. *)
Definition consume_shape (c : Call) (out : option UInt32Array) : Prop :=
  match c with
  | CallConsume batch offset len =>
      ∃ ids, out = Some (mkUInt32Array ids None)
             ∧ length ids = length (call_rows batch offset len)
  | _ => out = None
  end.

(** A grouper made for the key schema [key_types] and given the calls
    [calls]: what the calls return, then [num_groups()] and [GetUniques()]. *)
Definition fresh_run `{KeyEncoder} `{RowEncoder} `{MiniBatch} (little_endian : bool)
    (key_types : list DataType) (calls : list Call)
  : Outcome (list (option UInt32Array) * N * Outcome ExecSpan) :=
  g ← GrouperOps.Make little_endian key_types;
  '(g, outs) ← Calls.run g calls;
  Ok (outs, GrouperOps.num_groups g, GrouperOps.GetUniques g).

(** The key offsets of the same grouper after the calls, when it is the
    fallback grouper. *)
Definition fresh_run_offsets `{KeyEncoder} `{RowEncoder} `{MiniBatch}
    (little_endian : bool) (key_types : list DataType) (calls : list Call)
  : Outcome (option (list Z)) :=
  g ← GrouperOps.Make little_endian key_types;
  '(g, _) ← Calls.run g calls;
  Ok match g with
     | Fallback st => Some (GrouperImpl.offsets_ st)
     | Fast _ => None
     end.

(** The segments a segmenter made for [key_types] emits on a stream. *)
Definition fresh_segments `{KeyEncoder} `{RowEncoder} `{MiniBatch}
    (debug little_endian : bool) (key_types : list DataType) (nullable_keys : bool)
    (batches : list ExecSpan) : Outcome (list (list Segment)) :=
  seg ← RowSegmenterOps.Make little_endian key_types nullable_keys;
  '(segments, _) ← RowSegmenterOps.run debug seg batches;
  Ok segments.

(** ** Sample data: one nullable key column of one-byte integers *)

Definition int8_keys : list DataType := [FIXED_WIDTH 1].

Definition int8 (b : byte) : Cell := Some [b].

Definition int8_batch (cs : list Cell) : ExecSpan :=
  mkExecSpan [Array (FIXED_WIDTH 1) cs] (Z.of_nat (length cs)).

(** Keys 1, 2. *)
Definition batch_1_2 : ExecSpan := int8_batch [int8 Byte.x01; int8 Byte.x02].

(** Keys 2, null, 2, null, 3. *)
Definition batch_with_nulls : ExecSpan :=
  int8_batch [int8 Byte.x02; None; int8 Byte.x02; None; int8 Byte.x03].

(** Keys 1, 1, 2 and keys 2, 2, 3: two batches of a stream. *)
Definition batch_1_1_2 : ExecSpan :=
  int8_batch [int8 Byte.x01; int8 Byte.x01; int8 Byte.x02].

Definition batch_2_2_3 : ExecSpan :=
  int8_batch [int8 Byte.x02; int8 Byte.x02; int8 Byte.x03].

(** ** Notions the statements about segmenters use *)

(** The segments [segments] split the values [xs], from [offset] on, into
    their maximal runs of equal values, and only the segment at 0 carries the
    flag [extends]. *)
Fixpoint runs_from {A : Type} (xs : list A) (offset : Z) (extends : bool)
    (segments : list Segment) : Prop :=
  match segments with
  | [] => offset = Z.of_nat (length xs)
  | s :: segments' =>
      seg_offset s = offset
      ∧ 0 < seg_length s
      ∧ offset + seg_length s ≤ Z.of_nat (length xs)
      ∧ (∀ i, offset ≤ i < offset + seg_length s →
              xs !! Z.to_nat i = xs !! Z.to_nat offset)
      ∧ (offset + seg_length s < Z.of_nat (length xs) →
         xs !! Z.to_nat (offset + seg_length s) ≠ xs !! Z.to_nat offset)
      ∧ (is_open_end s = true ↔ offset + seg_length s = Z.of_nat (length xs))
      ∧ extends_previous s = (offset =? 0) && extends
      ∧ runs_from xs (offset + seg_length s) extends segments'
  end.

(** The last key seen once the rows [rows] have followed the key [prev]. *)
Definition last_key (prev : option Row) (rows : list Row) : option Row :=
  match list.last rows with Some k => Some k | None => prev end.

(** The single-key segmenter has saved the bytes of the last key [prev]. *)
Definition simple_holds (ty : DataType) (st : SimpleKeySegmenter.State)
    (prev : option Row) : Prop :=
  SimpleKeySegmenter.key_type_ st = ty
  ∧ length (SimpleKeySegmenter.save_key_data_ st) = Z.to_nat (byte_width ty)
  ∧ match prev with
    | None => SimpleKeySegmenter.extend_was_called_ st = false
    | Some r =>
        SimpleKeySegmenter.extend_was_called_ st = true
        ∧ r = [Some (SimpleKeySegmenter.save_key_data_ st)]
    end.

(** The any-keys segmenter has saved the group id of the last key [prev] in
    its grouper, which holds the keys of the last batch; the first row of the
    next batch is consumed on top of these keys, for which twice their bytes
    leave room. *)
Definition any_holds `{KeyEncoder} `{RowEncoder} `{MiniBatch} (key_types : list DataType)
    (st : AnyKeysSegmenter.State) (prev : option Row) : Prop :=
  AnyKeysSegmenter.key_types_ st = key_types
  ∧ ∃ known,
      grouper_holds key_types (AnyKeysSegmenter.grouper_ st) known
      ∧ (N.of_nat (length known) + 1 < 2 ^ 32)%N
      ∧ grouper_fits (AnyKeysSegmenter.grouper_ st) (2 * rows_bytes key_types known)
      ∧ match prev with
        | None => AnyKeysSegmenter.save_group_id_ st = kNoGroupId
        | Some r =>
            ∃ k : nat, find_key known r = Some k
                       ∧ AnyKeysSegmenter.save_group_id_ st = N.of_nat k
        end.

(** Whether a segmenter runs the fallback grouper. *)
Definition uses_fallback (seg : RowSegmenter) : bool :=
  match seg with
  | AnyKeys st => negb (is_fast (AnyKeysSegmenter.grouper_ st))
  | _ => false
  end.

(** Whether a batch fits the segmenter [seg]: the fallback grouper of the
    any-keys segmenter counts the bytes of the keys of a batch, and the first
    row of the next batch on top of them, in [int32_t]. *)
Definition batch_fits `{KeyEncoder} (key_types : list DataType) (seg : RowSegmenter)
    (batch : ExecSpan) : Prop :=
  uses_fallback seg = true →
  Z.of_nat (2 * rows_bytes key_types (batch_rows batch)) ≤ INT32_MAX.

(** What the single-key segmenter asks of its callers: it is chosen for one
    non-nullable fixed-width key, which then has whole bytes and, in the
    batches, no null. *)
Definition simple_key_schema (key_types : list DataType) (nullable_keys : bool) : bool :=
  match key_types with
  | [ty] => negb nullable_keys && is_fixed_width ty
  | _ => false
  end.

(** A segmenter made for the key schema [key_types] that has seen the last
    key [prev]. *)
Definition segmenter_holds `{KeyEncoder} `{RowEncoder} `{MiniBatch}
    (key_types : list DataType) (nullable_keys : bool) (seg : RowSegmenter)
    (prev : option Row) : Prop :=
  match seg with
  | NoKeys => key_types = [] ∧ (prev = None ∨ prev = Some [])
  | SimpleKey st =>
      simple_key_schema key_types nullable_keys = true
      ∧ ∃ ty, key_types = [ty] ∧ is_fixed_width ty = true ∧ 0 < byte_width ty
              ∧ simple_holds ty st prev
  | AnyKeys st => any_holds key_types st prev
  end.

(** ** The rest of the interface *)

(** [BaseRowSegmenter::key_types()]: the key schema a segmenter was built
    with, which its [GetSegments] checks every batch against. *)
Module BaseRowSegmenter.

Definition key_types (seg : RowSegmenter) : list DataType :=
  match seg with
  | NoKeys => []
  | SimpleKey st => [SimpleKeySegmenter.key_type_ st]
  | AnyKeys st => AnyKeysSegmenter.key_types_ st
  end.

End BaseRowSegmenter.

(** Modelled from the spec: [compute::Take] with
    [TakeOptions::NoBoundsCheck()], the gather of the values at the given
    indices (section 4.6, the external take collaborator); it does not check
    that an index lies inside the values. *)
Fixpoint Take {A : Type} (values : list A) (indices : list Z) : Outcome (list A) :=
  match indices with
  | [] => Ok []
  | i :: indices' =>
      x ← read values i;
      xs ← Take values indices';
      Ok (x :: xs)
  end.

(** A [ListArray] whose lists hold values of type [A]. *)
Record ListArrayOf (A : Type) : Type := mkListArrayOf {
  lists_length : N;
  lists_offsets : list Z;
  lists_values : list A
}.

Arguments mkListArrayOf {A} _ _ _.
Arguments lists_length {A} _.
Arguments lists_offsets {A} _.
Arguments lists_values {A} _.

(** [Grouper::ApplyGroupings] *)
Definition ApplyGroupings {A : Type} (groupings : ListArray) (array : list A)
  : Outcome (ListArrayOf A) :=
  sorted ← Take array (child_values groupings);
  Ok (mkListArrayOf (list_length groupings) (value_offsets groupings) sorted).

(** The values of a group: those at the positions that hold the group's id,
    in the order of the positions. *)
Definition group_values {A : Type} (ids : list N) (values : list A) (g : N) : list A :=
  omap (λ p, values !! p) (positions_of ids g).

(** A key type some grouper takes. *)
Definition is_supported (ty : DataType) : bool :=
  is_bool ty || is_dictionary ty || is_fixed_width ty || is_binary_like ty
  || is_large_binary_like ty || is_null_type ty.

(** ** More sample data *)

(** Three copies of the key 1, as a scalar. *)
Definition scalar_1_batch : ExecSpan :=
  mkExecSpan [Scalar (FIXED_WIDTH 1) (int8 Byte.x01)] 3.

(** The booleans true, false, as an array. *)
Definition bool_batch : ExecSpan :=
  mkExecSpan [Array BOOL [Some [Byte.x01]; Some [Byte.x00]]] 2.

(** * Properties *)

(** ** Outcomes and buffers *)

(** Folds the unfolded form of a list map back into [<$>]. *)
Ltac fold_list_fmap :=
  repeat match goal with
         | |- context [list_fmap ?A ?B ?f ?l] => change (list_fmap A B f l) with (f <$> l)
         end.

Lemma bind_Ok {A B : Type} (a : A) (k : A → Outcome B) : (Ok a ≫= k) = k a.
Proof. reflexivity. Qed.

Lemma bind_Ok_inv {A B : Type} (m : Outcome A) (k : A → Outcome B) (b : B) :
  (m ≫= k) = Ok b → ∃ a, m = Ok a ∧ k a = Ok b.
Proof. destruct m; try discriminate. intros Hk. eauto. Qed.

Lemma read_Ok {A : Type} (buf : list A) (i : nat) (x : A) :
  buf !! i = Some x → read buf (Z.of_nat i) = Ok x.
Proof.
  intros Hx. unfold read.
  destruct (Z.ltb_spec (Z.of_nat i) 0) as [Hneg|_]; [lia|].
  by rewrite Nat2Z.id, Hx.
Qed.

Lemma write_Ok {A : Type} (buf : list A) (i : nat) (x : A) :
  (i < length buf)%nat → write buf (Z.of_nat i) x = Ok (<[i := x]> buf).
Proof.
  intros Hi. unfold write.
  destruct (Z.ltb_spec (Z.of_nat i) 0) as [Hneg|_]; [lia|].
  destruct (Z.leb_spec (Z.of_nat (length buf)) (Z.of_nat i)) as [Hge|_]; [lia|].
  by rewrite Nat2Z.id.
Qed.

Lemma int32_Ok (z : Z) : INT32_MIN ≤ z ≤ INT32_MAX → int32 z = Ok z.
Proof.
  intros Hz. unfold int32.
  destruct (Z.ltb_spec z INT32_MIN) as [|_]; [lia|].
  by destruct (Z.ltb_spec INT32_MAX z) as [|_]; [lia|].
Qed.

Lemma to_int32_small (z : Z) : 0 ≤ z ≤ INT32_MAX → to_int32 z = z.
Proof.
  unfold to_int32, INT32_MAX. intros Hz. rewrite Z.mod_small; lia.
Qed.

Lemma resize_memcpy_append (buf key : list byte) :
  resize_bytes buf (Z.of_nat (length buf) + Z.of_nat (length key))
    ≫= (λ key_bytes, memcpy key_bytes (Z.of_nat (length buf)) key)
  = Ok (buf ++ key).
Proof.
  unfold resize_bytes.
  destruct (Z.ltb_spec (Z.of_nat (length buf) + Z.of_nat (length key)) 0) as [|_]; [lia|].
  rewrite bind_Ok. unfold memcpy.
  rewrite take_ge by lia.
  replace (Z.to_nat (Z.of_nat (length buf) + Z.of_nat (length key)) - length buf)%nat
    with (length key) by lia.
  rewrite length_app, length_replicate.
  destruct (Z.ltb_spec (Z.of_nat (length buf)) 0) as [|_]; [lia|].
  match goal with |- context [Z.ltb ?a ?b] => destruct (Z.ltb_spec a b) as [|_] end;
    [lia|].
  simpl. rewrite Nat2Z.id, take_app_length.
  rewrite drop_ge by (rewrite length_app, length_replicate; lia).
  by rewrite app_nil_r.
Qed.

Lemma DCHECK_true (debug : bool) : DCHECK debug true = Ok tt.
Proof. unfold DCHECK. by rewrite andb_false_r. Qed.

Lemma DCHECK_release (cond : bool) : DCHECK false cond = Ok tt.
Proof. reflexivity. Qed.

(** ** The segmenter without keys *)

(** C9, as stated, fails on the empty batch: it yields no segment. *)
Lemma NoKeys_empty_batch_has_no_segment :
  ¬ (∃ s, NoKeysSegmenter.GetSegments (mkExecSpan [] 0) = Ok [s]
          ∧ seg_offset s = 0 ∧ seg_length s = 0 ∧ extends_previous s = true).
Proof. intros (s & Hs & _). vm_compute in Hs. discriminate. Qed.

(** C9 (amended): on a batch without key columns the no-keys segmenter
    yields, when the batch is not empty, exactly one segment, which starts at
    row 0, covers all the rows, is open-ended and extends; on an empty batch
    it yields no segment. *)
Theorem NoKeys_single_segment (batch : ExecSpan) :
  values batch = [] →
  (batch_length batch ≠ 0 →
   NoKeysSegmenter.GetSegments batch
   = Ok [mkSegment 0 (batch_length batch) true true])
  ∧ (batch_length batch = 0 → NoKeysSegmenter.GetSegments batch = Ok []).
Proof.
  intros Hvals. unfold NoKeysSegmenter.GetSegments, CheckForGetSegments.
  rewrite Hvals. simpl. split; intros Hlen.
  - destruct (Z.eqb_spec (batch_length batch) 0) as [|_]; [done|].
    unfold MakeSegment, kDefaultExtends. do 3 f_equal.
    + lia.
    + apply Z.leb_le. lia.
  - by rewrite Hlen.
Qed.

Lemma NoKeys_single_segment_witness :
  values (mkExecSpan [] 5) = []
  ∧ (batch_length (mkExecSpan [] 5) ≠ 0 →
     NoKeysSegmenter.GetSegments (mkExecSpan [] 5) = Ok [mkSegment 0 5 true true])
  ∧ (batch_length (mkExecSpan [] 5) = 0 →
     NoKeysSegmenter.GetSegments (mkExecSpan [] 5) = Ok []).
Proof.
  split; [reflexivity|]. apply (NoKeys_single_segment (mkExecSpan [] 5)). reflexivity.
Defined.

(** ** A negative length means the rest of the batch *)

Lemma cap_negative_length (batch_length offset length : Z) :
  length < 0 → 0 ≤ offset ≤ batch_length →
  CheckAndCapLengthForConsume batch_length offset length
  = CheckAndCapLengthForConsume batch_length offset (batch_length - offset).
Proof.
  intros Hneg Hoff. unfold CheckAndCapLengthForConsume.
  destruct (Z.ltb_spec offset 0); [lia|].
  destruct (Z.ltb_spec length 0); [|lia].
  destruct (Z.ltb_spec (batch_length - offset) 0); [lia|done].
Qed.

Section RestOfBatch.
Context `{KeyEncoder} `{RowEncoder} `{MiniBatch}.

Lemma GrouperImpl_negative_length fuel st batch offset length mode :
  length < 0 → 0 ≤ offset ≤ batch_length batch →
  GrouperImpl.ConsumeImpl fuel st batch offset length mode
  = GrouperImpl.ConsumeImpl fuel st batch offset (batch_length batch - offset) mode.
Proof.
  intros Hneg Hoff. destruct fuel; simpl; by rewrite (cap_negative_length _ _ length).
Qed.

Lemma GrouperFastImpl_negative_length fuel st batch offset length mode :
  length < 0 → 0 ≤ offset ≤ batch_length batch →
  GrouperFastImpl.ConsumeImpl fuel st batch offset length mode
  = GrouperFastImpl.ConsumeImpl fuel st batch offset (batch_length batch - offset) mode.
Proof.
  intros Hneg Hoff. destruct fuel; simpl; by rewrite (cap_negative_length _ _ length).
Qed.

(** A populate, consume or lookup call with a negative length and an offset
    inside the batch is the same call with length [batch.length - offset],
    in the fallback and in the fast grouper, whatever their state. *)
Lemma negative_length_same_call (g : Grouper) batch offset length :
  length < 0 → 0 ≤ offset ≤ batch_length batch →
  GrouperOps.Populate g batch offset length
  = GrouperOps.Populate g batch offset (batch_length batch - offset)
  ∧ GrouperOps.Consume g batch offset length
    = GrouperOps.Consume g batch offset (batch_length batch - offset)
  ∧ GrouperOps.Lookup g batch offset length
    = GrouperOps.Lookup g batch offset (batch_length batch - offset).
Proof.
  intros Hneg Hoff.
  destruct g as [st|st]; unfold GrouperOps.Populate, GrouperOps.Consume,
    GrouperOps.Lookup, GrouperFastImpl.Populate, GrouperFastImpl.Consume,
    GrouperFastImpl.Lookup, GrouperImpl.Populate, GrouperImpl.Consume,
    GrouperImpl.Lookup.
  - by rewrite !(GrouperFastImpl_negative_length 1 st batch offset length).
  - by rewrite !(GrouperImpl_negative_length 1 st batch offset length).
Qed.

End RestOfBatch.

(** ** The groupings builder *)

Section Groupings.

Implicit Types (ids done todo : list N) (g : N).

Lemma count_of_app ids1 ids2 g :
  count_of (ids1 ++ ids2) g = (count_of ids1 g + count_of ids2 g)%nat.
Proof. unfold count_of. by rewrite list.filter_app, length_app. Qed.

Lemma count_below_app ids1 ids2 g :
  count_below (ids1 ++ ids2) g = (count_below ids1 g + count_below ids2 g)%nat.
Proof. unfold count_below. by rewrite list.filter_app, length_app. Qed.

Lemma count_of_cons id ids g :
  count_of (id :: ids) g = ((if decide (id = g) then 1 else 0) + count_of ids g)%nat.
Proof. unfold count_of. rewrite filter_cons. by case_decide. Qed.

Lemma count_below_succ ids g :
  count_below ids (g + 1) = (count_below ids g + count_of ids g)%nat.
Proof.
  unfold count_below, count_of. induction ids as [|id ids IH]; [done|].
  rewrite !filter_cons. repeat case_decide; simpl; lia.
Qed.

Lemma count_below_0 ids : count_below ids 0 = 0%nat.
Proof.
  unfold count_below. induction ids as [|id ids IH]; [done|].
  rewrite filter_cons. case_decide; [lia|done].
Qed.

Lemma count_below_all ids g :
  Forall (λ id, (id < g)%N) ids → count_below ids g = length ids.
Proof.
  unfold count_below. induction 1 as [|id ids Hid _ IH]; [done|].
  rewrite filter_cons. case_decide; [simpl; lia|done].
Qed.

Lemma count_below_mono ids g1 g2 :
  (g1 ≤ g2)%N → (count_below ids g1 ≤ count_below ids g2)%nat.
Proof.
  intros Hle. unfold count_below. induction ids as [|id ids IH]; [done|].
  rewrite !filter_cons. repeat case_decide; simpl; lia.
Qed.

Lemma count_below_le ids g : (count_below ids g ≤ length ids)%nat.
Proof. unfold count_below. apply length_filter. Qed.

(** *** The counting pass *)

Lemma count_ids_Ok debug num_groups ids raw :
  Forall (λ id, (id < num_groups)%N) ids →
  (N.to_nat num_groups < length raw)%nat →
  ∃ raw', count_ids debug num_groups ids raw = Ok raw'
          ∧ length raw' = length raw
          ∧ ∀ i : nat, raw' !! i
              = (λ c, c + Z.of_nat (count_of ids (N.of_nat i))) <$> raw !! i.
Proof.
  intros Hids. revert raw. induction Hids as [|id ids Hid _ IH]; intros raw Hlen.
  - exists raw. split_and!; [done..|]. intros i. destruct (raw !! i); simpl; [|done].
    f_equal. unfold count_of. simpl. lia.
  - simpl. apply N.ltb_lt in Hid as Hidb. rewrite Hidb, DCHECK_true, bind_Ok.
    destruct (lookup_lt_is_Some_2 raw (N.to_nat id)) as [c Hc]; [lia|].
    assert (Z.of_N id = Z.of_nat (N.to_nat id)) as -> by lia.
    rewrite (read_Ok _ _ _ Hc), bind_Ok.
    rewrite write_Ok by lia. rewrite bind_Ok.
    destruct (IH (<[N.to_nat id := c + 1]> raw)) as (raw' & -> & Hlen' & Hraw').
    { by rewrite length_insert. }
    exists raw'. split_and!; [done|by rewrite Hlen', length_insert|].
    intros i. rewrite Hraw', count_of_cons.
    destruct (decide (i = N.to_nat id)) as [->|Hne].
    + rewrite list_lookup_insert_eq by lia. rewrite Hc. simpl. f_equal.
      rewrite N2Nat.id. case_decide; [lia|done].
    + rewrite list_lookup_insert_ne by done. destruct (raw !! i); simpl; [|done].
      f_equal. case_decide; [lia|done].
Qed.

(** *** The prefix-sum pass *)

Lemma sum_offsets_Ok ids (k j : nat) raw :
  (k + j < length raw)%nat →
  (∀ i : nat, (k ≤ i < k + j)%nat →
     raw !! i = Some (Z.of_nat (count_of ids (N.of_nat i)))) →
  ∃ raw', sum_offsets (seq k j) raw (Z.of_nat (count_below ids (N.of_nat k)))
          = Ok (raw', Z.of_nat (count_below ids (N.of_nat (k + j))))
          ∧ length raw' = length raw
          ∧ (∀ i : nat, (k ≤ i < k + j)%nat →
               raw' !! i = Some (Z.of_nat (count_below ids (N.of_nat i))))
          ∧ (∀ i : nat, ¬ (k ≤ i < k + j)%nat → raw' !! i = raw !! i).
Proof.
  revert k raw. induction j as [|j IH]; intros k raw Hlen Hraw.
  - exists raw. rewrite Nat.add_0_r. split_and!; [done..|intros; lia|done].
  - simpl. rewrite (read_Ok _ _ _ (Hraw k ltac:(lia))), bind_Ok.
    rewrite write_Ok by lia. rewrite bind_Ok.
    assert (Z.of_nat (count_below ids (N.of_nat k)) + Z.of_nat (count_of ids (N.of_nat k))
            = Z.of_nat (count_below ids (N.of_nat (S k)))) as ->.
    { assert (N.of_nat (S k) = (N.of_nat k + 1)%N) as -> by lia.
      rewrite count_below_succ. lia. }
    destruct (IH (S k) (<[k := Z.of_nat (count_below ids (N.of_nat k))]> raw))
      as (raw' & Hrun & Hlen' & Hin & Hout).
    { rewrite length_insert. lia. }
    { intros i Hi. rewrite list_lookup_insert_ne by lia. apply Hraw. lia. }
    exists raw'. assert (k + S j = S k + j)%nat as -> by lia.
    split_and!; [done|by rewrite Hlen', length_insert| |].
    + intros i Hi. destruct (decide (i = k)) as [->|Hne].
      * rewrite Hout by lia. apply list_lookup_insert_eq. lia.
      * apply Hin. lia.
    + intros i Hi. rewrite Hout by lia. apply list_lookup_insert_ne. lia.
Qed.

(** *** The placement pass *)

Lemma count_of_take_lt ids (p : nat) g :
  ids !! p = Some g → (count_of (take p ids) g < count_of ids g)%nat.
Proof.
  intros Hp. rewrite <-(take_drop_middle ids p g Hp) at 2.
  rewrite count_of_app, count_of_cons. case_decide; [lia|done].
Qed.

Lemma count_of_prefix_le ids1 ids2 g : (count_of ids1 g ≤ count_of (ids1 ++ ids2) g)%nat.
Proof. rewrite count_of_app. lia. Qed.

Lemma slot_of_lt ids p g :
  ids !! p = Some g → (slot_of ids p g < count_below ids (g + 1))%nat.
Proof.
  intros Hp. unfold slot_of. rewrite count_below_succ.
  pose proof (count_of_take_lt ids p g Hp). lia.
Qed.

Lemma place_ids_Ok num_groups done todo cursor sort :
  Forall (λ id, (id < num_groups)%N) todo →
  length sort = length (done ++ todo) →
  (∀ g, (g < num_groups)%N →
     cursor !! N.to_nat g
     = Some (Z.of_nat (count_below (done ++ todo) g + count_of done g))) →
  (∀ (p : nat) g, done !! p = Some g →
     sort !! slot_of (done ++ todo) p g = Some (Z.of_nat p)) →
  ∃ sort', place_ids todo (Z.of_nat (length done)) cursor sort = Ok sort'
           ∧ length sort' = length sort
           ∧ ∀ (p : nat) g, (done ++ todo) !! p = Some g →
               sort' !! slot_of (done ++ todo) p g = Some (Z.of_nat p).
Proof.
  intros Htodo. revert done cursor sort.
  induction Htodo as [|id todo Hid _ IH]; intros done cursor sort Hlen Hcur Hsort.
  - exists sort. rewrite app_nil_r in *. done.
  - simpl. set (ids := done ++ id :: todo) in *.
    assert (ids !! length done = Some id) as Hhere.
    { unfold ids. by rewrite list_lookup_middle. }
    assert (take (length done) ids = done) as Htake.
    { unfold ids. by rewrite take_app_length. }
    pose proof (slot_of_lt ids _ _ Hhere) as Hslot.
    unfold slot_of in Hslot. rewrite Htake in Hslot.
    set (pos := (count_below ids id + count_of done id)%nat) in *.
    pose proof (count_below_le ids (id + 1)) as Hle.
    assert (Z.of_N id = Z.of_nat (N.to_nat id)) as -> by lia.
    pose proof (lookup_lt_Some _ _ _ (Hcur id Hid)) as Hcurlen.
    rewrite (read_Ok _ _ _ (Hcur id Hid)), bind_Ok.
    rewrite (write_Ok cursor) by done.
    rewrite bind_Ok, write_Ok by lia. rewrite bind_Ok.
    assert (Z.of_nat (length done) + 1 = Z.of_nat (length (done ++ [id]))) as ->.
    { rewrite length_app. simpl. lia. }
    destruct (IH (done ++ [id]) (<[N.to_nat id := Z.of_nat pos + 1]> cursor)
                (<[pos := Z.of_nat (length done)]> sort))
      as (sort' & Hrun & Hlen' & Hsort').
    + rewrite length_insert, <-app_assoc. done.
    + intros g Hg. rewrite <-app_assoc. simpl. fold ids.
      rewrite count_of_app, count_of_cons.
      assert (count_of [] g = 0%nat) as -> by done.
      destruct (decide (g = id)) as [->|Hne].
      * rewrite list_lookup_insert_eq by done.
        f_equal. rewrite decide_True by done. unfold pos. lia.
      * rewrite list_lookup_insert_ne by lia. rewrite (Hcur g Hg).
        f_equal. rewrite decide_False by done. lia.
    + intros p g Hp. rewrite <-app_assoc. simpl. fold ids.
      destruct (decide (p = length done)) as [->|Hne].
      * rewrite list_lookup_middle in Hp by done. injection Hp as <-.
        unfold slot_of. rewrite Htake. apply list_lookup_insert_eq. lia.
      * assert (done !! p = Some g) as Hp'.
        { apply lookup_lt_Some in Hp as Hlt. rewrite length_app in Hlt. simpl in Hlt.
          rewrite lookup_app_l in Hp by lia. done. }
        assert (ids !! p = Some g) as Hp''.
        { unfold ids. rewrite lookup_app_l; [done|]. by eapply lookup_lt_Some. }
        rewrite list_lookup_insert_ne; [by apply Hsort|].
        pose proof (slot_of_lt ids p g Hp'') as Hq.
        assert (slot_of ids p g = count_below ids g + count_of (take p done) g)%nat
          as Hqdef.
        { unfold slot_of, ids. rewrite take_app_le; [done|].
          apply lookup_lt_Some in Hp'. lia. }
        pose proof (count_of_take_lt done p g Hp') as Hlt.
        destruct (N.lt_total g id) as [Hgid|[->|Hgid]].
        -- pose proof (count_below_mono ids (g + 1) id ltac:(lia)). unfold pos. lia.
        -- unfold pos. lia.
        -- pose proof (count_below_mono ids (id + 1) g ltac:(lia)).
           unfold slot_of in *. lia.
    + exists sort'. rewrite <-app_assoc in Hsort'. simpl in Hsort'.
      split_and!; [done|by rewrite Hlen', length_insert|done].
Qed.

(** *** The positions of a group *)

Lemma positions_before ids g (p : nat) :
  (p ≤ length ids)%nat →
  length (filter (λ i, ids !! i = Some g) (seq 0 p)) = count_of (take p ids) g.
Proof.
  induction p as [|p IH]; intros Hp; [done|].
  destruct (lookup_lt_is_Some_2 ids p) as [id Hid]; [lia|].
  rewrite seq_S, list.filter_app, length_app, IH by lia.
  rewrite (take_S_r _ _ _ Hid), count_of_app. f_equal. simpl.
  rewrite filter_cons, Hid. unfold count_of. rewrite filter_cons.
  repeat case_decide; simplify_eq; done.
Qed.

Lemma length_positions_of ids g : length (positions_of ids g) = count_of ids g.
Proof.
  unfold positions_of. rewrite positions_before by done. by rewrite firstn_all.
Qed.

Lemma positions_of_slot ids g (p : nat) :
  ids !! p = Some g → positions_of ids g !! count_of (take p ids) g = Some p.
Proof.
  intros Hp. apply lookup_lt_Some in Hp as Hlt. unfold positions_of.
  assert (length ids = p + S (length ids - S p))%nat as -> by lia.
  rewrite seq_app, list.filter_app. simpl.
  rewrite filter_cons, decide_True by done.
  rewrite lookup_app_r; rewrite positions_before by lia; [|done].
  by rewrite Nat.sub_diag.
Qed.

Lemma NoDup_positions_of ids g : NoDup (positions_of ids g).
Proof. apply list.NoDup_filter, NoDup_seq. Qed.

Lemma positions_of_spec ids g (p : nat) : p ∈ positions_of ids g ↔ ids !! p = Some g.
Proof.
  unfold positions_of. rewrite list_elem_of_filter, elem_of_seq.
  split; [by intros [? _]|]. intros Hp. split; [done|].
  apply lookup_lt_Some in Hp. lia.
Qed.

End Groupings.

(** *** The builder as a whole *)

Lemma wrap32_small (n : N) : (n < 2 ^ 32)%N → wrap32 n = n.
Proof. intros Hn. unfold wrap32. by apply N.mod_small. Qed.

(** C5: for an id array without nulls whose ids are all below [num_groups]
    (and whose length and [num_groups + 1] fit their machine types),
    [MakeGroupings] returns [num_groups + 1] offsets, the first 0 and the last
    the number of ids, each group's pair of offsets apart by the size of the
    group, together with a permutation of the positions [0 .. n) whose slice
    between the two offsets of a group lists, in ascending order, exactly the
    positions that hold that group's id. *)
Theorem MakeGroupings_correct (debug : bool) (ids : UInt32Array) (num_groups : N) :
  null_count ids = 0 →
  Forall (λ id, (id < num_groups)%N) (arr_values ids) →
  (num_groups + 1 < 2 ^ 32)%N →
  arr_length ids ≤ INT32_MAX →
  ∃ offsets permutation,
    MakeGroupings debug ids num_groups = Ok (mkListArray num_groups offsets permutation)
    ∧ length offsets = (N.to_nat num_groups + 1)%nat
    ∧ offsets !! 0%nat = Some 0
    ∧ offsets !! N.to_nat num_groups = Some (arr_length ids)
    ∧ permutation ≡ₚ Z.of_nat <$> seq 0 (length (arr_values ids))
    ∧ ∀ g, (g < num_groups)%N →
        ∃ lo hi : nat,
          offsets !! N.to_nat g = Some (Z.of_nat lo)
          ∧ offsets !! (N.to_nat g + 1)%nat = Some (Z.of_nat hi)
          ∧ hi = (lo + count_of (arr_values ids) g)%nat
          ∧ take (hi - lo) (drop lo permutation)
            = Z.of_nat <$> positions_of (arr_values ids) g.
Proof.
  intros Hnull Hids Hng Hlen. destruct ids as [vs validity]. simpl in *.
  unfold MakeGroupings, arr_length in *. simpl in *.
  set (m := N.to_nat num_groups). set (n := length vs).
  rewrite Hnull. simpl. rewrite wrap32_small by done.
  destruct (Z.ltb_spec INT32_MAX (Z.of_nat n)) as [|_]; [lia|].
  destruct (count_ids_Ok debug num_groups vs (replicate (N.to_nat (num_groups + 1)) 0))
    as (raw1 & -> & Hlen1 & Hraw1); [done|rewrite length_replicate; lia|].
  rewrite length_replicate in Hlen1. rewrite bind_Ok.
  destruct (sum_offsets_Ok vs 0 m raw1) as (raw2 & Hrun2 & Hlen2 & Hin2 & Hout2).
  { simpl. lia. }
  { intros i Hi. rewrite Hraw1.
    rewrite (proj2 (lookup_replicate _ _ 0 i)) by (split; [done|lia]).
    simpl. done. }
  change (N.of_nat 0) with 0%N in Hrun2. rewrite count_below_0 in Hrun2.
  change (Z.of_nat 0) with 0 in Hrun2. simpl in Hrun2. rewrite Hrun2, bind_Ok. simpl.
  assert (N.of_nat m = num_groups) as Hm by (unfold m; lia).
  rewrite Hm, count_below_all by done. fold n.
  assert (Z.of_N num_groups = Z.of_nat m) as -> by lia.
  rewrite write_Ok by lia. rewrite bind_Ok, Z.eqb_refl, DCHECK_true, bind_Ok.
  set (offsets := <[m := Z.of_nat n]> raw2).
  assert (∀ g, (g ≤ num_groups)%N →
            offsets !! N.to_nat g = Some (Z.of_nat (count_below vs g))) as Hoffsets.
  { intros g Hg. unfold offsets. destruct (decide (g = num_groups)) as [->|Hne].
    - fold m. rewrite list_lookup_insert_eq by lia.
      by rewrite count_below_all.
    - rewrite list_lookup_insert_ne by lia.
      rewrite Hin2 by lia. by rewrite N2Nat.id. }
  destruct (place_ids_Ok num_groups [] vs offsets (replicate (Z.to_nat (Z.of_nat n)) 0))
    as (sort & Hrun & Hlens & Hsort).
  { done. }
  { rewrite length_replicate. simpl. lia. }
  { intros g Hg. simpl. rewrite Hoffsets by lia. f_equal. unfold count_of. simpl. lia. }
  { intros p g Hp. done. }
  simpl in Hrun, Hsort. change (Z.of_nat 0) with 0 in Hrun.
  rewrite Hrun, bind_Ok. rewrite length_replicate in Hlens.
  exists offsets, sort. split_and!.
  - done.
  - unfold offsets. rewrite length_insert. lia.
  - pose proof (Hoffsets 0%N ltac:(lia)) as H0. by rewrite count_below_0 in H0.
  - pose proof (Hoffsets num_groups ltac:(lia)) as Hlast.
    by rewrite count_below_all in Hlast.
  - symmetry. apply submseteq_length_Permutation.
    + apply NoDup_submseteq.
      * apply NoDup_fmap; [apply _|apply NoDup_seq].
      * intros x (p & -> & Hp)%list_elem_of_fmap. apply elem_of_seq in Hp.
        destruct (lookup_lt_is_Some_2 vs p) as [g Hg]; [lia|].
        apply list_elem_of_lookup. eauto.
    + rewrite length_fmap, length_seq. lia.
  - intros g Hg. exists (count_below vs g), (count_below vs (g + 1)).
    split_and!.
    + apply Hoffsets. lia.
    + assert (N.to_nat g + 1 = N.to_nat (g + 1))%nat as -> by lia.
      apply Hoffsets. lia.
    + apply count_below_succ.
    + rewrite count_below_succ.
      assert (count_below vs g + count_of vs g - count_below vs g = count_of vs g)%nat
        as -> by lia.
      apply list_eq. intros k. rewrite list_lookup_fmap.
      destruct (decide (k < count_of vs g)%nat) as [Hk|Hk].
      * rewrite lookup_take_lt, lookup_drop by done.
        destruct (lookup_lt_is_Some_2 (positions_of vs g) k) as [p Hp].
        { by rewrite length_positions_of. }
        rewrite Hp. simpl.
        assert (vs !! p = Some g) as Hpg.
        { apply positions_of_spec, list_elem_of_lookup. eauto. }
        pose proof (NoDup_lookup _ _ _ _ (NoDup_positions_of vs g) Hp
                      (positions_of_slot vs g p Hpg)) as ->.
        apply (Hsort p g Hpg).
      * rewrite lookup_take_ge by lia.
        symmetry. apply fmap_None, lookup_ge_None. rewrite length_positions_of. lia.
Qed.

Lemma MakeGroupings_correct_witness :
  ∃ offsets permutation,
    MakeGroupings true (mkUInt32Array [0; 2; 0; 1; 2; 0]%N None) 3
    = Ok (mkListArray 3 offsets permutation)
    ∧ length offsets = 4%nat
    ∧ offsets !! 0%nat = Some 0
    ∧ offsets !! 3%nat = Some 6
    ∧ permutation ≡ₚ Z.of_nat <$> seq 0 6
    ∧ ∀ g, (g < 3)%N →
        ∃ lo hi : nat,
          offsets !! N.to_nat g = Some (Z.of_nat lo)
          ∧ offsets !! (N.to_nat g + 1)%nat = Some (Z.of_nat hi)
          ∧ hi = (lo + count_of [0; 2; 0; 1; 2; 0]%N g)%nat
          ∧ take (hi - lo) (drop lo permutation)
            = Z.of_nat <$> positions_of [0; 2; 0; 1; 2; 0]%N g.
Proof.
  apply (MakeGroupings_correct true (mkUInt32Array [0; 2; 0; 1; 2; 0]%N None) 3).
  - reflexivity.
  - simpl. repeat constructor.
  - reflexivity.
  - vm_compute. discriminate.
Defined.

(** The groupings of the sixth scenario of the specification. *)
Example MakeGroupings_scenario :
  MakeGroupings true (mkUInt32Array [0; 2; 0; 1; 2; 0]%N None) 3
  = Ok (mkListArray 3 [0; 3; 4; 6] [0; 2; 5; 3; 1; 4]).
Proof. reflexivity. Qed.

(** *** What an invalid id array leads to *)

Lemma no_status_bind {A B : Type} (m : Outcome A) (k : A → Outcome B) :
  no_status m → (∀ a, no_status (k a)) → no_status (m ≫= k).
Proof.
  intros Hm Hk s. destruct m as [a|s'| |]; try done.
  - apply Hk.
  - by destruct (Hm s').
Qed.

Lemma no_status_read {A : Type} (buf : list A) i : no_status (read buf i).
Proof. intros s. unfold read. by repeat case_match. Qed.

Lemma no_status_write {A : Type} (buf : list A) i x : no_status (write buf i x).
Proof. intros s. unfold write. by case_match. Qed.

Lemma no_status_DCHECK debug cond : no_status (DCHECK debug cond).
Proof. intros s. unfold DCHECK. by case_match. Qed.

Lemma no_status_count_ids debug num_groups ids raw :
  no_status (count_ids debug num_groups ids raw).
Proof.
  revert raw. induction ids as [|id ids IH]; intros raw; [done|]. simpl.
  apply no_status_bind; [apply no_status_DCHECK|]. intros _.
  apply no_status_bind; [apply no_status_read|]. intros c.
  apply no_status_bind; [apply no_status_write|]. intros raw'. apply IH.
Qed.

Lemma no_status_sum_offsets ids raw length : no_status (sum_offsets ids raw length).
Proof.
  revert raw length. induction ids as [|id ids IH]; intros raw length; [done|]. simpl.
  apply no_status_bind; [apply no_status_read|]. intros c.
  apply no_status_bind; [apply no_status_write|]. intros raw'. apply IH.
Qed.

Lemma no_status_place_ids ids i raw sort : no_status (place_ids ids i raw sort).
Proof.
  revert i raw sort. induction ids as [|id ids IH]; intros i raw sort; [done|]. simpl.
  apply no_status_bind; [apply no_status_read|]. intros c.
  apply no_status_bind; [apply no_status_write|]. intros raw'.
  apply no_status_bind; [apply no_status_write|]. intros sort'. apply IH.
Qed.

Lemma count_ids_Abort num_groups ids raw :
  Exists (λ id, (num_groups ≤ id)%N) ids →
  (N.to_nat num_groups < length raw)%nat →
  count_ids true num_groups ids raw = Abort.
Proof.
  revert raw. induction ids as [|id ids IH]; intros raw Hbad Hlen.
  - by apply Exists_nil in Hbad.
  - simpl. destruct (N.ltb_spec id num_groups) as [Hid|Hid]; [|done].
    rewrite DCHECK_true, bind_Ok.
    destruct (lookup_lt_is_Some_2 raw (N.to_nat id)) as [c Hc]; [lia|].
    assert (Z.of_N id = Z.of_nat (N.to_nat id)) as -> by lia.
    rewrite (read_Ok _ _ _ Hc), bind_Ok, write_Ok by lia. rewrite bind_Ok.
    apply IH; [|rewrite length_insert; lia].
    apply Exists_cons in Hbad as [Hbad|Hbad]; [lia|done].
Qed.

(** C6, as stated, fails on an id equal to [num_groups]: a debug build aborts
    on its assertion, a release build returns groupings. *)
Lemma MakeGroupings_id_out_of_range_is_no_error :
  MakeGroupings true (mkUInt32Array [0; 3]%N None) 3 ≠ Fail Invalid
  ∧ MakeGroupings false (mkUInt32Array [0; 3]%N None) 3 ≠ Fail Invalid.
Proof. split; vm_compute; discriminate. Qed.

(** C6 (amended): [MakeGroupings] fails with the status Invalid when the id
    array contains nulls, and with no status at all when it contains none; an
    id at or above [num_groups] is caught by a debug assertion only, on which
    a debug build aborts. *)
Theorem MakeGroupings_errors (debug : bool) (ids : UInt32Array) (num_groups : N) :
  (null_count ids ≠ 0 → MakeGroupings debug ids num_groups = Fail Invalid)
  ∧ (null_count ids = 0 → no_status (MakeGroupings debug ids num_groups))
  ∧ (null_count ids = 0 →
     Exists (λ id, (num_groups ≤ id)%N) (arr_values ids) →
     (num_groups + 1 < 2 ^ 32)%N → arr_length ids ≤ INT32_MAX →
     MakeGroupings true ids num_groups = Abort).
Proof.
  unfold MakeGroupings. split_and!.
  - intros Hnull. by destruct (Z.eqb_spec (null_count ids) 0).
  - intros -> s. simpl. case_match; [done|].
    revert s. apply no_status_bind; [apply no_status_count_ids|]. intros raw.
    apply no_status_bind; [apply no_status_sum_offsets|]. intros [raw' len].
    apply no_status_bind; [apply no_status_write|]. intros raw''.
    apply no_status_bind; [apply no_status_DCHECK|]. intros _.
    apply no_status_bind; [apply no_status_place_ids|]. by intros sort s.
  - intros -> Hbad Hng Hlen. simpl.
    destruct (Z.ltb_spec INT32_MAX (arr_length ids)) as [|_]; [lia|].
    rewrite count_ids_Abort; [done..|].
    rewrite length_replicate, wrap32_small by done. lia.
Qed.

Lemma MakeGroupings_errors_witness :
  MakeGroupings false (mkUInt32Array [0; 7]%N (Some [true; false])) 3 = Fail Invalid
  ∧ no_status (MakeGroupings true (mkUInt32Array [0; 3]%N None) 3)
  ∧ MakeGroupings true (mkUInt32Array [0; 3]%N None) 3 = Abort.
Proof.
  split_and!.
  - apply (proj1 (MakeGroupings_errors false _ 3)). vm_compute. discriminate.
  - apply (proj1 (proj2 (MakeGroupings_errors true _ 3))). reflexivity.
  - apply (proj2 (proj2 (MakeGroupings_errors true (mkUInt32Array [0; 3]%N None) 3))).
    + reflexivity.
    + simpl. apply Exists_cons_tl, Exists_cons_hd. vm_compute. discriminate.
    + reflexivity.
    + vm_compute. discriminate.
Defined.

(** ** Batches and their rows *)

Lemma list_as_lookups {A : Type} (d : A) (l : list A) :
  (λ i, default d (l !! i)) <$> seq 0 (length l) = l.
Proof.
  apply list_eq. intros i. rewrite list_lookup_fmap.
  destruct (decide (i < length l)%nat) as [Hi|Hi].
  - rewrite lookup_seq_lt by done. simpl.
    destruct (lookup_lt_is_Some_2 l i Hi) as [x Hx]. by rewrite Hx.
  - rewrite lookup_seq_ge by lia. symmetry. apply lookup_ge_None. lia.
Qed.

Lemma column_cells_conforms (n : Z) (ty : DataType) (v : ExecValue) :
  0 ≤ n → value_conforms n ty v = true →
  column_cells v (Z.to_nat n) = Ok (cell_at v <$> seq 0 (Z.to_nat n))
  ∧ value_type v = ty
  ∧ ∀ i : nat, (i < Z.to_nat n)%nat → cell_conforms ty (cell_at v i) = true.
Proof.
  intros Hn Hv. destruct v as [ty' c|ty' cs]; simpl in *.
  - apply andb_true_iff in Hv as [->%bool_decide_eq_true Hc]. split_and!; [|done..].
    f_equal. apply list_eq. intros i. rewrite list_lookup_fmap.
    destruct (decide (i < Z.to_nat n)%nat) as [Hi|Hi].
    + rewrite lookup_seq_lt by done. simpl. by apply lookup_replicate.
    + rewrite lookup_seq_ge by lia. apply lookup_replicate_None. lia.
  - apply andb_true_iff in Hv as [Hv Hcs].
    apply andb_true_iff in Hv as [->%bool_decide_eq_true Hlen%bool_decide_eq_true].
    assert (Z.to_nat n = length cs) as -> by lia. split_and!.
    + rewrite decide_True by done. rewrite firstn_all. f_equal.
      symmetry. apply (list_as_lookups None cs).
    + done.
    + intros i Hi. unfold Cell in *.
      destruct (lookup_lt_is_Some_2 cs i Hi) as [c Hc]. rewrite Hc. simpl.
      rewrite forallb_forall in Hcs. apply Hcs. apply list_elem_of_In.
      apply list_elem_of_lookup. eauto.
Qed.

Lemma values_conform_length n key_types vals :
  values_conform n key_types vals = true → length vals = length key_types.
Proof.
  revert vals. induction key_types as [|ty key_types IH]; intros [|v vals] Hc;
    simpl in *; try done.
  apply andb_true_iff in Hc as [_ Hc]. f_equal. by apply IH.
Qed.

Lemma values_conform_row n key_types vals (i : nat) :
  0 ≤ n → values_conform n key_types vals = true → (i < Z.to_nat n)%nat →
  row_conforms key_types ((λ v, cell_at v i) <$> vals) = true.
Proof.
  intros Hn. revert vals. induction key_types as [|ty key_types IH]; intros [|v vals] Hc Hi;
    simpl in *; try done.
  apply andb_true_iff in Hc as [Hv Hc]. apply andb_true_iff. split; [|by apply IH].
  by apply (column_cells_conforms n ty v Hn Hv).
Qed.

Lemma batch_rows_conform key_types batch :
  batch_conforms key_types batch = true →
  Forall (λ r, row_conforms key_types r = true) (batch_rows batch).
Proof.
  intros [Hn%Z.leb_le Hc]%andb_true_iff. apply list.Forall_forall.
  intros r (i & -> & Hi)%list_elem_of_fmap. apply elem_of_seq in Hi.
  apply (values_conform_row (batch_length batch)); [done..|lia].
Qed.

Lemma length_batch_rows batch : length (batch_rows batch) = Z.to_nat (batch_length batch).
Proof. unfold batch_rows. by rewrite length_fmap, length_seq. Qed.

Lemma row_conforms_length key_types r :
  row_conforms key_types r = true → length r = length key_types.
Proof.
  revert r. induction key_types as [|ty key_types IH]; intros [|c r] Hc;
    simpl in *; try done.
  apply andb_true_iff in Hc as [_ Hc]. f_equal. by apply IH.
Qed.

(** *** Slices *)

Lemma value_conforms_slice n ty v (offset len : Z) :
  value_conforms n ty v = true → 0 ≤ offset → 0 ≤ len → offset + len ≤ n →
  value_conforms len ty
    match v with
    | Scalar ty' c => Scalar ty' c
    | Array ty' cs => Array ty' (take (Z.to_nat len) (drop (Z.to_nat offset) cs))
    end = true.
Proof.
  intros Hv Hoff Hlen Hle. destruct v as [ty' c|ty' cs]; simpl in *; [done|].
  apply andb_true_iff in Hv as [Hv Hcs].
  apply andb_true_iff in Hv as [->%bool_decide_eq_true Hn%bool_decide_eq_true].
  rewrite bool_decide_eq_true_2 by done. simpl. apply andb_true_iff. split.
  - apply bool_decide_eq_true. rewrite length_take, length_drop. lia.
  - rewrite forallb_forall in *. intros c Hin. apply Hcs.
    apply list_elem_of_In in Hin. apply list_elem_of_In.
    apply list_elem_of_lookup in Hin as [i Hi].
    apply lookup_take_Some in Hi as [Hi _]. rewrite lookup_drop in Hi.
    apply list_elem_of_lookup. eauto.
Qed.

Lemma values_conform_slice n key_types vals (offset len : Z) :
  values_conform n key_types vals = true → 0 ≤ offset → 0 ≤ len → offset + len ≤ n →
  values_conform len key_types
    ((λ v, match v with
           | Scalar ty' c => Scalar ty' c
           | Array ty' cs => Array ty' (take (Z.to_nat len) (drop (Z.to_nat offset) cs))
           end) <$> vals) = true.
Proof.
  intros Hc Hoff Hlen Hle. revert vals Hc.
  induction key_types as [|ty key_types IH]; intros [|v vals] Hc; simpl in *; try done.
  apply andb_true_iff in Hc as [Hv Hc]. apply andb_true_iff. split; [|by apply IH].
  by apply (value_conforms_slice n).
Qed.

Lemma cell_at_slice v (offset len : Z) (i : nat) :
  0 ≤ offset → (i < Z.to_nat len)%nat →
  cell_at match v with
          | Scalar ty' c => Scalar ty' c
          | Array ty' cs => Array ty' (take (Z.to_nat len) (drop (Z.to_nat offset) cs))
          end i
  = cell_at v (Z.to_nat offset + i).
Proof.
  intros Hoff Hi. destruct v as [ty' c|ty' cs]; simpl; [done|].
  by rewrite lookup_take_lt, lookup_drop.
Qed.

Lemma Slice_conforms key_types batch (offset length : Z) :
  batch_conforms key_types batch = true →
  0 ≤ offset ≤ batch_length batch → 0 ≤ length →
  batch_conforms key_types (Slice batch offset length) = true
  ∧ batch_rows (Slice batch offset length)
    = take (Z.to_nat length) (drop (Z.to_nat offset) (batch_rows batch)).
Proof.
  intros [Hn%Z.leb_le Hc]%andb_true_iff Hoff Hlen.
  unfold batch_conforms, Slice. simpl.
  set (len := Z.min length (batch_length batch - offset)).
  split.
  - apply andb_true_iff. split; [apply Z.leb_le; lia|].
    apply (values_conform_slice (batch_length batch)); [done|lia..].
  - unfold batch_rows. simpl. fold len.
    rewrite <-fmap_drop, <-fmap_take, drop_seq, take_seq.
    assert (Z.to_nat length `min` (Z.to_nat (batch_length batch) - Z.to_nat offset)
            = Z.to_nat len)%nat as -> by lia.
    apply list_eq. intros i. rewrite !list_lookup_fmap.
    destruct (decide (i < Z.to_nat len)%nat) as [Hi|Hi].
    + rewrite !lookup_seq_lt by done. simpl. f_equal. unfold row_at. simpl.
      rewrite <-list_fmap_compose. apply list_fmap_ext. intros j v _. simpl.
      apply cell_at_slice; [lia|done].
    + by rewrite !lookup_seq_ge by lia.
Qed.

(** What [ConsumeImpl] does with its offset and length: it works on a batch of
    the key schema whose rows are the rows the call is about. *)
Lemma call_rows_cases key_types batch (offset length : Z) :
  call_ok key_types batch offset = true →
  ∃ length',
    CheckAndCapLengthForConsume (batch_length batch) offset length = Ok length'
    ∧ 0 ≤ length'
    ∧ (length < 0 → length' = batch_length batch - offset)
    ∧ (0 ≤ length → length' = length)
    ∧ call_rows batch offset length
      = take (Z.to_nat length') (drop (Z.to_nat offset) (batch_rows batch)).
Proof.
  intros [[Hc Hoff%Z.leb_le]%andb_true_iff Hend%Z.leb_le]%andb_true_iff.
  unfold CheckAndCapLengthForConsume, call_rows.
  destruct (Z.ltb_spec offset 0); [lia|].
  destruct (Z.ltb_spec length 0).
  - eexists. split_and!; [done|lia|done|lia|done].
  - eexists. split_and!; [done|lia|lia|done|done].
Qed.

(** ** Group ids in order of first appearance *)

Lemma find_key_Some known r (i : nat) :
  find_key known r = Some i → known !! i = Some r.
Proof.
  revert i. induction known as [|k known IH]; intros i; simpl; [done|].
  case_decide as Hk; [by intros [= <-]; subst|].
  destruct (find_key known r) as [j|]; [|done]. intros [= <-]. by apply IH.
Qed.

Lemma find_key_None known r : find_key known r = None ↔ r ∉ known.
Proof.
  induction known as [|k known IH]; simpl.
  - split; [intros _; apply not_elem_of_nil|done].
  - rewrite not_elem_of_cons. case_decide as Hk.
    + split; [done|]. intros [? _]. congruence.
    + destruct (find_key known r) as [j|] eqn:Hj; simpl.
      * split; [done|]. intros [_ Hr]. by apply IH in Hr.
      * split; [|done]. intros _. split; [congruence|]. by apply IH.
Qed.

Lemma find_key_lt known r (i : nat) : find_key known r = Some i → (i < length known)%nat.
Proof. intros Hi%find_key_Some. by eapply lookup_lt_Some. Qed.

Lemma find_key_app known more r :
  find_key (known ++ more) r
  = match find_key known r with
    | Some i => Some i
    | None => (λ i, length known + i)%nat <$> find_key more r
    end.
Proof.
  induction known as [|k known IH]; simpl.
  - by destruct (find_key more r).
  - case_decide; [done|]. rewrite IH.
    destruct (find_key known r); [done|]. by destruct (find_key more r).
Qed.

Lemma find_key_snoc known k r :
  find_key (known ++ [k]) r
  = match find_key known r with
    | Some i => Some i
    | None => if decide (k = r) then Some (length known) else None
    end.
Proof.
  rewrite find_key_app. destruct (find_key known r); [done|]. simpl.
  case_decide; simpl; [f_equal; lia|done].
Qed.

Lemma find_key_lookup known r (i : nat) :
  NoDup known → known !! i = Some r → find_key known r = Some i.
Proof.
  intros Hnd Hi. destruct (find_key known r) as [j|] eqn:Hj.
  - f_equal. eapply NoDup_lookup; [done|by apply find_key_Some|done].
  - apply find_key_None in Hj. destruct Hj. apply list_elem_of_lookup. eauto.
Qed.

Lemma assign_ids_app known rows1 rows2 :
  assign_ids known (rows1 ++ rows2)
  = ((assign_ids known rows1).1 ++ (assign_ids (assign_ids known rows1).2 rows2).1,
     (assign_ids (assign_ids known rows1).2 rows2).2).
Proof.
  revert known. induction rows1 as [|r rows1 IH]; intros known; simpl.
  - by destruct (assign_ids known rows2).
  - destruct (assign_id known r) as [i known1]. rewrite IH.
    destruct (assign_ids known1 rows1) as [ids1 known2]. simpl.
    by destruct (assign_ids known2 rows2).
Qed.

Lemma assign_ids_length known rows : length (assign_ids known rows).1 = length rows.
Proof.
  revert known. induction rows as [|r rows IH]; intros known; simpl; [done|].
  destruct (assign_id known r) as [i known1]. specialize (IH known1).
  destruct (assign_ids known1 rows). simpl in *. by f_equal.
Qed.

Lemma assign_id_grows known r :
  ∃ more, (assign_id known r).2 = known ++ more ∧ (length more ≤ 1)%nat.
Proof.
  unfold assign_id. destruct (find_key known r).
  - exists []. split; [by rewrite app_nil_r|simpl; lia].
  - exists [r]. split; [done|simpl; lia].
Qed.

Lemma assign_ids_grows known rows :
  ∃ more, (assign_ids known rows).2 = known ++ more ∧ (length more ≤ length rows)%nat.
Proof.
  revert known. induction rows as [|r rows IH]; intros known; simpl.
  - exists []. split; [by rewrite app_nil_r|simpl; lia].
  - destruct (assign_id_grows known r) as (m1 & Hm1 & Hl1).
    destruct (assign_id known r) as [i known1]. simpl in Hm1. subst known1.
    destruct (IH (known ++ m1)) as (m2 & Hm2 & Hl2).
    destruct (assign_ids (known ++ m1) rows) as [ids known2]. simpl in *. subst known2.
    exists (m1 ++ m2). rewrite app_assoc, length_app. split; [done|lia].
Qed.

Lemma assign_ids_length_known known rows :
  (length known ≤ length (assign_ids known rows).2 ≤ length known + length rows)%nat.
Proof.
  destruct (assign_ids_grows known rows) as (more & -> & Hlen). rewrite length_app. lia.
Qed.

Lemma assign_id_NoDup known r : NoDup known → NoDup (assign_id known r).2.
Proof.
  intros Hnd. unfold assign_id. destruct (find_key known r) eqn:Hr; [done|].
  simpl. apply list.NoDup_app. split_and!; [done| |apply NoDup_singleton].
  intros x Hx ->%list_elem_of_singleton. by apply find_key_None in Hr.
Qed.

Lemma assign_ids_NoDup known rows : NoDup known → NoDup (assign_ids known rows).2.
Proof.
  revert known. induction rows as [|r rows IH]; intros known Hnd; simpl; [done|].
  pose proof (assign_id_NoDup known r Hnd) as Hnd1.
  destruct (assign_id known r) as [i known1]. specialize (IH known1 Hnd1).
  by destruct (assign_ids known1 rows).
Qed.

Lemma assign_id_conforms key_types known r :
  Forall (λ r, row_conforms key_types r = true) known →
  row_conforms key_types r = true →
  Forall (λ r, row_conforms key_types r = true) (assign_id known r).2.
Proof.
  intros Hk Hr. unfold assign_id. destruct (find_key known r); [done|].
  simpl. apply Forall_app. split; [done|]. by apply Forall_singleton.
Qed.

Lemma assign_ids_conforms key_types known rows :
  Forall (λ r, row_conforms key_types r = true) known →
  Forall (λ r, row_conforms key_types r = true) rows →
  Forall (λ r, row_conforms key_types r = true) (assign_ids known rows).2.
Proof.
  intros Hk Hr. revert known Hk. induction Hr as [|r rows Hr _ IH]; intros known Hk;
    simpl; [done|].
  pose proof (assign_id_conforms key_types known r Hk Hr) as Hk1.
  destruct (assign_id known r) as [i known1]. specialize (IH known1 Hk1).
  by destruct (assign_ids known1 rows).
Qed.

(** Every id is the position of its row among the keys known in the end. *)
Lemma assign_ids_find known rows (i id : nat) r :
  rows !! i = Some r → (assign_ids known rows).1 !! i = Some id →
  find_key (assign_ids known rows).2 r = Some id.
Proof.
  revert known i. induction rows as [|r0 rows IH]; intros known i Hr Hid; [done|].
  simpl in *. destruct (assign_id known r0) as [i0 known1] eqn:H0.
  specialize (IH known1).
  destruct (assign_ids_grows known1 rows) as (more & Hmore & _).
  destruct (assign_ids known1 rows) as [ids known2]. simpl in *. subst known2.
  destruct i as [|i]; simpl in *; [|by eapply IH].
  injection Hr as <-. injection Hid as <-. rewrite find_key_app.
  unfold assign_id in H0. destruct (find_key known r0) as [j|] eqn:Hj.
  - injection H0 as <- <-. by rewrite Hj.
  - injection H0 as <- <-. by rewrite find_key_snoc, Hj, decide_True.
Qed.

(** Two rows of a call get the same id exactly when they are the same key. *)
Lemma assign_ids_same_id known rows (i j idi idj : nat) ri rj :
  NoDup known →
  rows !! i = Some ri → rows !! j = Some rj →
  (assign_ids known rows).1 !! i = Some idi → (assign_ids known rows).1 !! j = Some idj →
  idi = idj ↔ ri = rj.
Proof.
  intros Hnd Hri Hrj Hi Hj.
  pose proof (assign_ids_find known rows i idi ri Hri Hi) as Hfi.
  pose proof (assign_ids_find known rows j idj rj Hrj Hj) as Hfj.
  apply find_key_Some in Hfi as Hli. apply find_key_Some in Hfj as Hlj.
  split.
  - intros <-. congruence.
  - intros <-. congruence.
Qed.

Lemma key_equal_eq r1 r2 : key_equal r1 r2 = true ↔ r1 = r2.
Proof.
  revert r2. induction r1 as [|a r1 IH]; intros [|b r2]; simpl; try done.
  rewrite andb_true_iff, IH. split.
  - intros [Hab ->]. f_equal. destruct a, b; simpl in *; try done.
    by apply bool_decide_eq_true in Hab as ->.
  - intros [= -> ->]. split; [|done]. destruct b; simpl; [|done].
    by apply bool_decide_eq_true.
Qed.

(** ** The keys of the fallback grouper *)

Section FallbackKeys.
Context `{KeyEncoder}.

Lemma laws_cell_law key_types `{!KeyEncoderLaws key_types} : Forall cell_law key_types.
Proof.
  apply list.Forall_forall. intros ty Hty c rest Hc. by apply Decode_Encode.
Qed.

Lemma row_bytes_cons ty key_types c r :
  row_bytes (ty :: key_types) (c :: r) = Encode ty c ++ row_bytes key_types r.
Proof. done. Qed.

Lemma decode_row_bytes_encode key_types r rest :
  Forall cell_law key_types → row_conforms key_types r = true →
  decode_row_bytes key_types (row_bytes key_types r ++ rest) = Some (r, rest).
Proof.
  intros Hlaws. revert r. induction Hlaws as [|ty key_types Hty _ IH]; intros [|c r] Hr;
    simpl in *; try done.
  apply andb_true_iff in Hr as [Hc Hr].
  rewrite row_bytes_cons, <-app_assoc, (Hty c _ Hc). by rewrite (IH r Hr).
Qed.

Lemma row_bytes_inj key_types r1 r2 :
  Forall cell_law key_types →
  row_conforms key_types r1 = true → row_conforms key_types r2 = true →
  row_bytes key_types r1 = row_bytes key_types r2 → r1 = r2.
Proof.
  intros Hlaws H1 H2 Heq.
  pose proof (decode_row_bytes_encode key_types r1 [] Hlaws H1) as Hd1.
  pose proof (decode_row_bytes_encode key_types r2 [] Hlaws H2) as Hd2.
  rewrite Heq in Hd1. congruence.
Qed.

(** A schema whose key can be empty has a single key. *)
Lemma empty_key_unique key_types r1 r2 :
  Forall cell_law key_types →
  row_conforms key_types r1 = true → row_conforms key_types r2 = true →
  row_bytes key_types r1 = [] → r1 = r2.
Proof.
  intros Hlaws H1 H2 Hempty.
  pose proof (decode_row_bytes_encode key_types r1 (row_bytes key_types r2 ++ []) Hlaws H1)
    as Hd1.
  pose proof (decode_row_bytes_encode key_types r2 [] Hlaws H2) as Hd2.
  rewrite Hempty in Hd1. simpl in Hd1. congruence.
Qed.

(** *** Offsets of keys *)

Lemma offset_of_0 (keys : list (list byte)) : offset_of keys 0 = 0.
Proof. done. Qed.

Lemma offset_of_S (keys : list (list byte)) (i : nat) k :
  keys !! i = Some k → offset_of keys (S i) = offset_of keys i + Z.of_nat (length k).
Proof.
  intros Hk. unfold offset_of. rewrite (take_S_r _ _ _ Hk), join_app, length_app.
  simpl. rewrite app_nil_r. lia.
Qed.

Lemma offset_of_all (keys : list (list byte)) (i : nat) :
  (length keys ≤ i)%nat → offset_of keys i = Z.of_nat (length (mjoin keys)).
Proof. intros Hi. unfold offset_of. by rewrite firstn_all2. Qed.

Lemma offset_of_app_l (keys more : list (list byte)) (i : nat) :
  (i ≤ length keys)%nat → offset_of (keys ++ more) i = offset_of keys i.
Proof. intros Hi. unfold offset_of. by rewrite take_app_le. Qed.

Lemma slice_bytes_middle (pre k post : list byte) :
  slice_bytes (pre ++ k ++ post) (Z.of_nat (length pre)) (Z.of_nat (length k)) = Ok k.
Proof.
  unfold slice_bytes, advance. rewrite !length_app.
  destruct (Z.ltb_spec (Z.of_nat (length pre)) 0); [lia|].
  destruct (Z.ltb_spec (Z.of_nat (length k)) 0); [lia|].
  match goal with |- context [Z.ltb ?a ?b] => destruct (Z.ltb_spec a b) as [Hlt|_] end;
    [lia|]. simpl.
  by rewrite !Nat2Z.id, drop_app_length, take_app_length.
Qed.

Lemma key_at_offset (keys : list (list byte)) (i : nat) k :
  keys !! i = Some k →
  slice_bytes (mjoin keys) (offset_of keys i) (offset_of keys (S i) - offset_of keys i)
  = Ok k.
Proof.
  intros Hk. rewrite (offset_of_S _ _ _ Hk).
  assert (offset_of keys i + Z.of_nat (length k) - offset_of keys i
          = Z.of_nat (length k)) as -> by lia.
  unfold offset_of.
  assert (mjoin keys = mjoin (take i keys) ++ k ++ mjoin (drop (S i) keys)) as ->.
  { rewrite <-(take_drop_middle keys i k Hk) at 1. by rewrite join_app. }
  apply slice_bytes_middle.
Qed.

(** *** The encoding of a batch *)

Lemma rows_of_batch batch :
  rows_of (values batch) (Z.to_nat (batch_length batch)) = batch_rows batch.
Proof. done. Qed.

Lemma add_lengths_Ok (n : Z) key_types vals lengths :
  0 ≤ n → values_conform n key_types vals = true →
  ∃ lengths',
    GrouperImpl.add_lengths key_types vals (Z.to_nat n) lengths = Ok lengths'
    ∧ ∀ i : nat, lengths' !! i
        = if decide (i < Z.to_nat n)%nat
          then (λ l, l + Z.of_nat (length (row_bytes key_types
                                             ((λ v, cell_at v i) <$> vals))))
                 <$> lengths !! i
          else lengths !! i.
Proof.
  intros Hn. revert vals lengths.
  induction key_types as [|ty key_types IH]; intros [|v vals] lengths Hc;
    simpl in *; try done.
  - exists lengths. split; [done|]. intros i. case_decide; [|done].
    destruct (lengths !! i); simpl; [|done]. f_equal. unfold row_bytes. simpl. lia.
  - apply andb_true_iff in Hc as [Hv Hc].
    destruct (column_cells_conforms n ty v Hn Hv) as (Hcells & _ & _).
    unfold GrouperImpl.AddLength. rewrite Hcells, !bind_Ok.
    destruct (IH vals (zip_with
                (λ (l : Z) (c : Cell), l + Z.of_nat (length (Encode ty c)))
                (take (Z.to_nat n) lengths) (cell_at v <$> seq 0 (Z.to_nat n))
                ++ drop (Z.to_nat n) lengths) Hc) as (lengths' & -> & Hl').
    exists lengths'. split; [done|]. intros i. rewrite Hl'.
    destruct (decide (i < Z.to_nat n)%nat) as [Hi|Hi].
    + destruct (decide (i < length lengths)%nat) as [Hil|Hil].
      * destruct (lookup_lt_is_Some_2 lengths i Hil) as [l Hl].
        rewrite lookup_app_l.
        2:{ rewrite length_zip_with, length_take, length_fmap, length_seq. lia. }
        rewrite lookup_zip_with, lookup_take_lt, Hl, list_lookup_fmap by done.
        rewrite lookup_seq_lt by done. rewrite Nat.add_0_l. simpl. f_equal.
        fold_list_fmap. rewrite row_bytes_cons, length_app. lia.
      * assert (lengths !! i = None) as Hnone by (apply lookup_ge_None; lia).
        rewrite Hnone. simpl. rewrite (proj2 (lookup_ge_None _ _)); [done|].
        rewrite length_app, length_zip_with, length_take, length_drop. lia.
    + destruct (decide (Z.to_nat n ≤ length lengths)%nat) as [Hle|Hle].
      * rewrite lookup_app_r.
        2:{ rewrite length_zip_with, length_take, length_fmap, length_seq. lia. }
        rewrite length_zip_with, length_take, length_fmap, length_seq, lookup_drop.
        f_equal. lia.
      * rewrite !(proj2 (lookup_ge_None _ _)); [done|lia|].
        rewrite length_app, length_zip_with, length_take, length_drop. lia.
Qed.

Lemma encode_columns_Ok (n : Z) key_types vals regions :
  0 ≤ n → values_conform n key_types vals = true → length regions = Z.to_nat n →
  GrouperImpl.encode_columns key_types vals (Z.to_nat n) regions
  = Ok (zip_with (λ region r, region ++ row_bytes key_types r)
          regions (rows_of vals (Z.to_nat n))).
Proof.
  intros Hn. revert vals regions.
  induction key_types as [|ty key_types IH]; intros [|v vals] regions Hc Hlen;
    simpl in *; try done.
  - f_equal. apply list_eq. intros i. unfold rows_of.
    rewrite lookup_zip_with, list_lookup_fmap.
    destruct (regions !! i) as [region|] eqn:Hr; simpl; [|done].
    apply lookup_lt_Some in Hr as Hi. rewrite lookup_seq_lt by lia. simpl.
    unfold row_bytes. simpl. by rewrite app_nil_r.
  - apply andb_true_iff in Hc as [Hv Hc].
    destruct (column_cells_conforms n ty v Hn Hv) as (Hcells & _ & _).
    unfold GrouperImpl.EncodeColumn. rewrite Hcells, !bind_Ok.
    rewrite IH; [|done|].
    2:{ rewrite length_zip_with, length_fmap, length_seq. lia. }
    f_equal. apply list_eq. intros i. unfold rows_of.
    rewrite !lookup_zip_with, !list_lookup_fmap.
    destruct (regions !! i) as [region|] eqn:Hr; simpl; [|done].
    apply lookup_lt_Some in Hr as Hi. rewrite lookup_seq_lt by lia.
    rewrite Nat.add_0_l. simpl. fold_list_fmap. by rewrite row_bytes_cons, app_assoc.
Qed.

Lemma offset_of_mono (keys : list (list byte)) (i j : nat) :
  (i ≤ j)%nat → offset_of keys i ≤ offset_of keys j.
Proof.
  intros Hij. unfold offset_of.
  rewrite <-(take_drop i (take j keys)), take_take, Nat.min_l by lia.
  rewrite join_app, length_app. lia.
Qed.

Lemma offset_of_bound (keys : list (list byte)) (i : nat) :
  0 ≤ offset_of keys i ≤ Z.of_nat (length (mjoin keys)).
Proof.
  unfold offset_of. split; [lia|].
  assert (mjoin keys = mjoin (take i keys) ++ mjoin (drop i keys)) as ->.
  { by rewrite <-join_app, take_drop. }
  rewrite length_app. lia.
Qed.

Lemma offsets_loop_Ok (keys : list (list byte)) (j k : nat) offs :
  (k + j ≤ length keys)%nat → (length keys < length offs)%nat →
  Z.of_nat (length (mjoin keys)) ≤ INT32_MAX →
  (∀ i : nat, (k ≤ i < k + j)%nat →
     offs !! i = (λ key, Z.of_nat (length key)) <$> keys !! i) →
  ∃ offs',
    GrouperImpl.offsets_loop j (Z.of_nat k) offs (offset_of keys k)
    = Ok (offs', offset_of keys (k + j))
    ∧ length offs' = length offs
    ∧ (∀ i : nat, (k ≤ i < k + j)%nat → offs' !! i = Some (offset_of keys i))
    ∧ (∀ i : nat, ¬ (k ≤ i < k + j)%nat → offs' !! i = offs !! i).
Proof.
  revert k offs. induction j as [|j IH]; intros k offs Hkj Hlen Hfit Hoffs.
  - exists offs. rewrite Nat.add_0_r. split_and!; [done..|intros; lia|done].
  - simpl. destruct (lookup_lt_is_Some_2 keys k) as [key Hkey]; [lia|].
    pose proof (Hoffs k ltac:(lia)) as Hk. rewrite Hkey in Hk. simpl in Hk.
    rewrite (read_Ok _ _ _ Hk), bind_Ok.
    rewrite <-(offset_of_S _ _ _ Hkey).
    pose proof (offset_of_bound keys (S k)) as Hbound.
    rewrite int32_Ok by (unfold INT32_MIN; lia).
    rewrite bind_Ok, write_Ok by lia. rewrite bind_Ok.
    assert (Z.of_nat k + 1 = Z.of_nat (S k)) as -> by lia.
    destruct (IH (S k) (<[k := offset_of keys k]> offs)) as (offs' & Hrun & Hlen' & Hin & Hout).
    { lia. }
    { rewrite length_insert. lia. }
    { done. }
    { intros i Hi. rewrite list_lookup_insert_ne by lia. apply Hoffs. lia. }
    exists offs'. assert (k + S j = S k + j)%nat as -> by lia.
    split_and!; [done|by rewrite Hlen', length_insert| |].
    + intros i Hi. destruct (decide (i = k)) as [->|Hne].
      * rewrite Hout by lia. apply list_lookup_insert_eq. lia.
      * apply Hin. lia.
    + intros i Hi. rewrite Hout by lia. apply list_lookup_insert_ne. lia.
Qed.

End FallbackKeys.

(** ** The fallback grouper holds its keys *)

Section Fallback.
Context `{KeyEncoder}.
Variable key_types : list DataType.
Hypothesis Hlaws : Forall cell_law key_types.

#[local] Abbreviation conforms := (λ r, row_conforms key_types r = true).

Lemma encode_phase st batch :
  GrouperImpl.encoders_ st = key_types →
  batch_conforms key_types batch = true →
  Z.of_nat (rows_bytes key_types (batch_rows batch)) ≤ INT32_MAX →
  let n := Z.to_nat (batch_length batch) in
  let keys := row_bytes key_types <$> batch_rows batch in
  ∃ lengths offs offsets_batch,
    GrouperImpl.add_lengths (GrouperImpl.encoders_ st) (values batch) n
      (replicate (n + 1) 0) = Ok lengths
    ∧ GrouperImpl.offsets_loop n 0 lengths 0 = Ok (offs, offset_of keys n)
    ∧ write offs (batch_length batch) (offset_of keys n) = Ok offsets_batch
    ∧ (∀ i : nat, (i ≤ n)%nat → offsets_batch !! i = Some (offset_of keys i))
    ∧ GrouperImpl.encode_columns (GrouperImpl.encoders_ st) (values batch) n
        (replicate n []) = Ok keys.
Proof.
  intros Henc [Hn%Z.leb_le Hc]%andb_true_iff Hfit n keys. rewrite Henc.
  assert (length keys = n) as Hkeys.
  { unfold keys. by rewrite length_fmap, length_batch_rows. }
  destruct (add_lengths_Ok (batch_length batch) key_types (values batch)
              (replicate (n + 1) 0) Hn Hc) as (lengths & Hrun1 & Hlengths).
  assert (length lengths = (n + 1)%nat) as Hlen1.
  { destruct (decide (length lengths = n + 1)%nat) as [|Hne]; [done|].
    destruct (decide (length lengths < n + 1)%nat).
    - pose proof (Hlengths (length lengths)) as Hl.
      rewrite (proj2 (lookup_ge_None _ _)) in Hl by lia.
      destruct (lookup_lt_is_Some_2 (replicate (n + 1) 0) (length lengths)) as [z Hz].
      { rewrite length_replicate. lia. }
      rewrite Hz in Hl. by case_decide.
    - pose proof (Hlengths (n + 1)%nat) as Hl.
      rewrite decide_False in Hl by (fold n; lia).
      rewrite (proj2 (lookup_ge_None (replicate (n + 1) 0) _)) in Hl
        by (rewrite length_replicate; lia).
      apply lookup_ge_None in Hl. lia. }
  destruct (offsets_loop_Ok keys n 0 lengths) as (offs & Hrun2 & Hlen2 & Hin & Hout).
  { lia. }
  { lia. }
  { done. }
  { intros i Hi. rewrite Hlengths. fold n. rewrite decide_True by lia.
    rewrite (proj2 (lookup_replicate _ _ 0 i)) by (split; [done|lia]). simpl.
    unfold keys, batch_rows. rewrite !list_lookup_fmap, lookup_seq_lt by (fold n; lia).
    simpl. by rewrite ?Nat.add_0_l. }
  exists lengths, offs, (<[n := offset_of keys n]> offs). split_and!.
  - done.
  - apply Hrun2.
  - assert (batch_length batch = Z.of_nat n) as -> by lia. apply write_Ok. lia.
  - intros i Hi. destruct (decide (i = n)) as [->|Hne].
    + apply list_lookup_insert_eq. lia.
    + rewrite list_lookup_insert_ne by done. apply Hin. lia.
  - fold n. rewrite (encode_columns_Ok (batch_length batch)); [|done..|].
    2:{ by rewrite length_replicate. }
    f_equal. rewrite rows_of_batch. unfold keys. apply list_eq. intros i.
    rewrite lookup_zip_with, list_lookup_fmap.
    destruct (batch_rows batch !! i) as [r|] eqn:Hr; simpl.
    + apply lookup_lt_Some in Hr as Hi. rewrite length_batch_rows in Hi.
      by rewrite (proj2 (lookup_replicate _ _ [] i)) by (split; [done|lia]).
    + by destruct (replicate n [] !! i).
Qed.

Lemma rows_bytes_app (rows1 rows2 : list Row) :
  rows_bytes key_types (rows1 ++ rows2)
  = (rows_bytes key_types rows1 + rows_bytes key_types rows2)%nat.
Proof. unfold rows_bytes. by rewrite fmap_app, join_app, length_app. Qed.

Lemma rows_bytes_cons r (rows : list Row) :
  rows_bytes key_types (r :: rows)
  = (length (row_bytes key_types r) + rows_bytes key_types rows)%nat.
Proof. unfold rows_bytes. rewrite fmap_cons. simpl. by rewrite length_app. Qed.

Lemma rows_bytes_singleton r :
  rows_bytes key_types [r] = length (row_bytes key_types r).
Proof. rewrite rows_bytes_cons. unfold rows_bytes. simpl. lia. Qed.

Lemma rows_bytes_assign_id known r :
  (rows_bytes key_types (assign_id known r).2
   ≤ rows_bytes key_types known + length (row_bytes key_types r))%nat.
Proof.
  unfold assign_id. destruct (find_key known r); simpl; [lia|].
  rewrite rows_bytes_app, rows_bytes_singleton. lia.
Qed.

Lemma rows_bytes_assign_ids rows : ∀ known,
  (rows_bytes key_types known ≤ rows_bytes key_types (assign_ids known rows).2
   ≤ rows_bytes key_types known + rows_bytes key_types rows)%nat.
Proof.
  induction rows as [|r rows IH]; intros known.
  - assert (rows_bytes key_types [] = 0%nat) as -> by done. simpl. lia.
  - simpl. pose proof (rows_bytes_assign_id known r) as Hr.
    assert (rows_bytes key_types known ≤ rows_bytes key_types (assign_id known r).2)%nat
      as Hle.
    { unfold assign_id. destruct (find_key known r); simpl; [lia|].
      rewrite rows_bytes_app. lia. }
    destruct (assign_id known r) as [i known1]. specialize (IH known1).
    destruct (assign_ids known1 rows) as [ids known2]. simpl in *.
    rewrite rows_bytes_cons. lia.
Qed.

Lemma holds_keys_insert st st' known r :
  holds_keys key_types st known →
  conforms r → find_key known r = None →
  (N.of_nat (length known) + 1 < 2 ^ 32)%N →
  Z.of_nat (rows_bytes key_types (known ++ [r])) ≤ INT32_MAX →
  GrouperImpl.map_ st'
  = <[row_bytes key_types r := GrouperImpl.num_groups_ st]> (GrouperImpl.map_ st) →
  GrouperImpl.num_groups_ st' = wrap32 (GrouperImpl.num_groups_ st + 1) →
  GrouperImpl.encoders_ st' = GrouperImpl.encoders_ st →
  GrouperImpl.key_bytes_ st' = GrouperImpl.key_bytes_ st ++ row_bytes key_types r →
  holds_keys key_types st' (known ++ [r]).
Proof.
  intros (Henc & Hnum & Hcap & Hknown & Hmap & Hbytes & Hfit) Hr Hnew Hroom Hfit'
    Hmap' Hnum' Henc' Hbytes'.
  unfold holds_keys. rewrite Henc', Hnum', Hnum, length_app. simpl. split_and!.
  - done.
  - rewrite wrap32_small by lia. lia.
  - lia.
  - apply Forall_app. split; [done|]. by apply Forall_singleton.
  - intros r' Hr'. rewrite Hmap', find_key_snoc.
    destruct (decide (row_bytes key_types r = row_bytes key_types r')) as [Heq|Hne].
    + apply row_bytes_inj in Heq as <-; [|done..].
      rewrite lookup_insert_eq, Hnew, decide_True by done. by rewrite Hnum.
    + rewrite lookup_insert_ne by done. rewrite Hmap by done.
      destruct (find_key known r'); [done|]. rewrite decide_False; [done|].
      by intros ->.
  - rewrite Hbytes', Hbytes, fmap_app, join_app. simpl. by rewrite app_nil_r.
  - done.
Qed.

Lemma holds_bytes_insert st st' known r :
  holds_bytes key_types st known →
  Forall conforms known → conforms r → find_key known r = None →
  (if 0 <? Z.of_nat (length (row_bytes key_types r))
   then GrouperImpl.key_bytes_ st' = GrouperImpl.key_bytes_ st ++ row_bytes key_types r
        ∧ GrouperImpl.offsets_ st'
          = GrouperImpl.offsets_ st
            ++ [Z.of_nat (length (GrouperImpl.key_bytes_ st))
                + Z.of_nat (length (row_bytes key_types r))]
   else GrouperImpl.key_bytes_ st' = GrouperImpl.key_bytes_ st
        ∧ GrouperImpl.offsets_ st' = GrouperImpl.offsets_ st) →
  holds_bytes key_types st' (known ++ [r]).
Proof.
  intros [Hbytes Hoffs] Hknown Hr Hnew Hst'. unfold holds_bytes in *.
  rewrite fmap_app. simpl. set (keys := row_bytes key_types <$> known) in *.
  set (key := row_bytes key_types r) in *.
  assert (∀ r0, r0 ∈ known → row_bytes key_types r0 ≠ []) as Hothers.
  { intros r0 Hr0 Hempty. apply find_key_None in Hnew. destruct Hnew.
    rewrite list.Forall_forall in Hknown.
    by rewrite <-(empty_key_unique key_types r0 r Hlaws (Hknown r0 Hr0) Hr Hempty). }
  assert (Forall (λ k, k ≠ []) keys
          ∧ GrouperImpl.offsets_ st = offset_of keys <$> seq 0 (length keys + 1))
    as [Hnonempty Hoffsets].
  { split.
    - apply list.Forall_forall. intros k (r0 & -> & Hr0)%list_elem_of_fmap. by apply Hothers.
    - destruct Hoffs as [[_ ?]|(Hempty & Hlen & Hoffs)]; [done|].
      destruct keys as [|k0 [|? ?]] eqn:Hkeys; simpl in *; [done| |lia].
      destruct known as [|r0 ?]; [done|]. simpl in Hkeys. injection Hkeys as Hk0 _.
      apply list.Forall_cons in Hempty as [Hk0' _].
      destruct (Hothers r0); [apply list_elem_of_here|congruence]. }
  destruct (Z.ltb_spec 0 (Z.of_nat (length key))) as [Hpos|Hzero].
  - destruct Hst' as [Hb Ho]. split.
    + rewrite Hb, Hbytes, join_app. simpl. by rewrite app_nil_r.
    + left. split.
      * apply Forall_app. split; [done|]. apply Forall_singleton. by destruct key.
      * rewrite Ho, Hoffsets, length_app. simpl.
        assert (length keys + 1 + 1 = S (length keys + 1))%nat as -> by lia.
        rewrite seq_S, fmap_app. simpl. f_equal.
        -- apply list_fmap_ext. intros i j Hj. apply lookup_seq in Hj as [-> Hj].
           symmetry. apply offset_of_app_l. lia.
        -- f_equal. rewrite offset_of_all by (rewrite length_app; simpl; lia).
           rewrite Hbytes, join_app, length_app. simpl. rewrite app_nil_r. lia.
  - destruct Hst' as [Hb Ho]. assert (key = []) as Hkey by (destruct key; [done|simpl in *; lia]).
    assert (known = []) as ->.
    { destruct known as [|r0 known']; [done|].
      rewrite list.Forall_cons in Hknown. destruct Hknown as [Hr0 _].
      pose proof (empty_key_unique key_types r r0 Hlaws Hr Hr0 Hkey) as <-.
      apply find_key_None in Hnew. destruct Hnew. apply list_elem_of_here. }
    simpl in *. rewrite Hkey. split.
    + by rewrite Hb, Hbytes.
    + right. split_and!; [by apply Forall_singleton|simpl; lia|by rewrite Ho, Hoffsets].
Qed.

Lemma VisitKeys_insert {Acc : Type} (rows : list Row) (offsets : list Z)
    (visit_group : N → Acc → Acc) (visit_unknown_group : Acc → Acc) :
  let keys := row_bytes key_types <$> rows in
  (∀ i : nat, (i ≤ length rows)%nat → offsets !! i = Some (offset_of keys i)) →
  ∀ todo seen st known acc,
    rows = seen ++ todo →
    Forall conforms todo →
    holds_keys key_types st known →
    (N.of_nat (length known + length todo) < 2 ^ 32)%N →
    Z.of_nat (rows_bytes key_types known + rows_bytes key_types todo) ≤ INT32_MAX →
    ∃ st',
      GrouperImpl.VisitKeys (length todo) (Z.of_nat (length seen)) offsets (mjoin keys)
        true visit_group visit_unknown_group st acc
      = Ok (st', foldl (λ a id, visit_group (N.of_nat id) a) acc
                   (assign_ids known todo).1)
      ∧ holds_keys key_types st' (assign_ids known todo).2
      ∧ (holds_bytes key_types st known →
         holds_bytes key_types st' (assign_ids known todo).2).
Proof.
  intros keys Hoffsets todo.
  induction todo as [|r todo IH]; intros seen st known acc Hrows Hconf Hst Hcap Hfit.
  - exists st. done.
  - apply list.Forall_cons in Hconf as [Hr Hconf].
    assert (keys !! length seen = Some (row_bytes key_types r)) as Hkey.
    { unfold keys. rewrite Hrows, list_lookup_fmap, list_lookup_middle by done. done. }
    assert (length rows = length seen + S (length todo))%nat as Hlen.
    { rewrite Hrows, length_app. done. }
    rewrite rows_bytes_cons in Hfit.
    cbn [GrouperImpl.VisitKeys length].
    rewrite (read_Ok _ _ _ (Hoffsets (length seen) ltac:(lia))), bind_Ok.
    assert (Z.of_nat (length seen) + 1 = Z.of_nat (S (length seen))) as -> by lia.
    rewrite (read_Ok _ _ _ (Hoffsets (S (length seen)) ltac:(lia))), bind_Ok.
    assert (offset_of keys (S (length seen)) - offset_of keys (length seen)
            = Z.of_nat (length (row_bytes key_types r))) as Hklen.
    { rewrite (offset_of_S _ _ _ Hkey). lia. }
    rewrite int32_Ok by (rewrite Hklen; unfold INT32_MIN; lia).
    rewrite bind_Ok, (key_at_offset _ _ _ Hkey), bind_Ok.
    assert (Z.of_nat (S (length seen)) = Z.of_nat (length (seen ++ [r]))) as ->.
    { rewrite length_app. simpl. lia. }
    assert (rows = (seen ++ [r]) ++ todo) as Hrows' by (by rewrite <-app_assoc).
    pose proof Hst as (Henc & Hnum & Hroom & Hknown & Hmap & Hstored & Hstfit).
    rewrite (Hmap r Hr). simpl. unfold assign_id.
    destruct (find_key known r) as [j|] eqn:Hj; simpl.
    + destruct (IH (seen ++ [r]) st known (visit_group (N.of_nat j) acc) Hrows' Hconf)
        as (st' & Hrun & Hst' & Hbytes').
      { done. }
      { simpl in Hcap. lia. }
      { lia. }
      exists st'. destruct (assign_ids known todo) as [ids known'] eqn:Hids.
      simpl in *. done.
    + rewrite Hklen.
      assert (length (GrouperImpl.key_bytes_ st) = rows_bytes key_types known) as Hsize.
      { by rewrite Hstored. }
      assert (∃ st1,
                (if 0 <? Z.of_nat (length (row_bytes key_types r))
                 then
                   int32 (to_int32 (Z.of_nat (length (GrouperImpl.key_bytes_ st)))
                          + Z.of_nat (length (row_bytes key_types r)))
                   ≫= (λ new_size,
                        resize_bytes (GrouperImpl.key_bytes_ st) new_size
                        ≫= (λ key_bytes,
                             memcpy key_bytes
                               (to_int32 (Z.of_nat (length (GrouperImpl.key_bytes_ st))))
                               (row_bytes key_types r)
                             ≫= (λ key_bytes,
                                  Ok (GrouperImpl.mkState
                                        (<[row_bytes key_types r
                                           := GrouperImpl.num_groups_ st]>
                                           (GrouperImpl.map_ st))
                                        (GrouperImpl.offsets_ st ++ [new_size]) key_bytes
                                        (wrap32 (GrouperImpl.num_groups_ st + 1))
                                        (GrouperImpl.encoders_ st)))))
                 else
                   Ok (GrouperImpl.mkState
                         (<[row_bytes key_types r := GrouperImpl.num_groups_ st]>
                            (GrouperImpl.map_ st))
                         (GrouperImpl.offsets_ st) (GrouperImpl.key_bytes_ st)
                         (wrap32 (GrouperImpl.num_groups_ st + 1))
                         (GrouperImpl.encoders_ st)))
                = Ok st1
                ∧ GrouperImpl.map_ st1
                  = <[row_bytes key_types r := GrouperImpl.num_groups_ st]>
                      (GrouperImpl.map_ st)
                ∧ GrouperImpl.num_groups_ st1 = wrap32 (GrouperImpl.num_groups_ st + 1)
                ∧ GrouperImpl.encoders_ st1 = GrouperImpl.encoders_ st
                ∧ GrouperImpl.key_bytes_ st1
                  = GrouperImpl.key_bytes_ st ++ row_bytes key_types r
                ∧ (if 0 <? Z.of_nat (length (row_bytes key_types r))
                   then GrouperImpl.offsets_ st1
                        = GrouperImpl.offsets_ st
                          ++ [Z.of_nat (length (GrouperImpl.key_bytes_ st))
                              + Z.of_nat (length (row_bytes key_types r))]
                   else GrouperImpl.offsets_ st1 = GrouperImpl.offsets_ st))
        as (st1 & -> & Hmap1 & Hnum1 & Henc1 & Hbytes1 & Hoffs1).
      { destruct (Z.ltb_spec 0 (Z.of_nat (length (row_bytes key_types r)))) as [Hpos|Hzero].
        - rewrite to_int32_small by lia.
          rewrite int32_Ok by (unfold INT32_MIN; lia).
          rewrite bind_Ok.
          pose proof (resize_memcpy_append (GrouperImpl.key_bytes_ st)
                        (row_bytes key_types r)) as Happend.
          destruct (resize_bytes (GrouperImpl.key_bytes_ st) _) as [b| | |]; try done.
          change (memcpy b (Z.of_nat (length (GrouperImpl.key_bytes_ st)))
                    (row_bytes key_types r)
                  = Ok (GrouperImpl.key_bytes_ st ++ row_bytes key_types r)) in Happend.
          rewrite bind_Ok, Happend, bind_Ok.
          eexists. split; [done|]. by split_and!.
        - eexists. split; [done|]. simpl. split_and!; try done.
          assert (row_bytes key_types r = []) as ->; [|by rewrite app_nil_r].
          destruct (row_bytes key_types r); [done|simpl in *; lia]. }
      rewrite bind_Ok.
      assert (holds_keys key_types st1 (known ++ [r])) as Hst1.
      { apply (holds_keys_insert st); try done.
        - simpl in Hcap. lia.
        - rewrite rows_bytes_app, rows_bytes_singleton. lia. }
      destruct (IH (seen ++ [r]) st1 (known ++ [r])
                  (visit_group (GrouperImpl.num_groups_ st) acc) Hrows' Hconf Hst1)
        as (st' & Hrun & Hst' & Hbytes').
      { rewrite length_app. simpl in *. lia. }
      { rewrite rows_bytes_app, rows_bytes_singleton. lia. }
      exists st'. destruct (assign_ids (known ++ [r]) todo) as [ids known'] eqn:Hids.
      simpl in *. rewrite Hnum in Hrun |- *. split_and!; [done..|].
      intros Hb. apply Hbytes'. apply (holds_bytes_insert st); [done..|].
      destruct (Z.ltb_spec 0 (Z.of_nat (length (row_bytes key_types r))))
        as [Hpos|Hzero]; [done|].
      split; [|done]. rewrite Hbytes1.
      assert (row_bytes key_types r = []) as ->; [|by rewrite app_nil_r].
      destruct (row_bytes key_types r); [done|simpl in *; lia].
Qed.

Lemma VisitKeys_lookup {Acc : Type} (rows : list Row) (offsets : list Z)
    (visit_group : N → Acc → Acc) (visit_unknown_group : Acc → Acc) st known :
  let keys := row_bytes key_types <$> rows in
  (∀ i : nat, (i ≤ length rows)%nat → offsets !! i = Some (offset_of keys i)) →
  holds_keys key_types st known →
  Z.of_nat (rows_bytes key_types rows) ≤ INT32_MAX →
  ∀ todo seen acc,
    rows = seen ++ todo →
    Forall conforms todo →
    GrouperImpl.VisitKeys (length todo) (Z.of_nat (length seen)) offsets (mjoin keys)
      false visit_group visit_unknown_group st acc
    = Ok (st, foldl (λ a r, match find_key known r with
                            | Some j => visit_group (N.of_nat j) a
                            | None => visit_unknown_group a
                            end) acc todo).
Proof.
  intros keys Hoffsets (Henc & Hnum & Hroom & Hknown & Hmap & _) Hfit todo.
  induction todo as [|r todo IH]; intros seen acc Hrows Hconf; [done|].
  apply list.Forall_cons in Hconf as [Hr Hconf].
  assert (keys !! length seen = Some (row_bytes key_types r)) as Hkey.
  { unfold keys. rewrite Hrows, list_lookup_fmap, list_lookup_middle by done. done. }
  assert (length rows = length seen + S (length todo))%nat as Hlen.
  { rewrite Hrows, length_app. done. }
  cbn [GrouperImpl.VisitKeys length].
  rewrite (read_Ok _ _ _ (Hoffsets (length seen) ltac:(lia))), bind_Ok.
  assert (Z.of_nat (length seen) + 1 = Z.of_nat (S (length seen))) as -> by lia.
  rewrite (read_Ok _ _ _ (Hoffsets (S (length seen)) ltac:(lia))), bind_Ok.
  pose proof (offset_of_bound keys (S (length seen))) as Hhi.
  pose proof (offset_of_bound keys (length seen)) as Hlo.
  pose proof (offset_of_mono keys (length seen) (S (length seen)) ltac:(lia)) as Hmono.
  assert (Z.of_nat (length (mjoin keys)) ≤ INT32_MAX) as Hall by exact Hfit.
  rewrite int32_Ok by (unfold INT32_MIN; lia).
  rewrite bind_Ok, (key_at_offset _ _ _ Hkey), bind_Ok.
  assert (Z.of_nat (S (length seen)) = Z.of_nat (length (seen ++ [r]))) as ->.
  { rewrite length_app. simpl. lia. }
  assert (rows = (seen ++ [r]) ++ todo) as Hrows' by (by rewrite <-app_assoc).
  rewrite (Hmap r Hr). simpl.
  destruct (find_key known r) as [j|] eqn:Hj; simpl; by rewrite IH.
Qed.

End Fallback.

(** ** The calls of the fallback grouper *)

Lemma foldl_snoc_fmap {A B : Type} (f : A → B) (acc : list B) (l : list A) :
  foldl (λ a x, a ++ [f x]) acc l = acc ++ (f <$> l).
Proof.
  revert acc. induction l as [|x l IH]; intros acc; simpl.
  - by rewrite app_nil_r.
  - by rewrite IH, <-app_assoc.
Qed.

Lemma foldl_lookup_ids known (rows : list Row) (ids : list N) (bits : list bool) :
  foldl (λ (a : list N * list bool) r,
           match find_key known r with
           | Some j => let '(ids, bits) := a in (ids ++ [N.of_nat j], bits ++ [true])
           | None => let '(ids, bits) := a in (ids ++ [0%N], bits ++ [false])
           end) (ids, bits) rows
  = (ids ++ ((λ r, (lookup_id known r).1) <$> rows),
     bits ++ ((λ r, (lookup_id known r).2) <$> rows)).
Proof.
  revert ids bits. induction rows as [|r rows IH]; intros ids bits; simpl.
  - by rewrite !app_nil_r.
  - unfold lookup_id at 1 3. destruct (find_key known r); rewrite IH, <-!app_assoc; done.
Qed.

Section FallbackCalls.
Context `{KeyEncoder}.
Variable key_types : list DataType.
Hypothesis Hlaws : Forall cell_law key_types.

Lemma GrouperImpl_consume_batch st known batch :
  holds_keys key_types st known →
  batch_conforms key_types batch = true →
  let ids := (assign_ids known (batch_rows batch)).1 in
  let known' := (assign_ids known (batch_rows batch)).2 in
  ((N.of_nat (length known + length (batch_rows batch)) < 2 ^ 32)%N →
   Z.of_nat (rows_bytes key_types known + rows_bytes key_types (batch_rows batch))
   ≤ INT32_MAX →
   ∃ st', GrouperImpl.consume_batch st batch kPopulate = Ok (st', None)
          ∧ holds_keys key_types st' known'
          ∧ (holds_bytes key_types st known → holds_bytes key_types st' known'))
  ∧ ((N.of_nat (length known + length (batch_rows batch)) < 2 ^ 32)%N →
     Z.of_nat (rows_bytes key_types known + rows_bytes key_types (batch_rows batch))
     ≤ INT32_MAX →
     ∃ st', GrouperImpl.consume_batch st batch kConsume
            = Ok (st', Some (mkUInt32Array (N.of_nat <$> ids) None))
            ∧ holds_keys key_types st' known'
            ∧ (holds_bytes key_types st known → holds_bytes key_types st' known'))
  ∧ (Z.of_nat (rows_bytes key_types (batch_rows batch)) ≤ INT32_MAX →
     GrouperImpl.consume_batch st batch kLookup
     = Ok (st, Some (mkUInt32Array ((λ r, (lookup_id known r).1) <$> batch_rows batch)
                       (Some ((λ r, (lookup_id known r).2) <$> batch_rows batch))))).
Proof.
  intros Hst Hb ids known'.
  pose proof Hb as [Hn%Z.leb_le _]%andb_true_iff.
  pose proof (batch_rows_conform key_types batch Hb) as Hrows.
  assert (Z.of_nat (rows_bytes key_types (batch_rows batch)) ≤ INT32_MAX →
          ∃ offsets_batch,
            (∀ i : nat, (i ≤ length (batch_rows batch))%nat →
               offsets_batch !! i
               = Some (offset_of (row_bytes key_types <$> batch_rows batch) i))
            ∧ ∀ mode,
                GrouperImpl.consume_batch st batch mode
                = match mode with
                  | kPopulate =>
                      '(st, _) ← GrouperImpl.VisitKeys (length (batch_rows batch)) 0
                                   offsets_batch
                                   (mjoin (row_bytes key_types <$> batch_rows batch)) true
                                   (λ _ acc, acc) (λ acc, acc) st tt;
                      Ok (st, None)
                  | kConsume =>
                      '(st, group_ids_batch) ←
                          GrouperImpl.VisitKeys (length (batch_rows batch)) 0
                            offsets_batch
                            (mjoin (row_bytes key_types <$> batch_rows batch)) true
                            (λ group_id acc, acc ++ [group_id]) (λ acc, acc) st [];
                      Ok (st, Some (mkUInt32Array group_ids_batch None))
                  | kLookup =>
                      '(st, (group_ids_batch, null_bitmap)) ←
                          GrouperImpl.VisitKeys (length (batch_rows batch)) 0
                            offsets_batch
                            (mjoin (row_bytes key_types <$> batch_rows batch)) false
                            (λ group_id '(ids, bits),
                               (ids ++ [group_id], bits ++ [true]))
                            (λ '(ids, bits), (ids ++ [0%N], bits ++ [false]))
                            st ([], []);
                      Ok (st, Some (mkUInt32Array group_ids_batch (Some null_bitmap)))
                  end) as Hencode.
  { intros Hfit.
    destruct (encode_phase key_types st batch (proj1 Hst) Hb Hfit)
      as (lengths & offs & offsets_batch & Hrun1 & Hrun2 & Hrun3 & Hoffsets & Hrun4).
    exists offsets_batch. rewrite <-(length_batch_rows batch) in *. split; [done|].
    intros mode. unfold GrouperImpl.consume_batch.
    destruct (Z.ltb_spec (batch_length batch) 0) as [|_]; [lia|].
    rewrite <-(length_batch_rows batch).
    rewrite Hrun1, bind_Ok, Hrun2, bind_Ok; cbn beta iota.
    by rewrite Hrun3, bind_Ok, Hrun4, bind_Ok. }
  split_and!.
  - intros Hcap Hfit. destruct Hencode as (offsets_batch & Hoffsets & ->); [lia|].
    destruct (VisitKeys_insert key_types Hlaws (batch_rows batch) offsets_batch
                (λ (_ : N) (acc : unit), acc) (λ acc, acc) Hoffsets (batch_rows batch) []
                st known tt eq_refl Hrows Hst Hcap Hfit) as (st' & Hrun & Hst' & Hbytes).
    exists st'. change (Z.of_nat (length [])) with 0 in Hrun. rewrite Hrun. done.
  - intros Hcap Hfit. destruct Hencode as (offsets_batch & Hoffsets & ->); [lia|].
    destruct (VisitKeys_insert key_types Hlaws (batch_rows batch) offsets_batch
                (λ (group_id : N) (acc : list N), acc ++ [group_id]) (λ acc, acc) Hoffsets
                (batch_rows batch) [] st known [] eq_refl Hrows Hst Hcap Hfit)
      as (st' & Hrun & Hst' & Hbytes).
    exists st'. change (Z.of_nat (length [])) with 0 in Hrun. rewrite Hrun, bind_Ok.
    rewrite (foldl_snoc_fmap N.of_nat []). done.
  - intros Hfit. destruct Hencode as (offsets_batch & Hoffsets & ->); [lia|].
    pose proof (VisitKeys_lookup key_types (batch_rows batch) offsets_batch
                (λ (group_id : N) '(ids, bits), (ids ++ [group_id], bits ++ [true]))
                (λ '(ids, bits), (ids ++ [0%N], bits ++ [false]))
                st known Hoffsets Hst Hfit (batch_rows batch) [] ([], []) eq_refl Hrows)
      as Hrun.
    change (Z.of_nat (length [])) with 0 in Hrun. rewrite Hrun, bind_Ok. cbn beta iota.
    rewrite (foldl_lookup_ids known (batch_rows batch) [] []). done.
Qed.

(** What [ConsumeImpl] makes of its offset and length. *)
Lemma GrouperImpl_ConsumeImpl_slices st batch offset len mode :
  call_ok key_types batch offset = true →
  ∃ batch',
    GrouperImpl.ConsumeImpl 1 st batch offset len mode
    = GrouperImpl.consume_batch st batch' mode
    ∧ batch_conforms key_types batch' = true
    ∧ batch_rows batch' = call_rows batch offset len.
Proof.
  intros Hok. destruct (call_rows_cases key_types batch offset len Hok)
    as (len' & Hcap & Hpos & _ & _ & Hrows).
  pose proof Hok as [[Hc Hoff%Z.leb_le]%andb_true_iff Hend%Z.leb_le]%andb_true_iff.
  cbn [GrouperImpl.ConsumeImpl]. rewrite Hcap, bind_Ok.
  destruct (negb (offset =? 0) || negb (len' =? batch_length batch)) eqn:Hslice.
  - destruct (Slice_conforms key_types batch offset len' Hc ltac:(lia) Hpos)
      as [Hc' Hrows'].
    exists (Slice batch offset len'). split_and!; [|done|by rewrite Hrows'].
    unfold CheckAndCapLengthForConsume. simpl.
    rewrite Z.sub_0_r, Z.eqb_refl. done.
  - apply orb_false_iff in Hslice as [Ho Hl].
    apply negb_false_iff, Z.eqb_eq in Ho. apply negb_false_iff, Z.eqb_eq in Hl.
    exists batch. split_and!; [done..|]. rewrite Hrows. subst.
    rewrite firstn_all2; [done|]. rewrite length_drop, length_batch_rows. lia.
Qed.

Lemma GrouperImpl_calls st known batch offset len :
  holds_keys key_types st known →
  call_ok key_types batch offset = true →
  let rows := call_rows batch offset len in
  let ids := (assign_ids known rows).1 in
  let known' := (assign_ids known rows).2 in
  ((N.of_nat (length known + length rows) < 2 ^ 32)%N →
   Z.of_nat (rows_bytes key_types known + rows_bytes key_types rows) ≤ INT32_MAX →
   ∃ st', GrouperImpl.Populate st batch offset len = Ok st'
          ∧ holds_keys key_types st' known'
          ∧ (holds_bytes key_types st known → holds_bytes key_types st' known'))
  ∧ ((N.of_nat (length known + length rows) < 2 ^ 32)%N →
     Z.of_nat (rows_bytes key_types known + rows_bytes key_types rows) ≤ INT32_MAX →
     ∃ st', GrouperImpl.Consume st batch offset len
            = Ok (st', Some (mkUInt32Array (N.of_nat <$> ids) None))
            ∧ holds_keys key_types st' known'
            ∧ (holds_bytes key_types st known → holds_bytes key_types st' known'))
  ∧ (Z.of_nat (rows_bytes key_types rows) ≤ INT32_MAX →
     GrouperImpl.Lookup st batch offset len
     = Ok (st, Some (mkUInt32Array ((λ r, (lookup_id known r).1) <$> rows)
                       (Some ((λ r, (lookup_id known r).2) <$> rows))))).
Proof.
  intros Hst Hok rows ids known'.
  unfold GrouperImpl.Populate, GrouperImpl.Consume, GrouperImpl.Lookup.
  destruct (GrouperImpl_ConsumeImpl_slices st batch offset len kPopulate Hok)
    as (b1 & -> & Hb1 & Hr1).
  destruct (GrouperImpl_ConsumeImpl_slices st batch offset len kConsume Hok)
    as (b2 & -> & Hb2 & Hr2).
  destruct (GrouperImpl_ConsumeImpl_slices st batch offset len kLookup Hok)
    as (b3 & -> & Hb3 & Hr3).
  split_and!.
  - intros Hcap Hfit.
    destruct (GrouperImpl_consume_batch st known b1 Hst Hb1) as (Hp & _).
    rewrite Hr1 in Hp. destruct (Hp Hcap Hfit) as (st' & -> & ?). by exists st'.
  - intros Hcap Hfit.
    destruct (GrouperImpl_consume_batch st known b2 Hst Hb2) as (_ & Hc & _).
    rewrite Hr2 in Hc. destruct (Hc Hcap Hfit) as (st' & -> & ?). by exists st'.
  - intros Hfit.
    destruct (GrouperImpl_consume_batch st known b3 Hst Hb3) as (_ & _ & Hl).
    rewrite Hr3 in Hl. by rewrite (Hl Hfit).
Qed.

End FallbackCalls.

(** ** The uniques of the fallback grouper *)

Section FallbackUniques.
Context `{KeyEncoder}.

Lemma decode_ptrs_rows ty key_types (rows : list Row) (tails : list (list byte)) :
  cell_law ty →
  Forall (λ r, row_conforms (ty :: key_types) r = true) rows →
  length tails = length rows →
  GrouperImpl.decode_ptrs ty
    (zip_with (λ r t, row_bytes (ty :: key_types) r ++ t) rows tails)
  = Ok ((λ r : Row, default None (r !! 0%nat)) <$> rows,
        zip_with (λ r t, row_bytes key_types r ++ t) (tail <$> rows) tails).
Proof.
  intros Hty Hrows. revert tails.
  induction Hrows as [|r rows Hr _ IH]; intros [|t tails] Hlen; simpl in *; try done.
  destruct r as [|c r]; [done|]. apply andb_true_iff in Hr as [Hc Hr].
  rewrite row_bytes_cons, <-app_assoc, (Hty c _ Hc).
  rewrite IH by lia. done.
Qed.

Lemma decode_columns_rows key_types (rows : list Row) (tails : list (list byte)) :
  Forall cell_law key_types →
  Forall (λ r, row_conforms key_types r = true) rows →
  length tails = length rows →
  GrouperImpl.decode_columns key_types
    (zip_with (λ r t, row_bytes key_types r ++ t) rows tails)
  = Ok (imap (λ i ty, Array ty ((λ r : Row, default None (r !! i)) <$> rows)) key_types).
Proof.
  intros Hlaws. revert rows.
  induction Hlaws as [|ty key_types Hty _ IH]; intros rows Hrows Hlen; [done|].
  cbn [GrouperImpl.decode_columns]. rewrite (decode_ptrs_rows ty key_types) by done.
  rewrite bind_Ok. cbn beta iota. rewrite IH.
  - rewrite bind_Ok. simpl. do 2 f_equal.
    apply imap_ext. intros i ty' _. simpl. f_equal.
    rewrite <-list_fmap_compose. apply list_fmap_ext. intros j r _. simpl.
    by destruct r.
  - apply list.Forall_forall. intros r' (r & -> & Hr)%list_elem_of_fmap.
    rewrite list.Forall_forall in Hrows. specialize (Hrows r Hr).
    destruct r as [|c r]; [done|]. simpl in *. by apply andb_true_iff in Hrows as [_ ?].
  - by rewrite length_fmap.
Qed.

Lemma offset_of_le (keys : list (list byte)) (i : nat) :
  0 ≤ offset_of keys i ≤ Z.of_nat (length (mjoin keys)).
Proof.
  unfold offset_of. split; [lia|].
  assert (mjoin keys = mjoin (take i keys) ++ mjoin (drop i keys)) as ->.
  { by rewrite <-join_app, take_drop. }
  rewrite length_app. lia.
Qed.

Lemma advance_offset_of (keys : list (list byte)) (i : nat) :
  advance (mjoin keys) (offset_of keys i) = mjoin (drop i keys).
Proof.
  unfold advance, offset_of. rewrite Nat2Z.id.
  assert (mjoin keys = mjoin (take i keys) ++ mjoin (drop i keys)) as Hsplit.
  { by rewrite <-join_app, take_drop. }
  rewrite Hsplit at 1. by rewrite drop_app_length.
Qed.

Lemma key_pointers_Ok st (keys : list (list byte)) (k j : nat) :
  GrouperImpl.key_bytes_ st = mjoin keys →
  (∀ i : nat, (k ≤ i < k + j)%nat →
     GrouperImpl.offsets_ st !! i = Some (offset_of keys i)) →
  GrouperImpl.key_pointers st (seq k j)
  = Ok ((λ i, mjoin (drop i keys)) <$> seq k j).
Proof.
  intros Hbytes. revert k. induction j as [|j IH]; intros k Hoffs; [done|].
  simpl. rewrite (read_Ok _ _ _ (Hoffs k ltac:(lia))), bind_Ok.
  pose proof (offset_of_le keys k) as Hle. rewrite Hbytes.
  destruct (Z.ltb_spec (offset_of keys k) 0); [lia|].
  destruct (Z.ltb_spec (Z.of_nat (length (mjoin keys))) (offset_of keys k)); [lia|].
  simpl. rewrite IH by (intros i Hi; apply Hoffs; lia).
  rewrite bind_Ok. by rewrite advance_offset_of.
Qed.

(** A fallback grouper that holds the keys [known], bytes and offsets
    included, returns them as its uniques, one row per group in the order of
    the group ids. *)
Lemma length_mjoin_nonempty (keys : list (list byte)) :
  Forall (λ k, k ≠ []) keys → (length keys ≤ length (mjoin keys))%nat.
Proof.
  induction 1 as [|k keys Hk _ IH]; simpl; [done|].
  rewrite length_app. destruct k; [done|simpl; lia].
Qed.

Lemma GrouperImpl_GetUniques key_types st known :
  Forall cell_law key_types →
  holds_keys key_types st known → holds_bytes key_types st known →
  GrouperImpl.GetUniques st = Ok (batch_of_rows key_types known).
Proof.
  intros Hlaws (Henc & Hnum & Hroom & Hknown & Hmap & _ & Hfit) [Hbytes Hoffs].
  unfold GrouperImpl.GetUniques. rewrite Hnum, Nat2N.id, Henc.
  set (keys := row_bytes key_types <$> known) in *.
  assert (length keys = length known) as Hlen by (unfold keys; by rewrite length_fmap).
  assert (Z.of_nat (length known) ≤ INT32_MAX) as Hgroups.
  { destruct Hoffs as [[Hne _]|(_ & Hle & _)].
    - apply length_mjoin_nonempty in Hne. unfold rows_bytes in Hfit. fold keys in Hfit.
      lia.
    - unfold INT32_MAX. lia. }
  rewrite (key_pointers_Ok st keys 0 (length known) Hbytes).
  2:{ intros i Hi. destruct Hoffs as [[_ ->]|(_ & Hle & ->)].
      - rewrite list_lookup_fmap, lookup_seq_lt by lia. done.
      - assert (i = 0%nat) as -> by lia. done. }
  rewrite bind_Ok. rewrite nat_N_Z, to_int32_small by lia.
  destruct (Z.ltb_spec (Z.of_nat (length known)) 0) as [|_]; [lia|].
  rewrite Nat2Z.id, take_ge by (by rewrite length_fmap, length_seq).
  assert ((λ i, mjoin (drop i keys)) <$> seq 0 (length known)
          = zip_with (λ r t, row_bytes key_types r ++ t) known
              ((λ i, mjoin (drop (S i) keys)) <$> seq 0 (length known))) as ->.
  { apply list_eq. intros i. rewrite lookup_zip_with, !list_lookup_fmap.
    destruct (known !! i) as [r|] eqn:Hr; simpl.
    - apply lookup_lt_Some in Hr as Hi. rewrite lookup_seq_lt by done. simpl.
      f_equal. rewrite ?Nat.add_0_l.
      assert (keys !! i = Some (row_bytes key_types r)) as Hk.
      { unfold keys. by rewrite list_lookup_fmap, Hr. }
      by rewrite (drop_S _ _ _ Hk).
    - apply lookup_ge_None in Hr. by rewrite lookup_seq_ge by lia. }
  rewrite decode_columns_rows; [|done..|by rewrite length_fmap, length_seq].
  rewrite bind_Ok. by unfold batch_of_rows.
Qed.

End FallbackUniques.

(** ** The hash table of the fast grouper *)

Lemma sel_from_cons (i0 : nat) (b : bool) (bits : list bool) :
  sel_from i0 (b :: bits) = (if b then [] else [i0]) ++ sel_from (S i0) bits.
Proof.
  unfold sel_from. rewrite imap_cons. simpl. rewrite Nat.add_0_r.
  assert (imap ((λ (k : nat) (b0 : bool), ((i0 + k)%nat, b0)) ∘ S) bits
          = imap (λ (k : nat) (b0 : bool), ((S i0 + k)%nat, b0)) bits) as ->.
  { apply imap_ext. intros k b0 _. simpl. f_equal. lia. }
  by destruct b.
Qed.

Lemma bits_to_indexes_0_sel_from (bits : list bool) :
  GrouperFastImpl.bits_to_indexes_0 bits = sel_from 0 bits.
Proof. done. Qed.

Section FastTable.
Context `{RowEncoder} `{MiniBatch}.
Variable key_types : list DataType.
Hypothesis Himage : ∀ r, row_conforms key_types r = true →
  decode_image key_types (row_image key_types r) = Some r.

#[local] Abbreviation conforms := (λ r, row_conforms key_types r = true).

Lemma row_image_inj r1 r2 :
  conforms r1 → conforms r2 →
  row_image key_types r1 = row_image key_types r2 → r1 = r2.
Proof.
  intros H1 H2 Heq. pose proof (Himage r1 H1) as Hd1. pose proof (Himage r2 H2) as Hd2.
  rewrite Heq in Hd1. congruence.
Qed.

Lemma equal_on_known (mb known : list Row) x (i : nat) r (g : N) rg :
  mb !! i = Some r → known !! N.to_nat g = Some rg → conforms r → conforms rg →
  equal_on key_types mb (row_image key_types <$> known, x) i g = true ↔ r = rg.
Proof.
  intros Hr Hg Hcr Hcg. unfold equal_on, GrouperFastImpl.map_equal_impl_. simpl.
  rewrite Hr, list_lookup_fmap, Hg. simpl. rewrite bool_decide_eq_true.
  split; [by apply row_image_inj|by intros ->].
Qed.

Lemma resolve_known (mb known : list Row) t x (i : nat) r :
  table_holds key_types t known → NoDup known → Forall conforms known →
  mb !! i = Some r → conforms r →
  SwissTable.resolve (equal_on key_types mb) (row_image key_types <$> known, x) t i
    (hash_row key_types r)
  = N.of_nat <$> find_key known r.
Proof.
  intros (Hnum & Hin & Hout) Hnd Hknown Hr Hcr. unfold SwissTable.resolve.
  rewrite list.Forall_forall in Hknown.
  set (bucket := default [] (SwissTable.slots t !! hash_row key_types r)) in *.
  destruct (list_find _ bucket) as [[idx g]|] eqn:Hfind; simpl.
  - apply list_find_Some in Hfind as (Hidx & Hg & _).
    destruct (Hout (hash_row key_types r) g) as (rg & Hrg & _).
    { apply list_elem_of_lookup. eauto. }
    apply (equal_on_known mb known x i r g rg) in Hg as <-; [|done..|].
    2:{ apply Hknown, list_elem_of_lookup. eauto. }
    rewrite (find_key_lookup _ _ _ Hnd Hrg). simpl. f_equal. lia.
  - destruct (find_key known r) as [j|] eqn:Hj; [|done]. exfalso.
    apply find_key_Some in Hj. rewrite list_find_None, list.Forall_forall in Hfind.
    apply (Hfind (N.of_nat j)); [by apply Hin|].
    apply (equal_on_known mb known x i r (N.of_nat j) r); [done| |done..].
    by rewrite Nat2N.id.
Qed.

Lemma resolve_filtered (mb known : list Row) t x (i : nat) r :
  table_holds key_types t known → NoDup known → Forall conforms known →
  mb !! i = Some r → conforms r →
  (if bool_decide (is_Some (SwissTable.slots t !! hash_row key_types r))
   then SwissTable.resolve (equal_on key_types mb) (row_image key_types <$> known, x) t i
          (hash_row key_types r)
   else None)
  = N.of_nat <$> find_key known r.
Proof.
  intros Ht Hnd Hknown Hr Hcr. case_bool_decide as Hslot; [by apply resolve_known|].
  destruct (find_key known r) as [j|] eqn:Hj; [|done]. exfalso.
  apply find_key_Some in Hj. destruct Ht as (_ & Hin & _).
  specialize (Hin j r Hj).
  destruct (SwissTable.slots t !! hash_row key_types r) eqn:Hs; [by destruct Hslot|].
  simpl in Hin. by apply not_elem_of_nil in Hin.
Qed.

(** The rows of a mini-batch that are among the keys [known] get their ids
    from [find]; the others keep what the buffer held. *)
Lemma find_spec (mb known : list Row) t x :
  table_holds key_types t known → NoDup known → Forall conforms known →
  ∀ suf pre out_pre out_suf,
    mb = pre ++ suf → length out_pre = length pre → length out_suf = length suf →
    Forall conforms suf →
    SwissTable.find (equal_on key_types mb) (row_image key_types <$> known, x) t
      (length pre) (hash_row key_types <$> suf)
      (SwissTable.early_filter t (hash_row key_types <$> suf)) (out_pre ++ out_suf)
    = ((λ r, bool_decide (is_Some (find_key known r))) <$> suf,
       out_pre ++ zip_with (λ r o, match find_key known r with
                                   | Some j => N.of_nat j
                                   | None => o
                                   end) suf out_suf).
Proof.
  intros Ht Hnd Hknown suf.
  induction suf as [|r suf IH]; intros pre out_pre out_suf Hmb Hpre Hsuf Hconf.
  - destruct out_suf; [done|]. done.
  - destruct out_suf as [|o out_suf]; [done|].
    apply list.Forall_cons in Hconf as [Hcr Hconf].
    assert (mb !! length pre = Some r) as Hr.
    { rewrite Hmb. by apply list_lookup_middle. }
    cbn [fmap list_fmap SwissTable.early_filter SwissTable.find]. fold_list_fmap.
    change ((λ h, bool_decide (is_Some (SwissTable.slots t !! h)))
              <$> (hash_row key_types <$> suf))
      with (SwissTable.early_filter t (hash_row key_types <$> suf)).
    rewrite (resolve_filtered mb known t x (length pre) r Ht Hnd Hknown Hr Hcr).
    assert (mb = (pre ++ [r]) ++ suf) as Hmb' by (by rewrite <-app_assoc).
    assert (S (length pre) = length (pre ++ [r])) as -> by (rewrite length_app; simpl; lia).
    destruct (find_key known r) as [j|] eqn:Hj; simpl.
    + rewrite insert_app_r_alt by lia. rewrite Hpre, Nat.sub_diag. simpl.
      rewrite (cons_middle (N.of_nat j)), app_assoc.
      rewrite (IH (pre ++ [r]) (out_pre ++ [N.of_nat j]) out_suf Hmb');
        [|rewrite !length_app; simpl; lia|simpl in Hsuf; lia|done].
      rewrite <-app_assoc. simpl. by rewrite Hj.
    + rewrite (cons_middle o), app_assoc.
      rewrite (IH (pre ++ [r]) (out_pre ++ [o]) out_suf Hmb');
        [|rewrite !length_app; simpl; lia|simpl in Hsuf; lia|done].
      rewrite <-app_assoc. simpl. by rewrite Hj.
Qed.

Lemma table_holds_insert t known r :
  table_holds key_types t known → find_key known r = None →
  (N.of_nat (length known) + 1 < 2 ^ 32)%N →
  table_holds key_types
    (SwissTable.mkTable
       (<[hash_row key_types r :=
            default [] (SwissTable.slots t !! hash_row key_types r)
            ++ [SwissTable.num_inserted t]]> (SwissTable.slots t))
       (wrap32 (SwissTable.num_inserted t + 1)))
    (known ++ [r]).
Proof.
  intros (Hnum & Hin & Hout) Hnew Hroom. unfold table_holds. simpl.
  rewrite Hnum, length_app. simpl. split_and!.
  - rewrite wrap32_small by lia. lia.
  - intros i r' Hi.
    destruct (decide (hash_row key_types r = hash_row key_types r')) as [Heq|Hne].
    + rewrite <-Heq, lookup_insert_eq. simpl. apply elem_of_app.
      destruct (decide (i < length known)%nat) as [Hlt|Hge].
      * left. rewrite lookup_app_l in Hi by done. rewrite Heq. by apply Hin.
      * right. apply lookup_lt_Some in Hi as Hlt. rewrite length_app in Hlt. simpl in Hlt.
        assert (i = length known) as -> by lia. apply list_elem_of_singleton. done.
    + rewrite lookup_insert_ne by done.
      destruct (decide (i < length known)%nat) as [Hlt|Hge].
      * rewrite lookup_app_l in Hi by done. by apply Hin.
      * rewrite lookup_app_r in Hi by lia.
        destruct (i - length known)%nat; simpl in Hi; [|done]. congruence.
  - intros h g Hg.
    destruct (decide (hash_row key_types r = h)) as [<-|Hne].
    + rewrite lookup_insert_eq in Hg. simpl in Hg. apply elem_of_app in Hg as [Hg|Hg].
      * destruct (Hout _ _ Hg) as (rg & Hrg & Hh). exists rg. split; [|done].
        apply lookup_app_l_Some. done.
      * apply list_elem_of_singleton in Hg as ->. exists r. split; [|done].
        rewrite Nat2N.id. by apply list_lookup_middle.
    + rewrite lookup_insert_ne in Hg by done.
      destruct (Hout _ _ Hg) as (rg & Hrg & Hh). exists rg. split; [|done].
      by apply lookup_app_l_Some.
Qed.

Lemma map_append_one (mb : list Row) (i : nat) r rows x :
  mb !! i = Some r →
  GrouperFastImpl.map_append_impl_ key_types mb [i] (rows, x)
  = Ok (rows ++ [row_image key_types r], [row_image key_types r]).
Proof.
  intros Hr. unfold GrouperFastImpl.map_append_impl_. simpl. by rewrite Hr.
Qed.

(** The rows of a mini-batch that [find] left unmatched get, from
    [map_new_keys], the ids that the order of first appearance gives them, and
    the table and the row table then hold the keys known so far. *)
Lemma map_new_keys_spec (mb known0 : list Row) :
  ∀ suf pre known t x out_pre garbage,
    mb = pre ++ suf → length out_pre = length pre → length garbage = length suf →
    Forall conforms suf →
    (∀ r j, find_key known0 r = Some j → find_key known r = Some j) →
    table_holds key_types t known → NoDup known → Forall conforms known →
    (N.of_nat (length known + length suf) < 2 ^ 32)%N →
    ∃ t' x',
      SwissTable.map_new_keys (equal_on key_types mb)
        (GrouperFastImpl.map_append_impl_ key_types mb)
        (sel_from (length pre)
           ((λ r, bool_decide (is_Some (find_key known0 r))) <$> suf))
        (hash_row key_types <$> mb) t (row_image key_types <$> known, x)
        (out_pre ++ zip_with (λ r o, match find_key known0 r with
                                     | Some j => N.of_nat j
                                     | None => o
                                     end) suf garbage)
      = Ok (t', (row_image key_types <$> (assign_ids known suf).2, x'),
            out_pre ++ (N.of_nat <$> (assign_ids known suf).1))
      ∧ table_holds key_types t' (assign_ids known suf).2.
Proof.
  intros suf. induction suf as [|r suf IH];
    intros pre known t x out_pre garbage Hmb Hpre Hgarbage Hconf Hmono Ht Hnd Hknown Hcap.
  - exists t, x. destruct garbage; done.
  - destruct garbage as [|o garbage]; [done|].
    apply list.Forall_cons in Hconf as [Hcr Hconf].
    assert (mb !! length pre = Some r) as Hr.
    { rewrite Hmb. by apply list_lookup_middle. }
    assert (mb = (pre ++ [r]) ++ suf) as Hmb' by (by rewrite <-app_assoc).
    assert (S (length pre) = length (pre ++ [r])) as Hlen'
      by (rewrite length_app; simpl; lia).
    rewrite fmap_cons, sel_from_cons, Hlen'. cbn [zip_with assign_ids].
    unfold assign_id.
    destruct (find_key known0 r) as [j|] eqn:Hj0.
    + rewrite (Hmono r j Hj0). rewrite bool_decide_eq_true_2 by eauto.
      cbn [app]. rewrite (cons_middle (N.of_nat j)), app_assoc.
      destruct (IH (pre ++ [r]) known t x (out_pre ++ [N.of_nat j]) garbage Hmb')
        as (t' & x' & Hrun & Ht'); try done.
      { rewrite !length_app. simpl. lia. }
      { simpl in Hgarbage. lia. }
      { simpl in Hcap. lia. }
      exists t', x'. destruct (assign_ids known suf) as [ids known'].
      simpl in *. rewrite Hrun. by rewrite <-app_assoc.
    + rewrite bool_decide_eq_false_2 by (by intros [? ?]).
      cbn [app SwissTable.map_new_keys].
      rewrite list_lookup_fmap, Hr. cbn [fmap option_fmap option_map].
      rewrite (resolve_known mb known t x (length pre) r Ht Hnd Hknown Hr Hcr).
      destruct (find_key known r) as [j|] eqn:Hj; cbn [fmap option_fmap option_map];
        rewrite insert_app_r_alt by lia; rewrite Hpre, Nat.sub_diag;
        cbn [insert list_insert].
      * rewrite (cons_middle (N.of_nat j)), app_assoc.
        destruct (IH (pre ++ [r]) known t x (out_pre ++ [N.of_nat j]) garbage Hmb')
          as (t' & x' & Hrun & Ht'); try done.
        { rewrite !length_app. simpl. lia. }
        { simpl in Hgarbage. lia. }
        { simpl in Hcap. lia. }
        exists t', x'. destruct (assign_ids known suf) as [ids known'].
        simpl in *. rewrite Hrun. by rewrite <-app_assoc.
      * rewrite (map_append_one mb _ r _ _ Hr), bind_Ok.
        destruct Ht as (Hnum & Hin & Hout).
        rewrite (cons_middle (SwissTable.num_inserted t) out_pre), (app_assoc out_pre).
        assert (row_image key_types <$> known ++ [r]
                = (row_image key_types <$> known) ++ [row_image key_types r]) as Hrows
          by (by rewrite fmap_app).
        rewrite <-Hrows.
        assert (length (out_pre ++ [SwissTable.num_inserted t]) = length (pre ++ [r]))
          as Hl1 by (rewrite !length_app; simpl; lia).
        assert (length garbage = length suf) as Hl2 by (simpl in Hgarbage; lia).
        assert (∀ r' j', find_key known0 r' = Some j' →
                         find_key (known ++ [r]) r' = Some j') as Hmono'.
        { intros r' j' Hj'. rewrite find_key_app, (Hmono r' j' Hj'). done. }
        assert (table_holds key_types
                  (SwissTable.mkTable
                     (<[hash_row key_types r :=
                          default [] (SwissTable.slots t !! hash_row key_types r)
                          ++ [SwissTable.num_inserted t]]> (SwissTable.slots t))
                     (wrap32 (SwissTable.num_inserted t + 1)))
                  (known ++ [r])) as Ht1.
        { apply (table_holds_insert t known r); [done..|]. simpl in Hcap. lia. }
        assert (NoDup (known ++ [r])) as Hnd1.
        { apply list.NoDup_app. split_and!; [done| |apply NoDup_singleton].
          intros y Hy ->%list_elem_of_singleton. by apply find_key_None in Hj. }
        assert (Forall conforms (known ++ [r])) as Hknown1.
        { apply Forall_app. split; [done|]. by apply Forall_singleton. }
        assert (N.of_nat (length (known ++ [r]) + length suf) < 2 ^ 32)%N as Hcap1.
        { rewrite length_app. simpl in *. lia. }
        destruct (IH (pre ++ [r]) (known ++ [r]) _ [row_image key_types r]
                    (out_pre ++ [SwissTable.num_inserted t]) garbage
                    Hmb' Hl1 Hl2 Hconf Hmono' Ht1 Hnd1 Hknown1 Hcap1)
          as (t' & x' & Hrun & Ht').
        rewrite Hrun. exists t', x'.
        destruct (assign_ids (known ++ [r]) suf) as [ids known'].
        simpl in *. rewrite Hnum, <-app_assoc. done.
Qed.

End FastTable.

(** ** The mini-batch loop of the fast grouper *)

Lemma batch_size_next_eq (mbs : Z) (num_rows s : nat) :
  0 < mbs < 2 ^ 30 → (s < num_rows)%nat → Z.of_nat num_rows < 2 ^ 32 →
  N.min (wrap32 (Z.to_N mbs))
        (wrap32 (wrap32 (Z.to_N (Z.of_nat num_rows)) + 2 ^ 32 - N.of_nat s))
  = N.of_nat (Z.to_nat mbs `min` (num_rows - s)).
Proof.
  intros Hmbs Hs Hn. unfold wrap32.
  assert ((2 ^ 32)%N = 4294967296%N) as -> by done.
  assert (2 ^ 32 = 4294967296) as Hp by done. assert (2 ^ 30 = 1073741824) as Hq by done.
  rewrite (N.mod_small (Z.to_N mbs)) by lia.
  rewrite (N.mod_small (Z.to_N (Z.of_nat num_rows))) by lia.
  assert ((Z.to_N (Z.of_nat num_rows) + 4294967296 - N.of_nat s)
          = (N.of_nat (num_rows - s) + 1 * 4294967296))%N as -> by lia.
  rewrite N.Div0.mod_add, N.mod_small by lia. lia.
Qed.

Section FastLoop.
Context `{RowEncoder} `{MiniBatch}.
Variable key_types : list DataType.
Hypothesis Himage : ∀ r, row_conforms key_types r = true →
  decode_image key_types (row_image key_types r) = Some r.
Hypothesis Hrange : mini_batch_in_range.

#[local] Abbreviation conforms := (λ r, row_conforms key_types r = true).

(** One mini-batch of a populate or consume call. *)
Lemma minibatch_insert (mb known : list Row) t (out0 : list N) :
  table_holds key_types t known → NoDup known → Forall conforms known →
  Forall conforms mb → length out0 = length mb →
  (N.of_nat (length known + length mb) < 2 ^ 32)%N →
  ∃ bits out1 t' x',
    SwissTable.find (equal_on key_types mb) (row_image key_types <$> known, []) t 0
      (hash_row key_types <$> mb)
      (SwissTable.early_filter t (hash_row key_types <$> mb)) out0 = (bits, out1)
    ∧ SwissTable.map_new_keys (equal_on key_types mb)
        (GrouperFastImpl.map_append_impl_ key_types mb)
        (GrouperFastImpl.bits_to_indexes_0 bits) (hash_row key_types <$> mb) t
        (row_image key_types <$> known, []) out1
      = Ok (t', (row_image key_types <$> (assign_ids known mb).2, x'),
            N.of_nat <$> (assign_ids known mb).1)
    ∧ table_holds key_types t' (assign_ids known mb).2.
Proof.
  intros Ht Hnd Hknown Hmb Hout Hcap.
  pose proof (find_spec key_types Himage mb known t [] Ht Hnd Hknown mb [] [] out0
                eq_refl eq_refl Hout Hmb) as Hfind.
  destruct (map_new_keys_spec key_types Himage mb known mb [] known t [] [] out0
              eq_refl eq_refl Hout Hmb ltac:(done) Ht Hnd Hknown Hcap)
    as (t' & x' & Hrun & Ht').
  simpl in Hfind, Hrun. eexists _, _, t', x'. split_and!; [exact Hfind|exact Hrun|done].
Qed.

Lemma minibatch_loop_insert (mode : GrouperMode) (rows : list Row) :
  mode ≠ kLookup →
  Z.of_nat (length rows) < 2 ^ 32 →
  ∀ fuel todo seen st known group_ids null_bitmap,
    rows = seen ++ todo → (length todo ≤ fuel)%nat →
    fast_holds_keys key_types st known → Forall conforms todo →
    (N.of_nat (length known + length todo) < 2 ^ 32)%N →
    (mode = kConsume → length group_ids = length rows) →
    (mode = kPopulate → length group_ids = Z.to_nat kMiniBatchLength) →
    ∃ st' group_ids',
      GrouperFastImpl.minibatch_loop fuel mode rows (Z.of_nat (length rows))
        (N.of_nat (length seen)) st group_ids null_bitmap
      = Ok (st', group_ids', null_bitmap)
      ∧ fast_holds_keys key_types st' (assign_ids known todo).2
      ∧ (mode = kConsume →
         group_ids' = take (length seen) group_ids
                      ++ (N.of_nat <$> (assign_ids known todo).1)).
Proof.
  intros Hmode Hrows fuel.
  induction fuel as [|fuel IH];
    intros todo seen st known group_ids null_bitmap Hsplit Hfuel Hst Hconf Hcap Hcons Hpop.
  - destruct todo; [|simpl in Hfuel; lia]. rewrite app_nil_r in Hsplit. subst seen.
    simpl. rewrite nat_N_Z, Z.ltb_irrefl.
    exists st, group_ids. split_and!; [done..|].
    intros Hm. rewrite app_nil_r, firstn_all2; [done|]. rewrite (Hcons Hm). lia.
  - destruct todo as [|r0 todo0] eqn:Htodo.
    { rewrite app_nil_r in Hsplit. subst seen. simpl.
      rewrite nat_N_Z, Z.ltb_irrefl.
      exists st, group_ids. split_and!; [done..|].
      intros Hm. rewrite app_nil_r, firstn_all2; [done|]. rewrite (Hcons Hm). lia. }
    rewrite <-Htodo in *. assert (0 < length todo)%nat as Hpos by (subst todo; simpl; lia).
    clear Htodo r0 todo0.
    assert (length rows = length seen + length todo)%nat as Hlen
      by (by rewrite Hsplit, length_app).
    destruct Hst as (Hkt & Hmd & Hmbs & Hrows_ & Hroom & Hnd & Hknown & Ht).
    destruct Hrange as [Hmin Hmax]. unfold GrouperFastImpl.minibatch_size_min_ in Hmin.
    cbn [GrouperFastImpl.minibatch_loop].
    rewrite nat_N_Z.
    destruct (Z.ltb_spec (Z.of_nat (length seen)) (Z.of_nat (length rows))) as [_|]; [|lia].
    rewrite (batch_size_next_eq (GrouperFastImpl.minibatch_size_ st) (length rows)
               (length seen)) by lia.
    rewrite !Nat2N.id.
    set (n := (Z.to_nat (GrouperFastImpl.minibatch_size_ st)
               `min` (length rows - length seen))%nat).
    assert (0 < n ≤ length todo)%nat as Hn by (unfold n; lia).
    set (at_ := match mode with kPopulate => 0%nat | _ => length seen end).
    assert (length (take n (drop at_ group_ids)) = n) as Hbuf.
    { rewrite length_take, length_drop. unfold at_.
      destruct mode; [rewrite Hpop by done|rewrite Hcons by done|done]; lia. }
    rewrite bool_decide_eq_true_2 by done. cbn [negb].
    set (mb := take n (drop (length seen) rows)).
    assert (mb = take n todo) as Hmb.
    { unfold mb. by rewrite Hsplit, drop_app_length. }
    assert (Forall conforms mb) as Hmbc by (rewrite Hmb; by apply Forall_take).
    assert (length mb = n) as Hmblen by (rewrite Hmb, length_take; lia).
    rewrite Hkt, Hrows_.
    destruct (minibatch_insert mb known (GrouperFastImpl.map_ st)
                (take n (drop at_ group_ids)) Ht Hnd Hknown Hmbc)
      as (bits & out1 & t' & x' & Hfind & Hnew & Ht'); [lia|lia|].
    unfold equal_on in Hfind, Hnew.
    assert (match mode with
            | kLookup => replicate n 0%N
            | _ => take n (drop at_ group_ids)
            end = take n (drop at_ group_ids)) as -> by (by destruct mode).
    rewrite Hfind.
    assert (∀ (A : Type) (a b : Outcome A),
              match mode with kLookup => a | _ => b end = b) as Hmatch
      by (intros; by destruct mode).
    rewrite Hmatch, Hnew, !bind_Ok. cbn beta iota.
    set (known1 := (assign_ids known mb).2) in *.
    set (ids1 := (assign_ids known mb).1) in *.
    assert (wrap32 (N.of_nat (length seen) + N.of_nat n) = N.of_nat (length (seen ++ mb)))
      as ->.
    { rewrite length_app, Hmblen, wrap32_small; lia. }
    pose proof (assign_ids_length_known known mb) as Hgrow. fold known1 in Hgrow.
    destruct (IH (drop n todo) (seen ++ mb)
                (GrouperFastImpl.mkState
                   (Z.min GrouperFastImpl.minibatch_size_max_
                      (2 * GrouperFastImpl.minibatch_size_ st))
                   key_types (GrouperFastImpl.col_metadata_ st)
                   (row_image key_types <$> known1) x' t')
                known1 (GrouperFastImpl.splice group_ids at_ (N.of_nat <$> ids1))
                null_bitmap)
      as (st' & gids' & Hrun & Hst' & Hgids').
    { rewrite Hsplit, Hmb, <-app_assoc, take_drop. done. }
    { rewrite length_drop. lia. }
    { unfold fast_holds_keys. simpl. split_and!; try done.
      - unfold GrouperFastImpl.minibatch_size_max_. lia.
      - unfold GrouperFastImpl.minibatch_size_max_. lia.
      - lia.
      - by apply assign_ids_NoDup.
      - by apply assign_ids_conforms. }
    { by apply Forall_drop. }
    { rewrite length_drop. lia. }
    { intros Hm. unfold GrouperFastImpl.splice.
      rewrite !length_app, length_take, length_drop, length_fmap.
      unfold ids1. rewrite assign_ids_length, Hmblen, (Hcons Hm).
      unfold at_. rewrite Hm. lia. }
    { intros Hm. unfold GrouperFastImpl.splice.
      rewrite !length_app, length_take, length_drop, length_fmap.
      unfold ids1. rewrite assign_ids_length, Hmblen, (Hpop Hm).
      unfold at_. rewrite Hm. lia. }
    exists st', gids'. rewrite Hrun.
    assert (todo = mb ++ drop n todo) as Htodo by (by rewrite Hmb, take_drop).
    rewrite Htodo at 1 2. rewrite assign_ids_app. fold known1 ids1. simpl.
    split_and!; [done..|].
    intros Hm. rewrite (Hgids' Hm). unfold GrouperFastImpl.splice, at_. rewrite Hm.
    rewrite fmap_app.
    assert (take (length (seen ++ mb))
              (take (length seen) group_ids ++ (N.of_nat <$> ids1)
               ++ drop (length seen + length (N.of_nat <$> ids1)) group_ids)
            = take (length seen) group_ids ++ (N.of_nat <$> ids1)) as ->.
    { assert (length (seen ++ mb)
              = length (take (length seen) group_ids ++ (N.of_nat <$> ids1))) as ->.
      { rewrite !length_app, length_take, length_fmap. unfold ids1.
        rewrite assign_ids_length, (Hcons Hm). lia. }
      by rewrite app_assoc, take_app_length. }
    by rewrite <-app_assoc.
Qed.

Lemma lookup_values known (mb : list Row) :
  zip_with (λ r o, match find_key known r with
                   | Some j => N.of_nat j
                   | None => o
                   end) mb (replicate (length mb) 0%N)
  = (λ r, (lookup_id known r).1) <$> mb.
Proof.
  induction mb as [|r mb IH]; [done|]. simpl. rewrite IH. f_equal.
  unfold lookup_id. by destruct (find_key known r).
Qed.

Lemma lookup_bits known (mb : list Row) :
  (λ r, bool_decide (is_Some (find_key known r))) <$> mb
  = (λ r, (lookup_id known r).2) <$> mb.
Proof.
  apply list_fmap_ext. intros _ r _. unfold lookup_id.
  by destruct (find_key known r).
Qed.

Lemma splice_next {A : Type} (buf seg : list A) (k : nat) :
  (k + length seg ≤ length buf)%nat →
  take (k + length seg) (GrouperFastImpl.splice buf k seg) = take k buf ++ seg.
Proof.
  intros Hle. unfold GrouperFastImpl.splice.
  assert (k + length seg = length (take k buf ++ seg))%nat as Hlen.
  { rewrite length_app, length_take. lia. }
  rewrite Hlen at 1. by rewrite app_assoc, take_app_length.
Qed.

Lemma length_splice {A : Type} (buf seg : list A) (k : nat) :
  (k + length seg ≤ length buf)%nat →
  length (GrouperFastImpl.splice buf k seg) = length buf.
Proof.
  intros Hle. unfold GrouperFastImpl.splice.
  rewrite !length_app, length_take, length_drop. lia.
Qed.

Lemma minibatch_loop_lookup (rows : list Row) :
  Z.of_nat (length rows) < 2 ^ 32 →
  ∀ fuel todo seen st known group_ids null_bitmap,
    rows = seen ++ todo → (length todo ≤ fuel)%nat →
    fast_holds_keys key_types st known → Forall conforms todo →
    length group_ids = length rows → length null_bitmap = length rows →
    ∃ st',
      GrouperFastImpl.minibatch_loop fuel kLookup rows (Z.of_nat (length rows))
        (N.of_nat (length seen)) st group_ids null_bitmap
      = Ok (st',
            take (length seen) group_ids ++ ((λ r, (lookup_id known r).1) <$> todo),
            take (length seen) null_bitmap ++ ((λ r, (lookup_id known r).2) <$> todo))
      ∧ fast_holds_keys key_types st' known.
Proof.
  intros Hrows fuel.
  induction fuel as [|fuel IH];
    intros todo seen st known group_ids null_bitmap Hsplit Hfuel Hst Hconf Hgids Hbits.
  - destruct todo; [|simpl in Hfuel; lia]. rewrite app_nil_r in Hsplit. subst seen.
    simpl. rewrite nat_N_Z, Z.ltb_irrefl.
    exists st. split; [|done].
    rewrite !app_nil_r, !firstn_all2; [done|lia..].
  - destruct todo as [|r0 todo0] eqn:Htodo.
    { rewrite app_nil_r in Hsplit. subst seen. simpl.
      rewrite nat_N_Z, Z.ltb_irrefl.
      exists st. split; [|done].
      rewrite !app_nil_r, !firstn_all2; [done|lia..]. }
    rewrite <-Htodo in *. assert (0 < length todo)%nat as Hpos by (subst todo; simpl; lia).
    clear Htodo r0 todo0.
    assert (length rows = length seen + length todo)%nat as Hlen
      by (by rewrite Hsplit, length_app).
    destruct Hst as (Hkt & Hmd & Hmbs & Hrows_ & Hroom & Hnd & Hknown & Ht).
    destruct Hrange as [Hmin Hmax]. unfold GrouperFastImpl.minibatch_size_min_ in Hmin.
    cbn [GrouperFastImpl.minibatch_loop].
    rewrite nat_N_Z.
    destruct (Z.ltb_spec (Z.of_nat (length seen)) (Z.of_nat (length rows))) as [_|]; [|lia].
    rewrite (batch_size_next_eq (GrouperFastImpl.minibatch_size_ st) (length rows)
               (length seen)) by lia.
    rewrite !Nat2N.id.
    set (n := (Z.to_nat (GrouperFastImpl.minibatch_size_ st)
               `min` (length rows - length seen))%nat).
    assert (0 < n ≤ length todo)%nat as Hn by (unfold n; lia).
    assert (length (take n (drop (length seen) group_ids)) = n) as Hbuf.
    { rewrite length_take, length_drop. lia. }
    rewrite bool_decide_eq_true_2 by done. cbn [negb].
    set (mb := take n (drop (length seen) rows)).
    assert (mb = take n todo) as Hmb.
    { unfold mb. by rewrite Hsplit, drop_app_length. }
    assert (Forall conforms mb) as Hmbc by (rewrite Hmb; by apply Forall_take).
    assert (length mb = n) as Hmblen by (rewrite Hmb, length_take; lia).
    rewrite Hkt, Hrows_.
    pose proof (find_spec key_types Himage mb known (GrouperFastImpl.map_ st) []
                  Ht Hnd Hknown mb [] [] (replicate n 0%N) eq_refl eq_refl
                  ltac:(by rewrite length_replicate) Hmbc) as Hfind.
    unfold equal_on in Hfind. simpl in Hfind. rewrite Hfind, bind_Ok. cbn beta iota.
    rewrite <-Hmblen, lookup_values, lookup_bits, Hmblen.
    assert (wrap32 (N.of_nat (length seen) + N.of_nat n) = N.of_nat (length (seen ++ mb)))
      as ->.
    { rewrite length_app, Hmblen, wrap32_small; lia. }
    destruct (IH (drop n todo) (seen ++ mb)
                (GrouperFastImpl.mkState
                   (Z.min GrouperFastImpl.minibatch_size_max_
                      (2 * GrouperFastImpl.minibatch_size_ st))
                   key_types (GrouperFastImpl.col_metadata_ st)
                   (row_image key_types <$> known) [] (GrouperFastImpl.map_ st))
                known
                (GrouperFastImpl.splice group_ids (length seen)
                   ((λ r, (lookup_id known r).1) <$> mb))
                (GrouperFastImpl.splice null_bitmap (length seen)
                   ((λ r, (lookup_id known r).2) <$> mb)))
      as (st' & Hrun & Hst').
    { rewrite Hsplit, Hmb, <-app_assoc, take_drop. done. }
    { rewrite length_drop. lia. }
    { unfold fast_holds_keys. simpl. split_and!; try done.
      - unfold GrouperFastImpl.minibatch_size_max_. lia.
      - unfold GrouperFastImpl.minibatch_size_max_. lia. }
    { by apply Forall_drop. }
    { rewrite length_splice; [lia|rewrite length_fmap; lia]. }
    { rewrite length_splice; [lia|rewrite length_fmap; lia]. }
    exists st'. rewrite Hrun. split; [|done].
    assert (todo = mb ++ drop n todo) as Htodo by (by rewrite Hmb, take_drop).
    rewrite Htodo at 3 4. rewrite !fmap_app, !app_assoc.
    assert (length (seen ++ mb) = length seen + n)%nat as -> by (rewrite length_app; lia).
    assert (∀ (A : Type) (f : Row → A) (buf : list A),
              length buf = length rows →
              take (length seen + n) (GrouperFastImpl.splice buf (length seen) (f <$> mb))
              = take (length seen) buf ++ (f <$> mb)) as Hnext.
    { intros A f buf Hbuf'. rewrite <-Hmblen, <-(length_fmap f mb).
      apply splice_next. rewrite length_fmap. lia. }
    by rewrite !Hnext by done.
Qed.

End FastLoop.

(** ** The calls of the fast grouper *)

Lemma broadcast_conforms key_types batch :
  batch_conforms key_types batch = true →
  batch_conforms key_types (GrouperFastImpl.broadcast_scalars batch) = true
  ∧ batch_rows (GrouperFastImpl.broadcast_scalars batch) = batch_rows batch.
Proof.
  intros [Hn%Z.leb_le Hc]%andb_true_iff. split.
  - unfold batch_conforms. simpl. apply andb_true_iff. split; [by apply Z.leb_le|].
    revert Hc. generalize (values batch). clear -Hn.
    induction key_types as [|ty key_types IH]; intros [|v vals] Hc; simpl in *; try done.
    apply andb_true_iff in Hc as [Hv Hc]. apply andb_true_iff. split; [|by apply IH].
    destruct v as [ty' c|ty' cs]; simpl in *; [|done].
    apply andb_true_iff in Hv as [->%bool_decide_eq_true Hcell].
    rewrite bool_decide_eq_true_2 by done. simpl. apply andb_true_iff. split.
    + apply bool_decide_eq_true. rewrite length_replicate. lia.
    + apply forallb_forall. intros c' Hc'%list_elem_of_In.
      by apply elem_of_replicate in Hc' as [-> _].
  - unfold batch_rows. simpl. apply list_fmap_ext. intros k i Hi.
    apply lookup_seq in Hi as [-> Hk]. unfold row_at. simpl.
    rewrite <-list_fmap_compose. apply list_fmap_ext. intros _ v _. simpl.
    destruct v as [ty c|ty cs]; simpl; [|done].
    by rewrite (proj2 (lookup_replicate _ _ c _)) by (split; [done|lia]).
Qed.

Section FastCalls.
Context `{RowEncoder} `{MiniBatch}.
Variable key_types : list DataType.
Hypothesis Himage : ∀ r, row_conforms key_types r = true →
  decode_image key_types (row_image key_types r) = Some r.
Hypothesis Hrange : mini_batch_in_range.

Lemma GrouperFastImpl_consume_batch st known batch :
  fast_holds_keys key_types st known →
  batch_conforms key_types batch = true →
  let ids := (assign_ids known (batch_rows batch)).1 in
  let known' := (assign_ids known (batch_rows batch)).2 in
  ((N.of_nat (length known + length (batch_rows batch)) < 2 ^ 32)%N →
   ∃ st', GrouperFastImpl.consume_batch st batch kPopulate = Ok (st', None)
          ∧ fast_holds_keys key_types st' known')
  ∧ ((N.of_nat (length known + length (batch_rows batch)) < 2 ^ 32)%N →
     ∃ st', GrouperFastImpl.consume_batch st batch kConsume
            = Ok (st', Some (mkUInt32Array (N.of_nat <$> ids) None))
            ∧ fast_holds_keys key_types st' known')
  ∧ ((N.of_nat (length (batch_rows batch)) < 2 ^ 32)%N →
     ∃ st', GrouperFastImpl.consume_batch st batch kLookup
            = Ok (st', Some (mkUInt32Array
                               ((λ r, (lookup_id known r).1) <$> batch_rows batch)
                               (Some ((λ r, (lookup_id known r).2) <$> batch_rows batch))))
            ∧ fast_holds_keys key_types st' known).
Proof.
  intros Hst Hb ids known'.
  pose proof Hb as [Hn%Z.leb_le Hc]%andb_true_iff.
  pose proof (batch_rows_conform key_types batch Hb) as Hrows.
  pose proof (length_batch_rows batch) as Hlen.
  assert (GrouperFastImpl.key_types_ st = key_types) as Hkt by apply Hst.
  assert (forallb (λ v, match column_cells v (Z.to_nat (batch_length batch)) with
                        | Ok _ => true
                        | _ => false
                        end) (values batch) = true) as Hcols.
  { apply forallb_forall. intros v Hv%list_elem_of_In.
    revert Hc Hv. generalize (values batch). clear -Hn.
    induction key_types as [|ty key_types' IH]; intros [|v' vals] Hc Hv; simpl in *;
      try done; try (by apply not_elem_of_nil in Hv).
    apply andb_true_iff in Hc as [Hv' Hc]. apply elem_of_cons in Hv as [->|Hv].
    - by destruct (column_cells_conforms _ _ _ Hn Hv') as (-> & _).
    - by apply IH with vals. }
  unfold GrouperFastImpl.consume_batch.
  destruct (Z.ltb_spec (batch_length batch) 0) as [|_]; [lia|].
  rewrite Hkt, (values_conform_length _ _ _ Hc), bool_decide_eq_true_2 by done.
  rewrite Hcols. cbn [negb].
  assert (batch_length batch = Z.of_nat (length (batch_rows batch))) as Hbl by lia.
  rewrite Hbl, Nat2Z.id.
  split_and!; intros Hcap.
  - destruct (minibatch_loop_insert key_types Himage Hrange kPopulate (batch_rows batch)
                ltac:(done) ltac:(lia) (length (batch_rows batch)) (batch_rows batch) []
                st known (replicate (Z.to_nat GrouperFastImpl.minibatch_size_max_) 0%N) [])
      as (st' & gids' & Hrun & Hst' & _); try done.
    { intros _. by rewrite length_replicate. }
    change (N.of_nat (length [])) with 0%N in Hrun. rewrite Hrun, bind_Ok.
    by exists st'.
  - destruct (minibatch_loop_insert key_types Himage Hrange kConsume (batch_rows batch)
                ltac:(done) ltac:(lia) (length (batch_rows batch)) (batch_rows batch) []
                st known (replicate (length (batch_rows batch)) 0%N) [])
      as (st' & gids' & Hrun & Hst' & Hgids); try done.
    { intros _. by rewrite length_replicate. }
    change (N.of_nat (length [])) with 0%N in Hrun. rewrite Hrun, bind_Ok.
    exists st'. rewrite (Hgids eq_refl). done.
  - destruct (minibatch_loop_lookup key_types Himage Hrange (batch_rows batch)
                ltac:(lia) (length (batch_rows batch)) (batch_rows batch) []
                st known (replicate (length (batch_rows batch)) 0%N)
                (replicate (length (batch_rows batch)) false))
      as (st' & Hrun & Hst'); try done.
    { by rewrite length_replicate. }
    { by rewrite length_replicate. }
    change (N.of_nat (length [])) with 0%N in Hrun. rewrite Hrun, bind_Ok.
    by exists st'.
Qed.

Lemma GrouperFastImpl_ConsumeImpl_slices st batch offset len mode :
  call_ok key_types batch offset = true →
  ∃ batch',
    GrouperFastImpl.ConsumeImpl 1 st batch offset len mode
    = GrouperFastImpl.consume_batch st batch' mode
    ∧ batch_conforms key_types batch' = true
    ∧ batch_rows batch' = call_rows batch offset len.
Proof.
  intros Hok. destruct (call_rows_cases key_types batch offset len Hok)
    as (len' & Hcap & Hpos & _ & _ & Hrows).
  pose proof Hok as [[Hc Hoff%Z.leb_le]%andb_true_iff Hend%Z.leb_le]%andb_true_iff.
  assert (∀ b, batch_conforms key_types b = true →
            ∃ batch',
              (if existsb is_scalar (values b)
               then GrouperFastImpl.consume_batch st (GrouperFastImpl.broadcast_scalars b)
                      mode
               else GrouperFastImpl.consume_batch st b mode)
              = GrouperFastImpl.consume_batch st batch' mode
              ∧ batch_conforms key_types batch' = true
              ∧ batch_rows batch' = batch_rows b) as Hbroadcast.
  { intros b Hb. destruct (existsb is_scalar (values b)).
    - exists (GrouperFastImpl.broadcast_scalars b).
      destruct (broadcast_conforms key_types b Hb). done.
    - by exists b. }
  cbn [GrouperFastImpl.ConsumeImpl]. rewrite Hcap, bind_Ok.
  destruct (negb (offset =? 0) || negb (len' =? batch_length batch)) eqn:Hslice.
  - destruct (Slice_conforms key_types batch offset len' Hc ltac:(lia) Hpos)
      as [Hc' Hrows'].
    destruct (Hbroadcast _ Hc') as (batch' & Hrun & Hb' & Hr').
    exists batch'. split_and!; [|done|by rewrite Hr', Hrows'].
    unfold CheckAndCapLengthForConsume. simpl.
    rewrite Z.sub_0_r, Z.eqb_refl. done.
  - apply orb_false_iff in Hslice as [Ho Hl].
    apply negb_false_iff, Z.eqb_eq in Ho. apply negb_false_iff, Z.eqb_eq in Hl.
    destruct (Hbroadcast _ Hc) as (batch' & Hrun & Hb' & Hr').
    exists batch'. split_and!; [done..|]. rewrite Hr', Hrows. subst.
    rewrite firstn_all2; [done|]. rewrite length_drop, length_batch_rows. lia.
Qed.

Lemma GrouperFastImpl_calls st known batch offset len :
  fast_holds_keys key_types st known →
  call_ok key_types batch offset = true →
  let rows := call_rows batch offset len in
  let ids := (assign_ids known rows).1 in
  let known' := (assign_ids known rows).2 in
  ((N.of_nat (length known + length rows) < 2 ^ 32)%N →
   ∃ st', GrouperFastImpl.Populate st batch offset len = Ok st'
          ∧ fast_holds_keys key_types st' known')
  ∧ ((N.of_nat (length known + length rows) < 2 ^ 32)%N →
     ∃ st', GrouperFastImpl.Consume st batch offset len
            = Ok (st', Some (mkUInt32Array (N.of_nat <$> ids) None))
            ∧ fast_holds_keys key_types st' known')
  ∧ ((N.of_nat (length rows) < 2 ^ 32)%N →
     ∃ st', GrouperFastImpl.Lookup st batch offset len
            = Ok (st', Some (mkUInt32Array ((λ r, (lookup_id known r).1) <$> rows)
                               (Some ((λ r, (lookup_id known r).2) <$> rows))))
            ∧ fast_holds_keys key_types st' known).
Proof.
  intros Hst Hok rows ids known'.
  unfold GrouperFastImpl.Populate, GrouperFastImpl.Consume, GrouperFastImpl.Lookup.
  destruct (GrouperFastImpl_ConsumeImpl_slices st batch offset len kPopulate Hok)
    as (b1 & -> & Hb1 & Hr1).
  destruct (GrouperFastImpl_ConsumeImpl_slices st batch offset len kConsume Hok)
    as (b2 & -> & Hb2 & Hr2).
  destruct (GrouperFastImpl_ConsumeImpl_slices st batch offset len kLookup Hok)
    as (b3 & -> & Hb3 & Hr3).
  split_and!; intros Hcap.
  - destruct (GrouperFastImpl_consume_batch st known b1 Hst Hb1) as (Hp & _).
    rewrite Hr1 in Hp. destruct (Hp Hcap) as (st' & -> & ?). by exists st'.
  - destruct (GrouperFastImpl_consume_batch st known b2 Hst Hb2) as (_ & Hc & _).
    rewrite Hr2 in Hc. destruct (Hc Hcap) as (st' & -> & ?). by exists st'.
  - destruct (GrouperFastImpl_consume_batch st known b3 Hst Hb3) as (_ & _ & Hl).
    rewrite Hr3 in Hl. destruct (Hl Hcap) as (st' & -> & ?). by exists st'.
Qed.

End FastCalls.

(** ** Making and resetting groupers *)

Lemma make_encoders_Ok key_types encoders :
  GrouperImpl.make_encoders key_types = Ok encoders → encoders = key_types.
Proof.
  revert encoders. induction key_types as [|ty key_types IH]; intros encoders; simpl.
  - by intros [= <-].
  - case_match; [|done]. destruct (GrouperImpl.make_encoders key_types); try done.
    simpl. intros [= <-]. f_equal. by apply IH.
Qed.

Lemma GrouperImpl_Make_holds `{KeyEncoder} key_types st :
  GrouperImpl.Make key_types = Ok st →
  holds_keys key_types st [] ∧ holds_bytes key_types st [].
Proof.
  unfold GrouperImpl.Make. destruct (GrouperImpl.make_encoders key_types) eqn:Hm; try done.
  apply make_encoders_Ok in Hm as ->. simpl. intros [= <-]. split.
  - unfold holds_keys. simpl. split_and!; try done.
  - unfold holds_bytes. simpl. split; [done|]. left. split; [done|]. done.
Qed.

Lemma GrouperImpl_Reset_holds `{KeyEncoder} key_types st known :
  holds_keys key_types st known →
  ∃ st', GrouperImpl.Reset st = Ok st' ∧ holds_keys key_types st' [].
Proof.
  intros (Henc & _). eexists. split; [done|].
  unfold holds_keys. simpl. split_and!; try done.
Qed.

Lemma table_holds_init `{RowEncoder} key_types : table_holds key_types SwissTable.init [].
Proof.
  unfold table_holds. simpl. split_and!; [done|done|].
  intros h g Hg. rewrite lookup_empty in Hg. simpl in Hg. by apply not_elem_of_nil in Hg.
Qed.

Lemma GrouperFastImpl_Make_holds `{RowEncoder} `{MiniBatch} key_types st :
  mini_batch_in_range →
  GrouperFastImpl.Make key_types = Ok st → fast_holds_keys key_types st [].
Proof.
  intros [Hmin Hmax]. unfold GrouperFastImpl.Make.
  destruct (GrouperFastImpl.make_metadata key_types) eqn:Hm; try done.
  simpl. intros [= <-]. unfold fast_holds_keys. simpl.
  unfold GrouperFastImpl.minibatch_size_min_ in *.
  split_and!; try done; [apply NoDup_nil_2|apply table_holds_init].
Qed.

Lemma GrouperFastImpl_Reset_holds `{RowEncoder} `{MiniBatch} key_types st known :
  fast_holds_keys key_types st known →
  ∃ st', GrouperFastImpl.Reset st = Ok st' ∧ fast_holds_keys key_types st' [].
Proof.
  intros (Hkt & Hmd & Hmbs & _). eexists. split; [done|].
  unfold fast_holds_keys. simpl.
  split_and!; try done; [lia|lia|apply NoDup_nil_2|apply table_holds_init].
Qed.

(** ** The uniques of the fast grouper *)

Section FastUniques.
Context `{RowEncoder} `{MiniBatch}.
Variable key_types : list DataType.
Hypothesis Himage : ∀ r, row_conforms key_types r = true →
  decode_image key_types (row_image key_types r) = Some r.
Hypothesis Hrange : mini_batch_in_range.

Lemma decode_rows_images (rows : list Row) :
  Forall (λ r, row_conforms key_types r = true) rows →
  GrouperFastImpl.decode_rows key_types (row_image key_types <$> rows) = Ok rows.
Proof.
  induction 1 as [|r rows Hr _ IH]; [done|]. simpl. rewrite (Himage r Hr).
  fold_list_fmap. by rewrite IH.
Qed.

Lemma decode_loop_Ok st (known : list Row) :
  GrouperFastImpl.key_types_ st = key_types →
  GrouperFastImpl.rows_ st = row_image key_types <$> known →
  Forall (λ r, row_conforms key_types r = true) known →
  ∀ fuel todo seen,
    known = seen ++ todo → (length todo ≤ fuel)%nat →
    GrouperFastImpl.decode_loop fuel st (Z.of_nat (length known))
      (Z.of_nat (length seen)) seen = Ok known.
Proof.
  intros Hkt Hrows Hknown fuel. destruct Hrange as [Hmin Hmax].
  unfold GrouperFastImpl.minibatch_size_min_ in Hmin.
  induction fuel as [|fuel IH]; intros todo seen Hsplit Hfuel.
  - destruct todo; [|simpl in Hfuel; lia]. rewrite app_nil_r in Hsplit. subst seen.
    simpl. by rewrite Z.ltb_irrefl.
  - assert (length known = length seen + length todo)%nat as Hlen
      by (by rewrite Hsplit, length_app).
    cbn [GrouperFastImpl.decode_loop].
    destruct (Z.ltb_spec (Z.of_nat (length seen)) (Z.of_nat (length known))) as [Hlt|Hge].
    + unfold GrouperFastImpl.minibatch_size_max_.
      set (n := Z.to_nat (Z.min (Z.of_nat (length known) - Z.of_nat (length seen))
                            kMiniBatchLength)).
      assert (0 < n ≤ length todo)%nat as Hn by (unfold n; lia).
      rewrite Hkt, Hrows, Nat2Z.id, <-fmap_drop, <-fmap_take.
      assert (take n (drop (length seen) known) = take n todo) as ->.
      { by rewrite Hsplit, drop_app_length. }
      rewrite decode_rows_images.
      2:{ apply Forall_take. rewrite Hsplit in Hknown. by apply Forall_app in Hknown as [_ ?]. }
      rewrite bind_Ok.
      assert (Z.of_nat (length seen)
              + Z.min (Z.of_nat (length known) - Z.of_nat (length seen)) kMiniBatchLength
              = Z.of_nat (length (seen ++ take n todo))) as ->.
      { rewrite length_app, length_take. lia. }
      apply (IH (drop n todo)).
      * by rewrite <-app_assoc, take_drop.
      * rewrite length_drop. lia.
    + assert (todo = []) as -> by (destruct todo; [done|simpl in *; lia]).
      by rewrite app_nil_r in Hsplit; subst.
Qed.

Lemma make_metadata_null_type (key_types' : list DataType) mds :
  GrouperFastImpl.make_metadata key_types' = Ok mds →
  Forall2 (λ ty md, GrouperFastImpl.is_null_type_ md = is_null_type ty) key_types' mds.
Proof.
  revert mds. induction key_types' as [|ty key_types' IH]; intros mds; simpl.
  - intros [= <-]. constructor.
  - destruct (GrouperFastImpl.make_metadata key_types') as [mds'| | |]; simpl.
    + destruct ty; simpl; try done; intros [= <-]; constructor; try done; by apply IH.
    + destruct ty; simpl; done.
    + destruct ty; simpl; done.
    + destruct ty; simpl; done.
Qed.

Lemma null_column_cell (key_types' : list DataType) (r : Row) (i : nat) :
  row_conforms key_types' r = true → key_types' !! i = Some NA →
  default None (r !! i) = None.
Proof.
  revert r i. induction key_types' as [|ty key_types' IH]; intros [|c r] [|i] Hr Hi;
    simpl in *; try done.
  - injection Hi as ->. apply andb_true_iff in Hr as [Hc _]. by destruct c.
  - apply andb_true_iff in Hr as [_ Hr]. by apply IH.
Qed.

(** A fast grouper that holds the keys [known] returns them as its uniques,
    one row per group in the order of the group ids. *)
Lemma GrouperFastImpl_GetUniques st known :
  fast_holds_keys key_types st known →
  GrouperFastImpl.GetUniques st = Ok (batch_of_rows key_types known).
Proof.
  intros (Hkt & Hmd & Hmbs & Hrows & Hroom & Hnd & Hknown & Ht).
  unfold GrouperFastImpl.GetUniques.
  assert (length (GrouperFastImpl.rows_ st) = length known) as Hlen
    by (by rewrite Hrows, length_fmap).
  rewrite Hlen.
  pose proof (decode_loop_Ok st known Hkt Hrows Hknown (length known) known [] eq_refl
                ltac:(done)) as Hloop.
  change (Z.of_nat (length [])) with 0 in Hloop. rewrite Hloop, bind_Ok. unfold batch_of_rows. rewrite Hkt. f_equal. f_equal.
  apply make_metadata_null_type in Hmd.
  apply list_eq. intros i. rewrite !list_lookup_imap.
  destruct (key_types !! i) as [ty|] eqn:Hty; simpl.
  - destruct (Forall2_lookup_l _ _ _ _ _ Hmd Hty) as (md & Hmdi & Hnull).
    rewrite (proj2 (lookup_zip_Some _ _ _ _ _) (conj Hty Hmdi)). simpl.
    rewrite Hnull. destruct (is_null_type ty) eqn:Hna; [|done].
    destruct ty; try done. f_equal. f_equal. rewrite Nat2Z.id.
    symmetry. apply const_fmap. intros j r Hr.
    apply (null_column_cell key_types); [|done].
    rewrite list.Forall_forall in Hknown. apply Hknown, list_elem_of_lookup. eauto.
  - rewrite (proj2 (lookup_zip_None _ _ _)); [done|]. by left.
Qed.

End FastUniques.

(** ** Groupers behind their interface *)

Section Groupers.
Context `{KeyEncoder} `{RowEncoder} `{MiniBatch}.
Variable key_types : list DataType.
Hypothesis Hcells : Forall cell_law key_types.
Hypothesis Himage : ∀ r, row_conforms key_types r = true →
  decode_image key_types (row_image key_types r) = Some r.
Hypothesis Hrange : mini_batch_in_range.

Lemma grouper_holds_uniques_holds g known :
  grouper_holds_uniques key_types g known → grouper_holds key_types g known.
Proof. destruct g; simpl; [done|by intros [? _]]. Qed.

Lemma grouper_Make_holds little_endian g :
  GrouperOps.Make little_endian key_types = Ok g →
  grouper_holds_uniques key_types g [].
Proof.
  unfold GrouperOps.Make. case_match.
  - destruct (GrouperFastImpl.Make key_types) as [st| | |] eqn:Hm; try done.
    simpl. intros [= <-]. by apply GrouperFastImpl_Make_holds.
  - destruct (GrouperImpl.Make key_types) as [st| | |] eqn:Hm; try done.
    simpl. intros [= <-]. by apply GrouperImpl_Make_holds.
Qed.

Lemma grouper_Reset_holds g known :
  grouper_holds key_types g known →
  ∃ g', GrouperOps.Reset g = Ok g' ∧ grouper_holds key_types g' [].
Proof.
  destruct g as [st|st]; intros Hst; unfold GrouperOps.Reset.
  - destruct (GrouperFastImpl_Reset_holds key_types st known Hst) as (st' & -> & Hst').
    by exists (Fast st').
  - destruct (GrouperImpl_Reset_holds key_types st known Hst) as (st' & -> & Hst').
    by exists (Fallback st').
Qed.

Lemma grouper_num_groups g known :
  grouper_holds key_types g known → GrouperOps.num_groups g = N.of_nat (length known).
Proof.
  destruct g as [st|st]; simpl.
  - intros (_ & _ & _ & Hrows & Hroom & _). unfold GrouperFastImpl.num_groups.
    rewrite Hrows, length_fmap. by apply wrap32_small.
  - by intros (_ & Hnum & _).
Qed.

Lemma grouper_GetUniques g known :
  grouper_holds_uniques key_types g known →
  GrouperOps.GetUniques g = Ok (batch_of_rows key_types known).
Proof.
  destruct g as [st|st]; simpl.
  - by apply GrouperFastImpl_GetUniques.
  - intros [? ?]. by apply GrouperImpl_GetUniques.
Qed.

Lemma grouper_fits_le g (n m : nat) :
  (n ≤ m)%nat → grouper_fits g m → grouper_fits g n.
Proof. intros Hnm Hm Hg. specialize (Hm Hg). lia. Qed.

Lemma grouper_fits_kind g g' (n : nat) :
  is_fast g' = is_fast g → grouper_fits g n → grouper_fits g' n.
Proof. unfold grouper_fits. by intros ->. Qed.

Lemma Populate_keeps_kind g g' batch offset len :
  GrouperOps.Populate g batch offset len = Ok g' → is_fast g' = is_fast g.
Proof.
  unfold GrouperOps.Populate. destruct g as [st|st]; intros Hrun;
    apply bind_Ok_inv in Hrun as (? & _ & ?); by simplify_eq.
Qed.

Lemma Consume_keeps_kind g g' out batch offset len :
  GrouperOps.Consume g batch offset len = Ok (g', out) → is_fast g' = is_fast g.
Proof.
  unfold GrouperOps.Consume. destruct g as [st|st]; intros Hrun;
    apply bind_Ok_inv in Hrun as ([] & _ & ?); by simplify_eq.
Qed.

Lemma Lookup_keeps_kind g g' out batch offset len :
  GrouperOps.Lookup g batch offset len = Ok (g', out) → is_fast g' = is_fast g.
Proof.
  unfold GrouperOps.Lookup. destruct g as [st|st]; intros Hrun;
    apply bind_Ok_inv in Hrun as ([] & _ & ?); by simplify_eq.
Qed.

Lemma Reset_keeps_kind g g' :
  GrouperOps.Reset g = Ok g' → is_fast g' = is_fast g.
Proof.
  unfold GrouperOps.Reset. destruct g as [st|st]; intros Hrun;
    apply bind_Ok_inv in Hrun as (? & _ & ?); by simplify_eq.
Qed.

Lemma Make_kind little_endian g :
  GrouperOps.Make little_endian key_types = Ok g →
  is_fast g = GrouperFastImpl.CanUse little_endian key_types.
Proof.
  unfold GrouperOps.Make. destruct (GrouperFastImpl.CanUse little_endian key_types);
    intros Hrun; apply bind_Ok_inv in Hrun as (? & _ & ?); by simplify_eq.
Qed.

Lemma grouper_calls g known batch offset len :
  grouper_holds key_types g known →
  call_ok key_types batch offset = true →
  let rows := call_rows batch offset len in
  let ids := (assign_ids known rows).1 in
  let known' := (assign_ids known rows).2 in
  ((N.of_nat (length known + length rows) < 2 ^ 32)%N →
   grouper_fits g (rows_bytes key_types known + rows_bytes key_types rows) →
   ∃ g', GrouperOps.Populate g batch offset len = Ok g'
         ∧ grouper_holds key_types g' known'
         ∧ (grouper_holds_uniques key_types g known →
            grouper_holds_uniques key_types g' known'))
  ∧ ((N.of_nat (length known + length rows) < 2 ^ 32)%N →
     grouper_fits g (rows_bytes key_types known + rows_bytes key_types rows) →
     ∃ g', GrouperOps.Consume g batch offset len
           = Ok (g', Some (mkUInt32Array (N.of_nat <$> ids) None))
           ∧ grouper_holds key_types g' known'
           ∧ (grouper_holds_uniques key_types g known →
              grouper_holds_uniques key_types g' known'))
  ∧ ((N.of_nat (length rows) < 2 ^ 32)%N →
     grouper_fits g (rows_bytes key_types rows) →
     ∃ g', GrouperOps.Lookup g batch offset len
           = Ok (g', Some (mkUInt32Array ((λ r, (lookup_id known r).1) <$> rows)
                             (Some ((λ r, (lookup_id known r).2) <$> rows))))
           ∧ grouper_holds key_types g' known
           ∧ (grouper_holds_uniques key_types g known →
              grouper_holds_uniques key_types g' known)).
Proof.
  intros Hg Hok rows ids known'. destruct g as [st|st]; simpl in *.
  - destruct (GrouperFastImpl_calls key_types Himage Hrange st known batch offset len
                Hg Hok) as (Hp & Hc & Hl).
    split_and!; intros Hcap _.
    + destruct (Hp Hcap) as (st' & -> & Hst'). by exists (Fast st').
    + destruct (Hc Hcap) as (st' & -> & Hst'). by exists (Fast st').
    + destruct (Hl Hcap) as (st' & -> & Hst'). by exists (Fast st').
  - destruct (GrouperImpl_calls key_types Hcells st known batch offset len Hg Hok)
      as (Hp & Hc & Hl).
    split_and!; intros Hcap Hfit; specialize (Hfit eq_refl).
    + destruct (Hp Hcap Hfit) as (st' & -> & Hst' & Hb). exists (Fallback st').
      simpl. split_and!; [done..|]. intros [_ ?]. split; [done|]. by apply Hb.
    + destruct (Hc Hcap Hfit) as (st' & -> & Hst' & Hb). exists (Fallback st').
      simpl. split_and!; [done..|]. intros [_ ?]. split; [done|]. by apply Hb.
    + rewrite (Hl Hfit). by exists (Fallback st).
Qed.

(** A sequence of calls on a grouper that holds the keys [known] returns
    what the specification says, call by call, and leaves a grouper that
    holds the keys inserted since the last reset. *)
Lemma run_spec calls :
  Forall (λ c, call_conforms key_types c = true) calls →
  ∀ g known,
    grouper_holds key_types g known →
    (N.of_nat (length known + rows_fed calls) < 2 ^ 32)%N →
    grouper_fits g (rows_bytes key_types known + key_bytes_fed key_types calls) →
    ∃ g', Calls.run g calls = Ok (g', spec_outputs known calls)
          ∧ grouper_holds key_types g' (inserted_keys known calls)
          ∧ (Forall (λ c, c ≠ CallReset) calls →
             grouper_holds_uniques key_types g known →
             grouper_holds_uniques key_types g' (inserted_keys known calls)).
Proof.
  induction 1 as [|c calls Hc _ IH]; intros g known Hg Hcap Hfit.
  - exists g. done.
  - destruct c as [batch offset len|batch offset len|batch offset len|]; simpl in *.
    + destruct (grouper_calls g known batch offset len Hg Hc) as (Hp & _ & _).
      destruct Hp as (g1 & Hrun & Hg1 & Hu1);
        [lia|by eapply grouper_fits_le; [|exact Hfit]; lia|].
      rewrite Hrun, !bind_Ok.
      pose proof (assign_ids_length_known known (call_rows batch offset len)) as Hgrow.
      pose proof (rows_bytes_assign_ids key_types (call_rows batch offset len) known)
        as Hbytes.
      destruct (IH g1 _ Hg1) as (g' & -> & Hg' & Hu'); [lia| |].
      { eapply grouper_fits_kind; [by eapply Populate_keeps_kind|].
        eapply grouper_fits_le; [|exact Hfit]. lia. }
      exists g'. split_and!; [done..|].
      intros Hnr%list.Forall_cons Hu. apply Hu'; [apply Hnr|by apply Hu1].
    + destruct (grouper_calls g known batch offset len Hg Hc) as (_ & Hp & _).
      destruct Hp as (g1 & Hrun & Hg1 & Hu1);
        [lia|by eapply grouper_fits_le; [|exact Hfit]; lia|].
      rewrite Hrun, !bind_Ok.
      pose proof (assign_ids_length_known known (call_rows batch offset len)) as Hgrow.
      pose proof (rows_bytes_assign_ids key_types (call_rows batch offset len) known)
        as Hbytes.
      cbn beta iota.
      destruct (assign_ids known (call_rows batch offset len)) as [ids known1] eqn:Hids.
      simpl in *.
      destruct (IH g1 _ Hg1) as (g' & -> & Hg' & Hu'); [lia| |].
      { eapply grouper_fits_kind; [by eapply Consume_keeps_kind|].
        eapply grouper_fits_le; [|exact Hfit]. lia. }
      exists g'. split_and!; [done..|].
      intros Hnr%list.Forall_cons Hu. apply Hu'; [apply Hnr|by apply Hu1].
    + destruct (grouper_calls g known batch offset len Hg Hc) as (_ & _ & Hp).
      destruct Hp as (g1 & Hrun & Hg1 & Hu1);
        [lia|by eapply grouper_fits_le; [|exact Hfit]; lia|].
      rewrite Hrun, !bind_Ok.
      cbn beta iota.
      destruct (IH g1 _ Hg1) as (g' & -> & Hg' & Hu'); [lia| |].
      { eapply grouper_fits_kind; [by eapply Lookup_keeps_kind|].
        eapply grouper_fits_le; [|exact Hfit]. lia. }
      exists g'. split_and!; [done..|].
      intros Hnr%list.Forall_cons Hu. apply Hu'; [apply Hnr|by apply Hu1].
    + destruct (grouper_Reset_holds g known Hg) as (g1 & Hreset & Hg1).
      rewrite Hreset, !bind_Ok.
      destruct (IH g1 _ Hg1) as (g' & -> & Hg' & Hu'); [simpl; lia| |].
      { eapply grouper_fits_kind; [by eapply Reset_keeps_kind|].
        eapply grouper_fits_le; [|exact Hfit].
        assert (rows_bytes key_types [] = 0%nat) as -> by done. lia. }
      exists g'. split_and!; [done..|].
      intros Hnr%list.Forall_cons. by destruct Hnr as [? _].
Qed.

End Groupers.

(** ** Facts about the specification-level functions *)

Lemma call_rows_conform key_types batch offset len :
  call_ok key_types batch offset = true →
  Forall (λ r, row_conforms key_types r = true) (call_rows batch offset len).
Proof.
  intros Hok. unfold call_rows. apply list.Forall_take, list.Forall_drop.
  apply batch_rows_conform. unfold call_ok in Hok.
  apply andb_prop in Hok as [Hok _]. by apply andb_prop in Hok as [Hok _].
Qed.

Lemma assign_ids_lt known rows (id : nat) :
  id ∈ (assign_ids known rows).1 → (id < length (assign_ids known rows).2)%nat.
Proof.
  intros [i Hi]%list_elem_of_lookup.
  assert (is_Some (rows !! i)) as [r Hr].
  { apply lookup_lt_is_Some. rewrite <- (assign_ids_length known rows).
    by eapply lookup_lt_Some. }
  eapply find_key_lt, assign_ids_find; eauto.
Qed.

Lemma assign_ids_covers rows : ∀ known (id : nat),
  (length known ≤ id < length (assign_ids known rows).2)%nat →
  id ∈ (assign_ids known rows).1.
Proof.
  induction rows as [|r rows IH]; intros known id Hid; simpl in *; [lia|].
  unfold assign_id in *. destruct (find_key known r) as [i|] eqn:Hfind.
  - specialize (IH known id).
    destruct (assign_ids known rows) as [ids known'] eqn:Hids. simpl in *.
    apply elem_of_cons. right. by apply IH.
  - specialize (IH (known ++ [r]) id).
    destruct (assign_ids (known ++ [r]) rows) as [ids known'] eqn:Hids. simpl in *.
    apply elem_of_cons. destruct (decide (id = length known)) as [->|Hne]; [by left|].
    right. apply IH. rewrite length_app. simpl. lia.
Qed.

Lemma assign_ids_elem known rows r :
  r ∈ (assign_ids known rows).2 ↔ r ∈ known ∨ r ∈ rows.
Proof.
  revert known. induction rows as [|r' rows IH]; intros known; simpl.
  - rewrite elem_of_nil. tauto.
  - unfold assign_id. destruct (find_key known r') as [i|] eqn:Hfind.
    + specialize (IH known). destruct (assign_ids known rows) as [ids known'].
      simpl in *. rewrite IH, elem_of_cons.
      apply find_key_Some, list_elem_of_lookup_2 in Hfind.
      split; [tauto|]. intros [?|[->|?]]; tauto.
    + specialize (IH (known ++ [r'])).
      destruct (assign_ids (known ++ [r']) rows) as [ids known']. simpl in *.
      rewrite IH, elem_of_app, elem_of_cons, elem_of_cons, elem_of_nil. tauto.
Qed.

Lemma inserted_keys_elem calls : ∀ known seen r,
  (∀ r, r ∈ known ↔ r ∈ seen) →
  r ∈ inserted_keys known calls ↔ r ∈ keys_fed seen calls.
Proof.
  induction calls as [|c calls IH]; intros known seen r Hsame; simpl; [done|].
  destruct c as [batch offset len|batch offset len|batch offset len|];
    apply IH; try done;
    intros r'; rewrite assign_ids_elem, elem_of_app, Hsame; done.
Qed.

Lemma inserted_keys_NoDup calls : ∀ known, NoDup known → NoDup (inserted_keys known calls).
Proof.
  induction calls as [|c calls IH]; intros known Hnd; simpl; [done|].
  destruct c; apply IH; try done; try by apply assign_ids_NoDup.
  apply NoDup_nil_2.
Qed.

Lemma inserted_keys_length calls : ∀ known,
  Forall (λ c, is_populate_or_consume c = true) calls →
  (length known ≤ length (inserted_keys known calls))%nat.
Proof.
  induction calls as [|c calls IH]; intros known Hcalls; simpl; [done|].
  apply list.Forall_cons in Hcalls as [Hc Hcalls].
  destruct c as [batch offset len|batch offset len|batch offset len|]; try done;
    (etrans; [|by apply IH]); apply assign_ids_length_known.
Qed.

Lemma inserted_keys_bound calls : ∀ known,
  (length (inserted_keys known calls) ≤ length known + rows_fed calls)%nat.
Proof.
  induction calls as [|c calls IH]; intros known; simpl; [lia|].
  destruct c as [batch offset len|batch offset len|batch offset len|].
  - specialize (IH (assign_ids known (call_rows batch offset len)).2).
    pose proof (assign_ids_length_known known (call_rows batch offset len)). lia.
  - specialize (IH (assign_ids known (call_rows batch offset len)).2).
    pose proof (assign_ids_length_known known (call_rows batch offset len)). lia.
  - specialize (IH known). lia.
  - specialize (IH []). simpl in IH. lia.
Qed.

Lemma inserted_keys_bytes `{KeyEncoder} key_types calls : ∀ known,
  (rows_bytes key_types (inserted_keys known calls)
   ≤ rows_bytes key_types known + key_bytes_fed key_types calls)%nat.
Proof.
  induction calls as [|c calls IH]; intros known; simpl; [lia|].
  destruct c as [batch offset len|batch offset len|batch offset len|].
  - specialize (IH (assign_ids known (call_rows batch offset len)).2).
    pose proof (rows_bytes_assign_ids key_types (call_rows batch offset len) known). lia.
  - specialize (IH (assign_ids known (call_rows batch offset len)).2).
    pose proof (rows_bytes_assign_ids key_types (call_rows batch offset len) known). lia.
  - specialize (IH known). lia.
  - specialize (IH []). assert (rows_bytes key_types [] = 0%nat) as Hnil by done. lia.
Qed.

Lemma key_bytes_fed_app `{KeyEncoder} key_types calls1 calls2 :
  key_bytes_fed key_types (calls1 ++ calls2)
  = (key_bytes_fed key_types calls1 + key_bytes_fed key_types calls2)%nat.
Proof.
  induction calls1 as [|c calls1 IH]; simpl; [done|]. destruct c; simpl; lia.
Qed.

Lemma returned_ids_cons out outs :
  returned_ids (out :: outs) = from_option arr_values [] out ++ returned_ids outs.
Proof. done. Qed.

Lemma spec_outputs_shape calls : ∀ known,
  Forall (λ c, is_populate_or_consume c = true) calls →
  Forall2 consume_shape calls (spec_outputs known calls).
Proof.
  induction calls as [|c calls IH]; intros known Hcalls; simpl; [constructor|].
  apply list.Forall_cons in Hcalls as [Hc Hcalls].
  destruct c as [batch offset len|batch offset len|batch offset len|]; try done.
  - constructor; [done|by apply IH].
  - pose proof (assign_ids_length known (call_rows batch offset len)) as Hlen.
    destruct (assign_ids known (call_rows batch offset len)) as [ids known'].
    constructor; [|by apply IH]. exists (N.of_nat <$> ids).
    by rewrite length_fmap.
Qed.

Lemma spec_outputs_in_range calls : ∀ known (id : N),
  Forall (λ c, is_populate_or_consume c = true) calls →
  id ∈ returned_ids (spec_outputs known calls) →
  (id < N.of_nat (length (inserted_keys known calls)))%N.
Proof.
  induction calls as [|c calls IH]; intros known id Hcalls; simpl.
  { by intros ?%elem_of_nil. }
  apply list.Forall_cons in Hcalls as [Hc Hcalls].
  destruct c as [batch offset len|batch offset len|batch offset len|]; try done.
  - rewrite returned_ids_cons. simpl. by apply IH.
  - pose proof (assign_ids_lt known (call_rows batch offset len)) as Hlt.
    destruct (assign_ids known (call_rows batch offset len)) as [ids known'].
    rewrite returned_ids_cons. simpl in *.
    intros [Hid|Hid]%elem_of_app; [|by apply IH].
    apply list_elem_of_fmap in Hid as (k & -> & Hk). apply Hlt in Hk.
    pose proof (inserted_keys_length calls known' Hcalls). lia.
Qed.

Lemma spec_outputs_dense calls : ∀ known (id : nat),
  Forall (λ c, is_consume c = true) calls →
  (length known ≤ id < length (inserted_keys known calls))%nat →
  N.of_nat id ∈ returned_ids (spec_outputs known calls).
Proof.
  induction calls as [|c calls IH]; intros known id Hcalls; simpl; [lia|].
  apply list.Forall_cons in Hcalls as [Hc Hcalls].
  destruct c as [batch offset len|batch offset len|batch offset len|]; try done.
  pose proof (assign_ids_covers (call_rows batch offset len) known id) as Hcov.
  destruct (assign_ids known (call_rows batch offset len)) as [ids known'].
  rewrite returned_ids_cons. simpl in *. intros Hid. apply elem_of_app.
  destruct (decide (id < length known')%nat) as [Hlt|Hge].
  - left. apply list_elem_of_fmap. exists id. split; [done|]. apply Hcov. lia.
  - right. apply IH; [done|lia].
Qed.

Lemma is_consume_populate_or_consume calls :
  Forall (λ c, is_consume c = true) calls →
  Forall (λ c, is_populate_or_consume c = true) calls.
Proof. apply Forall_impl. by intros []. Qed.

Lemma not_reset_populate_or_consume calls :
  Forall (λ c, is_populate_or_consume c = true) calls → Forall (λ c, c ≠ CallReset) calls.
Proof. apply Forall_impl. by intros []. Qed.

Lemma not_reset_ne calls :
  Forall (λ c, is_reset c = false) calls → Forall (λ c, c ≠ CallReset) calls.
Proof. apply Forall_impl. by intros []. Qed.

(** ** The laws hold for the null-byte encoders *)

Lemma NullByteEncoders_decode_encode ty c rest :
  NullByteEncoders.fixed_payload ty = true → cell_conforms ty c = true →
  NullByteEncoders.decode_cell ty (NullByteEncoders.encode_cell ty c ++ rest)
  = Some (c, rest).
Proof.
  intros Hty Hc.
  assert (ty = NA ∧ c = None
          ∨ ty ≠ NA ∧ (c = None
                       ∨ ∃ p, c = Some p ∧ length p = NullByteEncoders.payload_width ty))
    as [[-> ->]|[Hna Hcell]].
  { destruct ty, c as [p|]; simpl in *; try done;
      try apply bool_decide_eq_true in Hc;
      first [by left | right; (split; [done|]); eauto]. }
  { done. }
  assert (∀ buf, NullByteEncoders.decode_cell ty buf
     = match buf with
       | [] => None
       | flag :: buf' =>
           if decide (length buf' < NullByteEncoders.payload_width ty)%nat then None
           else if decide (flag = Byte.x00)
                then Some (Some (take (NullByteEncoders.payload_width ty) buf'),
                           drop (NullByteEncoders.payload_width ty) buf')
                else Some (None, drop (NullByteEncoders.payload_width ty) buf')
       end) as Hdec by (by destruct ty).
  assert (NullByteEncoders.encode_cell ty c
     = match c with
       | None => Byte.x01 :: replicate (NullByteEncoders.payload_width ty) Byte.x00
       | Some p => Byte.x00 :: p
       end) as -> by (by destruct ty).
  rewrite Hdec. destruct Hcell as [->|(p & -> & Hp)]; simpl.
  - case_decide as Hlen; [rewrite length_app, length_replicate in Hlen; lia|].
    by rewrite drop_app_length' by (by rewrite length_replicate).
  - case_decide as Hlen; [rewrite length_app in Hlen; lia|].
    by rewrite take_app_length', drop_app_length' by done.
Qed.

Lemma NullByteEncoders_key_laws key_types :
  Forall (λ ty, NullByteEncoders.fixed_payload ty = true) key_types →
  @KeyEncoderLaws NullByteEncoders.key_encoder key_types.
Proof.
  intros Hkt. constructor. intros ty c rest Hty Hc.
  apply NullByteEncoders_decode_encode; [|done].
  by eapply list.Forall_forall in Hkt.
Qed.

Lemma NullByteEncoders_row_laws key_types :
  Forall (λ ty, NullByteEncoders.fixed_payload ty = true) key_types →
  @RowEncoderLaws NullByteEncoders.row_encoder key_types.
Proof.
  intros Hkt. constructor. simpl.
  induction Hkt as [|ty key_types Hty _ IH]; intros [|c r] Hr; try done.
  simpl in *. apply andb_prop in Hr as [Hc Hr].
  rewrite (NullByteEncoders_decode_encode ty c _ Hty Hc), (IH r Hr). done.
Qed.

Lemma NullByteEncoders_mini_batch_in_range :
  @mini_batch_in_range NullByteEncoders.mini_batch.
Proof. split; by vm_compute. Qed.

Lemma NullByteEncoders_small_mini_batch_in_range :
  @mini_batch_in_range NullByteEncoders.small_mini_batch.
Proof. split; by vm_compute. Qed.

(** ** The grouper contract *)

(** A grouper fresh from [Grouper::Make], after any sequence of calls on
    batches of its key schema, has returned what the specification says and
    holds the keys inserted since the last reset. *)
Lemma run_from_Make `{KeyEncoder} `{RowEncoder} `{MiniBatch} key_types
    `{!KeyEncoderLaws key_types} `{!RowEncoderLaws key_types}
    little_endian g0 calls :
  mini_batch_in_range →
  GrouperOps.Make little_endian key_types = Ok g0 →
  Forall (λ c, call_conforms key_types c = true) calls →
  (N.of_nat (rows_fed calls) < 2 ^ 32)%N →
  grouper_fits g0 (key_bytes_fed key_types calls) →
  ∃ g', Calls.run g0 calls = Ok (g', spec_outputs [] calls)
        ∧ grouper_holds key_types g' (inserted_keys [] calls)
        ∧ (Forall (λ c, c ≠ CallReset) calls →
           grouper_holds_uniques key_types g' (inserted_keys [] calls)).
Proof.
  intros Hrange Hmake Hcalls Hcap Hfit.
  pose proof (grouper_Make_holds key_types Hrange _ _ Hmake) as Hg0.
  destruct (run_spec key_types (laws_cell_law key_types) decode_row_image Hrange
              calls Hcalls g0 []) as (g' & Hrun & Hg' & Hu).
  - by apply grouper_holds_uniques_holds.
  - done.
  - done.
  - exists g'. split_and!; [done..|]. intros Hnr. by apply Hu.
Qed.

Lemma step_keeps_implementation `{KeyEncoder} `{RowEncoder} `{MiniBatch} g c g' out :
  Calls.step g c = Ok (g', out) →
  match g, g' with Fast _, Fast _ | Fallback _, Fallback _ => True | _, _ => False end.
Proof.
  unfold Calls.step, GrouperOps.Populate, GrouperOps.Consume, GrouperOps.Lookup,
    GrouperOps.Reset.
  destruct g as [st|st], c as [batch offset len|batch offset len|batch offset len|];
    intros Hstep;
    repeat match goal with
           | H : (_ ≫= _) = Ok _ |- _ => apply bind_Ok_inv in H as ([] & ? & ?)
           end;
    by simplify_eq.
Qed.

Lemma run_keeps_implementation `{KeyEncoder} `{RowEncoder} `{MiniBatch} calls :
  ∀ g g' outs,
    Calls.run g calls = Ok (g', outs) →
    match g, g' with Fast _, Fast _ | Fallback _, Fallback _ => True | _, _ => False end.
Proof.
  induction calls as [|c calls IH]; intros g g' outs; simpl.
  - intros [= <- _]. by destruct g.
  - intros Hrun. apply bind_Ok_inv in Hrun as ([g1 out] & Hstep & Hrun).
    apply bind_Ok_inv in Hrun as ([g2 outs'] & Hrest & Hrun). injection Hrun as <- _.
    apply step_keeps_implementation in Hstep. apply IH in Hrest.
    by destruct g, g1, g2.
Qed.

Lemma run_keeps_kind `{KeyEncoder} `{RowEncoder} `{MiniBatch} calls g g' outs :
  Calls.run g calls = Ok (g', outs) → is_fast g' = is_fast g.
Proof. intros Hrun%run_keeps_implementation. by destruct g, g'. Qed.

(** The bytes that still fit a grouper after a run of calls. *)
Lemma run_fits `{KeyEncoder} `{RowEncoder} `{MiniBatch} key_types calls g g' outs
    (n : nat) :
  Calls.run g calls = Ok (g', outs) →
  grouper_fits g (key_bytes_fed key_types calls + n) →
  grouper_fits g' (rows_bytes key_types (inserted_keys [] calls) + n).
Proof.
  intros Hkind%run_keeps_kind Hfit. apply (grouper_fits_kind g g'); [done|].
  eapply grouper_fits_le; [|exact Hfit].
  pose proof (inserted_keys_bytes key_types calls []) as Hb.
  assert (rows_bytes key_types [] = 0%nat) as Hnil by done. lia.
Qed.

(** Where C7 holds: [GetUniques] returns the keys inserted since the last
    reset, in the order of their group ids, and [num_groups()] counts them,
    when the grouper is the fast one or was not reset. *)
Lemma GetUniques_returns_inserted_keys `{KeyEncoder} `{RowEncoder} `{MiniBatch} key_types
    `{!KeyEncoderLaws key_types} `{!RowEncoderLaws key_types}
    little_endian g0 calls :
  mini_batch_in_range →
  GrouperOps.Make little_endian key_types = Ok g0 →
  Forall (λ c, call_conforms key_types c = true) calls →
  (N.of_nat (rows_fed calls) < 2 ^ 32)%N →
  grouper_fits g0 (key_bytes_fed key_types calls) →
  GrouperFastImpl.CanUse little_endian key_types = true
  ∨ Forall (λ c, is_reset c = false) calls →
  ∃ g' outs,
    Calls.run g0 calls = Ok (g', outs)
    ∧ GrouperOps.num_groups g' = N.of_nat (length (inserted_keys [] calls))
    ∧ GrouperOps.GetUniques g' = Ok (batch_of_rows key_types (inserted_keys [] calls)).
Proof.
  intros Hrange Hmake Hcalls Hcap Hfit Hwhen.
  destruct (run_from_Make key_types little_endian g0 calls Hrange Hmake Hcalls Hcap Hfit)
    as (g' & Hrun & Hg' & Hu).
  exists g', (spec_outputs [] calls). split_and!; [done|by eapply grouper_num_groups|].
  apply (grouper_GetUniques key_types (laws_cell_law key_types) decode_row_image Hrange).
  destruct Hwhen as [Hcan|Hnr]; [|by apply Hu, not_reset_ne].
  pose proof (run_keeps_implementation calls g0 g' _ Hrun) as Hkind.
  unfold GrouperOps.Make in Hmake. rewrite Hcan in Hmake.
  destruct (GrouperFastImpl.Make key_types) as [st| | |]; try done.
  injection Hmake as <-. by destruct g'.
Qed.

Section GrouperClaims.
Context `{KeyEncoder} `{RowEncoder} `{MiniBatch}.
Variable key_types : list DataType.
Context `{!KeyEncoderLaws key_types} `{!RowEncoderLaws key_types}.
Hypothesis Hrange : mini_batch_in_range.

(** C1: whatever calls a grouper has served, the ids a consume call returns
    for a batch are equal at two rows exactly when the two rows have equal
    key tuples, a null being equal to a null of the same column and to no
    value.  The rows are fewer than 2^32 in all and, in the fallback
    grouper, the bytes of their keys at most INT32_MAX. *)
Theorem Consume_ids_equal_iff_keys_equal little_endian g0 calls batch offset len :
  GrouperOps.Make little_endian key_types = Ok g0 →
  Forall (λ c, call_conforms key_types c = true) calls →
  call_ok key_types batch offset = true →
  (N.of_nat (rows_fed calls + length (call_rows batch offset len)) < 2 ^ 32)%N →
  grouper_fits g0 (key_bytes_fed key_types calls
                   + rows_bytes key_types (call_rows batch offset len)) →
  ∃ g1 outs g2 ids,
    Calls.run g0 calls = Ok (g1, outs)
    ∧ GrouperOps.Consume g1 batch offset len = Ok (g2, Some (mkUInt32Array ids None))
    ∧ length ids = length (call_rows batch offset len)
    ∧ ∀ (i j : nat) ri rj,
        call_rows batch offset len !! i = Some ri →
        call_rows batch offset len !! j = Some rj →
        ∃ a b, ids !! i = Some a ∧ ids !! j = Some b
               ∧ (a = b ↔ key_equal ri rj = true).
Proof.
  intros Hmake Hcalls Hok Hcap Hfit.
  destruct (run_from_Make key_types little_endian g0 calls Hrange Hmake Hcalls)
    as (g1 & Hrun & Hg1 & _); [lia|by eapply grouper_fits_le; [|exact Hfit]; lia|].
  pose proof (run_fits key_types calls g0 g1 _ _ Hrun Hfit) as Hfit1.
  pose proof (inserted_keys_bound calls []) as Hbound. simpl in Hbound.
  set (known := inserted_keys [] calls) in *.
  destruct (grouper_calls key_types (laws_cell_law key_types) decode_row_image Hrange
              g1 known batch offset len Hg1 Hok) as (_ & Hconsume & _).
  destruct Hconsume as (g2 & Hc & _); [lia|done|].
  eexists g1, _, g2, _. split_and!; [done..| |].
  { by rewrite length_fmap, assign_ids_length. }
  intros i j ri rj Hi Hj.
  assert (is_Some ((assign_ids known (call_rows batch offset len)).1 !! i)) as [a Ha].
  { apply lookup_lt_is_Some. rewrite assign_ids_length. by eapply lookup_lt_Some. }
  assert (is_Some ((assign_ids known (call_rows batch offset len)).1 !! j)) as [b Hb].
  { apply lookup_lt_is_Some. rewrite assign_ids_length. by eapply lookup_lt_Some. }
  exists (N.of_nat a), (N.of_nat b). rewrite !list_lookup_fmap, Ha, Hb.
  split_and!; [done..|]. rewrite key_equal_eq.
  etrans; [|apply (assign_ids_same_id known (call_rows batch offset len) i j a b ri rj);
             try done; apply inserted_keys_NoDup, NoDup_nil_2].
  lia.
Qed.

(** C2 (amended): over a sequence of populate and consume calls, a populate
    returns nothing and a consume returns an array without nulls of one id
    per row of the call; every id returned is below [num_groups()]; and when
    all the calls are consume calls, every number below [num_groups()] is an
    id that was returned.  The rows are fewer than 2^32 in all and, in the
    fallback grouper, the bytes of their keys at most INT32_MAX. *)
Theorem Consume_ids_dense little_endian g0 calls :
  GrouperOps.Make little_endian key_types = Ok g0 →
  Forall (λ c, call_conforms key_types c = true) calls →
  Forall (λ c, is_populate_or_consume c = true) calls →
  (N.of_nat (rows_fed calls) < 2 ^ 32)%N →
  grouper_fits g0 (key_bytes_fed key_types calls) →
  ∃ g' outs,
    Calls.run g0 calls = Ok (g', outs)
    ∧ Forall2 consume_shape calls outs
    ∧ (∀ id, id ∈ returned_ids outs → (id < GrouperOps.num_groups g')%N)
    ∧ (Forall (λ c, is_consume c = true) calls →
       ∀ id, (id < GrouperOps.num_groups g')%N → id ∈ returned_ids outs).
Proof.
  intros Hmake Hcalls Hins Hcap Hfit.
  destruct (run_from_Make key_types little_endian g0 calls Hrange Hmake Hcalls Hcap Hfit)
    as (g' & Hrun & Hg' & _).
  exists g', (spec_outputs [] calls).
  rewrite (grouper_num_groups key_types g' _ Hg').
  split_and!; [done|by apply spec_outputs_shape| |].
  - intros id. by apply spec_outputs_in_range.
  - intros Hcons id Hid. rewrite <- (N2Nat.id id).
    apply spec_outputs_dense; [done|]. simpl. lia.
Qed.

(** C3: after any calls, a lookup on a batch inserts no key and returns one
    value and one validity bit per row of the call: where the key of the row
    was given to a populate or consume call since the last reset, the id a
    consume of the same batch returns for the row, marked present; elsewhere
    0, marked absent.  The rows are fewer than 2^32 in all and, in the
    fallback grouper, the bytes of their keys at most INT32_MAX. *)
Theorem Lookup_finds_inserted_keys little_endian g0 calls batch offset len :
  GrouperOps.Make little_endian key_types = Ok g0 →
  Forall (λ c, call_conforms key_types c = true) calls →
  call_ok key_types batch offset = true →
  (N.of_nat (rows_fed calls + length (call_rows batch offset len)) < 2 ^ 32)%N →
  grouper_fits g0 (key_bytes_fed key_types calls
                   + rows_bytes key_types (call_rows batch offset len)) →
  ∃ g1 outs g2 values bitmap g3 ids,
    Calls.run g0 calls = Ok (g1, outs)
    ∧ GrouperOps.Lookup g1 batch offset len
      = Ok (g2, Some (mkUInt32Array values (Some bitmap)))
    ∧ GrouperOps.Consume g1 batch offset len = Ok (g3, Some (mkUInt32Array ids None))
    ∧ GrouperOps.num_groups g2 = GrouperOps.num_groups g1
    ∧ (Forall (λ c, is_reset c = false) calls →
       GrouperOps.GetUniques g2 = GrouperOps.GetUniques g1)
    ∧ length values = length (call_rows batch offset len)
    ∧ length bitmap = length (call_rows batch offset len)
    ∧ ∀ (i : nat) r,
        call_rows batch offset len !! i = Some r →
        (r ∈ keys_fed [] calls →
         values !! i = ids !! i ∧ is_Some (ids !! i) ∧ bitmap !! i = Some true)
        ∧ (r ∉ keys_fed [] calls →
           values !! i = Some 0%N ∧ bitmap !! i = Some false).
Proof.
  intros Hmake Hcalls Hok Hcap Hfit.
  destruct (run_from_Make key_types little_endian g0 calls Hrange Hmake Hcalls)
    as (g1 & Hrun & Hg1 & Hu1); [lia|by eapply grouper_fits_le; [|exact Hfit]; lia|].
  pose proof (run_fits key_types calls g0 g1 _ _ Hrun Hfit) as Hfit1.
  pose proof (inserted_keys_bound calls []) as Hbound. simpl in Hbound.
  set (known := inserted_keys [] calls) in *.
  destruct (grouper_calls key_types (laws_cell_law key_types) decode_row_image Hrange
              g1 known batch offset len Hg1 Hok) as (_ & Hconsume & Hlookup).
  destruct Hconsume as (g3 & Hc & _); [lia|done|].
  destruct Hlookup as (g2 & Hl & Hg2 & Hu2);
    [lia|by eapply grouper_fits_le; [|exact Hfit1]; lia|].
  set (rows := call_rows batch offset len) in *.
  eexists g1, _, g2, _, _, g3, _. split_and!; [done..| | | | |].
  - by rewrite (grouper_num_groups key_types g2 known),
      (grouper_num_groups key_types g1 known).
  - intros Hnr%not_reset_ne.
    rewrite (grouper_GetUniques key_types (laws_cell_law key_types) decode_row_image
               Hrange g2 known) by auto.
    by rewrite (grouper_GetUniques key_types (laws_cell_law key_types) decode_row_image
                  Hrange g1 known) by auto.
  - by rewrite length_fmap.
  - by rewrite length_fmap.
  - intros i r Hi. fold rows. rewrite !list_lookup_fmap, Hi. simpl.
    assert (r ∈ keys_fed [] calls ↔ r ∈ known) as ->.
    { symmetry. by apply inserted_keys_elem. }
    unfold lookup_id. destruct (find_key known r) as [k|] eqn:Hfind.
    + split; [intros _|by intros []; eapply list_elem_of_lookup_2, find_key_Some].
      assert (is_Some ((assign_ids known rows).1 !! i)) as [a Ha].
      { apply lookup_lt_is_Some. rewrite assign_ids_length. by eapply lookup_lt_Some. }
      rewrite Ha. simpl. split_and!; [|done..]. do 2 f_equal.
      pose proof (assign_ids_find known rows i a r Hi Ha) as Hfind'.
      destruct (assign_ids_grows known rows) as (more & Hmore & _).
      rewrite Hmore, find_key_app, Hfind in Hfind'. congruence.
    + split; [|done]. intros Hin. by apply find_key_None in Hfind.
Qed.

Lemma call_rows_rest batch offset len :
  len < 0 → 0 ≤ offset ≤ batch_length batch →
  call_rows batch offset len = drop (Z.to_nat offset) (batch_rows batch).
Proof.
  intros Hneg Hoff. unfold call_rows. destruct (Z.ltb_spec len 0) as [_|]; [|lia].
  apply take_ge. rewrite length_drop, length_batch_rows. lia.
Qed.

(** C10: a populate, consume or lookup call with a negative length and an
    offset inside the batch succeeds and handles the rows from [offset] to
    the end of the batch, as the call with length [batch.length - offset]
    does: populate and consume insert the keys of exactly these rows, consume
    returns one id per row, the position of the row's key among the keys in
    order of first appearance, and lookup one answer per row.  The rows are
    fewer than 2^32 in all and, in the fallback grouper, the bytes of their
    keys at most INT32_MAX. *)
Theorem negative_length_is_rest_of_batch little_endian g0 calls batch offset len :
  GrouperOps.Make little_endian key_types = Ok g0 →
  Forall (λ c, call_conforms key_types c = true) calls →
  call_ok key_types batch offset = true →
  len < 0 →
  (N.of_nat (rows_fed calls + length (drop (Z.to_nat offset) (batch_rows batch)))
   < 2 ^ 32)%N →
  grouper_fits g0 (key_bytes_fed key_types calls
                   + rows_bytes key_types (drop (Z.to_nat offset) (batch_rows batch))) →
  ∃ known rest g1 outs gp gc gl,
    known = inserted_keys [] calls
    ∧ rest = drop (Z.to_nat offset) (batch_rows batch)
    ∧ Z.of_nat (length rest) = batch_length batch - offset
    ∧ Calls.run g0 calls = Ok (g1, outs)
    ∧ GrouperOps.Populate g1 batch offset len = Ok gp
    ∧ GrouperOps.Populate g1 batch offset (batch_length batch - offset) = Ok gp
    ∧ GrouperOps.num_groups gp = N.of_nat (length (assign_ids known rest).2)
    ∧ GrouperOps.Consume g1 batch offset len
      = Ok (gc, Some (mkUInt32Array (N.of_nat <$> (assign_ids known rest).1) None))
    ∧ GrouperOps.Consume g1 batch offset (batch_length batch - offset)
      = Ok (gc, Some (mkUInt32Array (N.of_nat <$> (assign_ids known rest).1) None))
    ∧ GrouperOps.num_groups gc = N.of_nat (length (assign_ids known rest).2)
    ∧ GrouperOps.Lookup g1 batch offset len
      = Ok (gl, Some (mkUInt32Array ((λ r, (lookup_id known r).1) <$> rest)
                        (Some ((λ r, (lookup_id known r).2) <$> rest))))
    ∧ GrouperOps.Lookup g1 batch offset (batch_length batch - offset)
      = Ok (gl, Some (mkUInt32Array ((λ r, (lookup_id known r).1) <$> rest)
                        (Some ((λ r, (lookup_id known r).2) <$> rest)))).
Proof.
  intros Hmake Hcalls Hok Hneg Hcap Hfit.
  set (known := inserted_keys [] calls).
  set (rest := drop (Z.to_nat offset) (batch_rows batch)) in *.
  assert (0 ≤ offset ≤ batch_length batch) as Hoff.
  { unfold call_ok in Hok. apply andb_prop in Hok as [Hok ?%Z.leb_le].
    apply andb_prop in Hok as [_ ?%Z.leb_le]. lia. }
  pose proof (call_rows_rest batch offset len Hneg Hoff) as Hrows. fold rest in Hrows.
  destruct (run_from_Make key_types little_endian g0 calls Hrange Hmake Hcalls)
    as (g1 & Hrun & Hg1 & _); [lia|by eapply grouper_fits_le; [|exact Hfit]; lia|].
  pose proof (run_fits key_types calls g0 g1 _ _ Hrun Hfit) as Hfit1.
  pose proof (inserted_keys_bound calls []) as Hbound. simpl in Hbound.
  fold known in Hg1, Hfit1, Hbound.
  destruct (negative_length_same_call g1 batch offset len Hneg Hoff)
    as (Hsamep & Hsamec & Hsamel).
  destruct (grouper_calls key_types (laws_cell_law key_types) decode_row_image Hrange
              g1 known batch offset len Hg1 Hok) as (Hp & Hc & Hl).
  rewrite Hrows in Hp, Hc, Hl.
  destruct Hp as (gp & Hp & Hgp & _); [lia|done|].
  destruct Hc as (gc & Hc & Hgc & _); [lia|done|].
  destruct Hl as (gl & Hl & _); [lia|by eapply grouper_fits_le; [|exact Hfit1]; lia|].
  exists known, rest, g1, (spec_outputs [] calls), gp, gc, gl.
  rewrite <- Hsamep, <- Hsamec, <- Hsamel.
  split_and!; try done.
  - unfold rest. rewrite length_drop, length_batch_rows. lia.
  - by rewrite (grouper_num_groups key_types gp _ Hgp).
  - by rewrite (grouper_num_groups key_types gc _ Hgc).
Qed.

End GrouperClaims.

(** C8: on a key schema the fast path can be used for, the fast grouper,
    run with either of two mini-batch lengths, and the fallback grouper
    return the same arrays call by call and the same uniques, over any
    sequence of populate, consume and lookup calls of fewer than 2^32 rows
    and at most INT32_MAX bytes of keys in all, which is what the [int32_t]
    offsets of the fallback grouper can hold. *)
Theorem fast_and_fallback_agree `{KeyEncoder} `{RowEncoder} (M1 M2 : MiniBatch)
    key_types `{!KeyEncoderLaws key_types} `{!RowEncoderLaws key_types}
    fast fallback calls :
  @mini_batch_in_range M1 → @mini_batch_in_range M2 →
  GrouperFastImpl.CanUse true key_types = true →
  GrouperOps.Make true key_types = Ok fast →
  GrouperOps.Make false key_types = Ok fallback →
  Forall (λ c, call_conforms key_types c = true) calls →
  Forall (λ c, is_reset c = false) calls →
  (N.of_nat (rows_fed calls) < 2 ^ 32)%N →
  Z.of_nat (key_bytes_fed key_types calls) ≤ INT32_MAX →
  ∃ outs uniques fast1 fast2 fallback',
    (∃ st, fast = Fast st) ∧ (∃ st, fallback = Fallback st)
    ∧ @Calls.run _ _ M1 fast calls = Ok (fast1, outs)
    ∧ @Calls.run _ _ M2 fast calls = Ok (fast2, outs)
    ∧ @Calls.run _ _ M1 fallback calls = Ok (fallback', outs)
    ∧ @GrouperOps.GetUniques _ _ M1 fast1 = Ok uniques
    ∧ @GrouperOps.GetUniques _ _ M2 fast2 = Ok uniques
    ∧ @GrouperOps.GetUniques _ _ M1 fallback' = Ok uniques.
Proof.
  intros Hr1 Hr2 Hcan Hfast Hfallback Hcalls Hnr%not_reset_ne Hcap Hfit.
  destruct (@run_from_Make _ _ M1 key_types _ _ true fast calls Hr1 Hfast Hcalls Hcap)
    as (fast1 & Hrun1 & _ & Hu1); [by intros _|].
  destruct (@run_from_Make _ _ M2 key_types _ _ true fast calls Hr2 Hfast Hcalls Hcap)
    as (fast2 & Hrun2 & _ & Hu2); [by intros _|].
  destruct (@run_from_Make _ _ M1 key_types _ _ false fallback calls Hr1 Hfallback
              Hcalls Hcap) as (fallback' & Hrun3 & _ & Hu3); [by intros _|].
  exists (spec_outputs [] calls), (batch_of_rows key_types (inserted_keys [] calls)),
    fast1, fast2, fallback'.
  split_and!; try done.
  - unfold GrouperOps.Make in Hfast. rewrite Hcan in Hfast.
    destruct (GrouperFastImpl.Make key_types) as [st| | |]; try done.
    exists st. simpl in Hfast. congruence.
  - unfold GrouperOps.Make in Hfallback.
    assert (GrouperFastImpl.CanUse false key_types = false) as Hno.
    { unfold GrouperFastImpl.CanUse. by case_decide. }
    rewrite Hno in Hfallback.
    destruct (GrouperImpl.Make key_types) as [st| | |]; try done.
    exists st. simpl in Hfallback. congruence.
  - apply (@grouper_GetUniques _ _ M1 key_types (laws_cell_law key_types)
             decode_row_image Hr1). auto.
  - apply (@grouper_GetUniques _ _ M2 key_types (laws_cell_law key_types)
             decode_row_image Hr2). auto.
  - apply (@grouper_GetUniques _ _ M1 key_types (laws_cell_law key_types)
             decode_row_image Hr1). auto.
Qed.

(** ** The grouper contract on sample data *)

Section Samples.
Import NullByteEncoders.

Lemma int8_key_laws : KeyEncoderLaws int8_keys.
Proof. apply NullByteEncoders_key_laws. by repeat constructor. Qed.

Lemma int8_row_laws : RowEncoderLaws int8_keys.
Proof. apply NullByteEncoders_row_laws. by repeat constructor. Qed.

Lemma Consume_ids_equal_iff_keys_equal_witness :
  ∃ g0, GrouperOps.Make true int8_keys = Ok g0
  ∧ call_ok int8_keys batch_with_nulls 0 = true
  ∧ ∃ g1 outs g2 ids,
      Calls.run g0 [CallConsume batch_1_2 0 (-1)] = Ok (g1, outs)
      ∧ GrouperOps.Consume g1 batch_with_nulls 0 (-1)
        = Ok (g2, Some (mkUInt32Array ids None))
      ∧ length ids = length (call_rows batch_with_nulls 0 (-1))
      ∧ ∀ (i j : nat) ri rj,
          call_rows batch_with_nulls 0 (-1) !! i = Some ri →
          call_rows batch_with_nulls 0 (-1) !! j = Some rj →
          ∃ a b, ids !! i = Some a ∧ ids !! j = Some b
                 ∧ (a = b ↔ key_equal ri rj = true).
Proof.
  eexists. split; [reflexivity|]. split; [reflexivity|].
  apply (@Consume_ids_equal_iff_keys_equal _ _ _ int8_keys int8_key_laws int8_row_laws
           NullByteEncoders_mini_batch_in_range true _ [CallConsume batch_1_2 0 (-1)]
           batch_with_nulls 0 (-1)).
  - reflexivity.
  - by repeat constructor.
  - reflexivity.
  - by vm_compute.
  - intros Hfallback. discriminate Hfallback.
Defined.

(** The ids of the sample: the key 2 was seen before, null and 3 are new. *)
Example Consume_scenario :
  ∀ little_endian : bool,
    fresh_run little_endian int8_keys
      [CallConsume batch_1_2 0 (-1); CallConsume batch_with_nulls 0 (-1)]
    = Ok ([Some (mkUInt32Array [0; 1]%N None);
           Some (mkUInt32Array [1; 2; 1; 2; 3]%N None)], 4%N,
          Ok (int8_batch [int8 Byte.x01; int8 Byte.x02; None; int8 Byte.x03])).
Proof. by intros []; vm_compute. Qed.

(** C2, as stated, fails when keys are inserted by a populate call: the
    grouper then counts groups whose ids no consume call has returned. *)
Lemma Populate_breaks_density :
  fresh_run true int8_keys
    [CallPopulate batch_1_2 0 (-1); CallConsume (int8_batch [int8 Byte.x01]) 0 (-1)]
  = Ok ([None; Some (mkUInt32Array [0]%N None)], 2%N, Ok batch_1_2)
  ∧ fresh_run false int8_keys
      [CallPopulate batch_1_2 0 (-1); CallConsume (int8_batch [int8 Byte.x01]) 0 (-1)]
    = Ok ([None; Some (mkUInt32Array [0]%N None)], 2%N, Ok batch_1_2)
  ∧ ¬ (∀ id, (id < 2)%N →
             id ∈ returned_ids [None; Some (mkUInt32Array [0]%N None)]).
Proof.
  split; [by vm_compute|]. split; [by vm_compute|].
  intros Hall. specialize (Hall 1%N eq_refl).
  apply elem_of_cons in Hall as [?|?%elem_of_nil]; done.
Qed.

Lemma Consume_ids_dense_witness :
  ∃ g0, GrouperOps.Make true int8_keys = Ok g0
  ∧ ∃ g' outs,
      Calls.run g0 [CallConsume batch_1_2 0 (-1); CallConsume batch_with_nulls 1 3]
      = Ok (g', outs)
      ∧ Forall2 consume_shape
          [CallConsume batch_1_2 0 (-1); CallConsume batch_with_nulls 1 3] outs
      ∧ (∀ id, id ∈ returned_ids outs → (id < GrouperOps.num_groups g')%N)
      ∧ (Forall (λ c, is_consume c = true)
           [CallConsume batch_1_2 0 (-1); CallConsume batch_with_nulls 1 3] →
         ∀ id, (id < GrouperOps.num_groups g')%N → id ∈ returned_ids outs).
Proof.
  eexists. split; [reflexivity|].
  apply (@Consume_ids_dense _ _ _ int8_keys int8_key_laws int8_row_laws
           NullByteEncoders_mini_batch_in_range true _
           [CallConsume batch_1_2 0 (-1); CallConsume batch_with_nulls 1 3]).
  - reflexivity.
  - by repeat constructor.
  - by repeat constructor.
  - by vm_compute.
  - intros Hfallback. discriminate Hfallback.
Defined.

Lemma Lookup_finds_inserted_keys_witness :
  ∃ g0, GrouperOps.Make false int8_keys = Ok g0
  ∧ ∃ g1 outs g2 values bitmap g3 ids,
      Calls.run g0 [CallConsume batch_1_2 0 (-1)] = Ok (g1, outs)
      ∧ GrouperOps.Lookup g1 batch_with_nulls 0 (-1)
        = Ok (g2, Some (mkUInt32Array values (Some bitmap)))
      ∧ GrouperOps.Consume g1 batch_with_nulls 0 (-1)
        = Ok (g3, Some (mkUInt32Array ids None))
      ∧ GrouperOps.num_groups g2 = GrouperOps.num_groups g1
      ∧ (Forall (λ c, is_reset c = false) [CallConsume batch_1_2 0 (-1)] →
         GrouperOps.GetUniques g2 = GrouperOps.GetUniques g1)
      ∧ length values = length (call_rows batch_with_nulls 0 (-1))
      ∧ length bitmap = length (call_rows batch_with_nulls 0 (-1))
      ∧ ∀ (i : nat) r,
          call_rows batch_with_nulls 0 (-1) !! i = Some r →
          (r ∈ keys_fed [] [CallConsume batch_1_2 0 (-1)] →
           values !! i = ids !! i ∧ is_Some (ids !! i) ∧ bitmap !! i = Some true)
          ∧ (r ∉ keys_fed [] [CallConsume batch_1_2 0 (-1)] →
             values !! i = Some 0%N ∧ bitmap !! i = Some false).
Proof.
  eexists. split; [reflexivity|].
  apply (@Lookup_finds_inserted_keys _ _ _ int8_keys int8_key_laws int8_row_laws
           NullByteEncoders_mini_batch_in_range false _ [CallConsume batch_1_2 0 (-1)]
           batch_with_nulls 0 (-1)).
  - reflexivity.
  - by repeat constructor.
  - reflexivity.
  - by vm_compute.
  - intros _. by vm_compute.
Defined.

(** The lookup of the sample: only the key 2 is found, and no key is
    inserted. *)
Example Lookup_scenario :
  ∀ little_endian : bool,
    fresh_run little_endian int8_keys
      [CallConsume batch_1_2 0 (-1); CallLookup batch_with_nulls 0 (-1)]
    = Ok ([Some (mkUInt32Array [0; 1]%N None);
           Some (mkUInt32Array [1; 0; 1; 0; 0]%N
                   (Some [true; false; true; false; false]))], 2%N, Ok batch_1_2).
Proof. by intros []; vm_compute. Qed.

Lemma fast_and_fallback_agree_witness :
  ∃ fast fallback,
    GrouperFastImpl.CanUse true int8_keys = true
    ∧ GrouperOps.Make true int8_keys = Ok fast
    ∧ GrouperOps.Make false int8_keys = Ok fallback
    ∧ ∃ outs uniques fast1 fast2 fallback',
        (∃ st, fast = Fast st) ∧ (∃ st, fallback = Fallback st)
        ∧ @Calls.run _ _ mini_batch fast
            [CallConsume batch_1_2 0 (-1); CallLookup batch_with_nulls 0 2;
             CallPopulate batch_with_nulls 1 (-1)] = Ok (fast1, outs)
        ∧ @Calls.run _ _ small_mini_batch fast
            [CallConsume batch_1_2 0 (-1); CallLookup batch_with_nulls 0 2;
             CallPopulate batch_with_nulls 1 (-1)] = Ok (fast2, outs)
        ∧ @Calls.run _ _ mini_batch fallback
            [CallConsume batch_1_2 0 (-1); CallLookup batch_with_nulls 0 2;
             CallPopulate batch_with_nulls 1 (-1)] = Ok (fallback', outs)
        ∧ @GrouperOps.GetUniques _ _ mini_batch fast1 = Ok uniques
        ∧ @GrouperOps.GetUniques _ _ small_mini_batch fast2 = Ok uniques
        ∧ @GrouperOps.GetUniques _ _ mini_batch fallback' = Ok uniques.
Proof.
  do 2 eexists. split; [reflexivity|]. split; [reflexivity|]. split; [reflexivity|].
  apply (@fast_and_fallback_agree _ _ mini_batch small_mini_batch int8_keys
           int8_key_laws int8_row_laws).
  - exact NullByteEncoders_mini_batch_in_range.
  - exact NullByteEncoders_small_mini_batch_in_range.
  - reflexivity.
  - reflexivity.
  - reflexivity.
  - by repeat constructor.
  - by repeat constructor.
  - by vm_compute.
  - by vm_compute.
Defined.

(** C7 fails in the fallback grouper after a reset: [Reset] leaves the
    offsets empty where a fresh grouper has the offset 0, so the offsets of
    the keys inserted afterwards are the ends of the keys, and [GetUniques]
    decodes every key from where it ends; the last one from the end of the
    stored bytes.  The fast grouper returns the keys, and so does the
    fallback grouper when it has not been reset. *)
Theorem GrouperImpl_GetUniques_after_Reset :
  inserted_keys [] [CallReset; CallConsume batch_1_2 0 (-1)]
  = [[int8 Byte.x01]; [int8 Byte.x02]]
  ∧ fresh_run false int8_keys [CallReset; CallConsume batch_1_2 0 (-1)]
    = Ok ([None; Some (mkUInt32Array [0; 1]%N None)], 2%N, Undefined)
  ∧ fresh_run_offsets false int8_keys [CallReset; CallConsume batch_1_2 0 (-1)]
    = Ok (Some [2; 4])
  ∧ fresh_run true int8_keys [CallReset; CallConsume batch_1_2 0 (-1)]
    = Ok ([None; Some (mkUInt32Array [0; 1]%N None)], 2%N, Ok batch_1_2)
  ∧ fresh_run false int8_keys [CallConsume batch_1_2 0 (-1)]
    = Ok ([Some (mkUInt32Array [0; 1]%N None)], 2%N, Ok batch_1_2)
  ∧ fresh_run_offsets false int8_keys [CallConsume batch_1_2 0 (-1)]
    = Ok (Some [0; 2; 4]).
Proof. split_and!; by vm_compute. Qed.

Lemma negative_length_is_rest_of_batch_witness :
  ∃ g0, GrouperOps.Make false int8_keys = Ok g0
  ∧ ∃ known rest g1 outs gp gc gl,
      known = inserted_keys [] [CallConsume batch_1_2 0 (-1)]
      ∧ rest = drop (Z.to_nat 1) (batch_rows batch_with_nulls)
      ∧ Z.of_nat (length rest) = batch_length batch_with_nulls - 1
      ∧ Calls.run g0 [CallConsume batch_1_2 0 (-1)] = Ok (g1, outs)
      ∧ GrouperOps.Populate g1 batch_with_nulls 1 (-1) = Ok gp
      ∧ GrouperOps.Populate g1 batch_with_nulls 1 (batch_length batch_with_nulls - 1)
        = Ok gp
      ∧ GrouperOps.num_groups gp = N.of_nat (length (assign_ids known rest).2)
      ∧ GrouperOps.Consume g1 batch_with_nulls 1 (-1)
        = Ok (gc, Some (mkUInt32Array (N.of_nat <$> (assign_ids known rest).1) None))
      ∧ GrouperOps.Consume g1 batch_with_nulls 1 (batch_length batch_with_nulls - 1)
        = Ok (gc, Some (mkUInt32Array (N.of_nat <$> (assign_ids known rest).1) None))
      ∧ GrouperOps.num_groups gc = N.of_nat (length (assign_ids known rest).2)
      ∧ GrouperOps.Lookup g1 batch_with_nulls 1 (-1)
        = Ok (gl, Some (mkUInt32Array ((λ r, (lookup_id known r).1) <$> rest)
                          (Some ((λ r, (lookup_id known r).2) <$> rest))))
      ∧ GrouperOps.Lookup g1 batch_with_nulls 1 (batch_length batch_with_nulls - 1)
        = Ok (gl, Some (mkUInt32Array ((λ r, (lookup_id known r).1) <$> rest)
                          (Some ((λ r, (lookup_id known r).2) <$> rest)))).
Proof.
  eexists. split; [reflexivity|].
  apply (@negative_length_is_rest_of_batch _ _ _ int8_keys int8_key_laws int8_row_laws
           NullByteEncoders_mini_batch_in_range false _ [CallConsume batch_1_2 0 (-1)]
           batch_with_nulls 1 (-1)).
  - reflexivity.
  - by repeat constructor.
  - reflexivity.
  - lia.
  - by vm_compute.
  - intros _. by vm_compute.
Defined.

(** The rest of the sample batch from row 1 on. *)
Example negative_length_scenario :
  ∀ little_endian : bool,
    fresh_run little_endian int8_keys [CallConsume batch_with_nulls 1 (-1)]
    = Ok ([Some (mkUInt32Array [0; 1; 0; 2]%N None)], 3%N,
          Ok (int8_batch [None; int8 Byte.x02; int8 Byte.x03])).
Proof. by intros []; vm_compute. Qed.

End Samples.

(** ** Runs of equal values *)

Lemma runs_from_segments_from {A : Type} (xs : list A) prev (extends : bool) :
  (extends = true ↔ prev = None ∨ prev = xs !! 0%nat) →
  ∀ segments offset,
    runs_from xs offset extends segments → segments_from xs offset prev segments.
Proof.
  intros Hext. induction segments as [|s segments IH]; intros offset; simpl; [done|].
  intros (Hoff & Hpos & Hin & Heq & Hne & Hopen & Hflag & Hrest).
  split_and!; try done; [|by apply IH].
  rewrite Hflag, andb_true_iff, Z.eqb_eq, Hext. done.
Qed.

Lemma runs_from_rel {A B : Type} (xs : list A) (ys : list B) (extends : bool) :
  length xs = length ys →
  (∀ i j : nat, (i < length xs)%nat → (j < length xs)%nat →
     xs !! i = xs !! j ↔ ys !! i = ys !! j) →
  ∀ segments offset,
    0 ≤ offset → runs_from xs offset extends segments →
    runs_from ys offset extends segments.
Proof.
  intros Hlen Hrel. induction segments as [|s segments IH]; intros offset Hoff0; simpl.
  { by rewrite Hlen. }
  intros (Hoff & Hpos & Hin & Heq & Hne & Hopen & Hflag & Hrest).
  rewrite <- Hlen. split_and!; try done.
  - intros i Hi. apply Hrel; [lia..|]. by apply Heq.
  - intros Hlt. rewrite <- Hrel by lia. by apply Hne.
  - apply IH; [lia|done].
Qed.

(** ** The scan of [AnyKeysSegmenter::GetSegments] *)

Lemma scan_loop_spec (xs : list N) (extends : bool) :
  let n := Z.of_nat (length xs) in
  ∀ fuel cursor current segments,
    Z.of_nat fuel = n - cursor →
    0 ≤ current < cursor →
    (∀ i, current ≤ i < cursor → xs !! Z.to_nat i = xs !! Z.to_nat current) →
    ∃ segments' current',
      AnyKeysSegmenter.scan_loop fuel xs n extends cursor current segments
      = Ok (segments ++ segments', n, current')
      ∧ runs_from xs current extends
          (segments' ++ [MakeSegment n current' (n - current')
                           (if current' =? 0 then extends else false)]).
Proof.
  intros n. induction fuel as [|fuel IH]; intros cursor current segments Hfuel Hcur Hrun.
  - assert (cursor = n) as -> by lia. exists [], current. simpl.
    rewrite app_nil_r. split; [done|]. fold n.
    split_and!; [done|lia|lia|intros i Hi; apply Hrun; lia|lia| | |lia].
    + destruct (Z.leb_spec n (current + (n - current))); [|lia]. split; [lia|done].
    + by destruct (current =? 0).
  - simpl.
    assert (is_Some (xs !! Z.to_nat cursor)) as [a Ha] by (apply lookup_lt_is_Some; lia).
    assert (is_Some (xs !! Z.to_nat current)) as [b Hb] by (apply lookup_lt_is_Some; lia).
    unfold read. destruct (Z.ltb_spec cursor 0); [lia|].
    destruct (Z.ltb_spec current 0); [lia|]. rewrite Ha, Hb. simpl.
    destruct (N.eqb_spec a b) as [->|Hab]; simpl.
    + apply IH; [lia|lia|]. intros i Hi.
      destruct (decide (i = cursor)) as [->|]; [congruence|]. apply Hrun. lia.
    + destruct (IH (cursor + 1) cursor
                  (segments ++ [MakeSegment n current (cursor - current)
                                  (if current =? 0 then extends else false)]))
        as (segments' & current' & Hloop & Hruns); [lia|lia| |].
      { intros i Hi. by assert (i = cursor) as -> by lia. }
      exists (MakeSegment n current (cursor - current)
                (if current =? 0 then extends else false) :: segments'), current'.
      rewrite Hloop, <- app_assoc. split; [done|].
      change ((?s :: ?l) ++ ?k) with (s :: (l ++ k)). cbn [runs_from].
      fold n. simpl.
      split_and!; [done|lia|lia|intros i Hi; apply Hrun; lia| | | |].
      * intros _. replace (current + (cursor - current)) with cursor by lia.
        rewrite Ha, Hb. congruence.
      * destruct (Z.leb_spec n (current + (cursor - current))); [lia|].
        split; [done|lia].
      * by destruct (current =? 0).
      * by replace (current + (cursor - current)) with cursor by lia.
Qed.

(** ** The byte scan of [SimpleKeySegmenter] *)

Lemma length_mjoin_fixed (w : nat) (ps : list (list byte)) :
  Forall (λ p, length p = w) ps → length (mjoin ps) = (length ps * w)%nat.
Proof.
  induction 1 as [|p ps' Hp _ IH]; [done|]. simpl.
  rewrite length_app, IH, Hp. lia.
Qed.

Lemma chunk_at (w : nat) (ps : list (list byte)) (i : nat) p :
  Forall (λ p, length p = w) ps →
  ps !! i = Some p → take w (drop (i * w) (mjoin ps)) = p.
Proof.
  intros Hps. revert i. induction Hps as [|p0 ps' Hp0 _ IH]; intros i Hi; [done|].
  change (mjoin (p0 :: ps')) with (p0 ++ mjoin ps').
  destruct i as [|i].
  - injection Hi as ->. change (0 * w)%nat with 0%nat. rewrite drop_0.
    by rewrite take_app_length'.
  - rewrite drop_app_ge by lia. rewrite Hp0.
    replace (S i * w - w)%nat with (i * w)%nat by lia. by apply IH.
Qed.

Section FixedWidthBytes.
Variable w : nat.
Variable ps : list (list byte).
Hypothesis Hw : (0 < w)%nat.
Hypothesis Hps : Forall (λ p, length p = w) ps.

Lemma chunk_length (i : nat) :
  (i < length ps)%nat → (w ≤ length (drop (i * w) (mjoin ps)))%nat.
Proof.
  intros Hi. rewrite length_drop, (length_mjoin_fixed w) by done. nia.
Qed.

Lemma memcmp_eq_chunks (i j : nat) pi pj :
  ps !! i = Some pi → ps !! j = Some pj →
  memcmp_eq (advance (mjoin ps) (Z.of_nat i * Z.of_nat w))
    (advance (mjoin ps) (Z.of_nat j * Z.of_nat w)) (Z.of_nat w)
  = Ok (bool_decide (pi = pj)).
Proof.
  intros Hi Hj. unfold memcmp_eq, advance.
  replace (Z.to_nat (Z.of_nat i * Z.of_nat w)) with (i * w)%nat by lia.
  replace (Z.to_nat (Z.of_nat j * Z.of_nat w)) with (j * w)%nat by lia.
  pose proof (chunk_length i ltac:(by eapply lookup_lt_Some)).
  pose proof (chunk_length j ltac:(by eapply lookup_lt_Some)).
  destruct (Z.ltb_spec (Z.of_nat (length (drop (i * w) (mjoin ps)))) (Z.of_nat w)); [lia|].
  destruct (Z.ltb_spec (Z.of_nat (length (drop (j * w) (mjoin ps)))) (Z.of_nat w)); [lia|].
  simpl. rewrite Nat2Z.id, (chunk_at w ps i pi), (chunk_at w ps j pj) by done. done.
Qed.

Lemma match_loop_spec (offset : nat) :
  (offset < length ps)%nat →
  ∀ fuel (cursor : nat),
    (offset ≤ cursor ≤ length ps)%nat → (fuel = length ps - cursor)%nat →
    (∀ i : nat, (offset ≤ i < cursor)%nat → ps !! i = ps !! offset) →
    ∃ c : nat,
      SimpleKeySegmenter.match_loop
        (advance (mjoin ps) (Z.of_nat offset * Z.of_nat w)) (Z.of_nat w) (mjoin ps)
        (Z.of_nat (length ps)) fuel (Z.of_nat cursor) (Z.of_nat w * Z.of_nat cursor)
      = Ok (Z.of_nat c)
      ∧ (cursor ≤ c ≤ length ps)%nat
      ∧ (∀ i : nat, (offset ≤ i < c)%nat → ps !! i = ps !! offset)
      ∧ ((c < length ps)%nat → ps !! c ≠ ps !! offset).
Proof.
  intros Hoff. induction fuel as [|fuel IH]; intros cursor Hcur Hfuel Hrun.
  - exists cursor. simpl. split_and!; [done|lia|lia|done|lia].
  - simpl. destruct (Z.ltb_spec (Z.of_nat cursor) (Z.of_nat (length ps))); [|lia].
    destruct (lookup_lt_is_Some_2 ps offset Hoff) as [po Hpo].
    destruct (lookup_lt_is_Some_2 ps cursor ltac:(lia)) as [pc Hpc].
    replace (Z.of_nat w * Z.of_nat cursor) with (Z.of_nat cursor * Z.of_nat w) by lia.
    rewrite (memcmp_eq_chunks offset cursor po pc Hpo Hpc). simpl.
    case_bool_decide as Heq.
    + destruct (IH (S cursor)) as (c & Hloop & Hc & Hall & Hnext); [lia|lia| |].
      { intros i Hi. destruct (decide (i = cursor)) as [->|]; [congruence|].
        apply Hrun. lia. }
      exists c. split_and!; [|lia|lia|done|done].
      rewrite <- Hloop. f_equal; lia.
    + exists cursor. split_and!; [done|lia|lia|done|]. intros _. congruence.
Qed.

Lemma GetMatchLength_spec (offset : nat) :
  (offset < length ps)%nat →
  ∃ m : nat,
    SimpleKeySegmenter.GetMatchLength
      (advance (mjoin ps) (Z.of_nat offset * Z.of_nat w)) (Z.of_nat w) (mjoin ps)
      (Z.of_nat offset) (Z.of_nat (length ps))
    = Ok (Z.of_nat m)
    ∧ (0 < m)%nat ∧ (offset + m ≤ length ps)%nat
    ∧ (∀ i : nat, (offset ≤ i < offset + m)%nat → ps !! i = ps !! offset)
    ∧ ((offset + m < length ps)%nat → ps !! (offset + m)%nat ≠ ps !! offset).
Proof.
  intros Hoff. unfold SimpleKeySegmenter.GetMatchLength.
  destruct (match_loop_spec offset Hoff (length ps - offset) offset)
    as (c & Hloop & Hc & Hall & Hnext); [lia|lia| |].
  { intros i Hi. lia. }
  replace (Z.to_nat (Z.of_nat (length ps) - Z.of_nat offset))
    with (length ps - offset)%nat by lia.
  rewrite Hloop, bind_Ok.
  assert (c ≠ offset) by (intros ->; by apply Hnext).
  exists (c - offset)%nat. replace (offset + (c - offset))%nat with c by lia.
  split_and!; [f_equal; lia|lia|lia|done|done].
Qed.

Lemma segment_loop_spec (extends : bool) :
  ∀ fuel (offset : nat) segments,
    (offset ≤ length ps)%nat → (length ps - offset ≤ fuel)%nat →
    ∃ segments',
      SimpleKeySegmenter.segment_loop (mjoin ps) (Z.of_nat w) (Z.of_nat (length ps))
        extends fuel (Z.of_nat offset) segments
      = Ok (segments ++ segments')
      ∧ runs_from ps (Z.of_nat offset) extends segments'.
Proof.
  induction fuel as [|fuel IH]; intros offset segments Hoff Hfuel.
  - exists []. assert (offset = length ps) as -> by lia. simpl.
    rewrite Z.ltb_irrefl, app_nil_r. done.
  - simpl. destruct (Z.ltb_spec (Z.of_nat offset) (Z.of_nat (length ps))) as [Hlt|Hge].
    + destruct (GetMatchLength_spec offset ltac:(lia)) as (m & Hm & Hpos & Hin & Hall & Hnext).
      rewrite Hm, bind_Ok.
      destruct (IH (offset + m)%nat
                  (segments ++ [MakeSegment (Z.of_nat (length ps)) (Z.of_nat offset)
                                  (Z.of_nat m)
                                  (if Z.of_nat offset =? 0 then extends else false)]))
        as (segments' & Hloop & Hruns); [lia|lia|].
      replace (Z.of_nat offset + Z.of_nat m) with (Z.of_nat (offset + m)) by lia.
      rewrite Hloop, <- app_assoc. eexists. split; [done|].
      cbn [runs_from app]. simpl.
      replace (Z.of_nat offset + Z.of_nat m) with (Z.of_nat (offset + m)) by lia.
      rewrite !Nat2Z.id. split_and!; [done|lia|lia| | | | |done].
      * intros i Hi. rewrite <- (Hall (Z.to_nat i)) by lia. done.
      * intros Hlt'. apply Hnext. lia.
      * destruct (Z.leb_spec (Z.of_nat (length ps)) (Z.of_nat (offset + m)));
          split; (done || lia).
      * by destruct (Z.of_nat offset =? 0).
    + exists []. rewrite app_nil_r. split; [done|]. simpl. lia.
Qed.

End FixedWidthBytes.

(** ** The segmenters, batch by batch *)

Lemma check_value_types_Ok n key_types : ∀ vals i,
  values_conform n key_types vals = true → check_value_types i vals key_types = Ok tt.
Proof.
  induction key_types as [|ty key_types IH]; intros [|v vals] i Hv; simpl in *; try done.
  apply andb_prop in Hv as [Hv Hvals].
  assert (value_type v = ty) as ->.
  { destruct v; simpl in *.
    - apply andb_prop in Hv as [Hty _]. by apply bool_decide_eq_true in Hty.
    - apply andb_prop in Hv as [Hv _]. apply andb_prop in Hv as [Hty _].
      by apply bool_decide_eq_true in Hty. }
  rewrite decide_True by done. by apply IH.
Qed.

Lemma CheckForGetSegments_Ok key_types batch :
  batch_conforms key_types batch = true → CheckForGetSegments batch key_types = Ok tt.
Proof.
  intros Hb. unfold batch_conforms in Hb. apply andb_prop in Hb as [_ Hv].
  unfold CheckForGetSegments.
  rewrite decide_True by (by eapply values_conform_length).
  by eapply check_value_types_Ok.
Qed.

Lemma batch_conforms_length key_types batch :
  batch_conforms key_types batch = true → 0 ≤ batch_length batch.
Proof. intros Hb. unfold batch_conforms in Hb. apply andb_prop in Hb as [Hn _]. lia. Qed.

Lemma last_key_conforms key_types prev rows :
  from_option (λ r, row_conforms key_types r = true) True prev →
  Forall (λ r, row_conforms key_types r = true) rows →
  from_option (λ r, row_conforms key_types r = true) True (last_key prev rows).
Proof.
  intros Hprev Hrows. unfold last_key. destruct (list.last rows) as [k|] eqn:Hlast; [|done].
  simpl. rewrite list.Forall_forall in Hrows. apply Hrows.
  apply last_Some in Hlast as [l' ->]. apply elem_of_app. right. by left.
Qed.

Lemma run_of_constant {A : Type} (xs : list A) (x : A) (n len : Z) (extends : bool) :
  0 < n → n = Z.of_nat (length xs) → len = n →
  (∀ i : nat, (i < length xs)%nat → xs !! i = Some x) →
  runs_from xs 0 extends [MakeSegment n 0 len extends].
Proof.
  intros Hn Hlen -> Hall. cbn [runs_from MakeSegment seg_offset seg_length is_open_end
    extends_previous]. rewrite <- Hlen.
  split_and!; [done|lia|lia| |lia| |done|lia].
  - intros i Hi. rewrite !Hall by lia. done.
  - destruct (Z.leb_spec n (0 + n)); [|lia]. split; [lia|done].
Qed.

(** *** No keys *)

Lemma NoKeys_GetSegments prev batch :
  batch_conforms [] batch = true → prev = None ∨ prev = Some [] →
  ∃ segments,
    NoKeysSegmenter.GetSegments batch = Ok segments
    ∧ segments_ok prev (batch_rows batch) segments
    ∧ (last_key prev (batch_rows batch) = None ∨ last_key prev (batch_rows batch) = Some []).
Proof.
  intros Hb Hprev. unfold NoKeysSegmenter.GetSegments.
  rewrite (CheckForGetSegments_Ok [] batch Hb).
  pose proof (batch_conforms_length [] batch Hb) as Hn.
  pose proof (batch_rows_conform [] batch Hb) as Hrows.
  pose proof (length_batch_rows batch) as Hlen.
  assert (∀ i r, batch_rows batch !! i = Some r → r = []) as Hnil.
  { intros i r Hi. eapply list.Forall_forall in Hrows; [|by eapply list_elem_of_lookup_2].
    by destruct r. }
  assert (last_key prev (batch_rows batch) = None
          ∨ last_key prev (batch_rows batch) = Some []) as Hlast.
  { unfold last_key. destruct (list.last (batch_rows batch)) as [k|] eqn:Hk; [|done].
    right. rewrite last_lookup in Hk. by rewrite (Hnil _ _ Hk). }
  change (CheckForGetSegments batch [];; ?k) with k. cbv beta.
  change (Ok tt;; ?k) with k.
  destruct (Z.eqb_spec (batch_length batch) 0) as [Hz|Hnz].
  - exists []. split_and!; [done| |done]. unfold segments_ok. simpl. lia.
  - eexists. split_and!; [done| |done]. unfold segments_ok.
    apply (runs_from_segments_from _ _ kDefaultExtends).
    + split; [|done]. intros _. destruct Hprev as [->| ->]; [by left|right].
      destruct (lookup_lt_is_Some_2 (batch_rows batch) 0) as [r Hr]; [lia|].
      by rewrite Hr, (Hnil _ _ Hr).
    + apply (run_of_constant (batch_rows batch) ([] : Row));
        [lia|rewrite Hlen; lia|lia|].
      intros i Hi. destruct (lookup_lt_is_Some_2 (batch_rows batch) i) as [r Hr]; [lia|].
      by rewrite Hr, (Hnil _ _ Hr).
Qed.

(** *** A single non-nullable fixed-width key *)

Lemma rows_of_single_array ty cs :
  batch_rows (mkExecSpan [Array ty cs] (Z.of_nat (length cs))) = (λ c, [c]) <$> cs.
Proof.
  unfold batch_rows, row_at. simpl. rewrite Nat2Z.id.
  rewrite <- (list_as_lookups None cs) at 2. by rewrite <- list_fmap_compose.
Qed.

Lemma rows_of_single_scalar ty c n :
  batch_rows (mkExecSpan [Scalar ty c] n) = replicate (Z.to_nat n) [c].
Proof.
  unfold batch_rows, row_at. simpl. generalize 0%nat.
  induction (Z.to_nat n) as [|k IH]; intros i; [done|]. simpl. by rewrite IH.
Qed.

Lemma fixed_width_cell ty c :
  is_fixed_width ty = true → 0 < byte_width ty → cell_conforms ty c = true →
  c = None ∨ ∃ p, c = Some p ∧ length p = Z.to_nat (byte_width ty).
Proof.
  intros Hty Hw Hc. destruct c as [p|]; [right|by left]. exists p. split; [done|].
  destruct ty; simpl in *; try done; try lia; apply bool_decide_eq_true in Hc;
    by rewrite Nat2Z.id.
Qed.

Lemma existsb_false {A : Type} (f : A → bool) (l : list A) x :
  existsb f l = false → x ∈ l → f x = false.
Proof.
  induction l as [|y l IH]; simpl; [by intros _ ?%elem_of_nil|].
  intros [Hy Hl]%orb_false_elim [->|Hx]%elem_of_cons; [done|by apply IH].
Qed.

Lemma has_null_cell batch (i : nat) r c :
  has_null batch = false → batch_rows batch !! i = Some r → c ∈ r → c ≠ None.
Proof.
  intros Hnull Hr Hc ->. unfold has_null in Hnull.
  apply (existsb_false _ _ r) in Hnull; [|by eapply list_elem_of_lookup_2].
  apply (existsb_false _ _ None) in Hnull; [|done]. by apply bool_decide_eq_false in Hnull.
Qed.

Lemma payloads_of_cells (W : nat) (cs : list Cell) :
  Forall (λ c, ∃ p, c = Some p ∧ length p = W) cs →
  ∃ ps, cs = Some <$> ps ∧ Forall (λ p, length p = W) ps.
Proof.
  induction 1 as [|c cs (p & -> & Hp) _ (ps & -> & Hps)].
  - by exists [].
  - exists (p :: ps). split; [done|]. by constructor.
Qed.

Lemma memcmp_eq_whole (a b : list byte) :
  (length a ≤ length b)%nat →
  memcmp_eq a b (Z.of_nat (length a)) = Ok (bool_decide (a = take (length a) b)).
Proof.
  intros Hlen. unfold memcmp_eq.
  destruct (Z.ltb_spec (Z.of_nat (length a)) (Z.of_nat (length a))); [lia|].
  destruct (Z.ltb_spec (Z.of_nat (length b)) (Z.of_nat (length a))); [lia|].
  simpl. by rewrite Nat2Z.id, take_ge by lia.
Qed.

Lemma Extend_spec ty st prev data :
  simple_holds ty st prev →
  (Z.to_nat (byte_width ty) ≤ length data)%nat →
  ∃ extends st',
    SimpleKeySegmenter.Extend st data = Ok (extends, st')
    ∧ (extends = true
       ↔ prev = None ∨ prev = Some [Some (take (Z.to_nat (byte_width ty)) data)])
    ∧ SimpleKeySegmenter.key_type_ st' = ty
    ∧ length (SimpleKeySegmenter.save_key_data_ st') = Z.to_nat (byte_width ty)
    ∧ SimpleKeySegmenter.extend_was_called_ st' = true.
Proof.
  intros (Hty & Hsave & Hprev) Hdata. unfold SimpleKeySegmenter.Extend.
  destruct prev as [r|].
  - destruct Hprev as [Hcalled ->]. rewrite Hcalled. simpl.
    rewrite memcmp_eq_whole by lia. rewrite bind_Ok. eexists _, st.
    split_and!; [done| |done..]. rewrite Hsave.
    rewrite bool_decide_eq_true. split; [intros <-; by right|].
    intros [?|[=]]; done.
  - rewrite Hprev. simpl. eexists _, _. split_and!; [done| |done..].
    split; [by left|done].
Qed.

Lemma SaveKeyData_spec ty st data :
  SimpleKeySegmenter.key_type_ st = ty →
  length (SimpleKeySegmenter.save_key_data_ st) = Z.to_nat (byte_width ty) →
  SimpleKeySegmenter.extend_was_called_ st = true →
  (Z.to_nat (byte_width ty) ≤ length data)%nat →
  ∃ st',
    SimpleKeySegmenter.SaveKeyData st data = Ok st'
    ∧ simple_holds ty st' (Some [Some (take (Z.to_nat (byte_width ty)) data)]).
Proof.
  intros Hty Hsave Hcalled Hdata. unfold SimpleKeySegmenter.SaveKeyData.
  rewrite decide_False by lia. eexists. split; [done|].
  unfold simple_holds. simpl. rewrite Hsave, length_take.
  split_and!; [done|lia|done|done].
Qed.

Lemma last_key_nil prev : last_key prev [] = prev.
Proof. done. Qed.

Lemma last_key_lookup prev (rows : list Row) r :
  rows !! (length rows - 1)%nat = Some r → last_key prev rows = Some r.
Proof.
  intros Hr. unfold last_key. rewrite last_lookup.
  replace (Nat.pred (length rows)) with (length rows - 1)%nat by lia. by rewrite Hr.
Qed.

Lemma SimpleKey_GetSegments (debug : bool) ty st prev batch :
  is_fixed_width ty = true → 0 < byte_width ty →
  simple_holds ty st prev →
  batch_conforms [ty] batch = true → has_null batch = false →
  ∃ segments st',
    SimpleKeySegmenter.GetSegments debug st batch = Ok (segments, st')
    ∧ segments_ok prev (batch_rows batch) segments
    ∧ simple_holds ty st' (last_key prev (batch_rows batch)).
Proof.
  intros Hfixed Hw Hst Hb Hnull.
  pose proof (CheckForGetSegments_Ok [ty] batch Hb) as Hcheck.
  pose proof (batch_conforms_length [ty] batch Hb) as Hn.
  pose proof (length_batch_rows batch) as Hlen.
  pose proof (batch_rows_conform [ty] batch Hb) as Hrows.
  unfold SimpleKeySegmenter.GetSegments.
  destruct Hst as (Hty & Hsave & Hprev). rewrite Hty, Hcheck.
  rewrite ?bind_Ok.
  destruct (Z.eqb_spec (batch_length batch) 0) as [Hz|Hnz].
  { exists [], st. assert (batch_rows batch = []) as ->.
    { apply nil_length_inv. lia. }
    split_and!; [done| |done]. unfold segments_ok. simpl. done. }
  destruct batch as [vals n]. simpl in Hn, Hnz, Hlen.
  unfold batch_conforms in Hb. simpl in Hb. apply andb_prop in Hb as [_ Hvals].
  destruct vals as [|v [|? ?]]; simpl in Hvals; try done.
  rewrite andb_true_r in Hvals. cbn [values batch_length].
  set (W := Z.to_nat (byte_width ty)) in *.
  assert (byte_width ty = Z.of_nat W) as HW by lia.
  destruct v as [ty' c|ty' cs]; simpl in Hvals.
  - (* a scalar *)
    apply andb_prop in Hvals as [->%bool_decide_eq_true Hc].
    rewrite rows_of_single_scalar in *.
    assert (∃ p, c = Some p ∧ length p = W) as (p & -> & Hp).
    { destruct (fixed_width_cell ty c Hfixed Hw Hc) as [->|?]; [|done].
      exfalso. eapply (has_null_cell _ 0 [None] None Hnull); [|by left|done].
      rewrite rows_of_single_scalar. apply lookup_replicate_2. lia. }
    cbn [value_type]. rewrite Hfixed, !DCHECK_true. cbn [from_option]. unfold id.
    rewrite ?bind_Ok.
    destruct (Extend_spec ty st prev p (conj Hty (conj Hsave Hprev)))
      as (extends & st1 & HExtend & Hext & Hty1 & Hsave1 & Hcalled1); [fold W; lia|].
    rewrite HExtend, !bind_Ok. cbn beta iota.
    destruct (SaveKeyData_spec ty st1 p Hty1 Hsave1 Hcalled1) as (st2 & HSave & Hst2);
      [fold W; lia|].
    rewrite HSave, !bind_Ok. fold W in Hext, Hst2. rewrite take_ge in Hext, Hst2 by lia.
    eexists _, st2. split_and!; [done| |].
    + unfold segments_ok. apply (runs_from_segments_from _ _ extends).
      * rewrite Hext, lookup_replicate_2 by lia. done.
      * apply (run_of_constant _ [Some p]); [lia|rewrite length_replicate; lia|done|].
        intros i Hi. apply lookup_replicate_2. by rewrite length_replicate in Hi.
    + rewrite (last_key_lookup _ _ [Some p]); [done|].
      apply lookup_replicate_2. rewrite length_replicate. lia.
  - (* an array *)
    apply andb_prop in Hvals as [Hvals Hcs]. apply andb_prop in Hvals as [Hty' Hlencs].
    apply bool_decide_eq_true in Hty' as ->. apply bool_decide_eq_true in Hlencs as <-.
    rewrite rows_of_single_array in *.
    destruct (payloads_of_cells W cs) as (ps & -> & Hps).
    { apply list.Forall_forall. intros c Hc.
      apply list_elem_of_lookup in Hc as [i Hi].
      assert (cell_conforms ty c = true) as Hconf.
      { rewrite forallb_forall in Hcs. apply Hcs. apply list_elem_of_In.
        by eapply list_elem_of_lookup_2. }
      destruct (fixed_width_cell ty c Hfixed Hw Hconf) as [->|?]; [|done].
      exfalso. eapply (has_null_cell _ i [None] None Hnull); [|by left|done].
      rewrite rows_of_single_array, list_lookup_fmap.
      exact (f_equal (fmap (λ c : Cell, [c])) Hi). }
    rewrite length_fmap in *.
    cbn [value_type]. rewrite Hfixed, DCHECK_true.
    assert (forallb (λ c : Cell, bool_decide (is_Some c)) (Some <$> ps) = true) as ->.
    { apply forallb_forall. intros c [p [-> _]]%list_elem_of_In%list_elem_of_fmap.
      by apply bool_decide_eq_true. }
    assert ((0 <? byte_width ty) = true) as -> by by apply Z.ltb_lt.
    rewrite !DCHECK_true. rewrite ?bind_Ok.
    assert (SimpleKeySegmenter.GetValuesAsBytes (byte_width ty) (Some <$> ps) = mjoin ps)
      as ->.
    { unfold SimpleKeySegmenter.GetValuesAsBytes. f_equal. generalize (byte_width ty).
      clear. intros z. induction ps as [|p ps IH]; [done|]. simpl. by f_equal. }
    assert (0 < length ps)%nat as Hpos by lia.
    pose proof (length_mjoin_fixed W ps Hps) as Hdata.
    destruct (lookup_lt_is_Some_2 ps 0 Hpos) as [p0 Hp0].
    destruct (lookup_lt_is_Some_2 ps (length ps - 1)) as [pl Hpl]; [lia|].
    destruct (Extend_spec ty st prev (mjoin ps) (conj Hty (conj Hsave Hprev)))
      as (extends & st1 & HExtend & Hext & Hty1 & Hsave1 & Hcalled1); [fold W; nia|].
    rewrite HExtend, !bind_Ok. cbn beta iota.
    fold W in Hext. pose proof (chunk_at W ps 0 p0 Hps Hp0) as Hchunk0.
    change (0 * W)%nat with 0%nat in Hchunk0. rewrite drop_0 in Hchunk0.
    rewrite Hchunk0 in Hext.
    destruct (segment_loop_spec W ps ltac:(lia) Hps extends (length ps) 0 [])
      as (segments & Hloop & Hruns); [lia|lia|].
    rewrite HW. rewrite Nat2Z.id. change (Z.of_nat 0) with 0 in Hloop, Hruns.
    rewrite Hloop, !bind_Ok.
    destruct (SaveKeyData_spec ty st1
                (advance (mjoin ps) ((Z.of_nat (length ps) - 1) * Z.of_nat W))
                Hty1 Hsave1 Hcalled1) as (st2 & HSave & Hst2).
    { fold W. unfold advance.
      replace (Z.to_nat ((Z.of_nat (length ps) - 1) * Z.of_nat W))
        with ((length ps - 1) * W)%nat
        by (rewrite Z2Nat.inj_mul, Nat2Z.id by lia; f_equal; lia).
      apply (chunk_length W ps); first [done|lia]. }
    rewrite HSave, !bind_Ok. fold W in Hst2. unfold advance in Hst2.
    replace (Z.to_nat ((Z.of_nat (length ps) - 1) * Z.of_nat W))
      with ((length ps - 1) * W)%nat in Hst2
      by (rewrite Z2Nat.inj_mul, Nat2Z.id by lia; f_equal; lia).
    rewrite (chunk_at W ps _ pl Hps Hpl) in Hst2.
    exists segments, st2. split_and!; [done| |].
    + unfold segments_ok. apply (runs_from_segments_from _ _ extends).
      * by rewrite Hext, !list_lookup_fmap, Hp0.
      * apply (runs_from_rel ps); [by rewrite !length_fmap| |done|done].
        intros i j Hi Hj. rewrite !list_lookup_fmap.
        destruct (ps !! i), (ps !! j); simpl; split; congruence.
    + rewrite (last_key_lookup _ _ [Some pl]); [done|].
      by rewrite !length_fmap, !list_lookup_fmap, Hpl.
Qed.

(** *** Any keys *)

Lemma call_rows_first batch r0 :
  batch_rows batch !! 0%nat = Some r0 → call_rows batch 0 1 = [r0].
Proof.
  intros Hr0. unfold call_rows. simpl. rewrite drop_0.
  destruct (batch_rows batch) as [|r rows]; [done|]. simpl in *. by injection Hr0 as ->.
Qed.

Lemma call_rows_all batch :
  0 ≤ batch_length batch → call_rows batch 0 (-1) = batch_rows batch.
Proof.
  intros Hn. unfold call_rows. simpl. rewrite drop_0, Z.sub_0_r.
  apply take_ge. by rewrite length_batch_rows.
Qed.

Lemma probe_id known r r0 (k : nat) :
  find_key known r = Some k →
  (assign_id known r0).1 = k ↔ r0 = r.
Proof.
  intros Hk. unfold assign_id. destruct (find_key known r0) as [i|] eqn:Hr0; simpl.
  - split.
    + intros ->. apply find_key_Some in Hk. apply find_key_Some in Hr0.
      by pose proof (eq_trans (eq_sym Hk) Hr0) as [= ->].
    + intros ->. rewrite Hk in Hr0. by injection Hr0.
  - pose proof (find_key_lt _ _ _ Hk). split; [lia|]. intros ->. congruence.
Qed.

Section AnyKeys.
Context `{KeyEncoder} `{RowEncoder} `{MiniBatch}.
Variable key_types : list DataType.
Hypothesis Hcells : Forall cell_law key_types.
Hypothesis Himage : ∀ r, row_conforms key_types r = true →
  decode_image key_types (row_image key_types r) = Some r.
Hypothesis Hrange : mini_batch_in_range.

Lemma AnyKeys_Make_holds little_endian st :
  AnyKeysSegmenter.Make little_endian key_types = Ok st → any_holds key_types st None.
Proof.
  unfold AnyKeysSegmenter.Make.
  destruct (GrouperOps.Make little_endian key_types) as [g| | |] eqn:Hg; try done.
  rewrite bind_Ok. intros [= <-]. split; [done|]. exists []. simpl.
  split_and!; [|done| |done].
  - by eapply grouper_holds_uniques_holds, grouper_Make_holds.
  - intros _. by vm_compute.
Qed.

Lemma AnyKeys_extends (debug : bool) st prev batch r0 :
  any_holds key_types st prev →
  batch_conforms key_types batch = true →
  batch_rows batch !! 0%nat = Some r0 →
  grouper_fits (AnyKeysSegmenter.grouper_ st)
    (2 * rows_bytes key_types (batch_rows batch)) →
  ∃ g extends known,
    (if negb (AnyKeysSegmenter.save_group_id_ st =? kNoGroupId)%N
     then '(grouper, group_id) ←
            AnyKeysSegmenter.MapGroupIdAt debug (AnyKeysSegmenter.grouper_ st) batch 0;
          Ok (grouper, (group_id =? AnyKeysSegmenter.save_group_id_ st)%N)
     else Ok (AnyKeysSegmenter.grouper_ st, kDefaultExtends)) = Ok (g, extends)
    ∧ grouper_holds key_types g known
    ∧ is_fast g = is_fast (AnyKeysSegmenter.grouper_ st)
    ∧ (extends = true ↔ prev = None ∨ prev = Some r0).
Proof.
  intros (Hkt & known & Hg & Hcap & Hroom & Hprev) Hb Hr0 Hfit.
  pose proof (batch_conforms_length key_types batch Hb) as Hn.
  assert (rows_bytes key_types [r0] ≤ rows_bytes key_types (batch_rows batch))%nat
    as Hfirst.
  { destruct (batch_rows batch) as [|r rows]; [done|]. simpl in Hr0.
    injection Hr0 as ->. rewrite (rows_bytes_cons key_types r0 rows).
    rewrite rows_bytes_singleton. lia. }
  destruct prev as [r|].
  - destruct Hprev as (k & Hk & Hsave). rewrite Hsave.
    pose proof (find_key_lt _ _ _ Hk) as Hlt.
    assert ((N.of_nat k =? kNoGroupId)%N = false) as ->.
    { apply N.eqb_neq. unfold kNoGroupId. lia. }
    cbn [negb]. unfold AnyKeysSegmenter.MapGroupIdAt.
    assert (call_ok key_types batch 0 = true) as Hok.
    { unfold call_ok. rewrite Hb. simpl. by apply Z.leb_le. }
    destruct (grouper_calls key_types Hcells Himage Hrange _ known batch 0 1 Hg Hok)
      as (_ & Hconsume & _).
    rewrite (call_rows_first batch r0 Hr0) in Hconsume.
    destruct Hconsume as (g1 & Hc & Hg1 & _); [simpl; lia| |].
    { intros Hfb. specialize (Hroom Hfb). specialize (Hfit Hfb). lia. }
    pose proof (Consume_keeps_kind _ _ _ _ _ _ Hc) as Hkind.
    rewrite Hc, !bind_Ok. cbn beta iota.
    change (null_count _) with 0. simpl assign_ids.
    destruct (assign_id known r0) as [id known1] eqn:Hid. simpl.
    rewrite !DCHECK_true, !bind_Ok.
    simpl in Hg1. rewrite Hid in Hg1. simpl in Hg1.
    exists g1, (N.of_nat id =? N.of_nat k)%N, known1. split_and!; [done|done|done|].
    rewrite N.eqb_eq. pose proof (probe_id known r r0 k Hk) as Hprobe.
    rewrite Hid in Hprobe. simpl in Hprobe. split.
    + intros Heq. right. f_equal. symmetry. apply Hprobe. lia.
    + intros [?|[= ->]]; [done|]. f_equal. by apply Hprobe.
  - rewrite Hprev, N.eqb_refl. simpl. exists (AnyKeysSegmenter.grouper_ st), true, known.
    split_and!; [done..|]. split; [by left|done].
Qed.

Lemma AnyKeys_GetSegments (debug : bool) st prev batch :
  any_holds key_types st prev →
  batch_conforms key_types batch = true →
  batch_length batch + 1 < 2 ^ 32 →
  grouper_fits (AnyKeysSegmenter.grouper_ st)
    (2 * rows_bytes key_types (batch_rows batch)) →
  ∃ segments st',
    AnyKeysSegmenter.GetSegments debug st batch = Ok (segments, st')
    ∧ segments_ok prev (batch_rows batch) segments
    ∧ any_holds key_types st' (last_key prev (batch_rows batch))
    ∧ is_fast (AnyKeysSegmenter.grouper_ st') = is_fast (AnyKeysSegmenter.grouper_ st).
Proof.
  intros Hst Hb Hcap Hfit.
  pose proof (CheckForGetSegments_Ok key_types batch Hb) as Hcheck.
  pose proof (batch_conforms_length key_types batch Hb) as Hn.
  pose proof (length_batch_rows batch) as Hlen.
  unfold AnyKeysSegmenter.GetSegments.
  rewrite (proj1 Hst), Hcheck, bind_Ok.
  destruct (Z.eqb_spec (batch_length batch) 0) as [Hz|Hnz].
  { exists [], st. assert (batch_rows batch = []) as ->.
    { apply nil_length_inv. lia. }
    split_and!; [done| |done|done]. unfold segments_ok. simpl. done. }
  destruct (lookup_lt_is_Some_2 (batch_rows batch) 0) as [r0 Hr0]; [lia|].
  destruct (lookup_lt_is_Some_2 (batch_rows batch) (length (batch_rows batch) - 1))
    as [rl Hrl]; [lia|].
  destruct (AnyKeys_extends debug st prev batch r0 Hst Hb Hr0 Hfit)
    as (g1 & extends & known1 & -> & Hg1 & Hkind1 & Hext).
  rewrite bind_Ok. cbn beta iota.
  destruct (grouper_Reset_holds key_types g1 known1 Hg1) as (g2 & Hreset & Hg2).
  pose proof (Reset_keeps_kind _ _ Hreset) as Hkind2.
  rewrite Hreset, bind_Ok.
  assert (call_ok key_types batch 0 = true) as Hok.
  { unfold call_ok. rewrite Hb. simpl. by apply Z.leb_le. }
  destruct (grouper_calls key_types Hcells Himage Hrange g2 [] batch 0 (-1) Hg2 Hok)
    as (_ & Hconsume & _).
  rewrite (call_rows_all batch Hn) in Hconsume.
  assert (rows_bytes key_types [] = 0%nat) as Hnil by done.
  destruct Hconsume as (g3 & Hconsume & Hg3 & _); [simpl; lia| |].
  { intros Hfb. rewrite Hkind2, Hkind1 in Hfb. specialize (Hfit Hfb). lia. }
  pose proof (Consume_keeps_kind _ _ _ _ _ _ Hconsume) as Hkind3.
  rewrite Hconsume, bind_Ok. cbn beta iota.
  set (rows := batch_rows batch) in *.
  set (ids := (assign_ids [] rows).1) in *.
  set (xs := N.of_nat <$> ids).
  assert (length xs = length rows) as Hxs.
  { unfold xs, ids. by rewrite length_fmap, assign_ids_length. }
  assert (batch_length batch = Z.of_nat (length xs)) as Hbl by lia.
  unfold arr_length. cbn [arr_values]. change (null_count _) with 0.
  assert ((Z.of_nat (length xs) =? batch_length batch) = true) as ->
    by (apply Z.eqb_eq; lia).
  rewrite !DCHECK_true, !bind_Ok. rewrite Hbl.
  destruct (scan_loop_spec xs extends (Z.to_nat (Z.of_nat (length xs) - 1)) 1 0 [])
    as (segments & current & -> & Hruns); [lia|lia| |].
  { intros i Hi. by assert (i = 0) as -> by lia. }
  rewrite bind_Ok. cbn beta iota.
  destruct (lookup_lt_is_Some_2 xs (length xs - 1)) as [idl Hidl]; [lia|].
  replace (Z.of_nat (length xs) - 1) with (Z.of_nat (length xs - 1)) by lia.
  rewrite (read_Ok _ _ _ Hidl), bind_Ok.
  eexists _, _. split_and!; [done| | |].
  - unfold segments_ok. apply (runs_from_segments_from _ _ extends).
    { by rewrite Hext, Hr0. }
    apply (runs_from_rel xs); [done| |done|done].
    intros i j Hi Hj. unfold xs. rewrite !list_lookup_fmap.
    destruct (lookup_lt_is_Some_2 ids i) as [a Ha].
    { unfold xs in Hi. by rewrite length_fmap in Hi. }
    destruct (lookup_lt_is_Some_2 ids j) as [b Hb'].
    { unfold xs in Hj. by rewrite length_fmap in Hj. }
    destruct (lookup_lt_is_Some_2 rows i) as [ri Hri]; [lia|].
    destruct (lookup_lt_is_Some_2 rows j) as [rj Hrj]; [lia|].
    rewrite Ha, Hb', Hri, Hrj. simpl.
    pose proof (assign_ids_same_id [] rows i j a b ri rj (NoDup_nil_2) Hri Hrj Ha Hb')
      as Hsame.
    split; intros [= Heq]; do 2 f_equal; apply Hsame; [lia|done].
  - split; [done|]. exists (assign_ids [] rows).2. cbn [AnyKeysSegmenter.grouper_
      AnyKeysSegmenter.save_group_id_].
    pose proof (assign_ids_length_known [] rows) as Hgrow. simpl in Hgrow.
    pose proof (rows_bytes_assign_ids key_types rows []) as Hbytes.
    split_and!; [done|lia| |].
    { intros Hfb. rewrite Hkind3, Hkind2, Hkind1 in Hfb. specialize (Hfit Hfb).
      fold rows in Hfit. lia. }
    rewrite (last_key_lookup prev rows rl Hrl).
    apply list_lookup_fmap_Some in Hidl as (a & Hval & Ha).
    exists a. split; [|by subst].
    apply (assign_ids_find [] rows (length xs - 1) a rl); [by rewrite Hxs|done].
  - cbn [AnyKeysSegmenter.grouper_]. by rewrite Hkind3, Hkind2, Hkind1.
Qed.

End AnyKeys.

(** ** The segmenter contract *)

Section Segmenters.
Context `{KeyEncoder} `{RowEncoder} `{MiniBatch}.
Variable key_types : list DataType.
Context `{!KeyEncoderLaws key_types} `{!RowEncoderLaws key_types}.
Hypothesis Hrange : mini_batch_in_range.

Lemma segmenter_Make_holds little_endian nullable_keys seg :
  RowSegmenterOps.Make little_endian key_types nullable_keys = Ok seg →
  (simple_key_schema key_types nullable_keys = true →
   Forall (λ ty, 0 < byte_width ty) key_types) →
  segmenter_holds key_types nullable_keys seg None.
Proof.
  intros Hmake Hwidth.
  assert (∀ st, AnyKeysSegmenter.Make little_endian key_types ≫= (λ st, Ok (AnyKeys st))
                = Ok seg → AnyKeysSegmenter.Make little_endian key_types = Ok st →
                segmenter_holds key_types nullable_keys seg None) as Hany.
  { intros st Hseg Hst. rewrite Hst, bind_Ok in Hseg. injection Hseg as <-.
    by apply (AnyKeys_Make_holds key_types Hrange little_endian). }
  assert (AnyKeysSegmenter.Make little_endian key_types ≫= (λ st, Ok (AnyKeys st))
          = Ok seg → segmenter_holds key_types nullable_keys seg None) as Hany'.
  { intros Hseg.
    destruct (AnyKeysSegmenter.Make little_endian key_types) as [st| | |] eqn:Hst;
      try done. by apply (Hany st). }
  unfold RowSegmenterOps.Make in Hmake.
  destruct key_types as [|ty [|ty' kts]] eqn:Hkt; [| |by apply Hany'].
  - injection Hmake as <-. simpl. split; [done|by left].
  - destruct (negb nullable_keys && is_fixed_width ty) eqn:Hsimple; [|by apply Hany'].
    injection Hmake as <-. simpl. rewrite Hsimple. split; [done|].
    specialize (Hwidth Hsimple). rewrite Forall_singleton in Hwidth.
    apply andb_prop in Hsimple as [_ Hfixed].
    exists ty. split_and!; try done. unfold simple_holds, SimpleKeySegmenter.Make.
    cbn [SimpleKeySegmenter.key_type_ SimpleKeySegmenter.save_key_data_
         SimpleKeySegmenter.extend_was_called_].
    by rewrite length_replicate.
Qed.

Lemma segmenter_GetSegments (debug nullable_keys : bool) seg prev batch :
  segmenter_holds key_types nullable_keys seg prev →
  batch_conforms key_types batch = true →
  (simple_key_schema key_types nullable_keys = true → has_null batch = false) →
  batch_length batch + 1 < 2 ^ 32 →
  batch_fits key_types seg batch →
  ∃ segments seg',
    RowSegmenterOps.GetSegments debug seg batch = Ok (segments, seg')
    ∧ segments_ok prev (batch_rows batch) segments
    ∧ segmenter_holds key_types nullable_keys seg' (last_key prev (batch_rows batch))
    ∧ uses_fallback seg' = uses_fallback seg.
Proof.
  intros Hseg Hb Hnull Hcap Hfit. destruct seg as [|st|st]; simpl in Hseg.
  - destruct Hseg as [Hkt Hprev]. rewrite Hkt in Hb.
    destruct (NoKeys_GetSegments prev batch Hb Hprev) as (segments & Hget & Hok & Hlast).
    exists segments, NoKeys. unfold RowSegmenterOps.GetSegments. rewrite Hget, bind_Ok.
    done.
  - destruct Hseg as (Hsimple & ty & Hkt & Hfixed & Hw & Hst). rewrite Hkt in Hb.
    destruct (SimpleKey_GetSegments debug ty st prev batch Hfixed Hw Hst Hb (Hnull Hsimple))
      as (segments & st' & Hget & Hok & Hst').
    exists segments, (SimpleKey st'). unfold RowSegmenterOps.GetSegments.
    rewrite Hget, bind_Ok. split_and!; [done..| |done]. simpl. split; [done|].
    by exists ty.
  - destruct (AnyKeys_GetSegments key_types (laws_cell_law key_types) decode_row_image
                Hrange debug st prev batch Hseg Hb Hcap)
      as (segments & st' & Hget & Hok & Hst' & Hkind).
    { intros Hfb. apply Hfit. simpl. by rewrite Hfb. }
    exists segments, (AnyKeys st'). unfold RowSegmenterOps.GetSegments.
    rewrite Hget, bind_Ok. split_and!; [done..|]. simpl. by rewrite Hkind.
Qed.

Lemma batch_fits_kind seg seg' batch :
  uses_fallback seg' = uses_fallback seg →
  batch_fits key_types seg batch → batch_fits key_types seg' batch.
Proof. unfold batch_fits. by intros ->. Qed.

Lemma segmenter_run (debug nullable_keys : bool) batches :
  Forall (λ b, batch_conforms key_types b = true) batches →
  (simple_key_schema key_types nullable_keys = true →
   Forall (λ b, has_null b = false) batches) →
  Forall (λ b, batch_length b + 1 < 2 ^ 32) batches →
  ∀ seg prev,
    segmenter_holds key_types nullable_keys seg prev →
    Forall (batch_fits key_types seg) batches →
    ∃ segments seg' prev',
      RowSegmenterOps.run debug seg batches = Ok (segments, seg')
      ∧ stream_ok prev (batch_rows <$> batches) segments
      ∧ segmenter_holds key_types nullable_keys seg' prev'
      ∧ uses_fallback seg' = uses_fallback seg.
Proof.
  induction batches as [|batch batches IH]; intros Hb Hnull Hcap seg prev Hseg Hfit.
  - by exists [], seg, prev.
  - apply list.Forall_cons in Hb as [Hb Hbs]. apply list.Forall_cons in Hcap as [Hcap Hcaps].
    apply list.Forall_cons in Hfit as [Hfit Hfits].
    destruct (segmenter_GetSegments debug nullable_keys seg prev batch Hseg Hb)
      as (segments & seg1 & Hget & Hok & Hseg1 & Hkind1); [|done|done|].
    { intros Hs. specialize (Hnull Hs). by apply list.Forall_cons in Hnull as [? _]. }
    assert (simple_key_schema key_types nullable_keys = true →
            Forall (λ b, has_null b = false) batches) as Hnulls.
    { intros Hs. specialize (Hnull Hs). by apply list.Forall_cons in Hnull as [_ ?]. }
    assert (Forall (batch_fits key_types seg1) batches) as Hfits1.
    { eapply list.Forall_impl; [exact Hfits|]. intros b. by apply batch_fits_kind. }
    destruct (IH Hbs Hnulls Hcaps seg1 (last_key prev (batch_rows batch)) Hseg1 Hfits1)
      as (rest & seg' & prev' & Hrun & Hstream & Hseg' & Hkind').
    exists (segments :: rest), seg', prev'. simpl. rewrite Hget, bind_Ok. cbn beta iota.
    rewrite Hrun, bind_Ok. split_and!; [done..|]. by rewrite Hkind', Hkind1.
Qed.

(** X19: where C4 holds.  A segmenter made by [RowSegmenter::Make], fed a
    stream of batches of its key schema, emits for every batch segments that
    are contiguous from row 0, cover the batch and are its maximal runs of
    equal keys; a segment is open-ended exactly when it ends the batch; and a
    segment extends exactly when it starts its batch and either no row came
    before or the key of its first row is the key of the last row before the
    batch.  The single-key segmenter is chosen for a non-nullable
    fixed-width key, of which it asks whole bytes and batches without nulls;
    the fallback grouper of the any-keys segmenter asks that twice the bytes
    of the keys of a batch fit its [int32_t] offsets. *)
Theorem segments_are_maximal_runs (debug little_endian nullable_keys : bool) seg batches :
  RowSegmenterOps.Make little_endian key_types nullable_keys = Ok seg →
  (simple_key_schema key_types nullable_keys = true →
   Forall (λ ty, 0 < byte_width ty) key_types) →
  Forall (λ b, batch_conforms key_types b = true) batches →
  (simple_key_schema key_types nullable_keys = true →
   Forall (λ b, has_null b = false) batches) →
  Forall (λ b, batch_length b + 1 < 2 ^ 32) batches →
  Forall (batch_fits key_types seg) batches →
  ∃ segments seg',
    RowSegmenterOps.run debug seg batches = Ok (segments, seg')
    ∧ stream_ok None (batch_rows <$> batches) segments.
Proof.
  intros Hmake Hwidth Hb Hnull Hcap Hfit.
  destruct (segmenter_run debug nullable_keys batches Hb Hnull Hcap seg None)
    as (segments & seg' & _ & Hrun & Hok & _); [|done|by exists segments, seg'].
  by eapply segmenter_Make_holds.
Qed.

End Segmenters.

(** ** The segmenter contract on sample data *)

Section SegmenterSamples.
Import NullByteEncoders.

Lemma segments_are_maximal_runs_witness :
  ∃ seg,
    RowSegmenterOps.Make false int8_keys true = Ok seg
    ∧ uses_fallback seg = true
    ∧ Forall (batch_fits int8_keys seg) [batch_with_nulls; batch_2_2_3]
    ∧ ∃ segments seg',
        RowSegmenterOps.run true seg [batch_with_nulls; batch_2_2_3] = Ok (segments, seg')
        ∧ stream_ok None (batch_rows <$> [batch_with_nulls; batch_2_2_3]) segments.
Proof.
  eexists. split; [reflexivity|]. split; [reflexivity|].
  assert (Forall (batch_fits int8_keys
                    (AnyKeys (AnyKeysSegmenter.mkState int8_keys
                                (Fallback (GrouperImpl.mkState ∅ [0] [] 0%N int8_keys))
                                kNoGroupId)))
            [batch_with_nulls; batch_2_2_3]) as Hfit.
  { repeat constructor; intros _; by vm_compute. }
  split; [exact Hfit|].
  apply (@segments_are_maximal_runs _ _ _ int8_keys int8_key_laws int8_row_laws
           NullByteEncoders_mini_batch_in_range true false true).
  - reflexivity.
  - intros Hsimple. discriminate Hsimple.
  - by repeat constructor.
  - intros Hsimple. discriminate Hsimple.
  - by repeat constructor.
  - exact Hfit.
Defined.

(** C4: the claim fails for a boolean key that is not nullable.
    [RowSegmenter::Make] hands every fixed-width key that is not nullable to
    the single-key segmenter, which compares the whole bytes of the values: a
    boolean has none.  On the batch [true, false] a debug build stops at the
    assertion on the byte width and a release build returns a single
    segment, open-ended and extending, where the two rows are two runs.  The
    any-keys segmenter, which the same schema gets when the key is nullable,
    returns the two runs, with the fast and with the fallback grouper. *)
Theorem boolean_key_is_not_segmented :
  simple_key_schema [BOOL] false = true
  ∧ batch_conforms [BOOL] bool_batch = true
  ∧ has_null bool_batch = false
  ∧ batch_rows bool_batch = [[Some [Byte.x01]]; [Some [Byte.x00]]]
  ∧ fresh_segments false true [BOOL] false [bool_batch] = Ok [[mkSegment 0 2 true true]]
  ∧ fresh_segments true true [BOOL] false [bool_batch] = Abort
  ∧ ¬ stream_ok None (batch_rows <$> [bool_batch]) [[mkSegment 0 2 true true]]
  ∧ fresh_segments false true [BOOL] true [bool_batch]
    = Ok [[mkSegment 0 1 false true; mkSegment 1 1 true false]]
  ∧ fresh_segments true false [BOOL] true [bool_batch]
    = Ok [[mkSegment 0 1 false true; mkSegment 1 1 true false]]
  ∧ stream_ok None (batch_rows <$> [bool_batch])
      [[mkSegment 0 1 false true; mkSegment 1 1 true false]].
Proof.
  split_and!; try (by vm_compute).
  - intros [(_ & _ & _ & Hrun & _) _]. specialize (Hrun 1 ltac:(simpl; lia)).
    discriminate Hrun.
  - split; [|done]. unfold segments_ok. simpl. split_and!; try done; try lia.
    + intros i Hi. by assert (i = 0) as -> by lia.
    + split; [|done]. intros _. split; [done|by left].
    + intros i Hi. by assert (i = 1) as -> by lia.
Qed.

(** The segments of the sample stream, from each of the segmenters a
    one-column schema can get. *)
Example segments_scenario :
  ∀ debug little_endian nullable_keys : bool,
    fresh_segments debug little_endian int8_keys nullable_keys [batch_1_1_2; batch_2_2_3]
    = Ok [[mkSegment 0 2 false true; mkSegment 2 1 true false];
          [mkSegment 0 2 false true; mkSegment 2 1 true false]].
Proof. by intros [] [] []; vm_compute. Qed.

(** Nulls are keys like any other to the segmenter of nullable keys. *)
Example segments_with_nulls_scenario :
  ∀ debug little_endian : bool,
    fresh_segments debug little_endian int8_keys true
      [batch_with_nulls; int8_batch [int8 Byte.x03; None]]
    = Ok [[mkSegment 0 1 false true; mkSegment 1 1 false false;
           mkSegment 2 1 false false; mkSegment 3 1 false false;
           mkSegment 4 1 true false];
          [mkSegment 0 1 false true; mkSegment 1 1 true false]].
Proof. by intros [] []; vm_compute. Qed.

End SegmenterSamples.

(** * Further properties of the groupers *)

(** ** Errors of the calls *)

(** X1: a populate, consume or lookup call with a negative offset fails with
    the status Invalid, in the fast and in the fallback grouper, whatever the
    batch and the length. *)
Theorem negative_offset_is_Invalid `{KeyEncoder} `{RowEncoder} `{MiniBatch}
    (g : Grouper) batch offset length :
  offset < 0 →
  GrouperOps.Populate g batch offset length = Fail Invalid
  ∧ GrouperOps.Consume g batch offset length = Fail Invalid
  ∧ GrouperOps.Lookup g batch offset length = Fail Invalid.
Proof.
  intros Hneg.
  assert (CheckAndCapLengthForConsume (batch_length batch) offset length = Fail Invalid)
    as Hcap.
  { unfold CheckAndCapLengthForConsume. by destruct (Z.ltb_spec offset 0); [|lia]. }
  destruct g as [st|st]; unfold GrouperOps.Populate, GrouperOps.Consume,
    GrouperOps.Lookup, GrouperFastImpl.Populate, GrouperFastImpl.Consume,
    GrouperFastImpl.Lookup, GrouperImpl.Populate, GrouperImpl.Consume,
    GrouperImpl.Lookup; simpl; by rewrite Hcap.
Qed.

(** ** Making a grouper *)

Lemma make_encoders_cases key_types :
  (Forall (λ ty, is_supported ty = true) key_types →
   GrouperImpl.make_encoders key_types = Ok key_types)
  ∧ (¬ Forall (λ ty, is_supported ty = true) key_types →
     GrouperImpl.make_encoders key_types = Fail NotImplemented).
Proof.
  induction key_types as [|ty key_types [IHok IHno]]; simpl.
  - split; [done|]. intros []. constructor.
  - fold (is_supported ty). destruct (is_supported ty) eqn:Hty.
    + split.
      * intros [_ Hrest]%list.Forall_cons. by rewrite IHok.
      * intros Hno. rewrite IHno; [done|]. intros Hrest. apply Hno. by constructor.
    + split; [|done]. intros [Hty' _]%list.Forall_cons. congruence.
Qed.

Lemma make_metadata_cases key_types :
  existsb is_large_binary_like key_types = false →
  (Forall (λ ty, is_supported ty = true) key_types →
   ∃ md, GrouperFastImpl.make_metadata key_types = Ok md)
  ∧ (¬ Forall (λ ty, is_supported ty = true) key_types →
     GrouperFastImpl.make_metadata key_types = Fail NotImplemented).
Proof.
  induction key_types as [|ty key_types IH]; simpl; intros Hlarge.
  - split; [by exists []|]. intros []. constructor.
  - apply orb_false_elim in Hlarge as [Hty Hlarge].
    destruct (IH Hlarge) as [IHok IHno].
    destruct ty; simpl in *; try done.
    + split; [|intros Hno; rewrite IHno; [done|]; intros ?; apply Hno; by constructor].
      intros [_ Hrest]%list.Forall_cons. destruct (IHok Hrest) as [md ->]. by eexists.
    + split; [|intros Hno; rewrite IHno; [done|]; intros ?; apply Hno; by constructor].
      intros [_ Hrest]%list.Forall_cons. destruct (IHok Hrest) as [md ->]. by eexists.
    + split; [|intros Hno; rewrite IHno; [done|]; intros ?; apply Hno; by constructor].
      intros [_ Hrest]%list.Forall_cons. destruct (IHok Hrest) as [md ->]. by eexists.
    + split; [|intros Hno; rewrite IHno; [done|]; intros ?; apply Hno; by constructor].
      intros [_ Hrest]%list.Forall_cons. destruct (IHok Hrest) as [md ->]. by eexists.
    + split; [|intros Hno; rewrite IHno; [done|]; intros ?; apply Hno; by constructor].
      intros [_ Hrest]%list.Forall_cons. destruct (IHok Hrest) as [md ->]. by eexists.
    + split; [|done]. by intros [? _]%list.Forall_cons.
Qed.

(** X2: [Grouper::Make] fails, with the status NotImplemented, exactly when
    some key type is none of boolean, dictionary, fixed-width, binary-like,
    large-binary-like and null; otherwise it returns a grouper without
    groups, the fast one exactly when [CanUse] holds (a key, a little-endian
    host, no large-binary-like key) and the fallback one otherwise. *)
Theorem Grouper_Make_cases (little_endian : bool) (key_types : list DataType) :
  (Forall (λ ty, is_supported ty = true) key_types →
   ∃ g, GrouperOps.Make little_endian key_types = Ok g
        ∧ GrouperOps.num_groups g = 0%N
        ∧ is_fast g = GrouperFastImpl.CanUse little_endian key_types)
  ∧ (¬ Forall (λ ty, is_supported ty = true) key_types →
     GrouperOps.Make little_endian key_types = Fail NotImplemented).
Proof.
  unfold GrouperOps.Make.
  destruct (GrouperFastImpl.CanUse little_endian key_types) eqn:Hcan.
  - assert (existsb is_large_binary_like key_types = false) as Hlarge.
    { unfold GrouperFastImpl.CanUse in Hcan. case_decide; [done|].
      destruct little_endian; [|done]. by apply negb_true_iff in Hcan. }
    destruct (make_metadata_cases key_types Hlarge) as [Hok Hno].
    unfold GrouperFastImpl.Make. split.
    + intros Hkt. destruct (Hok Hkt) as [md ->]. rewrite !bind_Ok. by eexists.
    + intros Hkt. by rewrite (Hno Hkt).
  - destruct (make_encoders_cases key_types) as [Hok Hno].
    unfold GrouperImpl.Make. split.
    + intros Hkt. rewrite (Hok Hkt), !bind_Ok. by eexists.
    + intros Hkt. by rewrite (Hno Hkt).
Qed.

(** ** More on ids in order of first appearance *)

Lemma inserted_keys_grows calls : ∀ known,
  Forall (λ c, is_reset c = false) calls →
  ∃ more, inserted_keys known calls = known ++ more.
Proof.
  induction calls as [|c calls IH]; intros known Hnr; simpl.
  - exists []. by rewrite app_nil_r.
  - apply list.Forall_cons in Hnr as [Hc Hnr].
    destruct c as [batch offset len|batch offset len|batch offset len|]; try done.
    + destruct (assign_ids_grows known (call_rows batch offset len)) as (m1 & -> & _).
      destruct (IH (known ++ m1) Hnr) as (m2 & ->). exists (m1 ++ m2).
      by rewrite app_assoc.
    + destruct (assign_ids_grows known (call_rows batch offset len)) as (m1 & -> & _).
      destruct (IH (known ++ m1) Hnr) as (m2 & ->). exists (m1 ++ m2).
      by rewrite app_assoc.
    + by apply IH.
Qed.

Lemma assign_ids_known_id known rows (j id : nat) r :
  rows !! j = Some r → find_key known r = Some id →
  (assign_ids known rows).1 !! j = Some id.
Proof.
  intros Hj Hfind.
  destruct (lookup_lt_is_Some_2 (assign_ids known rows).1 j) as [id' Hid'].
  { rewrite assign_ids_length. by eapply lookup_lt_Some. }
  pose proof (assign_ids_find known rows j id' r Hj Hid') as Hfind'.
  destruct (assign_ids_grows known rows) as (more & Hmore & _).
  rewrite Hmore, find_key_app, Hfind in Hfind'. congruence.
Qed.

Lemma assign_ids_all_known rows : ∀ known,
  Forall (λ r, r ∈ known) rows → (assign_ids known rows).2 = known.
Proof.
  induction rows as [|r rows IH]; intros known Hrows; simpl; [done|].
  apply list.Forall_cons in Hrows as [Hr Hrows]. unfold assign_id.
  destruct (find_key known r) as [i|] eqn:Hfind.
  - specialize (IH known Hrows). by destruct (assign_ids known rows).
  - by apply find_key_None in Hfind.
Qed.

Lemma assign_ids_again known rows :
  assign_ids (assign_ids known rows).2 rows
  = ((assign_ids known rows).1, (assign_ids known rows).2).
Proof.
  set (known' := (assign_ids known rows).2).
  assert (Forall (λ r, r ∈ known') rows) as Hall.
  { apply list.Forall_forall. intros r Hr. apply assign_ids_elem. by right. }
  rewrite (surjective_pairing (assign_ids known' rows)).
  f_equal; [|by apply assign_ids_all_known].
  apply list_eq. intros j.
  destruct (rows !! j) as [r|] eqn:Hj.
  - destruct (lookup_lt_is_Some_2 (assign_ids known rows).1 j) as [id Hid].
    { rewrite assign_ids_length. by eapply lookup_lt_Some. }
    rewrite Hid. apply (assign_ids_known_id known' rows j id r Hj).
    by apply (assign_ids_find known rows j id r).
  - apply lookup_ge_None in Hj.
    rewrite !(proj2 (lookup_ge_None _ _)); [done|by rewrite assign_ids_length..].
Qed.

Lemma assign_ids_self known :
  NoDup known → assign_ids known known = (seq 0 (length known), known).
Proof.
  intros Hnd.
  rewrite (surjective_pairing (assign_ids known known)). f_equal.
  - apply list_eq. intros j. destruct (known !! j) as [r|] eqn:Hj.
    + rewrite (assign_ids_known_id known known j j r Hj) by by apply find_key_lookup.
      symmetry. apply lookup_seq. split; [done|]. by eapply lookup_lt_Some.
    + apply lookup_ge_None in Hj.
      rewrite !(proj2 (lookup_ge_None _ _)); [done|by rewrite ?length_seq, ?assign_ids_length..].
  - apply assign_ids_all_known. by apply list.Forall_forall.
Qed.

Lemma inserted_keys_distinct calls :
  inserted_keys [] calls ≡ₚ remove_dups (keys_fed [] calls).
Proof.
  apply NoDup_Permutation.
  - apply inserted_keys_NoDup, NoDup_nil_2.
  - apply NoDup_remove_dups.
  - intros r. rewrite elem_of_remove_dups. by apply inserted_keys_elem.
Qed.

Lemma call_rows_long batch offset len :
  0 ≤ offset → batch_length batch - offset ≤ len →
  call_rows batch offset len = call_rows batch offset (-1).
Proof.
  intros Hoff Hlen. unfold call_rows.
  destruct (Z.ltb_spec len 0); [|destruct (Z.ltb_spec (-1) 0); [|lia]].
  - assert (len = batch_length batch - offset ∨ batch_length batch - offset < len)
      as [->|?] by lia; [done|].
    rewrite !take_ge; [done|rewrite length_drop, length_batch_rows; lia..].
  - rewrite !take_ge; [done|rewrite length_drop, length_batch_rows; lia..].
Qed.

(** ** The batch of the uniques *)

Lemma row_conforms_lookup key_types : ∀ r (i : nat) ty,
  row_conforms key_types r = true → key_types !! i = Some ty →
  cell_conforms ty (default None (r !! i)) = true.
Proof.
  induction key_types as [|ty0 key_types IH]; intros [|c r] i ty Hr Hi; try done.
  simpl in Hr. apply andb_prop in Hr as [Hc Hr]. destruct i as [|i]; simpl in *.
  - by injection Hi as <-.
  - by apply IH.
Qed.

Lemma batch_of_rows_conforms key_types rows :
  Forall (λ r, row_conforms key_types r = true) rows →
  batch_conforms key_types (batch_of_rows key_types rows) = true.
Proof.
  intros Hrows. unfold batch_conforms, batch_of_rows. simpl.
  apply andb_true_iff. split; [apply Z.leb_le; lia|].
  assert (∀ kts (k : nat),
    (∀ (i : nat) ty, kts !! i = Some ty → key_types !! (k + i)%nat = Some ty) →
    values_conform (Z.of_nat (length rows)) kts
      (imap (λ i ty, Array ty ((λ r : Row, default None (r !! (k + i)%nat)) <$> rows)) kts)
    = true) as Hgen.
  { induction kts as [|ty kts IH]; intros k Hk; [done|].
    simpl. apply andb_true_iff. split.
    - rewrite bool_decide_eq_true_2 by done. rewrite length_fmap.
      rewrite bool_decide_eq_true_2 by done. simpl.
      apply forallb_forall. intros c [r [-> Hr]]%list_elem_of_In%list_elem_of_fmap.
      eapply row_conforms_lookup; [|by apply (Hk 0%nat)].
      by eapply list.Forall_forall in Hrows.
    - rewrite (imap_ext _ (λ i ty, Array ty
                 ((λ r : Row, default None (r !! (S k + i)%nat)) <$> rows))).
      + apply IH. intros i ty' Hi. specialize (Hk (S i) ty' Hi).
        by replace (S k + i)%nat with (k + S i)%nat by lia.
      + intros i ty' _. simpl. f_equal.
        apply list_fmap_ext. intros _ r _. by replace (k + S i)%nat with (S (k + i)) by lia. }
  apply (Hgen key_types 0%nat). done.
Qed.

Lemma batch_rows_batch_of_rows key_types rows :
  Forall (λ r, row_conforms key_types r = true) rows →
  batch_rows (batch_of_rows key_types rows) = rows.
Proof.
  intros Hrows. unfold batch_rows, batch_of_rows, row_at. simpl. rewrite Nat2Z.id.
  apply list_eq. intros j. rewrite list_lookup_fmap.
  destruct (rows !! j) as [r|] eqn:Hj.
  - rewrite (proj2 (lookup_seq 0 (length rows) j j)).
    2: { split; [done|]. by eapply lookup_lt_Some. }
    simpl. f_equal.
    assert (length r = length key_types) as Hlen.
    { apply (row_conforms_length key_types).
      eapply list.Forall_forall in Hrows; [done|]. by eapply list_elem_of_lookup_2. }
    unfold Row, Cell in *.
    apply list_eq. intros i. rewrite list_lookup_fmap, list_lookup_imap.
    destruct (key_types !! i) as [ty|] eqn:Hi; simpl.
    + rewrite list_lookup_fmap, Hj. simpl.
      destruct (lookup_lt_is_Some_2 r i) as [c Hc].
      { rewrite Hlen. by eapply lookup_lt_Some. }
      by rewrite Hc.
    + symmetry. apply lookup_ge_None. rewrite Hlen. by apply lookup_ge_None.
  - apply lookup_ge_None in Hj. rewrite (proj2 (lookup_ge_None _ _)); [done|].
    by rewrite length_seq.
Qed.

Lemma Reset_of_reset `{KeyEncoder} `{RowEncoder} `{MiniBatch} g g' :
  GrouperOps.Reset g = Ok g' → GrouperOps.Reset g' = Ok g'.
Proof. destruct g as [st|st]; simpl; by intros [= <-]. Qed.

Lemma rows_fed_app calls1 calls2 :
  rows_fed (calls1 ++ calls2) = (rows_fed calls1 + rows_fed calls2)%nat.
Proof.
  induction calls1 as [|c calls1 IH]; simpl; [done|]. destruct c; simpl; lia.
Qed.

Lemma grouper_holds_conforms `{KeyEncoder} `{RowEncoder} `{MiniBatch} key_types g known :
  grouper_holds key_types g known →
  Forall (λ r, row_conforms key_types r = true) known.
Proof.
  destruct g as [st|st]; simpl.
  - by intros (_ & _ & _ & _ & _ & _ & ? & _).
  - by intros (_ & _ & _ & ? & _).
Qed.

(** The grouper [Grouper::Make] returns keeps what [GetUniques] reads in
    step with its keys as long as it is the fast one or is not reset. *)
Lemma run_keeps_uniques `{KeyEncoder} `{RowEncoder} `{MiniBatch} key_types
    little_endian g0 calls g1 outs :
  GrouperOps.Make little_endian key_types = Ok g0 →
  Calls.run g0 calls = Ok (g1, outs) →
  grouper_holds key_types g1 (inserted_keys [] calls) →
  (Forall (λ c, c ≠ CallReset) calls →
   grouper_holds_uniques key_types g1 (inserted_keys [] calls)) →
  GrouperFastImpl.CanUse little_endian key_types = true
  ∨ Forall (λ c, is_reset c = false) calls →
  grouper_holds_uniques key_types g1 (inserted_keys [] calls).
Proof.
  intros Hmake Hrun Hg1 Hu [Hcan|Hnr]; [|by apply Hu, not_reset_ne].
  pose proof (run_keeps_implementation calls g0 g1 _ Hrun) as Hkind.
  unfold GrouperOps.Make in Hmake. rewrite Hcan in Hmake.
  destruct (GrouperFastImpl.Make key_types) as [st| | |]; try done.
  injection Hmake as <-. by destruct g1.
Qed.

(** ** How the calls of a grouper compose *)

Section GrouperCalls.
Context `{KeyEncoder} `{RowEncoder} `{MiniBatch}.
Variable key_types : list DataType.
Context `{!KeyEncoderLaws key_types} `{!RowEncoderLaws key_types}.
Hypothesis Hrange : mini_batch_in_range.

(** The grouper after some calls, the keys it holds and what a consume, a
    populate and a lookup of one more batch do to it. *)
Lemma after_calls little_endian g0 calls batch offset len :
  GrouperOps.Make little_endian key_types = Ok g0 →
  Forall (λ c, call_conforms key_types c = true) calls →
  call_ok key_types batch offset = true →
  (N.of_nat (rows_fed calls + length (call_rows batch offset len)) < 2 ^ 32)%N →
  grouper_fits g0 (key_bytes_fed key_types calls
                   + rows_bytes key_types (call_rows batch offset len)) →
  let known := inserted_keys [] calls in
  let rows := call_rows batch offset len in
  ∃ g1 gp gc gl,
    Calls.run g0 calls = Ok (g1, spec_outputs [] calls)
    ∧ grouper_holds key_types g1 known
    ∧ (Forall (λ c, c ≠ CallReset) calls → grouper_holds_uniques key_types g1 known)
    ∧ GrouperOps.Populate g1 batch offset len = Ok gp
    ∧ grouper_holds key_types gp (assign_ids known rows).2
    ∧ GrouperOps.Consume g1 batch offset len
      = Ok (gc, Some (mkUInt32Array (N.of_nat <$> (assign_ids known rows).1) None))
    ∧ grouper_holds key_types gc (assign_ids known rows).2
    ∧ GrouperOps.Lookup g1 batch offset len
      = Ok (gl, Some (mkUInt32Array ((λ r, (lookup_id known r).1) <$> rows)
                        (Some ((λ r, (lookup_id known r).2) <$> rows))))
    ∧ grouper_holds key_types gl known
    ∧ is_fast g1 = is_fast g0 ∧ is_fast gp = is_fast g0 ∧ is_fast gc = is_fast g0.
Proof.
  intros Hmake Hcalls Hok Hcap Hfit known rows.
  destruct (run_from_Make key_types little_endian g0 calls Hrange Hmake Hcalls)
    as (g1 & Hrun & Hg1 & Hu1); [lia|by eapply grouper_fits_le; [|exact Hfit]; lia|].
  pose proof (run_fits key_types calls g0 g1 _ _ Hrun Hfit) as Hfit1.
  pose proof (run_keeps_kind _ _ _ _ Hrun) as Hkind1.
  pose proof (inserted_keys_bound calls []) as Hbound. simpl in Hbound.
  destruct (grouper_calls key_types (laws_cell_law key_types) decode_row_image Hrange
              g1 _ batch offset len Hg1 Hok) as (Hp & Hc & Hl).
  destruct Hp as (gp & Hgp & Hholdp & _); [lia|done|].
  destruct Hc as (gc & Hgc & Hholdc & _); [lia|done|].
  destruct Hl as (gl & Hgl & Hholdl & _);
    [lia|by eapply grouper_fits_le; [|exact Hfit1]; lia|].
  pose proof (Populate_keeps_kind _ _ _ _ _ Hgp) as Hkindp.
  pose proof (Consume_keeps_kind _ _ _ _ _ _ Hgc) as Hkindc.
  exists g1, gp, gc, gl. split_and!; try done; congruence.
Qed.

(** X3: whatever calls came before, [Reset] leaves a grouper without groups,
    a second [Reset] changes nothing, and the calls that follow return what
    they return on a grouper fresh from [Grouper::Make].  This is for keys
    without a dictionary: a grouper keeps the dictionary of its first batch
    across a reset.  The rows before and the rows after the reset are fewer
    than 2^32 and, in the fallback grouper, the bytes of their keys at most
    INT32_MAX. *)
Theorem Reset_forgets little_endian g0 calls1 calls2 :
  Forall (λ ty, is_dictionary ty = false) key_types →
  GrouperOps.Make little_endian key_types = Ok g0 →
  Forall (λ c, call_conforms key_types c = true) calls1 →
  Forall (λ c, call_conforms key_types c = true) calls2 →
  (N.of_nat (rows_fed calls1) < 2 ^ 32)%N →
  (N.of_nat (rows_fed calls2) < 2 ^ 32)%N →
  grouper_fits g0 (key_bytes_fed key_types calls1) →
  grouper_fits g0 (key_bytes_fed key_types calls2) →
  ∃ g1 outs1 g2 g3 g3' outs2,
    Calls.run g0 calls1 = Ok (g1, outs1)
    ∧ GrouperOps.Reset g1 = Ok g2
    ∧ GrouperOps.num_groups g2 = 0%N
    ∧ GrouperOps.Reset g2 = Ok g2
    ∧ Calls.run g2 calls2 = Ok (g3, outs2)
    ∧ Calls.run g0 calls2 = Ok (g3', outs2)
    ∧ GrouperOps.num_groups g3 = GrouperOps.num_groups g3'.
Proof.
  intros _ Hmake Hcalls1 Hcalls2 Hcap1 Hcap2 Hfit1 Hfit2.
  destruct (run_from_Make key_types little_endian g0 calls1 Hrange Hmake Hcalls1 Hcap1
              Hfit1) as (g1 & Hrun1 & Hg1 & _).
  destruct (grouper_Reset_holds key_types g1 _ Hg1) as (g2 & Hreset & Hg2).
  destruct (run_spec key_types (laws_cell_law key_types) decode_row_image Hrange
              calls2 Hcalls2 g2 [] Hg2) as (g3 & Hrun2 & Hg3 & _); [done| |].
  { apply (grouper_fits_kind g0); [|done].
    rewrite (Reset_keeps_kind _ _ Hreset). by eapply run_keeps_kind. }
  destruct (run_from_Make key_types little_endian g0 calls2 Hrange Hmake Hcalls2 Hcap2
              Hfit2) as (g3' & Hrun3 & Hg3' & _).
  exists g1, (spec_outputs [] calls1), g2, g3, g3', (spec_outputs [] calls2).
  split_and!; try done.
  - by rewrite (grouper_num_groups key_types g2 []).
  - by eapply Reset_of_reset.
  - by rewrite (grouper_num_groups key_types g3 _ Hg3),
      (grouper_num_groups key_types g3' _ Hg3').
Qed.

(** X4: between two resets the group id of a key is permanent: a consume
    call returns, for every row, the id that any earlier consume call
    returned for a row with the same key.  The rows are fewer than 2^32 in
    all and, in the fallback grouper, the bytes of their keys at most
    INT32_MAX. *)
Theorem ids_are_stable little_endian g0 calls1 batch1 offset1 len1 calls2
    batch2 offset2 len2 :
  GrouperOps.Make little_endian key_types = Ok g0 →
  Forall (λ c, call_conforms key_types c = true) calls1 →
  call_ok key_types batch1 offset1 = true →
  Forall (λ c, call_conforms key_types c = true) calls2 →
  Forall (λ c, is_reset c = false) calls2 →
  call_ok key_types batch2 offset2 = true →
  (N.of_nat (rows_fed (calls1 ++ [CallConsume batch1 offset1 len1] ++ calls2)
             + length (call_rows batch2 offset2 len2)) < 2 ^ 32)%N →
  grouper_fits g0
    (key_bytes_fed key_types (calls1 ++ [CallConsume batch1 offset1 len1] ++ calls2)
     + rows_bytes key_types (call_rows batch2 offset2 len2)) →
  ∃ g1 outs1 g2 ids1 g3 outs2 g4 ids2,
    Calls.run g0 calls1 = Ok (g1, outs1)
    ∧ GrouperOps.Consume g1 batch1 offset1 len1
      = Ok (g2, Some (mkUInt32Array ids1 None))
    ∧ Calls.run g2 calls2 = Ok (g3, outs2)
    ∧ GrouperOps.Consume g3 batch2 offset2 len2
      = Ok (g4, Some (mkUInt32Array ids2 None))
    ∧ ∀ (i j : nat) r,
        call_rows batch1 offset1 len1 !! i = Some r →
        call_rows batch2 offset2 len2 !! j = Some r →
        ∃ id, ids1 !! i = Some id ∧ ids2 !! j = Some id.
Proof.
  intros Hmake Hcalls1 Hok1 Hcalls2 Hnr Hok2 Hcap Hfit.
  set (calls := calls1 ++ [CallConsume batch1 offset1 len1] ++ calls2) in *.
  assert (Forall (λ c, call_conforms key_types c = true) calls) as Hcalls.
  { apply Forall_app. split; [done|]. apply list.Forall_cons. done. }
  assert (rows_fed calls
          = (rows_fed calls1 + length (call_rows batch1 offset1 len1)
             + rows_fed calls2)%nat) as Hfed.
  { unfold calls. rewrite !rows_fed_app. simpl. lia. }
  assert (key_bytes_fed key_types calls
          = (key_bytes_fed key_types calls1
             + rows_bytes key_types (call_rows batch1 offset1 len1)
             + key_bytes_fed key_types calls2)%nat) as Hbytes.
  { unfold calls. rewrite !key_bytes_fed_app. simpl. lia. }
  destruct (after_calls little_endian g0 calls1 batch1 offset1 len1 Hmake Hcalls1 Hok1)
    as (g1 & _ & g2 & _ & Hrun1 & Hg1 & _ & _ & _ & Hc1 & Hg2 & _ & _ & Hkind1 & _
        & Hkind2); [lia|by eapply grouper_fits_le; [|exact Hfit]; lia|].
  set (known1 := inserted_keys [] calls1) in *.
  set (rows1 := call_rows batch1 offset1 len1) in *.
  set (known2 := (assign_ids known1 rows1).2) in *.
  pose proof (inserted_keys_bound calls1 []) as Hb1. simpl in Hb1. fold known1 in Hb1.
  pose proof (assign_ids_length_known known1 rows1) as Hb2. fold known2 in Hb2.
  pose proof (inserted_keys_bytes key_types calls1 []) as Hs1. fold known1 in Hs1.
  pose proof (rows_bytes_assign_ids key_types rows1 known1) as Hs2. fold known2 in Hs2.
  assert (rows_bytes key_types [] = 0%nat) as Hnil by done.
  destruct (run_spec key_types (laws_cell_law key_types) decode_row_image Hrange
              calls2 Hcalls2 g2 known2 Hg2) as (g3 & Hrun2 & Hg3 & _); [lia| |].
  { apply (grouper_fits_kind g0); [done|]. eapply grouper_fits_le; [|exact Hfit].
    lia. }
  pose proof (run_keeps_kind _ _ _ _ Hrun2) as Hkind3.
  set (known3 := inserted_keys known2 calls2) in *.
  pose proof (inserted_keys_bound calls2 known2) as Hb3. fold known3 in Hb3.
  pose proof (inserted_keys_bytes key_types calls2 known2) as Hs3. fold known3 in Hs3.
  destruct (grouper_calls key_types (laws_cell_law key_types) decode_row_image Hrange
              g3 known3 batch2 offset2 len2 Hg3 Hok2) as (_ & Hc2 & _).
  destruct Hc2 as (g4 & Hc2 & _); [lia| |].
  { apply (grouper_fits_kind g0); [congruence|]. eapply grouper_fits_le; [|exact Hfit].
    lia. }
  eexists g1, _, g2, _, g3, _, g4, _. split_and!; [done..|].
  intros i j r Hi Hj.
  destruct (lookup_lt_is_Some_2 (assign_ids known1 rows1).1 i) as [id Hid].
  { rewrite assign_ids_length. by eapply lookup_lt_Some. }
  exists (N.of_nat id). rewrite !list_lookup_fmap, Hid. split; [done|].
  pose proof (assign_ids_find known1 rows1 i id r Hi Hid) as Hfind. fold known2 in Hfind.
  destruct (inserted_keys_grows calls2 known2 Hnr) as (more & Hmore). fold known3 in Hmore.
  rewrite (assign_ids_known_id known3 _ j id r Hj); [done|].
  by rewrite Hmore, find_key_app, Hfind.
Qed.

(** X5: consuming a batch a second time returns the ids of the first time
    and adds no group, and a populate followed by a consume of the same batch
    returns the ids that the consume alone returns: a populate is a consume
    whose ids are dropped.  The rows, the batch counted twice, are fewer than
    2^32 and, in the fallback grouper, the bytes of their keys at most
    INT32_MAX. *)
Theorem Consume_again little_endian g0 calls batch offset len :
  GrouperOps.Make little_endian key_types = Ok g0 →
  Forall (λ c, call_conforms key_types c = true) calls →
  call_ok key_types batch offset = true →
  (N.of_nat (rows_fed calls + 2 * length (call_rows batch offset len)) < 2 ^ 32)%N →
  grouper_fits g0 (key_bytes_fed key_types calls
                   + 2 * rows_bytes key_types (call_rows batch offset len)) →
  ∃ g1 outs g2 ids g3 g2' g3',
    Calls.run g0 calls = Ok (g1, outs)
    ∧ GrouperOps.Consume g1 batch offset len = Ok (g2, Some ids)
    ∧ GrouperOps.Consume g2 batch offset len = Ok (g3, Some ids)
    ∧ GrouperOps.num_groups g3 = GrouperOps.num_groups g2
    ∧ GrouperOps.Populate g1 batch offset len = Ok g2'
    ∧ GrouperOps.Consume g2' batch offset len = Ok (g3', Some ids)
    ∧ GrouperOps.num_groups g3' = GrouperOps.num_groups g2'
    ∧ GrouperOps.num_groups g2' = GrouperOps.num_groups g2.
Proof.
  intros Hmake Hcalls Hok Hcap Hfit.
  destruct (after_calls little_endian g0 calls batch offset len Hmake Hcalls Hok)
    as (g1 & g2' & g2 & _ & Hrun & Hg1 & _ & Hp & Hg2' & Hc & Hg2 & _ & _ & _ & Hkindp
        & Hkindc); [lia|by eapply grouper_fits_le; [|exact Hfit]; lia|].
  set (known := inserted_keys [] calls) in *.
  set (rows := call_rows batch offset len) in *.
  pose proof (inserted_keys_bound calls []) as Hb1. simpl in Hb1. fold known in Hb1.
  pose proof (assign_ids_length_known known rows) as Hb2.
  pose proof (inserted_keys_bytes key_types calls []) as Hs1. fold known in Hs1.
  pose proof (rows_bytes_assign_ids key_types rows known) as Hs2.
  assert (rows_bytes key_types [] = 0%nat) as Hnil by done.
  destruct (grouper_calls key_types (laws_cell_law key_types) decode_row_image Hrange
              g2 _ batch offset len Hg2 Hok) as (_ & Hc2 & _).
  destruct Hc2 as (g3 & Hc2 & Hg3 & _); [fold rows; lia| |].
  { apply (grouper_fits_kind g0); [done|]. eapply grouper_fits_le; [|exact Hfit].
    fold rows. lia. }
  destruct (grouper_calls key_types (laws_cell_law key_types) decode_row_image Hrange
              g2' _ batch offset len Hg2' Hok) as (_ & Hc3 & _).
  destruct Hc3 as (g3' & Hc3 & Hg3' & _); [fold rows; lia| |].
  { apply (grouper_fits_kind g0); [done|]. eapply grouper_fits_le; [|exact Hfit].
    fold rows. lia. }
  fold rows in Hc2, Hg3, Hc3, Hg3'. rewrite assign_ids_again in Hc2, Hg3, Hc3, Hg3'.
  simpl in Hc2, Hg3, Hc3, Hg3'.
  eexists g1, _, g2, _, g3, g2', g3'. split_and!; try done.
  - by rewrite (grouper_num_groups key_types g3 _ Hg3),
      (grouper_num_groups key_types g2 _ Hg2).
  - by rewrite (grouper_num_groups key_types g3' _ Hg3'),
      (grouper_num_groups key_types g2' _ Hg2').
  - by rewrite (grouper_num_groups key_types g2' _ Hg2'),
      (grouper_num_groups key_types g2 _ Hg2).
Qed.

(** X6: [num_groups()] is the number of distinct key tuples that populate
    and consume calls were given since the last reset.  The rows are fewer
    than 2^32 in all and, in the fallback grouper, the bytes of their keys at
    most INT32_MAX. *)
Theorem num_groups_counts_distinct_keys little_endian g0 calls :
  GrouperOps.Make little_endian key_types = Ok g0 →
  Forall (λ c, call_conforms key_types c = true) calls →
  (N.of_nat (rows_fed calls) < 2 ^ 32)%N →
  grouper_fits g0 (key_bytes_fed key_types calls) →
  ∃ g' outs,
    Calls.run g0 calls = Ok (g', outs)
    ∧ GrouperOps.num_groups g' = N.of_nat (length (remove_dups (keys_fed [] calls))).
Proof.
  intros Hmake Hcalls Hcap Hfit.
  destruct (run_from_Make key_types little_endian g0 calls Hrange Hmake Hcalls Hcap Hfit)
    as (g' & Hrun & Hg' & _).
  exists g', (spec_outputs [] calls). split; [done|].
  rewrite (grouper_num_groups key_types g' _ Hg').
  by rewrite (Permutation_length (inserted_keys_distinct calls)).
Qed.

(** X7: the uniques are the keys in the order of their ids: consumed by the
    grouper that returned them, the batch of [GetUniques] gets the ids 0, 1,
    ... in order and adds no group (for the fast grouper, and for the
    fallback grouper that has not been reset).  The rows, counted twice, are
    fewer than 2^32 and, in the fallback grouper, the bytes of their keys at
    most INT32_MAX. *)
Theorem Consume_of_uniques little_endian g0 calls :
  GrouperOps.Make little_endian key_types = Ok g0 →
  Forall (λ c, call_conforms key_types c = true) calls →
  (N.of_nat (2 * rows_fed calls) < 2 ^ 32)%N →
  grouper_fits g0 (2 * key_bytes_fed key_types calls) →
  GrouperFastImpl.CanUse little_endian key_types = true
  ∨ Forall (λ c, is_reset c = false) calls →
  ∃ g1 outs uniques g2,
    Calls.run g0 calls = Ok (g1, outs)
    ∧ GrouperOps.GetUniques g1 = Ok uniques
    ∧ batch_length uniques = Z.of_N (GrouperOps.num_groups g1)
    ∧ GrouperOps.Consume g1 uniques 0 (-1)
      = Ok (g2, Some (mkUInt32Array
                        (N.of_nat <$> seq 0 (N.to_nat (GrouperOps.num_groups g1))) None))
    ∧ GrouperOps.num_groups g2 = GrouperOps.num_groups g1.
Proof.
  intros Hmake Hcalls Hcap Hfit Hwhen.
  destruct (run_from_Make key_types little_endian g0 calls Hrange Hmake Hcalls)
    as (g1 & Hrun & Hg1 & Hu); [lia|by eapply grouper_fits_le; [|exact Hfit]; lia|].
  pose proof (run_keeps_kind _ _ _ _ Hrun) as Hkind1.
  pose proof (inserted_keys_bytes key_types calls []) as Hs1.
  assert (rows_bytes key_types [] = 0%nat) as Hnil by done.
  pose proof (run_keeps_uniques key_types little_endian g0 calls g1 _ Hmake Hrun Hg1 Hu
                Hwhen) as Hu1.
  set (known := inserted_keys [] calls) in *.
  pose proof (grouper_GetUniques key_types (laws_cell_law key_types) decode_row_image
                Hrange g1 known Hu1) as Huniq.
  pose proof (grouper_holds_conforms key_types g1 known Hg1) as Hconf.
  assert (NoDup known) as Hnd by apply inserted_keys_NoDup, NoDup_nil_2.
  pose proof (batch_of_rows_conforms key_types known Hconf) as Hb.
  pose proof (batch_rows_batch_of_rows key_types known Hconf) as Hrows.
  pose proof (inserted_keys_bound calls []) as Hb1. simpl in Hb1. fold known in Hb1.
  assert (call_ok key_types (batch_of_rows key_types known) 0 = true) as Hok.
  { unfold call_ok. rewrite Hb. simpl. apply Z.leb_le. lia. }
  destruct (grouper_calls key_types (laws_cell_law key_types) decode_row_image Hrange
              g1 known (batch_of_rows key_types known) 0 (-1) Hg1 Hok) as (_ & Hc & _).
  rewrite call_rows_all, Hrows in Hc by (simpl; lia).
  destruct Hc as (g2 & Hc & Hg2 & _); [lia| |].
  { apply (grouper_fits_kind g0); [done|]. eapply grouper_fits_le; [|exact Hfit].
    fold known in Hs1. lia. }
  rewrite assign_ids_self in Hc, Hg2 by done. simpl in Hc, Hg2.
  exists g1, (spec_outputs [] calls), (batch_of_rows key_types known), g2.
  rewrite (grouper_num_groups key_types g1 known Hg1), Nat2N.id.
  split_and!; [done|done|simpl; lia|done|].
  by rewrite (grouper_num_groups key_types g2 known Hg2).
Qed.

(** X8: a batch that holds scalars is grouped as the batch in which every
    scalar is replaced by the array of its copies, by the fast grouper,
    which makes the replacement, and by the fallback grouper, which does
    not.  The rows are fewer than 2^32 in all and, in the fallback grouper,
    the bytes of their keys at most INT32_MAX. *)
Theorem scalars_are_broadcast little_endian g0 calls batch offset len :
  GrouperOps.Make little_endian key_types = Ok g0 →
  Forall (λ c, call_conforms key_types c = true) calls →
  call_ok key_types batch offset = true →
  (N.of_nat (rows_fed calls + length (call_rows batch offset len)) < 2 ^ 32)%N →
  grouper_fits g0 (key_bytes_fed key_types calls
                   + rows_bytes key_types (call_rows batch offset len)) →
  ∃ g1 outs g2 g2' ids g3 g3' found,
    Calls.run g0 calls = Ok (g1, outs)
    ∧ GrouperOps.Consume g1 batch offset len = Ok (g2, Some ids)
    ∧ GrouperOps.Consume g1 (GrouperFastImpl.broadcast_scalars batch) offset len
      = Ok (g2', Some ids)
    ∧ GrouperOps.Lookup g1 batch offset len = Ok (g3, Some found)
    ∧ GrouperOps.Lookup g1 (GrouperFastImpl.broadcast_scalars batch) offset len
      = Ok (g3', Some found).
Proof.
  intros Hmake Hcalls Hok Hcap Hfit.
  assert (batch_conforms key_types batch = true) as Hb.
  { unfold call_ok in Hok. apply andb_prop in Hok as [Hok _].
    by apply andb_prop in Hok as [Hok _]. }
  destruct (broadcast_conforms key_types batch Hb) as [Hb' Hrows].
  assert (call_rows (GrouperFastImpl.broadcast_scalars batch) offset len
          = call_rows batch offset len) as Hsame.
  { unfold call_rows. by rewrite Hrows. }
  assert (call_ok key_types (GrouperFastImpl.broadcast_scalars batch) offset = true)
    as Hok'.
  { unfold call_ok in *. by rewrite Hb', Hb in *. }
  destruct (after_calls little_endian g0 calls batch offset len Hmake Hcalls Hok Hcap
              Hfit)
    as (g1 & _ & g2 & g3 & Hrun & Hg1 & _ & _ & _ & Hc & _ & Hl & _).
  pose proof (run_fits key_types calls g0 g1 _ _ Hrun Hfit) as Hfit1.
  destruct (grouper_calls key_types (laws_cell_law key_types) decode_row_image Hrange
              g1 _ (GrouperFastImpl.broadcast_scalars batch) offset len Hg1 Hok')
    as (_ & Hc' & Hl').
  rewrite Hsame in Hc', Hl'.
  pose proof (inserted_keys_bound calls []) as Hb1. simpl in Hb1.
  destruct Hc' as (g2' & Hc' & _); [lia|done|].
  destruct Hl' as (g3' & Hl' & _); [lia|by eapply grouper_fits_le; [|exact Hfit1]; lia|].
  by eexists g1, _, g2, g2', _, g3, g3', _.
Qed.

(** X9: a length that reaches beyond the end of the batch is cut at the end
    of the batch: the call returns what the call with a negative length
    returns.  The rows are fewer than 2^32 in all and, in the fallback
    grouper, the bytes of their keys at most INT32_MAX. *)
Theorem long_length_is_rest_of_batch little_endian g0 calls batch offset len :
  GrouperOps.Make little_endian key_types = Ok g0 →
  Forall (λ c, call_conforms key_types c = true) calls →
  call_ok key_types batch offset = true →
  batch_length batch - offset ≤ len →
  (N.of_nat (rows_fed calls + length (call_rows batch offset (-1))) < 2 ^ 32)%N →
  grouper_fits g0 (key_bytes_fed key_types calls
                   + rows_bytes key_types (call_rows batch offset (-1))) →
  ∃ g1 outs g2 g2' ids g3 g3' found,
    Calls.run g0 calls = Ok (g1, outs)
    ∧ GrouperOps.Consume g1 batch offset len = Ok (g2, Some ids)
    ∧ GrouperOps.Consume g1 batch offset (-1) = Ok (g2', Some ids)
    ∧ arr_length ids = batch_length batch - offset
    ∧ GrouperOps.Lookup g1 batch offset len = Ok (g3, Some found)
    ∧ GrouperOps.Lookup g1 batch offset (-1) = Ok (g3', Some found).
Proof.
  intros Hmake Hcalls Hok Hlen Hcap Hfit.
  assert (0 ≤ offset ≤ batch_length batch) as Hoff.
  { unfold call_ok in Hok. apply andb_prop in Hok as [Hok ?%Z.leb_le].
    apply andb_prop in Hok as [_ ?%Z.leb_le]. lia. }
  pose proof (call_rows_long batch offset len (proj1 Hoff) Hlen) as Hsame.
  destruct (after_calls little_endian g0 calls batch offset (-1) Hmake Hcalls Hok Hcap
              Hfit)
    as (g1 & _ & g2' & g3' & Hrun & Hg1 & _ & _ & _ & Hc' & _ & Hl' & _).
  pose proof (run_fits key_types calls g0 g1 _ _ Hrun Hfit) as Hfit1.
  destruct (grouper_calls key_types (laws_cell_law key_types) decode_row_image Hrange
              g1 _ batch offset len Hg1 Hok) as (_ & Hc & Hl).
  rewrite Hsame in Hc, Hl.
  pose proof (inserted_keys_bound calls []) as Hb1. simpl in Hb1.
  destruct Hc as (g2 & Hc & _); [lia|done|].
  destruct Hl as (g3 & Hl & _); [lia|by eapply grouper_fits_le; [|exact Hfit1]; lia|].
  eexists g1, _, g2, g2', _, g3, g3', _. split_and!; [done..| |done|done].
  unfold arr_length. simpl. rewrite length_fmap, assign_ids_length.
  unfold call_rows. simpl. rewrite length_take, length_drop, length_batch_rows. lia.
Qed.

End GrouperCalls.

(** ** The uniques, empty calls, and the two groupers side by side *)

Section GrouperUniques.
Context `{KeyEncoder} `{RowEncoder} `{MiniBatch}.
Variable key_types : list DataType.
Context `{!KeyEncoderLaws key_types} `{!RowEncoderLaws key_types}.
Hypothesis Hrange : mini_batch_in_range.

(** X10: the uniques are indexed by group id: after a consume call,
    [GetUniques] returns a batch of the key schema with [num_groups()] rows,
    no two of them equal, whose row [id] is the key of every row the call
    gave the id [id] (for the fast grouper, and for the fallback grouper that
    has not been reset).  The rows are fewer than 2^32 in all and, in the
    fallback grouper, the bytes of their keys at most INT32_MAX. *)
Theorem uniques_row_of_id little_endian g0 calls batch offset len :
  GrouperOps.Make little_endian key_types = Ok g0 →
  Forall (λ c, call_conforms key_types c = true) calls →
  call_ok key_types batch offset = true →
  (N.of_nat (rows_fed calls + length (call_rows batch offset len)) < 2 ^ 32)%N →
  grouper_fits g0 (key_bytes_fed key_types calls
                   + rows_bytes key_types (call_rows batch offset len)) →
  GrouperFastImpl.CanUse little_endian key_types = true
  ∨ Forall (λ c, is_reset c = false) calls →
  ∃ g1 outs g2 ids uniques,
    Calls.run g0 calls = Ok (g1, outs)
    ∧ GrouperOps.Consume g1 batch offset len = Ok (g2, Some ids)
    ∧ GrouperOps.GetUniques g2 = Ok uniques
    ∧ batch_conforms key_types uniques = true
    ∧ batch_length uniques = Z.of_N (GrouperOps.num_groups g2)
    ∧ NoDup (batch_rows uniques)
    ∧ ∀ (j : nat) r id,
        call_rows batch offset len !! j = Some r →
        arr_values ids !! j = Some id →
        batch_rows uniques !! N.to_nat id = Some r.
Proof.
  intros Hmake Hcalls Hok Hcap Hfit Hwhen.
  destruct (run_from_Make key_types little_endian g0 calls Hrange Hmake Hcalls)
    as (g1 & Hrun & Hg1 & Hu); [lia|by eapply grouper_fits_le; [|exact Hfit]; lia|].
  pose proof (run_fits key_types calls g0 g1 _ _ Hrun Hfit) as Hfit1.
  pose proof (run_keeps_uniques key_types little_endian g0 calls g1 _ Hmake Hrun Hg1 Hu
                Hwhen) as Hu1.
  set (known := inserted_keys [] calls) in *.
  pose proof (inserted_keys_bound calls []) as Hb1. simpl in Hb1. fold known in Hb1.
  destruct (grouper_calls key_types (laws_cell_law key_types) decode_row_image Hrange
              g1 known batch offset len Hg1 Hok) as (_ & Hc & _).
  destruct Hc as (g2 & Hc & Hg2 & Hu2); [lia|done|]. specialize (Hu2 Hu1).
  set (rows := call_rows batch offset len) in *.
  set (known2 := (assign_ids known rows).2) in *.
  pose proof (grouper_GetUniques key_types (laws_cell_law key_types) decode_row_image
                Hrange g2 known2 Hu2) as Huniq.
  pose proof (grouper_holds_conforms key_types g2 known2 Hg2) as Hconf.
  assert (NoDup known2) as Hnd.
  { apply assign_ids_NoDup, inserted_keys_NoDup, NoDup_nil_2. }
  eexists g1, _, g2, _, _. split_and!; [done|done|done| | | |].
  - by apply batch_of_rows_conforms.
  - rewrite (grouper_num_groups key_types g2 known2 Hg2). simpl. lia.
  - by rewrite batch_rows_batch_of_rows.
  - intros j r id Hr Hid. rewrite batch_rows_batch_of_rows by done. simpl in Hid.
    apply list_lookup_fmap_Some in Hid as (k & -> & Hk). rewrite Nat2N.id.
    by apply find_key_Some, (assign_ids_find known rows j).
Qed.

(** X11: a call about no row, of length 0 or at the end of the batch, is
    accepted and changes nothing: populate and consume add no group, and
    consume and lookup return empty arrays.  The rows of the calls before are
    fewer than 2^32 and, in the fallback grouper, the bytes of their keys at
    most INT32_MAX. *)
Theorem empty_call_changes_nothing little_endian g0 calls batch offset len :
  GrouperOps.Make little_endian key_types = Ok g0 →
  Forall (λ c, call_conforms key_types c = true) calls →
  call_ok key_types batch offset = true →
  len = 0 ∨ offset = batch_length batch →
  (N.of_nat (rows_fed calls) < 2 ^ 32)%N →
  grouper_fits g0 (key_bytes_fed key_types calls) →
  ∃ g1 outs gp gc gl,
    Calls.run g0 calls = Ok (g1, outs)
    ∧ GrouperOps.Populate g1 batch offset len = Ok gp
    ∧ GrouperOps.Consume g1 batch offset len = Ok (gc, Some (mkUInt32Array [] None))
    ∧ GrouperOps.Lookup g1 batch offset len = Ok (gl, Some (mkUInt32Array [] (Some [])))
    ∧ GrouperOps.num_groups gp = GrouperOps.num_groups g1
    ∧ GrouperOps.num_groups gc = GrouperOps.num_groups g1
    ∧ GrouperOps.num_groups gl = GrouperOps.num_groups g1.
Proof.
  intros Hmake Hcalls Hok Hempty Hcap Hfit.
  assert (call_rows batch offset len = []) as Hrows.
  { unfold call_rows. destruct Hempty as [->| ->]; [done|].
    rewrite drop_ge; [by rewrite take_nil|]. rewrite length_batch_rows. lia. }
  destruct (after_calls key_types Hrange little_endian g0 calls batch offset len Hmake
              Hcalls Hok)
    as (g1 & gp & gc & gl & Hrun & Hg1 & _ & Hp & Hgp & Hc & Hgc & Hl & Hgl & _).
  { rewrite Hrows. simpl. lia. }
  { rewrite Hrows. assert (rows_bytes key_types [] = 0%nat) as -> by done.
    by rewrite Nat.add_0_r. }
  rewrite Hrows in Hgp, Hc, Hgc, Hl. simpl in Hgp, Hc, Hgc, Hl.
  eexists g1, _, gp, gc, gl. split_and!; try done.
  - by rewrite (grouper_num_groups key_types gp _ Hgp),
      (grouper_num_groups key_types g1 _ Hg1).
  - by rewrite (grouper_num_groups key_types gc _ Hgc),
      (grouper_num_groups key_types g1 _ Hg1).
  - by rewrite (grouper_num_groups key_types gl _ Hgl),
      (grouper_num_groups key_types g1 _ Hg1).
Qed.

End GrouperUniques.

(** X12: the fast and the fallback grouper return the same ids, lookup
    answers and group counts over any sequence of calls, resets included; it
    is only in [GetUniques] that a reset tells them apart.  The rows are
    fewer than 2^32 in all and the bytes of their keys at most INT32_MAX, the
    range of the key offsets of the fallback grouper. *)
Theorem fast_and_fallback_ids_agree `{KeyEncoder} `{RowEncoder} `{MiniBatch}
    key_types `{!KeyEncoderLaws key_types} `{!RowEncoderLaws key_types}
    fast fallback calls :
  mini_batch_in_range →
  GrouperFastImpl.CanUse true key_types = true →
  GrouperOps.Make true key_types = Ok fast →
  GrouperOps.Make false key_types = Ok fallback →
  Forall (λ c, call_conforms key_types c = true) calls →
  (N.of_nat (rows_fed calls) < 2 ^ 32)%N →
  Z.of_nat (key_bytes_fed key_types calls) ≤ INT32_MAX →
  ∃ outs fast' fallback',
    is_fast fast = true ∧ is_fast fallback = false
    ∧ Calls.run fast calls = Ok (fast', outs)
    ∧ Calls.run fallback calls = Ok (fallback', outs)
    ∧ GrouperOps.num_groups fast' = GrouperOps.num_groups fallback'.
Proof.
  intros Hrange Hcan Hfast Hfallback Hcalls Hcap Hfit.
  destruct (run_from_Make key_types true fast calls Hrange Hfast Hcalls Hcap)
    as (fast' & Hrun1 & Hg1 & _); [by intros _|].
  destruct (run_from_Make key_types false fallback calls Hrange Hfallback Hcalls Hcap)
    as (fallback' & Hrun2 & Hg2 & _); [by intros _|].
  exists (spec_outputs [] calls), fast', fallback'. split_and!; try done.
  - unfold GrouperOps.Make in Hfast. rewrite Hcan in Hfast.
    destruct (GrouperFastImpl.Make key_types) as [st| | |]; simpl in Hfast;
      by inversion Hfast.
  - unfold GrouperOps.Make in Hfallback.
    assert (GrouperFastImpl.CanUse false key_types = false) as Hno.
    { unfold GrouperFastImpl.CanUse. by case_decide. }
    rewrite Hno in Hfallback.
    destruct (GrouperImpl.Make key_types) as [st| | |]; simpl in Hfallback;
      by inversion Hfallback.
  - by rewrite (grouper_num_groups key_types fast' _ Hg1),
      (grouper_num_groups key_types fallback' _ Hg2).
Qed.

(** * Further properties of the segmenters *)

(** ** The check of the batch *)

Lemma check_value_types_cases key_types : ∀ vals i,
  length vals = length key_types →
  check_value_types i vals key_types
  = if decide (value_type <$> vals = key_types) then Ok tt else Fail Invalid.
Proof.
  induction key_types as [|ty key_types IH]; intros [|v vals] i Hlen; try done.
  injection Hlen as Hlen. rewrite fmap_cons. cbn [check_value_types].
  rewrite (IH vals (S i) Hlen).
  destruct (decide (value_type v = ty)) as [->|Hne].
  - destruct (decide (value_type <$> vals = key_types)) as [->|Hne].
    + by rewrite decide_True.
    + rewrite decide_False; [done|]. by intros [= ?].
  - rewrite decide_False; [done|]. by intros [= ? ?].
Qed.

Lemma CheckForGetSegments_cases batch key_types :
  CheckForGetSegments batch key_types
  = if decide (value_type <$> values batch = key_types) then Ok tt else Fail Invalid.
Proof.
  unfold CheckForGetSegments. case_decide as Hlen.
  - by apply check_value_types_cases.
  - rewrite decide_False; [done|]. intros Heq. apply Hlen.
    by rewrite <- Heq, length_fmap.
Qed.

(** X13: every segmenter checks the batch against its key schema before
    anything else: when the types of the batch's values are not, one by one,
    the types of [key_types()], [GetSegments] fails with the status Invalid,
    whatever the state of the segmenter and the build. *)
Theorem GetSegments_rejects_wrong_batch `{KeyEncoder} `{RowEncoder} `{MiniBatch}
    (debug : bool) (seg : RowSegmenter) (batch : ExecSpan) :
  value_type <$> values batch ≠ BaseRowSegmenter.key_types seg →
  RowSegmenterOps.GetSegments debug seg batch = Fail Invalid.
Proof.
  intros Hne. destruct seg as [|st|st]; simpl in *.
  - unfold NoKeysSegmenter.GetSegments.
    by rewrite CheckForGetSegments_cases, decide_False.
  - unfold SimpleKeySegmenter.GetSegments.
    by rewrite CheckForGetSegments_cases, decide_False.
  - unfold AnyKeysSegmenter.GetSegments.
    by rewrite CheckForGetSegments_cases, decide_False.
Qed.

(** ** Making a segmenter *)

Lemma Grouper_Make_outcome `{KeyEncoder} `{RowEncoder} `{MiniBatch}
    (little_endian : bool) (key_types : list DataType) :
  (Forall (λ ty, is_supported ty = true) key_types →
   ∃ g, GrouperOps.Make little_endian key_types = Ok g)
  ∧ (¬ Forall (λ ty, is_supported ty = true) key_types →
     GrouperOps.Make little_endian key_types = Fail NotImplemented).
Proof.
  unfold GrouperOps.Make.
  destruct (GrouperFastImpl.CanUse little_endian key_types) eqn:Hcan.
  - assert (existsb is_large_binary_like key_types = false) as Hlarge.
    { unfold GrouperFastImpl.CanUse in Hcan. case_decide; [done|].
      destruct little_endian; [|done]. by apply negb_true_iff in Hcan. }
    destruct (make_metadata_cases key_types Hlarge) as [Hok Hno].
    unfold GrouperFastImpl.Make. split.
    + intros Hkt. destruct (Hok Hkt) as [md ->]. rewrite !bind_Ok. by eexists.
    + intros Hkt. by rewrite (Hno Hkt).
  - destruct (make_encoders_cases key_types) as [Hok Hno].
    unfold GrouperImpl.Make. split.
    + intros Hkt. rewrite (Hok Hkt), !bind_Ok. by eexists.
    + intros Hkt. by rewrite (Hno Hkt).
Qed.

(** X14: [RowSegmenter::Make] fails, with the status NotImplemented, exactly
    when some key type is one no grouper takes; otherwise it returns the
    no-keys segmenter for no key, the single-key segmenter for one
    fixed-width key that is not nullable, and the any-keys segmenter in every
    other case, and [key_types()] of the segmenter returns the key types it
    was made for. *)
Theorem RowSegmenter_Make_cases `{KeyEncoder} `{RowEncoder} `{MiniBatch}
    (little_endian : bool) (key_types : list DataType) (nullable_keys : bool) :
  (Forall (λ ty, is_supported ty = true) key_types →
   ∃ seg, RowSegmenterOps.Make little_endian key_types nullable_keys = Ok seg
          ∧ BaseRowSegmenter.key_types seg = key_types
          ∧ match seg with
            | NoKeys => key_types = []
            | SimpleKey _ => simple_key_schema key_types nullable_keys = true
            | AnyKeys _ =>
                key_types ≠ [] ∧ simple_key_schema key_types nullable_keys = false
            end)
  ∧ (¬ Forall (λ ty, is_supported ty = true) key_types →
     RowSegmenterOps.Make little_endian key_types nullable_keys = Fail NotImplemented).
Proof.
  destruct (Grouper_Make_outcome little_endian key_types) as [Hok Hno].
  assert (Forall (λ ty, is_supported ty = true) key_types →
          key_types ≠ [] → simple_key_schema key_types nullable_keys = false →
          ∃ seg, AnyKeysSegmenter.Make little_endian key_types
                   ≫= (λ st, Ok (AnyKeys st)) = Ok seg
                 ∧ BaseRowSegmenter.key_types seg = key_types
                 ∧ match seg with
                   | NoKeys => key_types = []
                   | SimpleKey _ => simple_key_schema key_types nullable_keys = true
                   | AnyKeys _ =>
                       key_types ≠ []
                       ∧ simple_key_schema key_types nullable_keys = false
                   end) as Hany.
  { intros Hkt Hne Hsimple. destruct (Hok Hkt) as [g Hg].
    unfold AnyKeysSegmenter.Make. rewrite Hg, !bind_Ok. by eexists. }
  assert (¬ Forall (λ ty, is_supported ty = true) key_types →
          AnyKeysSegmenter.Make little_endian key_types ≫= (λ st, Ok (AnyKeys st))
          = Fail NotImplemented) as Hnone.
  { intros Hkt. unfold AnyKeysSegmenter.Make. by rewrite (Hno Hkt). }
  unfold RowSegmenterOps.Make. destruct key_types as [|ty [|ty' kts]] eqn:Hkts.
  - split; [by exists NoKeys|]. intros []. constructor.
  - destruct (negb nullable_keys && is_fixed_width ty) eqn:Hsimple.
    + split; [intros _; by eexists|]. intros []. apply Forall_singleton.
      apply andb_prop in Hsimple as [_ Hfixed]. unfold is_supported.
      rewrite Hfixed. by rewrite !orb_true_r.
    + split; [|done]. intros Hkt. by apply Hany.
  - split; [|done]. intros Hkt. by apply Hany.
Qed.

(** ** Reset *)

Lemma segments_from_unique {A : Type} (rows : list A) (prev : option A) :
  ∀ segments1 segments2 offset,
    segments_from rows offset prev segments1 →
    segments_from rows offset prev segments2 →
    segments1 = segments2.
Proof.
  induction segments1 as [|s1 segments1 IH]; intros [|s2 segments2] offset; simpl.
  - done.
  - intros -> (_ & ? & ? & _). lia.
  - intros (_ & ? & ? & _) ->. lia.
  - intros (Ho1 & Hp1 & Hin1 & Hrun1 & Hend1 & Hopen1 & Hext1 & Hrest1)
           (Ho2 & Hp2 & Hin2 & Hrun2 & Hend2 & Hopen2 & Hext2 & Hrest2).
    assert (seg_length s1 = seg_length s2) as Hlen.
    { destruct (Z.lt_trichotomy (seg_length s1) (seg_length s2)) as [Hlt|[?|Hlt]];
        [|done|].
      - destruct Hend1; [lia|]. apply Hrun2. lia.
      - destruct Hend2; [lia|]. apply Hrun1. lia. }
    rewrite Hlen in Hrest1, Hopen1. rewrite (IH segments2 _ Hrest1 Hrest2). f_equal.
    destruct s1 as [o1 l1 e1 x1], s2 as [o2 l2 e2 x2]. simpl in *. subst.
    f_equal; apply Bool.eq_true_iff_eq.
    + by rewrite Hopen1, Hopen2.
    + by rewrite Hext1, Hext2.
Qed.

Lemma stream_ok_unique : ∀ batches prev segments1 segments2,
  stream_ok prev batches segments1 → stream_ok prev batches segments2 →
  segments1 = segments2.
Proof.
  induction batches as [|rows batches IH]; intros prev [|s1 segments1] [|s2 segments2];
    simpl; try done.
  intros [H1 Hrest1] [H2 Hrest2]. f_equal.
  - by eapply segments_from_unique.
  - by eapply IH.
Qed.

Section SegmenterReset.
Context `{KeyEncoder} `{RowEncoder} `{MiniBatch}.
Variable key_types : list DataType.
Context `{!KeyEncoderLaws key_types} `{!RowEncoderLaws key_types}.
Hypothesis Hrange : mini_batch_in_range.

Lemma segmenter_Reset_holds (nullable_keys : bool) seg prev :
  segmenter_holds key_types nullable_keys seg prev →
  ∃ seg', RowSegmenterOps.Reset seg = Ok seg'
          ∧ segmenter_holds key_types nullable_keys seg' None
          ∧ uses_fallback seg' = uses_fallback seg.
Proof.
  destruct seg as [|st|st]; simpl.
  - intros [Hkt _]. exists NoKeys. split; [done|]. split; [|done]. split; [done|by left].
  - intros (Hsimple & ty & Hkt & Hfixed & Hw & Hty & Hlen & _).
    eexists. split; [done|]. simpl. split; [|done]. split; [done|]. exists ty.
    by split_and!.
  - intros (Hkt & known & Hg & _).
    destruct (grouper_Reset_holds key_types _ known Hg) as (g' & Hreset & Hg').
    pose proof (Reset_keeps_kind _ _ Hreset) as Hkind.
    unfold AnyKeysSegmenter.Reset. rewrite Hreset, !bind_Ok. eexists. split; [done|].
    simpl. split; [|by rewrite Hkind]. split; [done|]. exists []. by split_and!.
Qed.

(** X15: [Reset] starts a new stream: whatever batches a segmenter has
    seen, after [Reset] it emits for the batches that follow exactly the
    segments a segmenter fresh from [RowSegmenter::Make] emits for them, so
    the first segment after a reset extends.  This is for keys without a
    dictionary: the grouper of the any-keys segmenter keeps the dictionary
    of its first batch across a reset.  Every batch has fewer than 2^32 - 1
    rows and, where the any-keys segmenter runs the fallback grouper, the
    bytes of the keys of a batch, counted twice, are at most INT32_MAX. *)
Theorem Reset_restarts_the_stream (debug little_endian nullable_keys : bool) seg
    batches1 batches2 :
  Forall (λ ty, is_dictionary ty = false) key_types →
  RowSegmenterOps.Make little_endian key_types nullable_keys = Ok seg →
  (simple_key_schema key_types nullable_keys = true →
   Forall (λ ty, 0 < byte_width ty) key_types) →
  Forall (λ b, batch_conforms key_types b = true) (batches1 ++ batches2) →
  (simple_key_schema key_types nullable_keys = true →
   Forall (λ b, has_null b = false) (batches1 ++ batches2)) →
  Forall (λ b, batch_length b + 1 < 2 ^ 32) (batches1 ++ batches2) →
  Forall (batch_fits key_types seg) (batches1 ++ batches2) →
  ∃ segments1 seg1 seg2 segments2 seg3 seg3',
    RowSegmenterOps.run debug seg batches1 = Ok (segments1, seg1)
    ∧ RowSegmenterOps.Reset seg1 = Ok seg2
    ∧ RowSegmenterOps.run debug seg2 batches2 = Ok (segments2, seg3)
    ∧ RowSegmenterOps.run debug seg batches2 = Ok (segments2, seg3')
    ∧ stream_ok None (batch_rows <$> batches2) segments2.
Proof.
  intros _ Hmake Hwidth [Hb1 Hb2]%Forall_app Hnull [Hcap1 Hcap2]%Forall_app
    [Hfit1 Hfit2]%Forall_app.
  assert (simple_key_schema key_types nullable_keys = true →
          Forall (λ b, has_null b = false) batches1) as Hnull1.
  { intros Hs. specialize (Hnull Hs). by apply Forall_app in Hnull as [? _]. }
  assert (simple_key_schema key_types nullable_keys = true →
          Forall (λ b, has_null b = false) batches2) as Hnull2.
  { intros Hs. specialize (Hnull Hs). by apply Forall_app in Hnull as [_ ?]. }
  pose proof (segmenter_Make_holds key_types Hrange little_endian nullable_keys seg
                Hmake Hwidth) as Hseg.
  destruct (segmenter_run key_types Hrange debug nullable_keys batches1 Hb1 Hnull1 Hcap1
              seg None Hseg Hfit1) as (segments1 & seg1 & prev1 & Hrun1 & _ & Hseg1 & Hkind1).
  destruct (segmenter_Reset_holds nullable_keys seg1 prev1 Hseg1)
    as (seg2 & Hreset & Hseg2 & Hkind2).
  assert (Forall (batch_fits key_types seg2) batches2) as Hfit2'.
  { eapply list.Forall_impl; [exact Hfit2|]. intros b. apply batch_fits_kind. congruence. }
  destruct (segmenter_run key_types Hrange debug nullable_keys batches2 Hb2 Hnull2 Hcap2
              seg2 None Hseg2 Hfit2') as (segments2 & seg3 & _ & Hrun2 & Hok2 & _).
  destruct (segmenter_run key_types Hrange debug nullable_keys batches2 Hb2 Hnull2 Hcap2
              seg None Hseg Hfit2) as (segments2' & seg3' & _ & Hrun3 & Hok3 & _).
  rewrite <- (stream_ok_unique _ _ _ _ Hok2 Hok3) in Hrun3.
  by exists segments1, seg1, seg2, segments2, seg3, seg3'.
Qed.

End SegmenterReset.

(** ** A key without whole bytes *)

Lemma MakeSegment_whole (n len : Z) :
  len = n → MakeSegment n 0 len true = mkSegment 0 n true true.
Proof. intros ->. unfold MakeSegment. f_equal. apply Z.leb_le. lia. Qed.

Lemma memcmp_eq_no_byte (a b : list byte) : memcmp_eq a b 0 = Ok true.
Proof.
  unfold memcmp_eq.
  destruct (Z.ltb_spec (Z.of_nat (length a)) 0) as [|_]; [lia|].
  destruct (Z.ltb_spec (Z.of_nat (length b)) 0) as [|_]; [lia|].
  by rewrite bool_decide_eq_true_2.
Qed.

Lemma match_loop_zero_width (match_bytes array_bytes : list byte) (length : Z) :
  ∀ (fuel : nat) (cursor byte_cursor : Z),
    cursor + Z.of_nat fuel ≤ length →
    SimpleKeySegmenter.match_loop match_bytes 0 array_bytes length fuel cursor byte_cursor
    = Ok (cursor + Z.of_nat fuel).
Proof.
  induction fuel as [|fuel IH]; intros cursor byte_cursor Hfuel; simpl.
  - f_equal. lia.
  - destruct (Z.ltb_spec cursor length) as [_|]; [|lia].
    rewrite memcmp_eq_no_byte, bind_Ok, IH by lia. f_equal. lia.
Qed.

Lemma zero_width_GetSegments (ty : DataType) (st : SimpleKeySegmenter.State)
    (batch : ExecSpan) :
  byte_width ty = 0 →
  SimpleKeySegmenter.key_type_ st = ty →
  SimpleKeySegmenter.save_key_data_ st = [] →
  batch_conforms [ty] batch = true →
  ∃ st',
    SimpleKeySegmenter.GetSegments false st batch
    = Ok (if batch_length batch =? 0 then []
          else [mkSegment 0 (batch_length batch) true true], st')
    ∧ SimpleKeySegmenter.key_type_ st' = ty
    ∧ SimpleKeySegmenter.save_key_data_ st' = [].
Proof.
  intros Hw Hty Hsave Hb.
  pose proof (CheckForGetSegments_Ok [ty] batch Hb) as Hcheck.
  pose proof (batch_conforms_length [ty] batch Hb) as Hn.
  unfold SimpleKeySegmenter.GetSegments. rewrite Hty, Hcheck, bind_Ok.
  destruct (Z.eqb_spec (batch_length batch) 0) as [Hz|Hnz]; [by exists st|].
  destruct batch as [vals n]. simpl in Hn, Hnz.
  unfold batch_conforms in Hb. simpl in Hb. apply andb_prop in Hb as [_ Hvals].
  destruct vals as [|v [|? ?]]; simpl in Hvals; try done.
  rewrite andb_true_r in Hvals. cbn [values batch_length].
  rewrite !DCHECK_release, !bind_Ok.
  assert (∀ data, ∃ st1,
            SimpleKeySegmenter.Extend st data = Ok (true, st1)
            ∧ SimpleKeySegmenter.key_type_ st1 = ty
            ∧ SimpleKeySegmenter.save_key_data_ st1 = []) as HExtend.
  { intros data. unfold SimpleKeySegmenter.Extend.
    destruct (SimpleKeySegmenter.extend_was_called_ st); simpl.
    - rewrite Hsave. simpl. rewrite memcmp_eq_no_byte, bind_Ok. by exists st.
    - by eexists. }
  assert (∀ st1 data,
            SimpleKeySegmenter.key_type_ st1 = ty →
            SimpleKeySegmenter.save_key_data_ st1 = [] →
            ∃ st2, SimpleKeySegmenter.SaveKeyData st1 data = Ok st2
                   ∧ SimpleKeySegmenter.key_type_ st2 = ty
                   ∧ SimpleKeySegmenter.save_key_data_ st2 = []) as HSave.
  { intros st1 data Hty1 Hsave1. unfold SimpleKeySegmenter.SaveKeyData.
    rewrite Hsave1. simpl. by eexists. }
  destruct v as [ty' c|ty' cs]; simpl in Hvals.
  - destruct (HExtend (default (replicate (Z.to_nat (byte_width ty')) Byte.x00) c))
      as (st1 & -> & Hty1 & Hsave1).
    rewrite bind_Ok. cbn beta iota.
    destruct (HSave st1 (default (replicate (Z.to_nat (byte_width ty')) Byte.x00) c)
                Hty1 Hsave1) as (st2 & -> & Hty2 & Hsave2).
    rewrite bind_Ok. exists st2. split_and!; [|done..].
    by rewrite MakeSegment_whole.
  - apply andb_prop in Hvals as [Hvals _]. apply andb_prop in Hvals as [Hty' Hlen].
    apply bool_decide_eq_true in Hty' as ->. apply bool_decide_eq_true in Hlen.
    rewrite Hw, Hlen.
    destruct (HExtend (SimpleKeySegmenter.GetValuesAsBytes 0 cs))
      as (st1 & -> & Hty1 & Hsave1).
    rewrite bind_Ok. cbn beta iota.
    destruct (Z.to_nat n) as [|fuel] eqn:Hfuel; [lia|].
    simpl SimpleKeySegmenter.segment_loop.
    destruct (Z.ltb_spec 0 n) as [_|]; [|lia].
    unfold SimpleKeySegmenter.GetMatchLength.
    rewrite match_loop_zero_width by lia. rewrite !bind_Ok.
    replace (0 + (Z.min (0 + Z.of_nat (Z.to_nat (n - 0))) n - 0)) with n by lia.
    destruct fuel; simpl; rewrite Z.ltb_irrefl, bind_Ok.
    all: destruct (HSave st1 (advance (SimpleKeySegmenter.GetValuesAsBytes 0 cs)
                                ((n - 1) * 0)) Hty1 Hsave1)
           as (st2 & -> & Hty2 & Hsave2).
    all: rewrite bind_Ok; exists st2; split_and!; [|done..].
    all: rewrite MakeSegment_whole; [done|lia].
Qed.

(** X16: the single-key segmenter is chosen by [is_fixed_width] but compares
    whole bytes.  For a key type without a whole byte (byte width 0, as a
    boolean has) a release build compares no byte at all: every non-empty
    batch comes back as one segment that covers it and extends, whatever the
    values.  A debug build stops at an assertion, on a null or else on the
    byte width, as soon as it is given a non-empty array. *)
Theorem zero_width_key_is_one_segment `{KeyEncoder} `{RowEncoder} `{MiniBatch}
    (little_endian : bool) (ty : DataType) (seg : RowSegmenter)
    (batches : list ExecSpan) :
  is_fixed_width ty = true → byte_width ty = 0 →
  RowSegmenterOps.Make little_endian [ty] false = Ok seg →
  Forall (λ b, batch_conforms [ty] b = true) batches →
  (∃ seg',
     RowSegmenterOps.run false seg batches
     = Ok ((λ b, if batch_length b =? 0 then []
                 else [mkSegment 0 (batch_length b) true true]) <$> batches, seg'))
  ∧ ∀ cs, cs ≠ [] →
      RowSegmenterOps.GetSegments true seg (mkExecSpan [Array ty cs] (Z.of_nat (length cs)))
      = Abort.
Proof.
  intros Hfixed Hw Hmake Hb. unfold RowSegmenterOps.Make in Hmake. simpl in Hmake.
  rewrite Hfixed in Hmake. injection Hmake as <-. split.
  - assert (SimpleKeySegmenter.key_type_ (SimpleKeySegmenter.Make ty) = ty) as Hty by done.
    assert (SimpleKeySegmenter.save_key_data_ (SimpleKeySegmenter.Make ty) = []) as Hsave.
    { unfold SimpleKeySegmenter.Make. simpl. by rewrite Hw. }
    revert Hty Hsave. generalize (SimpleKeySegmenter.Make ty).
    induction Hb as [|batch batches Hbatch Hb IH]; intros st Hty Hsave.
    + by eexists.
    + destruct (zero_width_GetSegments ty st batch Hw Hty Hsave Hbatch)
        as (st1 & Hget & Hty1 & Hsave1).
      destruct (IH st1 Hty1 Hsave1) as (seg' & Hrun).
      exists seg'. simpl. rewrite Hget, !bind_Ok. cbn beta iota.
      by rewrite Hrun, !bind_Ok.
  - intros cs Hne. simpl. unfold SimpleKeySegmenter.GetSegments. simpl.
    unfold CheckForGetSegments. simpl. rewrite decide_True by done. rewrite bind_Ok.
    destruct (Z.eqb_spec (Z.of_nat (length cs)) 0) as [Hz|_].
    { destruct cs; [done|simpl in Hz; lia]. }
    rewrite Hfixed, DCHECK_true, bind_Ok.
    destruct (forallb (λ c : Cell, bool_decide (is_Some c)) cs); [|done].
    rewrite DCHECK_true, bind_Ok, Hw. done.
Qed.

(** * Further properties of the groupings *)

(** ** Applying groupings *)

(** The layout [MakeGroupings] gives its result: the offsets of the groups
    and, between them, the positions of each group. *)
Lemma MakeGroupings_layout (debug : bool) (ids : UInt32Array) (num_groups : N) :
  null_count ids = 0 →
  Forall (λ id, (id < num_groups)%N) (arr_values ids) →
  (num_groups + 1 < 2 ^ 32)%N →
  arr_length ids ≤ INT32_MAX →
  ∃ offsets permutation,
    MakeGroupings debug ids num_groups = Ok (mkListArray num_groups offsets permutation)
    ∧ length offsets = (N.to_nat num_groups + 1)%nat
    ∧ offsets !! 0%nat = Some 0
    ∧ offsets !! N.to_nat num_groups = Some (arr_length ids)
    ∧ permutation ≡ₚ Z.of_nat <$> seq 0 (length (arr_values ids))
    ∧ ∀ g, (g < num_groups)%N →
        ∃ lo hi : nat,
          offsets !! N.to_nat g = Some (Z.of_nat lo)
          ∧ offsets !! (N.to_nat g + 1)%nat = Some (Z.of_nat hi)
          ∧ hi = (lo + count_of (arr_values ids) g)%nat
          ∧ take (hi - lo) (drop lo permutation)
            = Z.of_nat <$> positions_of (arr_values ids) g.
Proof.
  intros Hnull Hids Hng Hlen. destruct ids as [vs validity]. simpl in *.
  unfold MakeGroupings, arr_length in *. simpl in *.
  set (m := N.to_nat num_groups). set (n := length vs).
  rewrite Hnull. simpl. rewrite wrap32_small by done.
  destruct (Z.ltb_spec INT32_MAX (Z.of_nat n)) as [|_]; [lia|].
  destruct (count_ids_Ok debug num_groups vs (replicate (N.to_nat (num_groups + 1)) 0))
    as (raw1 & -> & Hlen1 & Hraw1); [done|rewrite length_replicate; lia|].
  rewrite length_replicate in Hlen1. rewrite bind_Ok.
  destruct (sum_offsets_Ok vs 0 m raw1) as (raw2 & Hrun2 & Hlen2 & Hin2 & Hout2).
  { simpl. lia. }
  { intros i Hi. rewrite Hraw1.
    rewrite (proj2 (lookup_replicate _ _ 0 i)) by (split; [done|lia]).
    simpl. done. }
  change (N.of_nat 0) with 0%N in Hrun2. rewrite count_below_0 in Hrun2.
  change (Z.of_nat 0) with 0 in Hrun2. simpl in Hrun2. rewrite Hrun2, bind_Ok. simpl.
  assert (N.of_nat m = num_groups) as Hm by (unfold m; lia).
  rewrite Hm, count_below_all by done. fold n.
  assert (Z.of_N num_groups = Z.of_nat m) as -> by lia.
  rewrite write_Ok by lia. rewrite bind_Ok, Z.eqb_refl, DCHECK_true, bind_Ok.
  set (offsets := <[m := Z.of_nat n]> raw2).
  assert (∀ g, (g ≤ num_groups)%N →
            offsets !! N.to_nat g = Some (Z.of_nat (count_below vs g))) as Hoffsets.
  { intros g Hg. unfold offsets. destruct (decide (g = num_groups)) as [->|Hne].
    - fold m. rewrite list_lookup_insert_eq by lia.
      by rewrite count_below_all.
    - rewrite list_lookup_insert_ne by lia.
      rewrite Hin2 by lia. by rewrite N2Nat.id. }
  destruct (place_ids_Ok num_groups [] vs offsets (replicate (Z.to_nat (Z.of_nat n)) 0))
    as (sort & Hrun & Hlens & Hsort).
  { done. }
  { rewrite length_replicate. simpl. lia. }
  { intros g Hg. simpl. rewrite Hoffsets by lia. f_equal. unfold count_of. simpl. lia. }
  { intros p g Hp. done. }
  simpl in Hrun, Hsort. change (Z.of_nat 0) with 0 in Hrun.
  rewrite Hrun, bind_Ok. rewrite length_replicate in Hlens.
  exists offsets, sort. split_and!.
  - done.
  - unfold offsets. rewrite length_insert. lia.
  - pose proof (Hoffsets 0%N ltac:(lia)) as H0. by rewrite count_below_0 in H0.
  - pose proof (Hoffsets num_groups ltac:(lia)) as Hlast.
    by rewrite count_below_all in Hlast.
  - symmetry. apply submseteq_length_Permutation.
    + apply NoDup_submseteq.
      * apply NoDup_fmap; [apply _|apply NoDup_seq].
      * intros x (p & -> & Hp)%list_elem_of_fmap. apply elem_of_seq in Hp.
        destruct (lookup_lt_is_Some_2 vs p) as [g Hg]; [lia|].
        apply list_elem_of_lookup. eauto.
    + rewrite length_fmap, length_seq. lia.
  - intros g Hg. exists (count_below vs g), (count_below vs (g + 1)).
    split_and!.
    + apply Hoffsets. lia.
    + assert (N.to_nat g + 1 = N.to_nat (g + 1))%nat as -> by lia.
      apply Hoffsets. lia.
    + apply count_below_succ.
    + rewrite count_below_succ.
      assert (count_below vs g + count_of vs g - count_below vs g = count_of vs g)%nat
        as -> by lia.
      apply list_eq. intros k. rewrite list_lookup_fmap.
      destruct (decide (k < count_of vs g)%nat) as [Hk|Hk].
      * rewrite lookup_take_lt, lookup_drop by done.
        destruct (lookup_lt_is_Some_2 (positions_of vs g) k) as [p Hp].
        { by rewrite length_positions_of. }
        rewrite Hp. simpl.
        assert (vs !! p = Some g) as Hpg.
        { apply positions_of_spec, list_elem_of_lookup. eauto. }
        pose proof (NoDup_lookup _ _ _ _ (NoDup_positions_of vs g) Hp
                      (positions_of_slot vs g p Hpg)) as ->.
        apply (Hsort p g Hpg).
      * rewrite lookup_take_ge by lia.
        symmetry. apply fmap_None, lookup_ge_None. rewrite length_positions_of. lia.
Qed.

Lemma Take_Ok {A : Type} (values : list A) (indices : list Z) :
  Forall (λ i, 0 ≤ i < Z.of_nat (length values)) indices →
  ∃ xs, Take values indices = Ok xs
        ∧ Some <$> xs = (λ i, values !! Z.to_nat i) <$> indices.
Proof.
  induction 1 as [|i indices Hi _ (xs & Hxs & Heq)]; [by exists []|].
  destruct (lookup_lt_is_Some_2 values (Z.to_nat i)) as [x Hx]; [lia|].
  exists (x :: xs). split.
  - cbn [Take]. replace i with (Z.of_nat (Z.to_nat i)) at 1 by lia.
    by rewrite (read_Ok _ _ _ Hx), bind_Ok, Hxs, bind_Ok.
  - by rewrite !fmap_cons, Heq, Hx.
Qed.

Lemma omap_of_Some {A B : Type} (f : A → option B) (l : list A) (xs : list B) :
  Some <$> xs = f <$> l → omap f l = xs.
Proof.
  revert xs. induction l as [|a l IH]; intros [|x xs] Heq; try done.
  rewrite !fmap_cons in Heq. injection Heq as Hx Heq.
  cbn [omap list_omap]. rewrite <- Hx. f_equal. by apply IH.
Qed.

(** X17: [ApplyGroupings] on the groupings [MakeGroupings] built from an
    id array gathers the values of an array of the same length group by
    group: it returns [num_groups] lists over the same offsets, and the list
    of a group holds the values at the positions that carry the group's id,
    in the order of the positions; no value is lost or repeated. *)
Theorem ApplyGroupings_gathers_groups {A : Type} (debug : bool) (ids : UInt32Array)
    (num_groups : N) (array : list A) :
  null_count ids = 0 →
  Forall (λ id, (id < num_groups)%N) (arr_values ids) →
  (num_groups + 1 < 2 ^ 32)%N →
  arr_length ids ≤ INT32_MAX →
  length array = length (arr_values ids) →
  ∃ groupings lists,
    MakeGroupings debug ids num_groups = Ok groupings
    ∧ ApplyGroupings groupings array = Ok lists
    ∧ lists_length lists = num_groups
    ∧ lists_offsets lists = value_offsets groupings
    ∧ lists_values lists ≡ₚ array
    ∧ ∀ g, (g < num_groups)%N →
        ∃ lo hi : nat,
          lists_offsets lists !! N.to_nat g = Some (Z.of_nat lo)
          ∧ lists_offsets lists !! (N.to_nat g + 1)%nat = Some (Z.of_nat hi)
          ∧ take (hi - lo) (drop lo (lists_values lists))
            = group_values (arr_values ids) array g.
Proof.
  intros Hnull Hids Hng Hlen Harray.
  destruct (MakeGroupings_layout debug ids num_groups Hnull Hids Hng Hlen)
    as (offsets & permutation & Hmake & _ & _ & _ & Hperm & Hgroups).
  destruct (Take_Ok array permutation) as (sorted & Htake & Hsorted).
  { rewrite Hperm. apply list.Forall_forall.
    intros i (p & -> & Hp%elem_of_seq)%list_elem_of_fmap. lia. }
  exists (mkListArray num_groups offsets permutation),
    (mkListArrayOf num_groups offsets sorted).
  unfold ApplyGroupings. simpl. rewrite Htake, bind_Ok.
  split_and!; [done..| |].
  - (* every value is read once *)
    assert ((λ i, array !! Z.to_nat i) <$> (Z.of_nat <$> seq 0 (length (arr_values ids)))
            = Some <$> array) as Hall.
    { apply list_eq. intros k. rewrite !list_lookup_fmap.
      destruct (decide (k < length array)%nat) as [Hk|Hk].
      - rewrite lookup_seq_lt by lia. simpl. rewrite Nat2Z.id.
        by destruct (lookup_lt_is_Some_2 array k Hk) as [x ->].
      - rewrite lookup_seq_ge by lia. simpl.
        by rewrite (lookup_ge_None_2 array k) by lia. }
    rewrite <- (omap_of_Some id (Some <$> sorted) sorted) by (by rewrite list_fmap_id).
    rewrite <- (omap_of_Some id (Some <$> array) array) by (by rewrite list_fmap_id).
    by rewrite Hsorted, Hperm, Hall.
  - intros g Hg. destruct (Hgroups g Hg) as (lo & hi & Hlo & Hhi & _ & Hslice).
    exists lo, hi. split_and!; [done..|]. symmetry. apply omap_of_Some.
    rewrite fmap_take, fmap_drop, Hsorted, <- fmap_drop, <- fmap_take, Hslice.
    rewrite <- list_fmap_compose. apply list_fmap_ext. intros i p _. simpl.
    by rewrite Nat2Z.id.
Qed.

(** ** Ids out of range in a release build *)

Lemma count_ids_release_out_of_bounds (num_groups : N) (ids : list N) : ∀ raw,
  length raw = (N.to_nat num_groups + 1)%nat →
  Exists (λ id, (num_groups < id)%N) ids →
  count_ids false num_groups ids raw = Undefined.
Proof.
  induction ids as [|id ids IH]; intros raw Hlen Hbad.
  - by apply Exists_nil in Hbad.
  - cbn [count_ids]. rewrite DCHECK_release, bind_Ok.
    destruct (decide (num_groups < id)%N) as [Hid|Hid].
    + unfold read. destruct (Z.ltb_spec (Z.of_N id) 0) as [|_]; [lia|].
      rewrite lookup_ge_None_2; [done|lia].
    + destruct (lookup_lt_is_Some_2 raw (N.to_nat id)) as [c Hc]; [lia|].
      assert (Z.of_N id = Z.of_nat (N.to_nat id)) as -> by lia.
      rewrite (read_Ok _ _ _ Hc), bind_Ok, write_Ok by lia. rewrite bind_Ok.
      apply IH; [by rewrite length_insert|].
      apply Exists_cons in Hbad as [Hbad|Hbad]; [lia|done].
Qed.

(** X18: an id above [num_groups] is undefined behaviour in a release
    build: with the assertion compiled out, the counting pass of
    [MakeGroupings] reads and writes the offsets buffer, of [num_groups + 1]
    entries, at the id, past its end, and no status reports it. *)
Theorem MakeGroupings_release_out_of_bounds (ids : UInt32Array) (num_groups : N) :
  null_count ids = 0 →
  Exists (λ id, (num_groups < id)%N) (arr_values ids) →
  (num_groups + 1 < 2 ^ 32)%N →
  MakeGroupings false ids num_groups = Undefined.
Proof.
  intros Hnull Hbad Hng. unfold MakeGroupings. rewrite Hnull. simpl.
  case_match; [done|].
  rewrite count_ids_release_out_of_bounds; [done| |done].
  rewrite length_replicate, wrap32_small by done. lia.
Qed.

(** * The further properties on sample data *)

Section FurtherSamples.
Import NullByteEncoders.

Lemma negative_offset_is_Invalid_witness :
  ∃ g0, GrouperOps.Make true int8_keys = Ok g0
  ∧ -1 < 0
  ∧ GrouperOps.Populate g0 batch_1_2 (-1) 2 = Fail Invalid
  ∧ GrouperOps.Consume g0 batch_1_2 (-1) 2 = Fail Invalid
  ∧ GrouperOps.Lookup g0 batch_1_2 (-1) 2 = Fail Invalid.
Proof.
  eexists. split; [reflexivity|]. split; [lia|].
  apply (negative_offset_is_Invalid _ batch_1_2 (-1) 2). lia.
Defined.

Lemma Grouper_Make_cases_witness :
  (∃ g, GrouperOps.Make true int8_keys = Ok g
        ∧ GrouperOps.num_groups g = 0%N
        ∧ is_fast g = GrouperFastImpl.CanUse true int8_keys)
  ∧ GrouperOps.Make true [FIXED_WIDTH 1; NESTED] = Fail NotImplemented.
Proof.
  split.
  - apply (proj1 (Grouper_Make_cases true int8_keys)). by repeat constructor.
  - apply (proj2 (Grouper_Make_cases true [FIXED_WIDTH 1; NESTED])).
    intros Hall. apply list.Forall_cons in Hall as [_ Hall].
    apply list.Forall_cons in Hall as [Hno _]. discriminate Hno.
Defined.

Lemma Reset_forgets_witness :
  ∃ g0, GrouperOps.Make false int8_keys = Ok g0
  ∧ ∃ g1 outs1 g2 g3 g3' outs2,
      Calls.run g0 [CallConsume batch_1_2 0 (-1)] = Ok (g1, outs1)
      ∧ GrouperOps.Reset g1 = Ok g2
      ∧ GrouperOps.num_groups g2 = 0%N
      ∧ GrouperOps.Reset g2 = Ok g2
      ∧ Calls.run g2 [CallConsume batch_with_nulls 0 (-1)] = Ok (g3, outs2)
      ∧ Calls.run g0 [CallConsume batch_with_nulls 0 (-1)] = Ok (g3', outs2)
      ∧ GrouperOps.num_groups g3 = GrouperOps.num_groups g3'.
Proof.
  eexists. split; [reflexivity|].
  apply (@Reset_forgets _ _ _ int8_keys int8_key_laws int8_row_laws
           NullByteEncoders_mini_batch_in_range false _
           [CallConsume batch_1_2 0 (-1)] [CallConsume batch_with_nulls 0 (-1)]).
  - by repeat constructor.
  - reflexivity.
  - by repeat constructor.
  - by repeat constructor.
  - by vm_compute.
  - by vm_compute.
  - intros _. by vm_compute.
  - intros _. by vm_compute.
Defined.

Lemma ids_are_stable_witness :
  ∃ g0, GrouperOps.Make true int8_keys = Ok g0
  ∧ ∃ g1 outs1 g2 ids1 g3 outs2 g4 ids2,
      Calls.run g0 [] = Ok (g1, outs1)
      ∧ GrouperOps.Consume g1 batch_1_2 0 (-1) = Ok (g2, Some (mkUInt32Array ids1 None))
      ∧ Calls.run g2 [CallLookup batch_with_nulls 0 (-1)] = Ok (g3, outs2)
      ∧ GrouperOps.Consume g3 batch_with_nulls 0 (-1)
        = Ok (g4, Some (mkUInt32Array ids2 None))
      ∧ ∀ (i j : nat) r,
          call_rows batch_1_2 0 (-1) !! i = Some r →
          call_rows batch_with_nulls 0 (-1) !! j = Some r →
          ∃ id, ids1 !! i = Some id ∧ ids2 !! j = Some id.
Proof.
  eexists. split; [reflexivity|].
  apply (@ids_are_stable _ _ _ int8_keys int8_key_laws int8_row_laws
           NullByteEncoders_mini_batch_in_range true _ [] batch_1_2 0 (-1)
           [CallLookup batch_with_nulls 0 (-1)] batch_with_nulls 0 (-1)).
  - reflexivity.
  - by repeat constructor.
  - reflexivity.
  - by repeat constructor.
  - by repeat constructor.
  - reflexivity.
  - by vm_compute.
  - intros Hfallback. discriminate Hfallback.
Defined.

Lemma Consume_again_witness :
  ∃ g0, GrouperOps.Make false int8_keys = Ok g0
  ∧ ∃ g1 outs g2 ids g3 g2' g3',
      Calls.run g0 [] = Ok (g1, outs)
      ∧ GrouperOps.Consume g1 batch_with_nulls 0 (-1) = Ok (g2, Some ids)
      ∧ GrouperOps.Consume g2 batch_with_nulls 0 (-1) = Ok (g3, Some ids)
      ∧ GrouperOps.num_groups g3 = GrouperOps.num_groups g2
      ∧ GrouperOps.Populate g1 batch_with_nulls 0 (-1) = Ok g2'
      ∧ GrouperOps.Consume g2' batch_with_nulls 0 (-1) = Ok (g3', Some ids)
      ∧ GrouperOps.num_groups g3' = GrouperOps.num_groups g2'
      ∧ GrouperOps.num_groups g2' = GrouperOps.num_groups g2.
Proof.
  eexists. split; [reflexivity|].
  apply (@Consume_again _ _ _ int8_keys int8_key_laws int8_row_laws
           NullByteEncoders_mini_batch_in_range false _ [] batch_with_nulls 0 (-1)).
  - reflexivity.
  - by repeat constructor.
  - reflexivity.
  - by vm_compute.
  - intros _. by vm_compute.
Defined.

Lemma num_groups_counts_distinct_keys_witness :
  ∃ g0, GrouperOps.Make true int8_keys = Ok g0
  ∧ ∃ g' outs,
      Calls.run g0 [CallConsume batch_1_2 0 (-1); CallPopulate batch_with_nulls 0 (-1)]
      = Ok (g', outs)
      ∧ GrouperOps.num_groups g'
        = N.of_nat (length (remove_dups
                              (keys_fed [] [CallConsume batch_1_2 0 (-1);
                                            CallPopulate batch_with_nulls 0 (-1)]))).
Proof.
  eexists. split; [reflexivity|].
  apply (@num_groups_counts_distinct_keys _ _ _ int8_keys int8_key_laws int8_row_laws
           NullByteEncoders_mini_batch_in_range true _
           [CallConsume batch_1_2 0 (-1); CallPopulate batch_with_nulls 0 (-1)]).
  - reflexivity.
  - by repeat constructor.
  - by vm_compute.
  - intros Hfallback. discriminate Hfallback.
Defined.

Lemma Consume_of_uniques_witness :
  ∃ g0, GrouperOps.Make true int8_keys = Ok g0
  ∧ ∃ g1 outs uniques g2,
      Calls.run g0 [CallConsume batch_1_2 0 (-1); CallConsume batch_with_nulls 0 (-1)]
      = Ok (g1, outs)
      ∧ GrouperOps.GetUniques g1 = Ok uniques
      ∧ batch_length uniques = Z.of_N (GrouperOps.num_groups g1)
      ∧ GrouperOps.Consume g1 uniques 0 (-1)
        = Ok (g2, Some (mkUInt32Array
                          (N.of_nat <$> seq 0 (N.to_nat (GrouperOps.num_groups g1))) None))
      ∧ GrouperOps.num_groups g2 = GrouperOps.num_groups g1.
Proof.
  eexists. split; [reflexivity|].
  apply (@Consume_of_uniques _ _ _ int8_keys int8_key_laws int8_row_laws
           NullByteEncoders_mini_batch_in_range true _
           [CallConsume batch_1_2 0 (-1); CallConsume batch_with_nulls 0 (-1)]).
  - reflexivity.
  - by repeat constructor.
  - by vm_compute.
  - intros Hfallback. discriminate Hfallback.
  - left. reflexivity.
Defined.

Lemma scalars_are_broadcast_witness :
  ∃ g0, GrouperOps.Make false int8_keys = Ok g0
  ∧ ∃ g1 outs g2 g2' ids g3 g3' found,
      Calls.run g0 [CallConsume batch_1_2 0 (-1)] = Ok (g1, outs)
      ∧ GrouperOps.Consume g1 scalar_1_batch 1 (-1) = Ok (g2, Some ids)
      ∧ GrouperOps.Consume g1 (GrouperFastImpl.broadcast_scalars scalar_1_batch) 1 (-1)
        = Ok (g2', Some ids)
      ∧ GrouperOps.Lookup g1 scalar_1_batch 1 (-1) = Ok (g3, Some found)
      ∧ GrouperOps.Lookup g1 (GrouperFastImpl.broadcast_scalars scalar_1_batch) 1 (-1)
        = Ok (g3', Some found).
Proof.
  eexists. split; [reflexivity|].
  apply (@scalars_are_broadcast _ _ _ int8_keys int8_key_laws int8_row_laws
           NullByteEncoders_mini_batch_in_range false _ [CallConsume batch_1_2 0 (-1)]
           scalar_1_batch 1 (-1)).
  - reflexivity.
  - by repeat constructor.
  - reflexivity.
  - by vm_compute.
  - intros _. by vm_compute.
Defined.

Lemma long_length_is_rest_of_batch_witness :
  ∃ g0, GrouperOps.Make false int8_keys = Ok g0
  ∧ batch_length batch_with_nulls - 3 ≤ 10
  ∧ ∃ g1 outs g2 g2' ids g3 g3' found,
      Calls.run g0 [CallConsume batch_1_2 0 (-1)] = Ok (g1, outs)
      ∧ GrouperOps.Consume g1 batch_with_nulls 3 10 = Ok (g2, Some ids)
      ∧ GrouperOps.Consume g1 batch_with_nulls 3 (-1) = Ok (g2', Some ids)
      ∧ arr_length ids = batch_length batch_with_nulls - 3
      ∧ GrouperOps.Lookup g1 batch_with_nulls 3 10 = Ok (g3, Some found)
      ∧ GrouperOps.Lookup g1 batch_with_nulls 3 (-1) = Ok (g3', Some found).
Proof.
  eexists. split; [reflexivity|]. split; [by vm_compute|].
  apply (@long_length_is_rest_of_batch _ _ _ int8_keys int8_key_laws int8_row_laws
           NullByteEncoders_mini_batch_in_range false _ [CallConsume batch_1_2 0 (-1)]
           batch_with_nulls 3 10).
  - reflexivity.
  - by repeat constructor.
  - reflexivity.
  - by vm_compute.
  - by vm_compute.
  - intros _. by vm_compute.
Defined.

Lemma uniques_row_of_id_witness :
  ∃ g0, GrouperOps.Make false int8_keys = Ok g0
  ∧ ∃ g1 outs g2 ids uniques,
      Calls.run g0 [CallConsume batch_1_2 0 (-1)] = Ok (g1, outs)
      ∧ GrouperOps.Consume g1 batch_with_nulls 0 (-1) = Ok (g2, Some ids)
      ∧ GrouperOps.GetUniques g2 = Ok uniques
      ∧ batch_conforms int8_keys uniques = true
      ∧ batch_length uniques = Z.of_N (GrouperOps.num_groups g2)
      ∧ NoDup (batch_rows uniques)
      ∧ ∀ (j : nat) r id,
          call_rows batch_with_nulls 0 (-1) !! j = Some r →
          arr_values ids !! j = Some id →
          batch_rows uniques !! N.to_nat id = Some r.
Proof.
  eexists. split; [reflexivity|].
  apply (@uniques_row_of_id _ _ _ int8_keys int8_key_laws int8_row_laws
           NullByteEncoders_mini_batch_in_range false _ [CallConsume batch_1_2 0 (-1)]
           batch_with_nulls 0 (-1)).
  - reflexivity.
  - by repeat constructor.
  - reflexivity.
  - by vm_compute.
  - intros _. by vm_compute.
  - right. by repeat constructor.
Defined.

Lemma empty_call_changes_nothing_witness :
  ∃ g0, GrouperOps.Make false int8_keys = Ok g0
  ∧ ∃ g1 outs gp gc gl,
      Calls.run g0 [CallConsume batch_1_2 0 (-1)] = Ok (g1, outs)
      ∧ GrouperOps.Populate g1 batch_with_nulls 5 (-1) = Ok gp
      ∧ GrouperOps.Consume g1 batch_with_nulls 5 (-1)
        = Ok (gc, Some (mkUInt32Array [] None))
      ∧ GrouperOps.Lookup g1 batch_with_nulls 5 (-1)
        = Ok (gl, Some (mkUInt32Array [] (Some [])))
      ∧ GrouperOps.num_groups gp = GrouperOps.num_groups g1
      ∧ GrouperOps.num_groups gc = GrouperOps.num_groups g1
      ∧ GrouperOps.num_groups gl = GrouperOps.num_groups g1.
Proof.
  eexists. split; [reflexivity|].
  apply (@empty_call_changes_nothing _ _ _ int8_keys int8_key_laws int8_row_laws
           NullByteEncoders_mini_batch_in_range false _ [CallConsume batch_1_2 0 (-1)]
           batch_with_nulls 5 (-1)).
  - reflexivity.
  - by repeat constructor.
  - reflexivity.
  - right. reflexivity.
  - by vm_compute.
  - intros _. by vm_compute.
Defined.

Lemma fast_and_fallback_ids_agree_witness :
  ∃ fast fallback,
    GrouperOps.Make true int8_keys = Ok fast
    ∧ GrouperOps.Make false int8_keys = Ok fallback
    ∧ ∃ outs fast' fallback',
        is_fast fast = true ∧ is_fast fallback = false
        ∧ Calls.run fast [CallConsume batch_1_2 0 (-1); CallReset;
                          CallConsume batch_with_nulls 0 (-1)] = Ok (fast', outs)
        ∧ Calls.run fallback [CallConsume batch_1_2 0 (-1); CallReset;
                              CallConsume batch_with_nulls 0 (-1)] = Ok (fallback', outs)
        ∧ GrouperOps.num_groups fast' = GrouperOps.num_groups fallback'.
Proof.
  eexists _, _. split; [reflexivity|]. split; [reflexivity|].
  apply (@fast_and_fallback_ids_agree _ _ _ int8_keys int8_key_laws int8_row_laws _ _
           [CallConsume batch_1_2 0 (-1); CallReset; CallConsume batch_with_nulls 0 (-1)]
           NullByteEncoders_mini_batch_in_range).
  - reflexivity.
  - reflexivity.
  - reflexivity.
  - by repeat constructor.
  - by vm_compute.
  - by vm_compute.
Defined.

Lemma GetSegments_rejects_wrong_batch_witness :
  value_type <$> values batch_1_2 ≠ BaseRowSegmenter.key_types NoKeys
  ∧ RowSegmenterOps.GetSegments true NoKeys batch_1_2 = Fail Invalid.
Proof.
  assert (value_type <$> values batch_1_2 ≠ BaseRowSegmenter.key_types NoKeys) as Hne
    by discriminate.
  split; [exact Hne|].
  apply (GetSegments_rejects_wrong_batch true NoKeys batch_1_2 Hne).
Defined.

Lemma RowSegmenter_Make_cases_witness :
  (∃ seg, RowSegmenterOps.Make true int8_keys false = Ok seg
          ∧ BaseRowSegmenter.key_types seg = int8_keys
          ∧ match seg with
            | NoKeys => int8_keys = []
            | SimpleKey _ => simple_key_schema int8_keys false = true
            | AnyKeys _ => int8_keys ≠ [] ∧ simple_key_schema int8_keys false = false
            end)
  ∧ RowSegmenterOps.Make true [NESTED] false = Fail NotImplemented.
Proof.
  split.
  - apply (proj1 (RowSegmenter_Make_cases true int8_keys false)). by repeat constructor.
  - apply (proj2 (RowSegmenter_Make_cases true [NESTED] false)).
    intros Hall. apply list.Forall_cons in Hall as [Hno _]. discriminate Hno.
Defined.

Lemma Reset_restarts_the_stream_witness :
  ∃ seg,
    RowSegmenterOps.Make false int8_keys true = Ok seg
    ∧ ∃ segments1 seg1 seg2 segments2 seg3 seg3',
        RowSegmenterOps.run true seg [batch_1_1_2] = Ok (segments1, seg1)
        ∧ RowSegmenterOps.Reset seg1 = Ok seg2
        ∧ RowSegmenterOps.run true seg2 [batch_2_2_3] = Ok (segments2, seg3)
        ∧ RowSegmenterOps.run true seg [batch_2_2_3] = Ok (segments2, seg3')
        ∧ stream_ok None (batch_rows <$> [batch_2_2_3]) segments2.
Proof.
  eexists. split; [reflexivity|].
  apply (@Reset_restarts_the_stream _ _ _ int8_keys int8_key_laws int8_row_laws
           NullByteEncoders_mini_batch_in_range true false true _
           [batch_1_1_2] [batch_2_2_3]).
  - by repeat constructor.
  - reflexivity.
  - intros Hsimple. discriminate Hsimple.
  - by repeat constructor.
  - intros Hsimple. discriminate Hsimple.
  - by repeat constructor.
  - repeat constructor; intros _; by vm_compute.
Defined.

Lemma zero_width_key_is_one_segment_witness :
  ∃ seg,
    RowSegmenterOps.Make true [BOOL] false = Ok seg
    ∧ (∃ seg',
         RowSegmenterOps.run false seg [bool_batch]
         = Ok ((λ b, if batch_length b =? 0 then []
                     else [mkSegment 0 (batch_length b) true true]) <$> [bool_batch],
               seg'))
    ∧ ∀ cs, cs ≠ [] →
        RowSegmenterOps.GetSegments true seg
          (mkExecSpan [Array BOOL cs] (Z.of_nat (length cs)))
        = Abort.
Proof.
  eexists. split; [reflexivity|].
  apply (zero_width_key_is_one_segment true BOOL _ [bool_batch]).
  - reflexivity.
  - reflexivity.
  - reflexivity.
  - by repeat constructor.
Defined.

End FurtherSamples.

(** The booleans true, false come back as one segment from a release build. *)
Example zero_width_scenario :
  @fresh_segments NullByteEncoders.key_encoder NullByteEncoders.row_encoder
    NullByteEncoders.mini_batch false true [BOOL] false [bool_batch]
  = Ok [[mkSegment 0 2 true true]].
Proof. by vm_compute. Qed.

Lemma ApplyGroupings_gathers_groups_witness :
  ∃ groupings lists,
    MakeGroupings true (mkUInt32Array [0; 2; 0; 1; 2; 0]%N None) 3 = Ok groupings
    ∧ ApplyGroupings groupings [10; 11; 12; 13; 14; 15] = Ok lists
    ∧ lists_length lists = 3%N
    ∧ lists_offsets lists = value_offsets groupings
    ∧ lists_values lists ≡ₚ [10; 11; 12; 13; 14; 15]
    ∧ ∀ g, (g < 3)%N →
        ∃ lo hi : nat,
          lists_offsets lists !! N.to_nat g = Some (Z.of_nat lo)
          ∧ lists_offsets lists !! (N.to_nat g + 1)%nat = Some (Z.of_nat hi)
          ∧ take (hi - lo) (drop lo (lists_values lists))
            = group_values [0; 2; 0; 1; 2; 0]%N [10; 11; 12; 13; 14; 15] g.
Proof.
  apply (ApplyGroupings_gathers_groups true (mkUInt32Array [0; 2; 0; 1; 2; 0]%N None) 3
           [10; 11; 12; 13; 14; 15]).
  - reflexivity.
  - simpl. repeat constructor.
  - reflexivity.
  - vm_compute. discriminate.
  - reflexivity.
Defined.

(** The values of the sample, gathered group by group. *)
Example ApplyGroupings_scenario :
  (groupings ← MakeGroupings true (mkUInt32Array [0; 2; 0; 1; 2; 0]%N None) 3;
   ApplyGroupings groupings [10; 11; 12; 13; 14; 15])
  = Ok (mkListArrayOf 3 [0; 3; 4; 6] [10; 12; 15; 13; 11; 14]).
Proof. reflexivity. Qed.

Lemma MakeGroupings_release_out_of_bounds_witness :
  MakeGroupings false (mkUInt32Array [0; 7]%N None) 3 = Undefined.
Proof.
  apply (MakeGroupings_release_out_of_bounds (mkUInt32Array [0; 7]%N None) 3).
  - reflexivity.
  - simpl. apply Exists_cons_tl, Exists_cons_hd. reflexivity.
  - reflexivity.
Defined.

